(** * SEC 8-K extraction pipeline: chunking, evidence location, rule
      extraction and validation

    A shallow embedding of the pipeline's core functions
    ([chunkText] of the chunker, [findEvidence], [parseMoneyToUSD] and the
    relationship and cross-field sections of [run] in extract-manual.js,
    [checkField] of the evidence validator), with the properties the
    specification states about them.  The second part of each half embeds
    the code around these functions ([cleanText], [saveChunks] and
    [loadChunks], [formatAccession], [detectEventKind],
    [extractCompanyName], the context window, further fields and the hard
    constraints of [run], [countFields] of the report), with properties
    read off the code, over a declarative semantics of the patterns
    ([Matches], [Captures]) that the matcher is proved sound for.

    JavaScript strings are sequences of UTF-16 code units.  This
    development represents a string as a [list ascii]: code units in the
    range 0..255.  Integers that the code indexes strings with are [Z];
    IEEE-754 doubles are [spec_float] at precision 53.

    The validator reads chunk files through [path.join] (module [Path])
    and a file system that is a function from paths to what they name.
    [Date.parse] is that of Node for strings of the date-only form; what
    it returns for other strings is a parameter of the definitions that
    depend on it. *)

From Stdlib Require Import ZArith Lia List Bool Ascii String.
From Stdlib Require Import Floats.SpecFloat.
From stdpp Require Import base tactics option list gmap strings sorting.

Local Open Scope Z_scope.

(* ===================================================================== *)
(** * JavaScript strings *)
(* ===================================================================== *)

Module JS.

Definition jsstring := list ascii.

(** A string literal. *)
Definition str (s : string) : jsstring := list_ascii_of_string s.

(** [s.length] *)
Definition len (s : jsstring) : Z := Z.of_nat (length s).

(** Relative index of [String.prototype.slice]: a negative argument counts
    from the end, and the result is clamped to [0, len]. *)
Definition rel_index (n i : Z) : Z :=
  if i <? 0 then Z.max (n + i) 0 else Z.min i n.

(** [s.slice(from, to)] *)
Definition slice (s : jsstring) (from to : Z) : jsstring :=
  let f := rel_index (len s) from in
  let t := rel_index (len s) to in
  take (Z.to_nat (t - f)) (drop (Z.to_nat f) s).

(** ** Character classes of ECMAScript, on code units below 256 *)

Definition code (c : ascii) : N := N_of_ascii c.

Definition in_range (lo hi : N) (c : ascii) : bool :=
  ((lo <=? code c) && (code c <=? hi))%N.

(** [WhiteSpace] and [LineTerminator]: TAB, LF, VT, FF, CR, SP, NBSP.
    This is the set of [\s] and the set that [trim] removes. *)
Definition isWhiteSpace (c : ascii) : bool :=
  in_range 9 13 c || (code c =? 32)%N || (code c =? 160)%N.

Definition isLineTerminator (c : ascii) : bool :=
  (code c =? 10)%N || (code c =? 13)%N.

Definition isDigit (c : ascii) : bool := in_range 48 57 c.

(** [\w]: [A-Za-z0-9_] *)
Definition isWordChar (c : ascii) : bool :=
  in_range 65 90 c || in_range 97 122 c || isDigit c || (code c =? 95)%N.

(** Case mappings of single code units (ASCII and Latin-1 letters). *)
Definition isUpper (c : ascii) : bool :=
  in_range 65 90 c || (in_range 192 222 c && negb (code c =? 215)%N).

Definition isLower (c : ascii) : bool :=
  in_range 97 122 c || (in_range 224 254 c && negb (code c =? 247)%N).

Definition toLowerChar (c : ascii) : ascii :=
  if isUpper c then ascii_of_N (code c + 32) else c.

Definition toUpperChar (c : ascii) : ascii :=
  if isLower c then ascii_of_N (code c - 32) else c.

(** [s.toLowerCase()] *)
Definition toLowerCase (s : jsstring) : jsstring := map toLowerChar s.

(** ** Trimming *)

Fixpoint trimStart (s : jsstring) : jsstring :=
  match s with
  | c :: s' => if isWhiteSpace c then trimStart s' else s
  | [] => []
  end.

Definition trimEnd (s : jsstring) : jsstring := rev (trimStart (rev s)).

(** [s.trim()] *)
Definition trim (s : jsstring) : jsstring := trimEnd (trimStart s).

(** ** Searching *)

Fixpoint startsWith (s sub : jsstring) : bool :=
  match sub, s with
  | [], _ => true
  | c :: sub', d :: s' => if Ascii.eqb c d then startsWith s' sub' else false
  | _ :: _, [] => false
  end.

(** [s.endsWith(sub)] *)
Definition endsWith (s sub : jsstring) : bool := startsWith (rev s) (rev sub).

(** The first position at or after [i] where [sub] occurs in [s]. *)
Fixpoint indexOf_from (s sub : jsstring) (i : nat) : option nat :=
  if startsWith s sub then Some i
  else match s with
       | [] => None
       | _ :: s' => indexOf_from s' sub (S i)
       end.

(** [s.indexOf(sub)]: the first position, or -1 *)
Definition indexOf (s sub : jsstring) : Z :=
  match indexOf_from s sub 0 with
  | Some i => Z.of_nat i
  | None => -1
  end.

(** [sub] occurs in [s] as a contiguous substring. *)
Definition substring_of (sub s : jsstring) : Prop :=
  exists pre post, s = pre ++ sub ++ post.

(** [s.includes(sub)] *)
Definition includes (s sub : jsstring) : bool :=
  match indexOf_from s sub 0 with Some _ => true | None => false end.

(** [s.split(/\s+/)]: the pieces between maximal runs of white space.  A
    run at the start or at the end gives an empty first or last piece; the
    empty string gives one empty piece. *)
Fixpoint split_ws_aux (s cur : jsstring) (inws : bool) : list jsstring :=
  match s with
  | [] => [cur]
  | c :: s' =>
      if isWhiteSpace c then
        if inws then split_ws_aux s' [] true
        else cur :: split_ws_aux s' [] true
      else split_ws_aux s' (cur ++ [c]) false
  end.

Definition split_ws (s : jsstring) : list jsstring := split_ws_aux s [] false.

(** The number of words of [s]: its maximal runs of characters that are
    not white space. *)
Fixpoint countWords_aux (s : jsstring) (inword : bool) : Z :=
  match s with
  | [] => 0
  | c :: s' =>
      if isWhiteSpace c then countWords_aux s' false
      else (if inword then 0 else 1) + countWords_aux s' true
  end.

Definition countWords (s : jsstring) : Z := countWords_aux s false.

(** A string that is empty or ends with a character that is not white
    space. *)
Definition endsClean (s : jsstring) : Prop :=
  match last s with
  | Some c => isWhiteSpace c = false
  | None => True
  end.

(** Removal of every code unit of a class: [s.replace(/[...]/g, '')]. *)
Definition removeAll (p : ascii -> bool) (s : jsstring) : jsstring :=
  List.filter (fun c => negb (p c)) s.

End JS.

(* ===================================================================== *)
(** * Regular expressions *)
(* ===================================================================== *)

(** The backtracking semantics of ECMAScript patterns (ECMA-262, section
    22.2.2), for the constructs the pipeline's patterns use.  A matcher
    takes the current position, the captures and a continuation, and
    returns the first success in priority order. *)

Module Regex.
Import JS.

(** Members of a character class. *)
Inductive citem :=
| CChar (c : ascii)             (* a single character *)
| CRange (lo hi : ascii)        (* lo-hi *)
| CSpace                        (* \s *)
| CDigit                        (* \d *)
| CWord.                        (* \w *)

Inductive regex :=
| Eps                                        (* empty pattern *)
| Chr (c : ascii)                            (* literal character *)
| Any                                        (* . *)
| Class (neg : bool) (items : list citem)    (* [...] and [^...] *)
| Seq (r1 r2 : regex)
| Alt (r1 r2 : regex)                        (* r1|r2 *)
| Rep (r : regex) (lo : nat) (hi : option nat) (greedy : bool)
                                             (* r{lo,hi}, r{lo,hi}? *)
| Group (i : nat) (r : regex)                (* i-th capturing group *)
| WordB                                      (* \b *)
| Bol                                        (* ^ *)
| Eol.                                       (* $ *)

(** Position in the input: the character before it, what is left, and the
    index. *)
Record mstate := mkState { prev : option ascii; rest : jsstring; pos : nat }.

(** Captures, most recent first. *)
Definition caps := list (nat * jsstring).

Definition capture (cs : caps) (i : nat) : option jsstring :=
  snd <$> List.find (fun p => Nat.eqb (fst p) i) cs.

Definition clear (inner : list nat) (cs : caps) : caps :=
  List.filter (fun p => negb (existsb (Nat.eqb (fst p)) inner)) cs.

(** [Canonicalize]: with the [i] flag characters are compared by their
    upper-case mapping. *)
Definition canon (ic : bool) (c : ascii) : ascii :=
  if ic then toUpperChar c else c.

Definition char_eqb (c d : ascii) : bool := (code c =? code d)%N.

Definition citem_mem (it : citem) (c : ascii) : bool :=
  match it with
  | CChar d => char_eqb d c
  | CRange lo hi => in_range (code lo) (code hi) c
  | CSpace => isWhiteSpace c
  | CDigit => isDigit c
  | CWord => isWordChar c
  end.

(** [c] is in the class when some member has the same canonical form; the
    members with the canonical form of [c] are its two case variants. *)
Definition class_mem (ic : bool) (items : list citem) (c : ascii) : bool :=
  existsb (fun it =>
             citem_mem it c ||
             (ic && (citem_mem it (toUpperChar c) ||
                     citem_mem it (toLowerChar (toUpperChar c))))) items.

Definition advance (st : mstate) : mstate :=
  match rest st with
  | c :: s => mkState (Some c) s (S (pos st))
  | [] => st
  end.

(** One character that satisfies [p]. *)
Definition mchar {R} (p : ascii -> bool) (st : mstate) (cs : caps)
    (k : mstate -> caps -> option R) : option R :=
  match rest st with
  | c :: _ => if p c then k (advance st) cs else None
  | [] => None
  end.

Definition is_word_opt (c : option ascii) : bool :=
  match c with Some c => isWordChar c | None => false end.

(** The capturing groups of a pattern; a quantifier clears them at the
    start of each iteration. *)
Fixpoint groups (r : regex) : list nat :=
  match r with
  | Seq r1 r2 | Alt r1 r2 => groups r1 ++ groups r2
  | Rep r _ _ _ => groups r
  | Group i r => i :: groups r
  | _ => []
  end.

(** [RepeatMatcher].  [n] bounds the iterations that are left: it is
    [hi] for a bounded quantifier, and [lo + length rest] for an unbounded
    one, which no execution exceeds because an iteration beyond the first
    [lo] must consume a character. *)
Fixpoint mrep {R} (n : nat)
    (m : mstate -> caps -> (mstate -> caps -> option R) -> option R)
    (inner : list nat) (greedy : bool) (lo : nat)
    (st : mstate) (cs : caps) (k : mstate -> caps -> option R) : option R :=
  match n with
  | O => if Nat.eqb lo 0 then k st cs else None
  | S n' =>
      let d := fun st' cs' =>
        if Nat.eqb lo 0 && Nat.eqb (pos st') (pos st) then None
        else mrep n' m inner greedy (Nat.pred lo) st' cs' k in
      let cs0 := clear inner cs in
      if negb (Nat.eqb lo 0) then m st cs0 d
      else if greedy then
        match m st cs0 d with Some z => Some z | None => k st cs end
      else
        match k st cs with Some z => Some z | None => m st cs0 d end
  end.

(** The matcher of a pattern; [ic] is the [i] flag. *)
Fixpoint mt {R} (ic : bool) (r : regex) (st : mstate) (cs : caps)
    (k : mstate -> caps -> option R) : option R :=
  match r with
  | Eps => k st cs
  | Chr c => mchar (fun d => char_eqb (canon ic c) (canon ic d)) st cs k
  | Any => mchar (fun d => negb (isLineTerminator d)) st cs k
  | Class neg items => mchar (fun d => xorb neg (class_mem ic items d)) st cs k
  | Seq r1 r2 => mt ic r1 st cs (fun st' cs' => mt ic r2 st' cs' k)
  | Alt r1 r2 =>
      match mt ic r1 st cs k with
      | Some z => Some z
      | None => mt ic r2 st cs k
      end
  | Rep r lo hi greedy =>
      let n := match hi with
               | Some h => h
               | None => (lo + length (rest st))%nat
               end in
      mrep n (mt ic r) (groups r) greedy lo st cs k
  | Group i r =>
      mt ic r st cs
         (fun st' cs' =>
            k st' ((i, take (pos st' - pos st) (rest st)) :: cs'))
  | WordB =>
      if xorb (is_word_opt (prev st)) (is_word_opt (head (rest st)))
      then k st cs else None
  | Bol => if Nat.eqb (pos st) 0 then k st cs else None
  | Eol => match rest st with [] => k st cs | _ => None end
  end.

(** The result of a successful match: [m.index], [m[0]] and the groups. *)
Record MatchResult := mkMatch
  { index : nat; matched : jsstring; captures : caps }.

(** [m[i]] for [i >= 1]; [None] is [undefined]. *)
Definition group (m : MatchResult) (i : nat) : option jsstring :=
  capture (captures m) i.

(** A match that starts exactly at [st]. *)
Definition match_at (ic : bool) (r : regex) (st : mstate)
    : option MatchResult :=
  mt ic r st []
     (fun st' cs' =>
        Some (mkMatch (pos st) (take (pos st' - pos st) (rest st)) cs')).

(** The leftmost match at or after [st]. *)
Fixpoint exec_from (ic : bool) (r : regex) (p : option ascii) (s : jsstring)
    (i : nat) : option MatchResult :=
  match match_at ic r (mkState p s i) with
  | Some m => Some m
  | None =>
      match s with
      | [] => None
      | c :: s' => exec_from ic r (Some c) s' (S i)
      end
  end.

(** [re.exec(s)] and [s.match(re)] for a pattern without the [g] flag. *)
Definition exec (ic : bool) (r : regex) (s : jsstring) : option MatchResult :=
  exec_from ic r None s 0.

(** [re.test(s)] *)
Definition test (ic : bool) (r : regex) (s : jsstring) : bool :=
  match exec ic r s with Some _ => true | None => false end.

(** [s.search(re)] *)
Definition search (ic : bool) (r : regex) (s : jsstring) : Z :=
  match exec ic r s with Some m => Z.of_nat (index m) | None => -1 end.

(** All matches, as [s.matchAll(re)] and [s.match(re)] with the [g] flag
    find them: the search resumes where the last match ended, one
    character further after an empty match.  [fuel] bounds the number of
    matches; [length s + 1] is enough. *)
Fixpoint matchAll_from (fuel : nat) (ic : bool) (r : regex)
    (p : option ascii) (s : jsstring) (i : nat) : list MatchResult :=
  match fuel with
  | O => []
  | S fuel' =>
      match exec_from ic r p s i with
      | None => []
      | Some m =>
          let e := (index m + length (matched m))%nat in
          let e' := if Nat.eqb (length (matched m)) 0 then S e else e in
          let d := (e' - i)%nat in
          if (length s <? d)%nat then [m]
          else m :: matchAll_from fuel' ic r
                      (match d with
                       | O => p
                       | S d' => nth_error s d'
                       end)
                      (drop d s) e'
      end
  end.

Definition matchAll (ic : bool) (r : regex) (s : jsstring)
    : list MatchResult :=
  matchAll_from (S (length s)) ic r None s 0.

(** ** Notation for patterns *)

Fixpoint lit_chars (s : jsstring) : regex :=
  match s with
  | [] => Eps
  | [c] => Chr c
  | c :: s' => Seq (Chr c) (lit_chars s')
  end.

(** A literal string. *)
Definition lit (s : string) : regex := lit_chars (str s).

Fixpoint seqs (rs : list regex) : regex :=
  match rs with
  | [] => Eps
  | [r] => r
  | r :: rs' => Seq r (seqs rs')
  end.

Fixpoint alts (rs : list regex) : regex :=
  match rs with
  | [] => Eps
  | [r] => r
  | r :: rs' => Alt r (alts rs')
  end.

Definition star (r : regex) : regex := Rep r 0 None true.
Definition plus (r : regex) : regex := Rep r 1 None true.
Definition opt (r : regex) : regex := Rep r 0 (Some 1%nat) true.
Definition range (lo hi : nat) (r : regex) : regex := Rep r lo (Some hi) true.
Definition range_lazy (lo hi : nat) (r : regex) : regex :=
  Rep r lo (Some hi) false.

Definition ch (s : string) : ascii :=
  match s with String c _ => c | EmptyString => Ascii.zero end.

Definition cc (s : string) : citem := CChar (ch s).
Definition cr (lo hi : string) : citem := CRange (ch lo) (ch hi).

Definition ws : regex := Class false [CSpace].       (* \s *)
Definition digit : regex := Class false [cr "0" "9"]. (* [0-9] *)

(** ** Well-behaved matchers *)

(** [st'] is a position of the same input at or after [st]. *)
Definition reach (st st' : mstate) : Prop :=
  exists consumed,
    rest st = consumed ++ rest st' /\
    pos st' = (pos st + length consumed)%nat.

Definition matcher (R : Type) : Type :=
  mstate -> caps -> (mstate -> caps -> option R) -> option R.

(** A matcher calls its continuation only at positions further on. *)
Definition local {R} (m : matcher R) : Prop :=
  forall st cs k1 k2,
    (forall st' cs', reach st st' -> k1 st' cs' = k2 st' cs') ->
    m st cs k1 = m st cs k2.

(** A matcher succeeds only through its continuation. *)
Definition strict {R} (m : matcher R) : Prop :=
  forall st cs, m st cs (fun _ _ => None) = None.

(** A success of a matcher is a success of its continuation further on. *)
Definition sound {R} (m : matcher R) : Prop :=
  forall st cs k z,
    m st cs k = Some z ->
    exists st' cs', reach st st' /\ k st' cs' = Some z.

(** ** What the word patterns accept *)

(** [w] is [t] up to the case of letters. *)
Definition ci_eq (w t : jsstring) : Prop :=
  map toUpperChar w = map toUpperChar t.

(** [\b] holds between [before] and [after]: exactly one of the two
    neighbours is a word character. *)
Definition boundary (before after : jsstring) : Prop :=
  is_word_opt (last before) <> is_word_opt (head after).

(** [s] contains one of [terms], up to case, with a word boundary on each
    side: what [/\b(t1|...|tn)\b/i] tests. *)
Definition containsWord (terms : list string) (s : jsstring) : Prop :=
  exists pre w post t,
    s = pre ++ w ++ post /\ In t terms /\ ci_eq w (str t) /\
    boundary pre (w ++ post) /\ boundary (pre ++ w) post.

(** [tl] does not start with a character that satisfies [P]. *)
Definition head_fails (P : ascii -> bool) (tl : jsstring) : Prop :=
  match tl with
  | c :: _ => P c = false
  | [] => True
  end.

(** The position after the prefix [pre] of [pre ++ rest]. *)
Definition state_of (pre rest : jsstring) : mstate :=
  mkState (last pre) rest (length pre).

(** What is left of [r] after a prefix that is [t] up to case. *)
Fixpoint strip_ci (t r : jsstring) : option jsstring :=
  match t, r with
  | [], _ => Some r
  | c :: t', d :: r' =>
      if char_eqb (toUpperChar c) (toUpperChar d) then strip_ci t' r'
      else None
  | _ :: _, [] => None
  end.

End Regex.

(* ===================================================================== *)
(** * Numbers *)
(* ===================================================================== *)

(** ECMAScript Numbers are IEEE-754 binary64 values: [spec_float] with
    precision 53 and maximal exponent 1024, rounded to nearest even. *)

Module Num.
Import JS.

Definition number := spec_float.

Definition prec : Z := 53.
Definition emax : Z := 1024.

(** The Number nearest to an integer. *)
Definition of_Z (z : Z) : number := binary_normalize prec emax z 0 false.

Definition NaN : number := S754_nan.

Definition mul : number -> number -> number := SFmul prec emax.

(** [x > y], [x <= y] *)
Definition gtb (x y : number) : bool := SFltb y x.
Definition leb (x y : number) : bool := SFleb x y.

(** [ToBoolean]: [0], [-0] and [NaN] are false. *)
Definition truthy (x : number) : bool :=
  match x with
  | S754_zero _ | S754_nan => false
  | _ => true
  end.

(** The integer that a Number is, when it is one. *)
Definition to_Z (x : number) : option Z :=
  match x with
  | S754_zero _ => Some 0
  | S754_finite s m e =>
      let v := if s then Z.neg m else Z.pos m in
      if 0 <=? e then Some (v * 2 ^ e)
      else if v mod 2 ^ (- e) =? 0 then Some (v / 2 ^ (- e)) else None
  | _ => None
  end.

(** [Math.round(x)]: the integral Number closest to [x], the larger one
    when two are equally close; [-0] for [-0.5 <= x < 0]. *)
Definition round (x : number) : number :=
  match x with
  | S754_finite s m e =>
      if 0 <=? e then x
      else
        let d := 2 ^ (- e) in
        let v := if s then Z.neg m else Z.pos m in
        let n := (2 * v + d) / (2 * d) in
        if n =? 0 then S754_zero s else of_Z n
  | _ => x
  end.

(** The value of a finite Number as a fraction: the numerator, and the
    denominator, a power of two. *)
Definition ratio (x : number) : option (Z * Z) :=
  match x with
  | S754_zero _ => Some (0, 1)
  | S754_finite s m e =>
      let v := if s then Z.neg m else Z.pos m in
      if 0 <=? e then Some (v * 2 ^ e, 1) else Some (v, 2 ^ (- e))
  | _ => None
  end.

(** [n] is the integer nearest to the finite Number [x], the larger one
    when two integers are equally near: [n - 1/2 <= x < n + 1/2]. *)
Definition nearestInteger (n : Z) (x : number) : Prop :=
  match ratio x with
  | Some (num, den) => (2 * n - 1) * den <= 2 * num < (2 * n + 1) * den
  | None => False
  end.

(** A Number whose significand has at most 53 bits, as every Number that
    an operation returns. *)
Definition inFormat (x : number) : Prop :=
  match x with
  | S754_finite _ m _ => Z.pos m < 2 ^ 53
  | _ => True
  end.

Definition isFinite (x : number) : bool :=
  match x with
  | S754_zero _ | S754_finite _ _ _ => true
  | _ => false
  end.

(** The Number nearest to [n * 10^k] with sign [neg], for [n >= 0]. *)
Definition decimal (neg : bool) (n : Z) (k : Z) : number :=
  match n with
  | Z.pos p =>
      if 0 <=? k
      then binary_normalize prec emax
             ((if neg then Z.neg p else Z.pos p) * 10 ^ k) 0 false
      else SFdiv prec emax (S754_finite neg p 0)
             (S754_finite false (Z.to_pos (10 ^ (- k))) 0)
  | _ => S754_zero neg
  end.

Definition digit_value (c : ascii) : Z := Z.of_N (code c) - 48.

Definition digits_value (ds : jsstring) : Z :=
  fold_left (fun acc c => 10 * acc + digit_value c) ds 0.

(** The longest prefix of characters that satisfy [p], and the rest. *)
Fixpoint span (p : ascii -> bool) (s : jsstring) : jsstring * jsstring :=
  match s with
  | c :: s' =>
      if p c then let '(a, b) := span p s' in (c :: a, b) else ([], s)
  | [] => ([], [])
  end.

(** The value of an exponent part [e[+-]digits] at the head of [s], or 0. *)
Definition exponent (s : jsstring) : Z :=
  match s with
  | c :: s' =>
      if (code c =? 101)%N || (code c =? 69)%N then
        let '(neg, s'') :=
          match s' with
          | d :: t =>
              if (code d =? 45)%N then (true, t)
              else if (code d =? 43)%N then (false, t)
              else (false, s')
          | [] => (false, s')
          end in
        let ds := fst (span isDigit s'') in
        if neg then - digits_value ds else digits_value ds
      else 0
  | [] => 0
  end.

(** [parseFloat(s)]: the value of the longest prefix of [s], after leading
    white space, that is a decimal literal; [NaN] when there is none. *)
Definition parseFloat (s : jsstring) : number :=
  let s := trimStart s in
  let '(neg, s) :=
    match s with
    | c :: t =>
        if (code c =? 45)%N then (true, t)
        else if (code c =? 43)%N then (false, t)
        else (false, s)
    | [] => (false, s)
    end in
  if startsWith s (str "Infinity") then S754_infinity neg
  else
    let '(ip, s1) := span isDigit s in
    let '(fp, s2) :=
      match s1 with
      | c :: t => if (code c =? 46)%N then span isDigit t else ([], s1)
      | [] => ([], s1)
      end in
    match ip ++ fp with
    | [] => NaN
    | ds => decimal neg (digits_value ds) (exponent s2 - len fp)
    end.

End Num.

(* ===================================================================== *)
(** * Dates *)
(* ===================================================================== *)

(** Time values of [Date] objects: milliseconds since 1970-01-01 UTC
    (ECMA-262, section 21.4.1). *)

Module DateTime.
Import JS.

(** [DayFromYear(y)] *)
Definition DayFromYear (y : Z) : Z :=
  365 * (y - 1970) + (y - 1969) / 4 - (y - 1901) / 100 + (y - 1601) / 400.

Definition InLeapYear (y : Z) : bool :=
  ((y mod 4 =? 0) && negb (y mod 100 =? 0)) || (y mod 400 =? 0).

(** The number of days of month [m] (1 to 12). *)
Definition daysInMonth (leap : bool) (m : Z) : Z :=
  if m =? 2 then (if leap then 29 else 28)
  else if (m =? 4) || (m =? 6) || (m =? 9) || (m =? 11) then 30
  else 31.

(** The number of days of the year before month [m] (1 to 12). *)
Definition daysBeforeMonth (leap : bool) (m : Z) : Z :=
  let l := if leap then 1 else 0 in
  if m =? 1 then 0
  else if m =? 2 then 31
  else if m =? 3 then 59 + l
  else if m =? 4 then 90 + l
  else if m =? 5 then 120 + l
  else if m =? 6 then 151 + l
  else if m =? 7 then 181 + l
  else if m =? 8 then 212 + l
  else if m =? 9 then 243 + l
  else if m =? 10 then 273 + l
  else if m =? 11 then 304 + l
  else 334 + l.

(** [MakeDay]: the day number of year [y], month [m] (1 to 12), day [d]. *)
Definition MakeDay (y m d : Z) : Z :=
  DayFromYear y + daysBeforeMonth (InLeapYear y) m + d - 1.

Definition msPerDay : Z := 86400000.

(** The number of days of year [y]. *)
Definition yearLength (y : Z) : Z := if InLeapYear y then 366 else 365.

(** A calendar date. *)
Definition validDate (y m d : Z) : bool :=
  (1 <=? m) && (m <=? 12) && (1 <=? d) &&
  (d <=? daysInMonth (InLeapYear y) m).

Definition digitOf (c : ascii) : option Z :=
  if isDigit c then Some (Z.of_N (code c) - 48) else None.

(** The fields of a string of the date-only form [YYYY-MM-DD]. *)
Definition dateFields (s : jsstring) : option (Z * Z * Z) :=
  match s with
  | [y1; y2; y3; y4; h1; m1; m2; h2; d1; d2] =>
      if (code h1 =? 45)%N && (code h2 =? 45)%N then
        a ← digitOf y1; b ← digitOf y2; c ← digitOf y3; d ← digitOf y4;
        e ← digitOf m1; f ← digitOf m2; g ← digitOf d1; h ← digitOf d2;
        Some (1000 * a + 100 * b + 10 * c + d, 10 * e + f, 10 * g + h)
      else None
  | _ => None
  end.

(** A month from 01 to 12 and a day from 01 to 31: the values that the
    fields [MM] and [DD] of the ISO format may have. *)
Definition inRange (m d : Z) : bool :=
  (1 <=? m) && (m <=? 12) && (1 <=? d) && (d <=? 31).

(** [Date.parse(s)], the time value of [new Date(s)]; [None] is [NaN].
    Node reads a string of the date-only form with a month from 01 to 12
    and a day from 01 to 31 in the ISO format: midnight UTC of the day
    [MakeDay], which counts a day past the end of the month on into the
    next month (2023-02-30 is 2 March 2023).  What the engine makes of
    any other string is implementation-defined (ECMA-262, section
    21.4.3.2): it is the parameter [engine], which gives the time value
    or [None]. *)
Definition parse (engine : jsstring -> option Z) (s : jsstring) : option Z :=
  match dateFields s with
  | Some (y, m, d) =>
      if inRange m d then Some (MakeDay y m d * msPerDay) else engine s
  | None => engine s
  end.

(** [new Date(a) > new Date(b)]: a comparison with [NaN] is false. *)
Definition after (engine : jsstring -> option Z) (a b : jsstring) : bool :=
  match parse engine a, parse engine b with
  | Some ta, Some tb => tb <? ta
  | _, _ => false
  end.

(** The order of calendar dates [(year, month, day)]. *)
Definition dateBefore (a b : Z * Z * Z) : Prop :=
  let '(y1, m1, d1) := a in
  let '(y2, m2, d2) := b in
  y1 < y2 \/ (y1 = y2 /\ (m1 < m2 \/ (m1 = m2 /\ d1 < d2))).

Definition isCalendarDate (a : Z * Z * Z) : Prop :=
  let '(y, m, d) := a in validDate y m d = true.

End DateTime.

(* ===================================================================== *)
(** * Chunker: [chunkText] *)
(* ===================================================================== *)

Module Chunker.
Import JS.

(** [{ start, end, text }] *)
Record Chunk := mkChunk { start : Z; end_ : Z; text : jsstring }.

(** The body of [chunkText]'s [while] loop.  [fuel] bounds the number of
    times the loop condition is evaluated; [None] means the bound was
    reached with the loop still running. *)
Fixpoint chunkText_loop (fuel : nat) (txt : jsstring) (target overlap : Z)
    (start : Z) (chunks : list Chunk) : option (list Chunk) :=
  match fuel with
  | O => None
  | S fuel' =>
      if start <? len txt then
        let end_ := Z.min (start + target) (len txt) in
        let slice := slice txt start end_ in
        let chunks := chunks ++ [mkChunk start end_ slice] in
        if end_ =? len txt then Some chunks
        else chunkText_loop fuel' txt target overlap
               (start + (target - overlap)) chunks
      else Some chunks
  end.

Definition chunkText (fuel : nat) (txt : jsstring) (target overlap : Z)
    : option (list Chunk) :=
  chunkText_loop fuel txt target overlap 0 [].

(** The chunk that the loop emits at offset [s]. *)
Definition chunk_at (txt : jsstring) (target s : Z) : Chunk :=
  let e := Z.min (s + target) (len txt) in mkChunk s e (slice txt s e).

(** The chunks that an execution of the loop emits from offset [s] on. *)
Inductive ChunksFrom (txt : jsstring) (target overlap : Z)
    : Z -> list Chunk -> Prop :=
| CF_last s :
    s < len txt ->
    len txt <= s + target ->
    ChunksFrom txt target overlap s [chunk_at txt target s]
| CF_step s rest :
    s < len txt ->
    s + target < len txt ->
    ChunksFrom txt target overlap (s + (target - overlap)) rest ->
    ChunksFrom txt target overlap s (chunk_at txt target s :: rest).

End Chunker.

(* ===================================================================== *)
(** * Rule extractor: extract-manual.js *)
(* ===================================================================== *)

Module Manual.
Import JS Regex Num.

(** ** Chunks on disk *)

(** A chunk as [loadChunks] returns it: [{ file, text }]. *)
Record Chunk := mkChunk { file : jsstring; text : jsstring }.

(** Order of code units, the order of [Array.prototype.sort] on strings. *)
Fixpoint str_leb (a b : jsstring) : bool :=
  match a, b with
  | [], _ => true
  | _ :: _, [] => false
  | c :: a', d :: b' =>
      if (code c <? code d)%N then true
      else if (code d <? code c)%N then false
      else str_leb a' b'
  end.

Fixpoint insert_sorted (x : jsstring) (l : list jsstring) : list jsstring :=
  match l with
  | [] => [x]
  | y :: l' => if str_leb x y then x :: l else y :: insert_sorted x l'
  end.

(** [names.sort()] *)
Definition sort (l : list jsstring) : list jsstring :=
  foldr insert_sorted [] l.

(** [loadChunks(chunkDir)].  The directory is a finite map from file names
    to contents; [None] is a directory that does not exist. *)
Definition loadChunks (chunkDir : option (gmap jsstring jsstring))
    : list Chunk :=
  match chunkDir with
  | None => []
  | Some dir =>
      let files :=
        sort (List.filter
                (fun f => endsWith f (str ".txt") && startsWith f (str "chunk_"))
                (map_to_list dir).*1) in
      map (fun f => mkChunk f (default [] (dir !! f))) files
  end.

(** ** Evidence *)

Record Manifest := mkManifest { primary_url : option jsstring }.

(** An evidence object.  [field] is absent until [addEvidence] sets it. *)
Record Evidence := mkEvidence
  { field : option jsstring;
    sourceFile : jsstring;
    sourceUrl : option jsstring;
    sourceSection : jsstring;
    selector : jsstring;
    snippet : jsstring }.

(** The snippet of an evidence object for a candidate that is rejected
    without a search. *)
Definition NO_EVIDENCE : jsstring :=
  str "Invalid search text - no evidence found".

(** [[.*+?^${}()|[\]\\]]: the characters that [escapeForRegex] escapes. *)
Definition isSyntaxChar (c : ascii) : bool :=
  existsb (char_eqb c) (str ".*+?^${}()|[]\").

Definition backslash : ascii := ch "\".

(** [escapeForRegex(s)] *)
Definition escapeForRegex (s : jsstring) : jsstring :=
  flat_map (fun c => if isSyntaxChar c then [backslash; c] else [c]) s.

(** [s.replace(/\s+/g, "\\s+")] *)
Fixpoint replace_ws_aux (s : jsstring) (inws : bool) : jsstring :=
  match s with
  | [] => []
  | c :: s' =>
      if isWhiteSpace c then
        if inws then replace_ws_aux s' true
        else str "\s+" ++ replace_ws_aux s' true
      else c :: replace_ws_aux s' false
  end.

Definition replace_ws (s : jsstring) : jsstring := replace_ws_aux s false.

(** [new RegExp(src, "i")] on the pattern sources that [findEvidence]
    builds: a sequence of [\s+], escaped syntax characters and other
    characters.  [None] is a [SyntaxError]. *)
Fixpoint RegExp (src : jsstring) : option regex :=
  match src with
  | [] => Some Eps
  | c :: src' =>
      if char_eqb c backslash then
        match src' with
        | d :: src'' =>
            if char_eqb d (ch "s") then
              match src'' with
              | e :: src''' =>
                  if char_eqb e (ch "+")
                  then Seq (plus ws) <$> RegExp src'''
                  else None
              | [] => None
              end
            else if isSyntaxChar d then Seq (Chr d) <$> RegExp src''
            else None
        | [] => None
        end
      else if isSyntaxChar c then None
      else Seq (Chr c) <$> RegExp src'
  end.

(** [/\b(provisions|warranties|obligations|not applicable|unknown)\b/i] *)
Definition re_boilerplate : regex :=
  seqs [WordB;
        Group 1 (alts [lit "provisions"; lit "warranties"; lit "obligations";
                       lit "not applicable"; lit "unknown"]);
        WordB].

(** [/===\s*Item\s+[\d.]+[^=]*===/gi] *)
Definition re_section : regex :=
  seqs [lit "==="; star ws; lit "Item"; plus ws;
        plus (Class false [CDigit; cc "."]);
        star (Class true [cc "="]); lit "==="].

(** The last section marker in [before], trimmed, or the empty string. *)
Definition sectionOf (before : jsstring) : jsstring :=
  match last (matchAll true re_section before) with
  | Some m => trim (matched m)
  | None => []
  end.

(** The evidence object that cites [chunks[0]], or ["unknown"] (with an
    empty snippet) when there is no chunk or its name or text is empty. *)
Definition firstFile (chunks : list Chunk) : jsstring :=
  match chunks with
  | first :: _ => if bool_decide (file first = []) then str "unknown"
                  else file first
  | [] => str "unknown"
  end.

Definition firstChunkEvidence (chunks : list Chunk) (manifest : Manifest)
    : Evidence :=
  mkEvidence None (firstFile chunks) (primary_url manifest) []
    (str "chunk:" ++ firstFile chunks)
    (slice (match chunks with first :: _ => text first | [] => [] end) 0 200).

(** The tier of the exact pattern match: the first chunk that [re]
    matches. *)
Fixpoint exactMatch (re : regex) (norm : jsstring) (chunks : list Chunk)
    (manifest : Manifest) : option Evidence :=
  match chunks with
  | [] => None
  | chunk :: chunks' =>
      match exec true re (text chunk) with
      | Some m =>
          let idx := Z.of_nat (index m) in
          let snippetStart := Z.max 0 (idx - 80) in
          let snippetEnd :=
            Z.min (len (text chunk))
                  (idx + (if len (matched m) =? 0 then len norm
                          else len (matched m)) + 80) in
          let beforeSection := slice (text chunk) 0 idx in
          let section := sectionOf beforeSection in
          Some (mkEvidence None (file chunk) (primary_url manifest) section
                  (str "chunk:" ++ file chunk)
                  (slice (trim (slice (text chunk) snippetStart snippetEnd))
                         0 200))
      | None => exactMatch re norm chunks' manifest
      end
  end.

(** The number of the first six words that occur in [lower]. *)
Definition countHits (words : list jsstring) (lower : jsstring) : Z :=
  Z.of_nat
    (length (List.filter (fun w => includes lower (toLowerCase w))
                         (take 6 words))).

(** [Math.min(2, Math.max(1, Math.floor(words.length/2)))] *)
Definition threshold (words : list jsstring) : Z :=
  Z.min 2 (Z.max 1 (Z.of_nat (length words) / 2)).

(** The tier of the word overlap: the first chunk with enough of the
    words.  [None] in the result is the [TypeError] of
    [words[0].toLowerCase()] on an empty [words]. *)
Fixpoint fuzzyMatch (words : list jsstring) (chunks : list Chunk)
    (manifest : Manifest) : option (option Evidence) :=
  match chunks with
  | [] => Some None
  | chunk :: chunks' =>
      let lower := toLowerCase (text chunk) in
      let hits := countHits words lower in
      if threshold words <=? hits then
        let found :=
          List.find (fun w => includes lower (toLowerCase w)) words in
        let needle :=
          match found with
          | Some w => if bool_decide (w = []) then toLowerCase <$> head words
                      else Some w
          | None => toLowerCase <$> head words
          end in
        match needle with
        | None => None
        | Some needle =>
            let idx := Z.max 0 (indexOf lower needle) in
            let snippetStart := Z.max 0 (idx - 80) in
            let snippetEnd := Z.min (len (text chunk)) (idx + 200) in
            let section := sectionOf (slice (text chunk) 0 idx) in
            Some (Some
              (mkEvidence None (file chunk) (primary_url manifest) section
                 (str "chunk:" ++ file chunk)
                 (slice (trim (slice (text chunk) snippetStart snippetEnd))
                        0 200)))
        end
      else fuzzyMatch words chunks' manifest
  end.

(** The pattern that [RegExp] returns for the source that [findEvidence]
    builds from [norm]: the characters of [norm], with [\s+] for each run of
    white space. *)
Fixpoint literalPattern (norm : jsstring) (inws : bool) : regex :=
  match norm with
  | [] => Eps
  | c :: norm' =>
      if isWhiteSpace c then
        if inws then literalPattern norm' true
        else Seq (plus ws) (literalPattern norm' true)
      else Seq (Chr c) (literalPattern norm' false)
  end.

(** Lines 119-171 of [findEvidence]: the exact match, the word overlap and
    the fallback to the first chunk.  The result [None] is an exception. *)
Definition searchEvidence (norm : jsstring) (chunks : list Chunk)
    (manifest : Manifest) : option Evidence :=
  let safe := escapeForRegex norm in
  re ← RegExp (replace_ws safe);
  match exactMatch re norm chunks manifest with
  | Some ev => Some ev
  | None =>
      let words := List.filter (fun w => 3 <? len w) (split_ws norm) in
      fuzzy ← fuzzyMatch words chunks manifest;
      match fuzzy with
      | Some ev => Some ev
      | None => Some (firstChunkEvidence chunks manifest)
      end
  end.

(** The vocabulary of [re_boilerplate]. *)
Definition BOILERPLATE : list string :=
  ["provisions"; "warranties"; "obligations"; "not applicable"; "unknown"]%string.

(** The candidates of the suspicious-text tier: more than 8 words and a
    boilerplate term as a whole word. *)
Definition boilerplateCandidate (searchText : option jsstring) : Prop :=
  exists s,
    searchText = Some s /\ s <> [] /\
    8 < countWords s /\ containsWord BOILERPLATE (trim s).

(** The test of line 109. *)
Definition suspicious (norm : jsstring) : bool :=
  test true re_boilerplate norm && (8 <? Z.of_nat (length (split_ws norm))).

(** [findEvidence(searchText, chunks, manifest)].  [searchText = None] is
    [null]; the result [None] is an exception. *)
Definition findEvidence (searchText : option jsstring) (chunks : list Chunk)
    (manifest : Manifest) : option Evidence :=
  match searchText with
  | None | Some [] => Some (firstChunkEvidence chunks manifest)
  | Some searchText =>
      let norm := trim searchText in
      if suspicious norm then
        Some (mkEvidence None (firstFile chunks) (primary_url manifest) []
                (str "chunk:" ++ firstFile chunks) NO_EVIDENCE)
      else searchEvidence norm chunks manifest
  end.

(** [addEvidence(field, searchValue)]: the evidence list after the call. *)
Definition addEvidence (chunks : list Chunk) (manifest : Manifest)
    (evidence : list Evidence) (fieldName : jsstring)
    (searchValue : option jsstring) : option (list Evidence) :=
  match searchValue with
  | None | Some [] => Some evidence
  | Some v =>
      ev ← findEvidence (Some v) chunks manifest;
      Some (evidence ++
            [mkEvidence (Some fieldName) (sourceFile ev) (sourceUrl ev)
               (sourceSection ev) (selector ev) (snippet ev)])
  end.

(** ** Money *)

(** [(?:\$|USD\s* )] (the source has no blank after [USD\s*]) *)
Definition re_marker : regex :=
  Alt (Chr (ch "$")) (Seq (lit "USD") (star ws)).

(** [[0-9]+(?:\.[0-9]+)?] *)
Definition re_number : regex :=
  Seq (plus digit) (opt (Seq (Chr (ch ".")) (plus digit))).

(** [\s*(thousand|million|billion)] *)
Definition re_scale : regex :=
  Seq (star ws)
      (Group 2 (alts [lit "thousand"; lit "million"; lit "billion"])).

(** [/(?:\$|USD\s* )?\s*([0-9]+(?:\.[0-9]+)?)(?:\s*(thousand|million|billion))?/i] *)
Definition re_money : regex :=
  seqs [opt re_marker; star ws; Group 1 re_number; opt re_scale].

Definition isParen (c : ascii) : bool :=
  char_eqb c (ch "(") || char_eqb c (ch ")").

Definition isComma (c : ascii) : bool := char_eqb c (ch ",").

(** [text.replace(/[()]/g, '').replace(/[,]/g, '')] *)
Definition strip (text : jsstring) : jsstring :=
  removeAll isComma (removeAll isParen text).

(** The multiplier of a scale word: [1e3], [1e6], [1e9]. *)
Definition scaleOf (scale : jsstring) : option number :=
  if bool_decide (scale = str "thousand") then Some (of_Z 1000)
  else if bool_decide (scale = str "million") then Some (of_Z 1000000)
  else if bool_decide (scale = str "billion") then Some (of_Z 1000000000)
  else None.

(** Lines 82-89 of [parseMoneyToUSD]: the match on the cleaned text. *)
Definition matchMoney (cleaned : jsstring) : option number :=
  match exec true re_money cleaned with
  | None => None
  | Some m =>
      let num :=
        match group m 1 with
        | Some g => parseFloat g
        | None => NaN
        end in
      let scale := toLowerCase (default [] (group m 2)) in
      let num :=
        match scaleOf scale with
        | Some k => mul num k
        | None => num
        end in
      Some (round num)
  end.

(** [parseMoneyToUSD(text)]; the result [None] is [null]. *)
Definition parseMoneyToUSD (text : option jsstring) : option number :=
  match text with
  | None | Some [] => None
  | Some text => matchMoney (trim (strip text))
  end.

(** *** Amount texts *)

(** The currency markers, the scale words and the shape of an amount:
    a marker, digits, optionally a full stop and digits, optionally a blank
    and a scale word. *)
Definition MARKERS : list string :=
  [EmptyString; "$"; "USD"; "USD "]%string.

Definition SCALE_WORDS : list string :=
  ["thousand"; "million"; "billion"]%string.

Definition digits (s : jsstring) : Prop :=
  Forall (fun c => isDigit c = true) s.

Definition fraction (fp : jsstring) : jsstring :=
  match fp with
  | [] => []
  | _ => ch "." :: fp
  end.

Definition suffix (sc : option string) : jsstring :=
  match sc with
  | None => []
  | Some w => ch " " :: str w
  end.

Definition scale_ok (sc : option string) : Prop :=
  match sc with
  | None => True
  | Some w => In w SCALE_WORDS
  end.

Definition amountText (marker : string) (ip fp : jsstring)
    (sc : option string) : jsstring :=
  str marker ++ (ip ++ fraction fp) ++ suffix sc.

(** The multiplier that the specification gives for a scale word. *)
Definition multiplier (sc : option string) : option Z :=
  match sc with
  | None => None
  | Some w =>
      if String.eqb w "thousand" then Some 1000
      else if String.eqb w "million" then Some 1000000
      else if String.eqb w "billion" then Some 1000000000
      else None
  end.

(** The amount of an amount text: the number, times the multiplier,
    rounded to the nearest integer. *)
Definition amountValue (ip fp : jsstring) (sc : option string) : number :=
  let x := parseFloat (ip ++ fraction fp) in
  round (match multiplier sc with
         | Some k => mul x (of_Z k)
         | None => x
         end).

(** The amount before it is rounded: the number, times the multiplier. *)
Definition scaledNumber (ip fp : jsstring) (sc : option string) : number :=
  let x := parseFloat (ip ++ fraction fp) in
  match multiplier sc with
  | Some k => mul x (of_Z k)
  | None => x
  end.

(** *** Amounts in a text *)

(** A text without a digit. *)
Definition noDigit (s : jsstring) : Prop :=
  Forall (fun c => isDigit c = false) s.

(** [rest] starts with a fraction part: a full stop and a digit. *)
Definition fractionAhead (rest : jsstring) : bool :=
  match rest with
  | c :: d :: _ => char_eqb c (ch ".") && isDigit d
  | _ => false
  end.

(** A number with the fraction digits [fp] ends in front of [rest]: no
    digit follows, and no fraction part when the number has none. *)
Definition numberEnds (fp rest : jsstring) : Prop :=
  head_fails isDigit rest /\ (fp = [] -> fractionAhead rest = false).

(** The scale word that [rest] starts with, after white space and in
    whatever case. *)
Definition startsWithWord (w : string) (tail : jsstring) : bool :=
  match strip_ci (str w) tail with
  | Some _ => true
  | None => false
  end.

Definition scaleAhead (rest : jsstring) : option string :=
  let tail := trimStart rest in
  if startsWithWord "thousand" tail then Some "thousand"%string
  else if startsWithWord "million" tail then Some "million"%string
  else if startsWithWord "billion" tail then Some "billion"%string
  else None.

(** A letter of the scale words. *)
Definition scaleLetter (c : ascii) : bool :=
  existsb (Ascii.eqb c) (str "thousandmilb").

(** What may follow a number: nothing, or a character that is neither a
    digit nor a full stop. *)
Definition number_end (tl : jsstring) : Prop :=
  match tl with
  | c :: _ =>
      isDigit c = false /\
      char_eqb (toUpperChar (ch ".")) (toUpperChar c) = false
  | [] => True
  end.

Definition starts_with_digit (X : jsstring) : Prop :=
  match X with
  | c :: _ => isDigit c = true
  | [] => False
  end.

(** ** Relationship extraction: lines 380-561 of [run] *)

(** [!s] for a possibly absent string. *)
Definition falsy (s : option jsstring) : bool :=
  match s with
  | None | Some [] => true
  | Some _ => false
  end.

(** [s.replace(/[...]$/, '')]: drops a last character that satisfies [p]. *)
Definition dropLast (p : ascii -> bool) (s : jsstring) : jsstring :=
  match last s with
  | Some c => if p c then take (length s - 1) s else s
  | None => s
  end.

Definition isCommaOrDot (c : ascii) : bool :=
  char_eqb c (ch ",") || char_eqb c (ch ".").

(** The number of pieces of [s.split(/\s+/)]. *)
Definition wordCount (s : jsstring) : Z := Z.of_nat (length (split_ws s)).

(** [/\b(collaboration|collaborat|license agreement|strategic collaboration|partnership|partner)\b/i] *)
Definition re_isPartnership : regex :=
  seqs [WordB;
        Group 1 (alts [lit "collaboration"; lit "collaborat";
                       lit "license agreement"; lit "strategic collaboration";
                       lit "partnership"; lit "partner"]);
        WordB].

(** [/\b(merger|acquisition|acquired|acquires|purchase agreement|purchase of)\b/i] *)
Definition re_isDeal : regex :=
  seqs [WordB;
        Group 1 (alts [lit "merger"; lit "acquisition"; lit "acquired";
                       lit "acquires"; lit "purchase agreement";
                       lit "purchase of"]);
        WordB].

(** [F\.\s*Hoffmann-La\s*Roche\s*Ltd\.?] *)
Definition roche_name : regex :=
  seqs [lit "F."; star ws; lit "Hoffmann-La"; star ws; lit "Roche"; star ws;
        lit "Ltd"; opt (Chr (ch "."))].

(** [/\bwith\s+(F\.\s*Hoffmann-La\s*Roche\s*Ltd\.?)/i],
    [/\b(F\.\s*Hoffmann-La\s*Roche\s*Ltd\.?)/i],
    [/\bwith\s+F\.\s*Roche\s+Ltd/i] *)
Definition rochePatterns : list regex :=
  [ seqs [WordB; lit "with"; plus ws; Group 1 roche_name];
    seqs [WordB; Group 1 roche_name];
    seqs [WordB; lit "with"; plus ws; lit "F."; star ws; lit "Roche";
          plus ws; lit "Ltd"] ].

(** [[A-Za-z0-9\s.,'\-]] *)
Definition name_char : regex :=
  Class false [cr "A" "Z"; cr "a" "z"; cr "0" "9"; CSpace; cc "."; cc ",";
               cc "'"; cc "-"].

(** [[A-Za-z0-9\s.,'&-]] *)
Definition name_char_amp : regex :=
  Class false [cr "A" "Z"; cr "a" "z"; cr "0" "9"; CSpace; cc "."; cc ",";
               cc "'"; cc "&"; cc "-"].

Definition upper : regex := Class false [cr "A" "Z"].   (* [A-Z] *)

Definition dot_opt : regex := opt (Chr (ch ".")).       (* \.? *)

(** [/\bwith\s+([A-Z][A-Za-z0-9\s.,'\-]{3,80}?(?:Inc\.?|Corporation|Corp\.?|Ltd\.?|LLC|AG|PLC|GmbH|Pharmaceuticals|Holdings)\.?)/i] *)
Definition withPartnerPattern : regex :=
  seqs [WordB; lit "with"; plus ws;
        Group 1 (seqs [upper; range_lazy 3 80 name_char;
                       alts [Seq (lit "Inc") dot_opt; lit "Corporation";
                             Seq (lit "Corp") dot_opt; Seq (lit "Ltd") dot_opt;
                             lit "LLC"; lit "AG"; lit "PLC"; lit "GmbH";
                             lit "Pharmaceuticals"; lit "Holdings"];
                       dot_opt])].

(** [/\b(Agreement|provisions|warranties|obligations|representations|confidentiality|contains|among)\b/i] *)
Definition re_notAName : regex :=
  seqs [WordB;
        Group 1 (alts [lit "Agreement"; lit "provisions"; lit "warranties";
                       lit "obligations"; lit "representations";
                       lit "confidentiality"; lit "contains"; lit "among"]);
        WordB].

(** [[A-Z][A-Za-z0-9\s.,'\-]{3,80}?(?:Inc\.?|Corp\.?|Ltd\.?|LLC|AG|PLC)\.?] *)
Definition between_party : regex :=
  seqs [upper; range_lazy 3 80 name_char;
        alts [Seq (lit "Inc") dot_opt; Seq (lit "Corp") dot_opt;
              Seq (lit "Ltd") dot_opt; lit "LLC"; lit "AG"; lit "PLC"];
        dot_opt].

(** [/between\s+(?:the\s+)?(party)\s+and\s+(party)/i] *)
Definition betweenPattern : regex :=
  seqs [lit "between"; plus ws; opt (Seq (lit "the") (plus ws));
        Group 1 between_party; plus ws; lit "and"; plus ws;
        Group 2 between_party].

(** [/\b(F\.\s*Hoffmann-La\s*Roche\s*Ltd\.?|Roche|Genentech,?\s*Inc\.?|Novartis|Pfizer|Merck|Sanofi|Bristol-Myers\s+Squibb|Johnson\s*&\s*Johnson|AstraZeneca|GlaxoSmithKline|Eli\s+Lilly)(?:\s+(?:Ltd\.|Inc\.|AG|PLC|Corp\.?))?\b/gi] *)
Definition pharmaPattern : regex :=
  seqs [WordB;
        Group 1 (alts [roche_name; lit "Roche";
                       seqs [lit "Genentech"; opt (Chr (ch ",")); star ws;
                             lit "Inc"; dot_opt];
                       lit "Novartis"; lit "Pfizer"; lit "Merck"; lit "Sanofi";
                       seqs [lit "Bristol-Myers"; plus ws; lit "Squibb"];
                       seqs [lit "Johnson"; star ws; Chr (ch "&"); star ws;
                             lit "Johnson"];
                       lit "AstraZeneca"; lit "GlaxoSmithKline";
                       seqs [lit "Eli"; plus ws; lit "Lilly"]]);
        opt (Seq (plus ws)
                 (alts [lit "Ltd."; lit "Inc."; lit "AG"; lit "PLC";
                        Seq (lit "Corp") dot_opt]));
        WordB].

Definition not_dot : regex := Class true [cc "."].      (* [^.] *)

(** [/(?:collaboration for)[^.]{0,300}(?:containing|targeting)\s+([^.]{10,200})/i],
    [/(?:develop|development|commercialization)[^.]{0,300}(?:containing|targeting|for|of)\s+([^.]{10,200})/i] *)
Definition scopePatterns : list regex :=
  [ seqs [lit "collaboration for"; range 0 300 not_dot;
          Alt (lit "containing") (lit "targeting"); plus ws;
          Group 1 (range 10 200 not_dot)];
    seqs [alts [lit "develop"; lit "development"; lit "commercialization"];
          range 0 300 not_dot;
          alts [lit "containing"; lit "targeting"; lit "for"; lit "of"];
          plus ws; Group 1 (range 10 200 not_dot)] ].

Definition sentence_end : regex :=
  Class false [cc "."; cc "!"; cc "?"].                  (* [.!?] *)

(** [/\b(worldwide|globally|global|United States|U\.S\.|outside the U\.S\.)\b/i] *)
Definition re_territory : regex :=
  seqs [WordB;
        Group 1 (alts [lit "worldwide"; lit "globally"; lit "global";
                       lit "United States"; lit "U.S.";
                       lit "outside the U.S."]);
        WordB].

(** [\$[0-9,]+(?:\.[0-9]+)?(?:\s*(?:scale words))?] *)
Definition dollar_amount (scales : list regex) : regex :=
  seqs [Chr (ch "$"); plus (Class false [cr "0" "9"; cc ","]);
        opt (Seq (Chr (ch ".")) (plus digit));
        opt (Seq (star ws) (alts scales))].

(** [/upfront\s+(?:cash\s+)?payment\s+(?:of\s+)?(\$[0-9,]+(?:\.[0-9]+)?(?:\s*(?:million|billion|thousand))?)/i] *)
Definition re_upfront : regex :=
  seqs [lit "upfront"; plus ws; opt (Seq (lit "cash") (plus ws));
        lit "payment"; plus ws; opt (Seq (lit "of") (plus ws));
        Group 1 (dollar_amount [lit "million"; lit "billion";
                                lit "thousand"])].

(** [/(?:up to|total of|potentially)\s+(\$[0-9,]+(?:\.[0-9]+)?(?:\s*(?:billion|million))?)/i],
    [/milestone\s+payments?\s+(?:of|up to)\s+(\$[0-9,]+(?:\.[0-9]+)?(?:\s*(?:million|billion))?)/i] *)
Definition milestonePatterns : list regex :=
  [ seqs [alts [lit "up to"; lit "total of"; lit "potentially"]; plus ws;
          Group 1 (dollar_amount [lit "billion"; lit "million"])];
    seqs [lit "milestone"; plus ws; lit "payment"; opt (Chr (ch "s"));
          plus ws; Alt (lit "of") (lit "up to"); plus ws;
          Group 1 (dollar_amount [lit "million"; lit "billion"])] ].

(** [/(?:acquisition of|acquired|purchase of)\s+([A-Z][A-Za-z0-9\s.,'&-]{2,120}?)(?:\s|,|\.)/i] *)
Definition re_target : regex :=
  seqs [alts [lit "acquisition of"; lit "acquired"; lit "purchase of"];
        plus ws;
        Group 1 (Seq upper (range_lazy 2 120 name_char_amp));
        alts [ws; Chr (ch ","); Chr (ch ".")]].

(** [/(?:buyer|purchaser|acquirer)\s*:\s*([A-Z][A-Za-z0-9\s.,'&-]+)/i] *)
Definition re_buyer : regex :=
  seqs [alts [lit "buyer"; lit "purchaser"; lit "acquirer"]; star ws;
        Chr (ch ":"); star ws; Group 1 (Seq upper (plus name_char_amp))].

(** [/(?:seller|target|seller)\s*:\s*([A-Z][A-Za-z0-9\s.,'&-]+)/i] *)
Definition re_seller : regex :=
  seqs [alts [lit "seller"; lit "target"; lit "seller"]; star ws;
        Chr (ch ":"); star ws; Group 1 (Seq upper (plus name_char_amp))].

(** The [partnership] object.  A field that is [None] is absent;
    [upfrontPaymentUSD = Some None] is the value [null]. *)
Record Partnership := mkPartnership
  { partnerA : option jsstring;
    partnerB : option jsstring;
    scope : option jsstring;
    territory : option jsstring;
    upfrontPaymentUSD : option (option number);
    milestonesUSD : option number }.

(** The [deal] object. *)
Record Deal := mkDeal
  { target : option jsstring;
    buyer : option jsstring;
    seller : option jsstring }.

(** The texts that drove the derivation, kept for the evidence search. *)
Record SourceTexts := mkSourceTexts
  { partnerAText : option jsstring;
    partnerBText : option jsstring;
    scopeText : option jsstring;
    territoryText : option jsstring;
    upfrontText : option jsstring;
    milestoneText : option jsstring }.

(** The loop over [rochePatterns]: the value and the evidence text of
    partner B at the first pattern that breaks the loop. *)
Fixpoint rocheLoop (patterns : list regex) (fullText contextWindow : jsstring)
    : option (jsstring * jsstring) :=
  match patterns with
  | [] => None
  | pattern :: patterns' =>
      match exec true pattern contextWindow with
      | Some rocheMatch =>
          if negb (falsy (group rocheMatch 1)) &&
             includes (default [] (group rocheMatch 1)) (str "Hoffmann")
          then
            let b := trim (default [] (group rocheMatch 1)) in Some (b, b)
          else if includes (matched rocheMatch) (str "F. Roche Ltd") then
            match exec true roche_name fullText with
            | Some fullRocheMatch =>
                let b := trim (matched fullRocheMatch) in Some (b, b)
            | None =>
                Some (str "F. Hoffmann-La Roche Ltd.", str "F. Roche Ltd")
            end
          else rocheLoop patterns' fullText contextWindow
      | None => rocheLoop patterns' fullText contextWindow
      end
  end.

(** The generic "with <Entity>" pattern. *)
Definition withPartner (contextWindow : jsstring) : option jsstring :=
  match exec true withPartnerPattern contextWindow with
  | Some withMatch =>
      let partner :=
        dropLast isCommaOrDot (trim (default [] (group withMatch 1))) in
      if (wordCount partner <=? 10) && negb (test true re_notAName partner)
      then Some partner else None
  | None => None
  end.

(** The "between A and B" pattern: the two names that pass the length
    check. *)
Definition betweenParties (contextWindow : jsstring)
    : option (option jsstring * option jsstring) :=
  match exec true betweenPattern contextWindow with
  | Some betweenMatch =>
      let p1 := dropLast isCommaOrDot
                  (trim (default [] (group betweenMatch 1))) in
      let p2 := dropLast isCommaOrDot
                  (trim (default [] (group betweenMatch 2))) in
      Some (if wordCount p1 <=? 10 then Some p1 else None,
            if wordCount p2 <=? 10 then Some p2 else None)
  | None => None
  end.

(** The loop over the matches of [pharmaPattern]: the first name that
    partner A does not contain. *)
Fixpoint pharmaLoop (pharmaMatches : list MatchResult)
    (partnerA : option jsstring) : option jsstring :=
  match pharmaMatches with
  | [] => None
  | m :: pharmaMatches' =>
      let pharma := dropLast isComma (trim (matched m)) in
      if falsy partnerA ||
         negb (includes (toLowerCase (default [] partnerA))
                        (toLowerCase pharma))
      then Some pharma
      else pharmaLoop pharmaMatches' partnerA
  end.

(** The loop over [scopePatterns]. *)
Fixpoint scopeLoop (patterns : list regex) (contextWindow : jsstring)
    : option jsstring :=
  match patterns with
  | [] => None
  | p :: patterns' =>
      match exec true p contextWindow with
      | Some scopeMatch =>
          let scopeText := trim (matched scopeMatch) in
          if negb (test false (Seq sentence_end Eol) scopeText) then
            let extended :=
              slice contextWindow (indexOf contextWindow scopeText)
                    (len contextWindow) in
            let sentenceEnd := search false (Seq sentence_end ws) extended in
            if (0 <? sentenceEnd) && (sentenceEnd <? 250)
            then Some (trim (slice extended 0 (sentenceEnd + 1)))
            else Some scopeText
          else Some scopeText
      | None => scopeLoop patterns' contextWindow
      end
  end.

(** The loop over [milestonePatterns]: the text and the amount of the first
    match that exceeds the upfront payment. *)
Fixpoint milestoneLoop (patterns : list regex) (contextWindow : jsstring)
    (upfront : option (option number)) : option (jsstring * number) :=
  match patterns with
  | [] => None
  | p :: patterns' =>
      match exec true p contextWindow with
      | Some m =>
          match parseMoneyToUSD (group m 1) with
          | Some amt =>
              let floor :=
                match upfront with
                | Some (Some u) => if truthy u then u else of_Z 0
                | _ => of_Z 0
                end in
              if truthy amt && gtb amt floor
              then Some (default [] (group m 1), amt)
              else milestoneLoop patterns' contextWindow upfront
          | None => milestoneLoop patterns' contextWindow upfront
          end
      | None => milestoneLoop patterns' contextWindow upfront
      end
  end.

(** The [partnership] object and the source texts at line 546, before the
    completeness check. *)
Definition buildPartnership (companyName : option jsstring)
    (fullText contextWindow : jsstring) : Partnership * SourceTexts :=
  let partnerA := if falsy companyName then None else companyName in
  let partnerAText := partnerA in
  let roche := rocheLoop rochePatterns fullText contextWindow in
  let partnerB := fst <$> roche in
  let partnerBText := snd <$> roche in
  let '(partnerB, partnerBText) :=
    if falsy partnerB then
      match withPartner contextWindow with
      | Some partner => (Some partner, Some partner)
      | None => (partnerB, partnerBText)
      end
    else (partnerB, partnerBText) in
  let '(partnerA, partnerAText, partnerB, partnerBText) :=
    if falsy partnerB then
      match betweenParties contextWindow with
      | Some (p1, p2) =>
          let '(a, at_) :=
            match p1 with
            | Some p1 => if falsy partnerA then (Some p1, Some p1)
                         else (partnerA, partnerAText)
            | None => (partnerA, partnerAText)
            end in
          let '(b, bt) :=
            match p2 with
            | Some p2 => (Some p2, Some p2)
            | None => (partnerB, partnerBText)
            end in
          (a, at_, b, bt)
      | None => (partnerA, partnerAText, partnerB, partnerBText)
      end
    else (partnerA, partnerAText, partnerB, partnerBText) in
  let '(partnerB, partnerBText) :=
    if falsy partnerB then
      match pharmaLoop (matchAll true pharmaPattern contextWindow) partnerA with
      | Some pharma => (Some pharma, Some pharma)
      | None => (partnerB, partnerBText)
      end
    else (partnerB, partnerBText) in
  let scopeText := scopeLoop scopePatterns contextWindow in
  let territoryText := matched <$> exec true re_territory contextWindow in
  let upfrontMatch := exec true re_upfront contextWindow in
  let upfrontText := upfrontMatch ≫= fun m => group m 1 in
  let upfront :=
    (fun m => parseMoneyToUSD (group m 1)) <$> upfrontMatch in
  let milestone := milestoneLoop milestonePatterns contextWindow upfront in
  (mkPartnership partnerA partnerB scopeText territoryText upfront
                 (snd <$> milestone),
   mkSourceTexts partnerAText partnerBText scopeText territoryText
                 upfrontText (fst <$> milestone)).

(** The [deal] object of the [else if (isDeal)] branch. *)
Definition buildDeal (contextWindow : jsstring) : Deal :=
  mkDeal
    ((fun m => dropLast isCommaOrDot (trim (default [] (group m 1))))
       <$> exec true re_target contextWindow)
    ((fun m => trim (default [] (group m 1)))
       <$> exec true re_buyer contextWindow)
    ((fun m => trim (default [] (group m 1)))
       <$> exec true re_seller contextWindow).

(** The values of [partnership], [deal] and the source texts at line 562.
    [None] is [null]. *)
Definition extractRelationship (companyName : option jsstring)
    (fullText contextWindow : jsstring)
    : option Partnership * option Deal * SourceTexts :=
  let isPartnership := test true re_isPartnership contextWindow in
  let isDeal := test true re_isDeal contextWindow in
  if isPartnership then
    let '(partnership, texts) :=
      buildPartnership companyName fullText contextWindow in
    if falsy (partnerA partnership) || falsy (partnerB partnership)
    then (None, None, texts)
    else (Some partnership, None, texts)
  else if isDeal then
    (None, Some (buildDeal contextWindow),
     mkSourceTexts None None None None None None)
  else (None, None, mkSourceTexts None None None None None None).

(** The vocabularies of [re_isPartnership] and [re_isDeal]. *)
Definition PARTNERSHIP_WORDS : list string :=
  ["collaboration"; "collaborat"; "license agreement";
   "strategic collaboration"; "partnership"; "partner"]%string.

Definition DEAL_WORDS : list string :=
  ["merger"; "acquisition"; "acquired"; "acquires"; "purchase agreement";
   "purchase of"]%string.

(** The keys [partnership] and [deal] of [output] (lines 684-685); a key
    is present, [Some], when the variable is not [null]. *)
Record Output := mkOutput
  { out_partnership : option Partnership;
    out_deal : option Deal }.

Definition relationshipOutput (companyName : option jsstring)
    (fullText contextWindow : jsstring) : Output :=
  let '(partnership, deal, _) :=
    extractRelationship companyName fullText contextWindow in
  mkOutput partnership deal.

(** ** Cross-field checks: lines 657-674 of [run] *)

(** The [doc] object. *)
Record Doc := mkDoc
  { accession : option jsstring;
    filingType : jsstring;
    filedDate : option jsstring;
    companyName : option jsstring;
    cik : option jsstring }.

(** The [event] object. *)
Record Event := mkEvent
  { kind : option jsstring;
    secItem : option jsstring;
    headline : option jsstring;
    summary : option jsstring;
    totalValueUSD : option number;
    effectiveDate : option jsstring }.

Definition re_item101 : regex :=                        (* /Item\s+1\.01/i *)
  seqs [lit "Item"; plus ws; lit "1.01"].

Definition VALUE_NOT_POSITIVE : jsstring :=
  str "event.totalValueUSD is non-positive".

Definition NO_AGREEMENT : jsstring :=
  str "Collaboration found but no Item 1.01/agreement mention detected".

Definition EFFECTIVE_AFTER_FILED : jsstring :=
  str "event.effectiveDate is after doc.filedDate (should be earlier or same)".

(** The list [crossField] at line 675; [engine] is what [Date.parse] of
    the engine returns for the strings that [DateTime.parse] leaves to
    it. *)
Definition crossFieldChecks (engine : jsstring -> option Z)
    (doc : Doc) (event : Event)
    (fullText contextWindow : jsstring) : list jsstring :=
  (match totalValueUSD event with
   | Some v => if leb v (of_Z 0) then [VALUE_NOT_POSITIVE] else []
   | None => []
   end) ++
  (if bool_decide (kind event = Some (str "Collaboration")) then
     if negb (test true re_item101 fullText) &&
        negb (test true (lit "agreement") contextWindow)
     then [NO_AGREEMENT] else []
   else []) ++
  (if negb (falsy (effectiveDate event)) && negb (falsy (filedDate doc)) then
     if DateTime.after engine (default [] (effectiveDate event))
                       (default [] (filedDate doc))
     then [EFFECTIVE_AFTER_FILED] else []
   else []).

End Manual.

(* ===================================================================== *)
(** * Paths: [path.join] *)
(* ===================================================================== *)

(** [path.join] and [path.normalize] of Node, in their POSIX form. *)

Module Path.
Import JS.

Definition SEP : ascii := "/"%char.

(** The segments of a path: what stands between its separators. *)
Fixpoint segments_aux (s cur : jsstring) : list jsstring :=
  match s with
  | [] => [cur]
  | c :: s' =>
      if Ascii.eqb c SEP then cur :: segments_aux s' []
      else segments_aux s' (cur ++ [c])
  end.

Definition segments (s : jsstring) : list jsstring := segments_aux s [].

(** One segment added to the segments [res] that are kept so far: an
    empty segment and [.] are dropped; [..] removes the segment before
    it, and where there is none to remove it is kept in a relative path
    ([allowAboveRoot]) and dropped in an absolute one. *)
Definition addSegment (allowAboveRoot : bool) (res : list jsstring)
    (seg : jsstring) : list jsstring :=
  if bool_decide (seg = []) || bool_decide (seg = str ".") then res
  else if bool_decide (seg = str "..") then
    match last res with
    | Some l =>
        if bool_decide (l = str "..")
        then (if allowAboveRoot then res ++ [seg] else res)
        else removelast res
    | None => if allowAboveRoot then [seg] else res
    end
  else res ++ [seg].

(** [normalizeString]: the segments that are left of a path. *)
Definition normalizeSegments (allowAboveRoot : bool)
    (segs : list jsstring) : list jsstring :=
  fold_left (addSegment allowAboveRoot) segs [].

Fixpoint joinSegments (segs : list jsstring) : jsstring :=
  match segs with
  | [] => []
  | [seg] => seg
  | seg :: segs' => seg ++ SEP :: joinSegments segs'
  end.

(** [path.normalize(path)] *)
Definition normalize (path : jsstring) : jsstring :=
  match path with
  | [] => str "."
  | c :: _ =>
      let isAbsolute := Ascii.eqb c SEP in
      let trailingSeparator :=
        match last path with
        | Some l => Ascii.eqb l SEP
        | None => false
        end in
      match joinSegments
              (normalizeSegments (negb isAbsolute) (segments path)) with
      | [] =>
          if isAbsolute then str "/"
          else if trailingSeparator then str "./" else str "."
      | p =>
          (if isAbsolute then [SEP] else []) ++ p ++
          (if trailingSeparator then [SEP] else [])
      end
  end.

(** [path.join(a, b)]: the arguments that are not empty, with a separator
    between them, normalized. *)
Definition join (a b : jsstring) : jsstring :=
  match a, b with
  | [], [] => str "."
  | [], _ => normalize b
  | _, [] => normalize a
  | _, _ => normalize (a ++ SEP :: b)
  end.

End Path.

(* ===================================================================== *)
(** * Evidence validator *)
(* ===================================================================== *)

Module Validate.
Import JS Num Manual.

#[local] Set Warnings "-register-all".

(** A JSON value. *)
Inductive json :=
| JNull
| JBool (b : bool)
| JNumber (x : number)
| JString (s : jsstring)
| JArray (l : list json)
| JObject (entries : list (jsstring * json)).

(** What a path names in the file system: a file with its text, or
    something that [existsSync] finds and [readFileSync] throws for, such
    as a directory. *)
Inductive node :=
| File (text : jsstring)
| Unreadable.

(** The file system: what each path names; [None] where there is
    nothing. *)
Definition fileSystem := jsstring -> option node.

(** The entries that [checkField] pushes to [errors]. *)
Inductive issue :=
| NoEvidence (fieldPath : jsstring)
| MissingChunkFile (chunkFile : jsstring)
| SnippetNotFound (sourceFile fieldPath : jsstring).

(** What a part of the validation leaves behind: the entries that it
    pushed to [errors], and whether it ended with the exception of
    [readFileSync], which ends the validator. *)
Record outcome := mkOutcome { pushed : list issue; threw : bool }.

(** One part after another: the second one runs when the first one has
    not thrown. *)
Definition andThen (a b : outcome) : outcome :=
  if threw a then a else mkOutcome (pushed a ++ pushed b) (threw b).

Definition SKIP_FIELDS : list jsstring :=
  [str "evidence"; str "validation"; str "validation.hardConstraints";
   str "validation.crossField"; str "provenance"; str "provenance.documents"].

(** The body of the loop over [evRows]: the check of one evidence object
    against the file that [path.join(chunkDir, ev.sourceFile)] names. *)
Definition checkEvidence (fs : fileSystem) (chunkDir fieldPath : jsstring)
    (ev : Evidence) : outcome :=
  let chunkFile := Path.join chunkDir (sourceFile ev) in
  match fs chunkFile with
  | None => mkOutcome [MissingChunkFile chunkFile] false
  | Some Unreadable => mkOutcome [] true
  | Some (File chunkText) =>
      if negb (includes chunkText (trim (snippet ev)))
      then mkOutcome [SnippetNotFound (sourceFile ev) fieldPath] false
      else mkOutcome [] false
  end.

(** The loop over [evRows]. *)
Fixpoint checkRows (fs : fileSystem) (chunkDir fieldPath : jsstring)
    (evRows : list Evidence) : outcome :=
  match evRows with
  | [] => mkOutcome [] false
  | ev :: evRows' =>
      andThen (checkEvidence fs chunkDir fieldPath ev)
              (checkRows fs chunkDir fieldPath evRows')
  end.

(** [checkField(fieldPath, value)]. *)
Definition checkField (fs : fileSystem) (chunkDir : jsstring)
    (evidence : list Evidence) (fieldPath : jsstring) (value : json)
    : outcome :=
  if bool_decide (fieldPath ∈ SKIP_FIELDS) then mkOutcome [] false
  else
    match value with
    | JNull | JString [] => mkOutcome [] false
    | JArray _ | JObject _ => mkOutcome [] false
    | _ =>
        let evRows :=
          List.filter (fun e => bool_decide (field e = Some fieldPath))
                      evidence in
        match evRows with
        | [] => mkOutcome [NoEvidence fieldPath] false
        | _ => checkRows fs chunkDir fieldPath evRows
        end
    end.

Definition joinPath (prefix key : jsstring) : jsstring :=
  match prefix with
  | [] => key
  | _ => prefix ++ str "." ++ key
  end.

(** [walk(obj, prefix)] on the entries of [obj]. *)
Fixpoint walkValue (fs : fileSystem) (chunkDir : jsstring)
    (evidence : list Evidence) (fieldPath : jsstring) (val : json)
    : outcome :=
  match val with
  | JObject entries =>
      (fix walkEntries (es : list (jsstring * json)) : outcome :=
         match es with
         | [] => mkOutcome [] false
         | (key, v) :: es' =>
             andThen
               (walkValue fs chunkDir evidence (joinPath fieldPath key) v)
               (walkEntries es')
         end) entries
  | JArray _ => mkOutcome [] false
  | _ => checkField fs chunkDir evidence fieldPath val
  end.

Definition walk (fs : fileSystem) (chunkDir : jsstring)
    (evidence : list Evidence) (obj : list (jsstring * json)) : outcome :=
  walkValue fs chunkDir evidence [] (JObject obj).


End Validate.

Module RegexSem.
Import JS Regex.

(** The strings that a pattern matches, in their context: [Matches ic r
    before w after] says that [r] matches [w] between [before] and
    [after].  An iteration of a quantifier beyond its minimum is not
    empty. *)
Inductive Matches (ic : bool)
    : regex -> jsstring -> jsstring -> jsstring -> Prop :=
| M_Eps b a : Matches ic Eps b [] a
| M_Chr c d b a :
    char_eqb (canon ic c) (canon ic d) = true -> Matches ic (Chr c) b [d] a
| M_Any d b a : isLineTerminator d = false -> Matches ic Any b [d] a
| M_Class neg items d b a :
    xorb neg (class_mem ic items d) = true ->
    Matches ic (Class neg items) b [d] a
| M_Seq r1 r2 b w1 w2 a :
    Matches ic r1 b w1 (w2 ++ a) -> Matches ic r2 (b ++ w1) w2 a ->
    Matches ic (Seq r1 r2) b (w1 ++ w2) a
| M_AltL r1 r2 b w a : Matches ic r1 b w a -> Matches ic (Alt r1 r2) b w a
| M_AltR r1 r2 b w a : Matches ic r2 b w a -> Matches ic (Alt r1 r2) b w a
| M_RepNil r hi g b a : Matches ic (Rep r 0 hi g) b [] a
| M_RepCons r lo hi g b w1 w2 a :
    hi <> Some 0%nat -> (lo = 0%nat -> w1 <> []) ->
    Matches ic r b w1 (w2 ++ a) ->
    Matches ic (Rep r (Nat.pred lo) (Nat.pred <$> hi) g) (b ++ w1) w2 a ->
    Matches ic (Rep r lo hi g) b (w1 ++ w2) a
| M_Group i r b w a : Matches ic r b w a -> Matches ic (Group i r) b w a
| M_WordB b a : boundary b a -> Matches ic WordB b [] a
| M_Bol a : Matches ic Bol [] [] a
| M_Eol b : Matches ic Eol b [] [].

(** [r] matches somewhere in [s]. *)
Definition occurs (ic : bool) (r : regex) (s : jsstring) : Prop :=
  exists pre w post, s = pre ++ w ++ post /\ Matches ic r pre w post.

(** A matcher that succeeds only on what [r] matches, leaving the
    captures of other groups as they are. *)
Definition sound_for {R} ic r (m : matcher R) : Prop :=
  forall pre tl cs (k : mstate -> caps -> option R) z,
    m (state_of pre tl) cs k = Some z ->
    exists w tl' cs',
      tl = w ++ tl' /\ Matches ic r pre w tl' /\
      k (state_of (pre ++ w) tl') cs' = Some z /\
      forall i, ~ In i (groups r) -> capture cs' i = capture cs i.

(** [n] is a number of iterations that [{lo,hi}] allows. *)
Definition within (n : nat) (lo : nat) (hi : option nat) : Prop :=
  (lo <= n)%nat /\ match hi with Some h => (n <= h)%nat | None => True end.

End RegexSem.

Module RegexCaptures.
Import JS Regex.

(** The captures of a match: [Captures ic r before w after cs cs'] says
    that [r] matches [w] between [before] and [after], and that the
    captures [cs] before the match are [cs'] after it.  A quantifier
    clears the captures of its groups at the start of an iteration. *)
Inductive Captures (ic : bool)
    : regex -> jsstring -> jsstring -> jsstring -> caps -> caps -> Prop :=
| C_Eps b a cs : Captures ic Eps b [] a cs cs
| C_Chr c d b a cs :
    char_eqb (canon ic c) (canon ic d) = true ->
    Captures ic (Chr c) b [d] a cs cs
| C_Any d b a cs :
    isLineTerminator d = false -> Captures ic Any b [d] a cs cs
| C_Class neg items d b a cs :
    xorb neg (class_mem ic items d) = true ->
    Captures ic (Class neg items) b [d] a cs cs
| C_Seq r1 r2 b w1 w2 a cs cs1 cs2 :
    Captures ic r1 b w1 (w2 ++ a) cs cs1 ->
    Captures ic r2 (b ++ w1) w2 a cs1 cs2 ->
    Captures ic (Seq r1 r2) b (w1 ++ w2) a cs cs2
| C_AltL r1 r2 b w a cs cs' :
    Captures ic r1 b w a cs cs' -> Captures ic (Alt r1 r2) b w a cs cs'
| C_AltR r1 r2 b w a cs cs' :
    Captures ic r2 b w a cs cs' -> Captures ic (Alt r1 r2) b w a cs cs'
| C_RepNil r hi g b a cs : Captures ic (Rep r 0 hi g) b [] a cs cs
| C_RepCons r lo hi g b w1 w2 a cs cs1 cs2 :
    hi <> Some 0%nat -> (lo = 0%nat -> w1 <> []) ->
    Captures ic r b w1 (w2 ++ a) (clear (groups r) cs) cs1 ->
    Captures ic (Rep r (Nat.pred lo) (Nat.pred <$> hi) g) (b ++ w1) w2 a
             cs1 cs2 ->
    Captures ic (Rep r lo hi g) b (w1 ++ w2) a cs cs2
| C_Group i r b w a cs cs' :
    Captures ic r b w a cs cs' ->
    Captures ic (Group i r) b w a cs ((i, w) :: cs')
| C_WordB b a cs : boundary b a -> Captures ic WordB b [] a cs cs
| C_Bol a cs : Captures ic Bol [] [] a cs cs
| C_Eol b cs : Captures ic Eol b [] [] cs cs.

(** A matcher that succeeds only with the captures of a match of [r]. *)
Definition captures_for {R} ic r (m : matcher R) : Prop :=
  forall pre tl cs (k : mstate -> caps -> option R) z,
    m (state_of pre tl) cs k = Some z ->
    exists w tl' cs',
      tl = w ++ tl' /\ Captures ic r pre w tl' cs cs' /\
      k (state_of (pre ++ w) tl') cs' = Some z.

End RegexCaptures.

Module Accession.
Import JS Regex Num Manual.

Definition digit_d : regex := Class false [CDigit].     (* \d *)

(** [/^\d{10}-\d{2}-\d{6}$/] *)
Definition re_accession : regex :=
  seqs [Bol; Rep digit_d 10 (Some 10%nat) true; Chr (ch "-");
        Rep digit_d 2 (Some 2%nat) true; Chr (ch "-");
        Rep digit_d 6 (Some 6%nat) true; Eol].

(** [acc.replace(/\D/g, '')] *)
Definition digitsOnly (acc : jsstring) : jsstring :=
  removeAll (fun c => negb (isDigit c)) acc.

(** [formatAccession(acc)]; [None] is [null]. *)
Definition formatAccession (acc : option jsstring) : option jsstring :=
  match acc with
  | None | Some [] => None
  | Some acc =>
      if test false re_accession acc then Some acc
      else
        let digits := digitsOnly acc in
        if len digits =? 18 then
          Some (slice digits 0 10 ++ str "-" ++ slice digits 10 12 ++
                str "-" ++ slice digits 12 18)
        else None
  end.

(** The accession format: ten digits, two digits and six digits, joined by
    hyphens. *)
Definition isAccession (s : jsstring) : Prop :=
  exists a b c,
    s = a ++ str "-" ++ b ++ str "-" ++ c /\
    length a = 10%nat /\ length b = 2%nat /\ length c = 6%nat /\
    digits a /\ digits b /\ digits c.

(** The test of line 629 of [run]: the hard constraint on [doc.accession]. *)
Definition accessionInvalid (accession : option jsstring) : bool :=
  falsy accession || negb (test false re_accession (default [] accession)).

End Accession.

Module Money.
Import JS Regex Num Manual.

(** A Number that is neither [NaN] nor negative: [+0], a positive finite
    Number or [+Infinity]. *)
Definition nonneg (x : number) : Prop :=
  match x with
  | S754_zero s | S754_infinity s | S754_finite s _ _ => s = false
  | S754_nan => False
  end.

Definition hasDigit (s : jsstring) : Prop := Exists (fun c => isDigit c = true) s.

(** [x - y] *)
Definition sub : number -> number -> number := SFsub prec emax.

(** [/(?:\$|USD\s* )\s*[0-9,]+(?:\.[0-9]+)?\s*(?:million|billion|thousand)?/gi]
    (the source has no blank after [USD\s*]) *)
Definition re_moneyMention : regex :=
  seqs [re_marker; star ws; plus (Class false [cr "0" "9"; cc ","]);
        opt (Seq (Chr (ch ".")) (plus digit)); star ws;
        opt (alts [lit "million"; lit "billion"; lit "thousand"])].

(** [/\$?\s*[0-9]{1,3}(?:,[0-9]{3})+(?:\.[0-9]+)?/g] *)
Definition re_plainNumber : regex :=
  seqs [opt (Chr (ch "$")); star ws; range 1 3 digit;
        plus (Seq (Chr (ch ",")) (range 3 3 digit));
        opt (Seq (Chr (ch ".")) (plus digit))].

(** [{ raw, usd }] *)
Record Amount := mkAmount { raw : jsstring; usd : number }.

(** The loop of lines 367-370 and 371-374: the matches whose amount is
    truthy. *)
Fixpoint pushAmounts (matches : list MatchResult) (amounts : list Amount)
    : list Amount :=
  match matches with
  | [] => amounts
  | m :: matches' =>
      match parseMoneyToUSD (Some (matched m)) with
      | Some val =>
          pushAmounts matches'
            (if truthy val then amounts ++ [mkAmount (matched m) val]
             else amounts)
      | None => pushAmounts matches' amounts
      end
  end.

(** [amounts.sort((a,b) => b.usd - a.usd)].  [Array.prototype.sort] is
    stable, and takes a comparator result that is [NaN] for [0]: [a] stays
    before [b] unless [b.usd - a.usd > 0]. *)
Fixpoint insertAmount (a : Amount) (sorted : list Amount) : list Amount :=
  match sorted with
  | [] => [a]
  | b :: sorted' =>
      if gtb (sub (usd b) (usd a)) (of_Z 0) then b :: insertAmount a sorted'
      else a :: sorted
  end.

Definition sortAmounts (amounts : list Amount) : list Amount :=
  foldr insertAmount [] amounts.

(** Lines 364-378 of [run]: the amounts of the context window, largest
    first. *)
Definition amountsOf (contextWindow : jsstring) : list Amount :=
  let moneyMatches := matchAll true re_moneyMention contextWindow in
  let plainNumberMatches := matchAll false re_plainNumber contextWindow in
  sortAmounts (pushAmounts plainNumberMatches (pushAmounts moneyMatches [])).

(** [event.totalValueUSD] and the text it was read from. *)
Definition totalValue (contextWindow : jsstring) : option number :=
  usd <$> head (amountsOf contextWindow).

End Money.

Module Cleaner.
Import JS Regex Chunker.

(** What the chunk texts add up to: the first chunk, then every later
    chunk without the [overlap] characters it shares with its
    predecessor. *)
Definition reassemble (overlap : Z) (cs : list Chunk) : jsstring :=
  match cs with
  | [] => []
  | c :: cs' =>
      text c ++ flat_map (fun c' => drop (Z.to_nat overlap) (text c')) cs'
  end.

(** The number of chunks of a text of [n] characters. *)
Definition chunkCount (n target overlap : Z) : Z :=
  if n =? 0 then 0
  else if n <=? target then 1
  else 1 + (n - target + (target - overlap) - 1) / (target - overlap).

Definition isCR (c : ascii) : bool := (code c =? 13)%N.

(** [ ] becomes a blank. *)
Definition blankForNbsp (c : ascii) : ascii :=
  if (code c =? 160)%N then ch " " else c.

(** [s.replace(/\s+/g, ' ')] *)
Fixpoint collapse_ws_aux (s : jsstring) (inws : bool) : jsstring :=
  match s with
  | [] => []
  | c :: s' =>
      if isWhiteSpace c then
        if inws then collapse_ws_aux s' true
        else ch " " :: collapse_ws_aux s' true
      else c :: collapse_ws_aux s' false
  end.

Definition collapse_ws (s : jsstring) : jsstring := collapse_ws_aux s false.

(** [cleanText(text)] *)
Definition cleanText (text : jsstring) : jsstring :=
  trim (collapse_ws (map blankForNbsp (removeAll isCR text))).

(** Every white space character of [s] is a blank that does not follow
    white space; [prevws] says whether white space precedes [s]. *)
Fixpoint singleSpaced (s : jsstring) (prevws : bool) : bool :=
  match s with
  | [] => true
  | c :: s' =>
      if isWhiteSpace c
      then char_eqb c (ch " ") && negb prevws && singleSpaced s' true
      else singleSpaced s' false
  end.

(** The texts that [cleanText] produces: single blanks between words, no
    other white space. *)
Definition normalized (s : jsstring) : Prop :=
  singleSpaced s true = true /\ endsClean s.

End Cleaner.

Module ChunkStore.
Import JS Regex.

(** The digit character of [d], for [0 <= d <= 9]. *)
Definition digitChar (d : Z) : ascii := ascii_of_N (Z.to_N (48 + d)).

(** The decimal digits of [n], at most [fuel] of them. *)
Fixpoint digitsOf (fuel : nat) (n : Z) : jsstring :=
  match fuel with
  | O => []
  | S fuel' =>
      if n <? 10 then [digitChar n]
      else digitsOf fuel' (n / 10) ++ [digitChar (n mod 10)]
  end.

(** [String(n)] for an integer [n >= 0]. *)
Definition toString (n : Z) : jsstring :=
  digitsOf (S (Z.to_nat (Z.log2 n))) n.

(** [s.padStart(targetLength, fill)] for a fill string of one character. *)
Definition padStart (targetLength : nat) (fill : ascii) (s : jsstring)
    : jsstring :=
  replicate (targetLength - length s) fill ++ s.

(** The file name of the chunk at index [i]:
    [`chunk_${String(i + 1).padStart(4, '0')}.txt`]. *)
Definition chunkName (i : Z) : jsstring :=
  str "chunk_" ++ padStart 4 (ch "0") (toString (i + 1)) ++ str ".txt".

(** An entry of [index.chunks]: [{ file, start, end }]. *)
Record IndexEntry := mkIndexEntry
  { entry_file : jsstring; entry_start : Z; entry_end : Z }.

(** The object written to [index.json]. *)
Record Index (Meta : Type) := mkIndex
  { totalLength : Z; index_chunks : list IndexEntry; metadata : Meta }.

Section Save.
Context {Meta : Type}.

(** The text that [fs.writeJson] writes for an index. *)
Variable writeJson : Index Meta -> jsstring.

(** The loop of [saveChunks]: the directory and [index.chunks] after the
    chunks from index [i] on have been written. *)
Fixpoint writeChunks (i : Z) (chunks : list Chunker.Chunk)
    (dir : gmap jsstring jsstring) (entries : list IndexEntry)
    : gmap jsstring jsstring * list IndexEntry :=
  match chunks with
  | [] => (dir, entries)
  | c :: chunks' =>
      let name := chunkName i in
      writeChunks (i + 1) chunks' (<[name := Chunker.text c]> dir)
        (entries ++ [mkIndexEntry name (Chunker.start c) (Chunker.end_ c)])
  end.

(** [saveChunks(chunks, metadata)]: the chunk directory after the call and
    the value returned.  [dir = None] is a directory that does not exist
    yet; [fs.ensureDir] creates it. *)
Definition saveChunks (dir : option (gmap jsstring jsstring))
    (chunks : list Chunker.Chunk) (meta : Meta)
    : gmap jsstring jsstring * Z :=
  let dir := default ∅ dir in
  let total :=
    fold_left (fun sum c => sum + len (Chunker.text c)) chunks 0 in
  let '(dir, entries) := writeChunks 0 chunks dir [] in
  (<[str "index.json" := writeJson (mkIndex Meta total entries meta)]> dir,
   Z.of_nat (length chunks)).

End Save.

(** The files that [loadChunks] reads. *)
Definition isChunkFile (f : jsstring) : bool :=
  endsWith f (str ".txt") && startsWith f (str "chunk_").

(** The order of [Array.prototype.sort] on strings. *)
Definition str_le (a b : jsstring) : Prop := Manual.str_leb a b = true.

(** The names of the first [n] chunk files. *)
Definition chunkNames (n : nat) : list jsstring :=
  map (fun i => chunkName (Z.of_nat i)) (seq 0 n).

(** The four digits of a number below 10000. *)
Definition digits4 (n : Z) : list Z :=
  [n / 1000; n / 100 mod 10; n / 10 mod 10; n mod 10].

End ChunkStore.

Module EvidenceShape.
Import JS Regex Manual.

(** The invariants of the evidence objects that [findEvidence] returns. *)
Definition wellFormed (manifest : Manifest) (ev : Evidence) : Prop :=
  field ev = None /\
  selector ev = str "chunk:" ++ sourceFile ev /\
  sourceUrl ev = primary_url manifest /\
  len (snippet ev) <= 200.

(** A candidate without white space: an accession number, a date, a
    name of one word. *)
Definition token (s : jsstring) : Prop :=
  s <> [] /\ Forall (fun c => isWhiteSpace c = false) s.

(** [t] contains [s] up to the case of letters. *)
Definition ciOccurs (s t : jsstring) : Prop :=
  exists pre w post, t = pre ++ w ++ post /\ ci_eq w s.

End EvidenceShape.

(* ===================================================================== *)
(** * The event kind: [detectEventKind] of extract-manual.js *)
(* ===================================================================== *)

Module EventKind.
Import JS Regex Manual.

Definition COLLABORATION_WORDS : list string :=
  ["collaboration agreement"; "license agreement"; "strategic collaboration";
   "collaborat"]%string.

Definition MERGER_WORDS : list string :=
  ["merger"; "acquisition"; "acquired"; "acquires"; "purchase agreement";
   "merger agreement"]%string.

Definition PARTNER_WORDS : list string :=
  ["partnership"; "partner"; "strategic alliance"]%string.

Definition FINANCING_WORDS : list string :=
  ["financing"; "loan"; "equity financing"; "underwritten offering";
   "investment"]%string.

(** [/\b(collaboration agreement|license agreement|strategic collaboration|collaborat)/i]:
    no word boundary at the end. *)
Definition re_collaboration : regex :=
  seqs [WordB;
        Group 1 (alts [lit "collaboration agreement"; lit "license agreement";
                       lit "strategic collaboration"; lit "collaborat"])].

(** [/\b(merger|acquisition|acquired|acquires|purchase agreement|merger agreement)\b/i] *)
Definition re_merger : regex :=
  seqs [WordB;
        Group 1 (alts [lit "merger"; lit "acquisition"; lit "acquired";
                       lit "acquires"; lit "purchase agreement";
                       lit "merger agreement"]);
        WordB].

(** [/\b(partnership|partner|strategic alliance)\b/i] *)
Definition re_partner : regex :=
  seqs [WordB;
        Group 1 (alts [lit "partnership"; lit "partner";
                       lit "strategic alliance"]);
        WordB].

(** [/\b(financing|loan|equity financing|underwritten offering|investment)\b/i] *)
Definition re_financing : regex :=
  seqs [WordB;
        Group 1 (alts [lit "financing"; lit "loan"; lit "equity financing";
                       lit "underwritten offering"; lit "investment"]);
        WordB].

(** [detectEventKind(text)]; [None] as the argument and as the result is
    [null]. *)
Definition detectEventKind (text : option jsstring) : option jsstring :=
  match text with
  | None | Some [] => None
  | Some text =>
      let t := toLowerCase text in
      if test true re_collaboration t then Some (str "Collaboration")
      else if test true re_merger t then Some (str "Merger")
      else if test true re_partner t then Some (str "Partnership")
      else if test true re_financing t then Some (str "Financing")
      else None
  end.

(** [s] contains one of [terms], up to case, with a word boundary in front
    of it: what [/\b(t1|...|tn)/i] tests. *)
Definition startsWord (terms : list string) (s : jsstring) : Prop :=
  exists pre w post t,
    s = pre ++ w ++ post /\ In t terms /\ ci_eq w (str t) /\
    boundary pre (w ++ post).

End EventKind.

(* ===================================================================== *)
(** * The evidence coverage of the report: [countFields] of report.js *)
(* ===================================================================== *)

Module Report.
Import JS Manual Validate.

(** The set [SKIP_FIELDS] of the report. *)
Definition SKIP_FIELDS : list jsstring :=
  [str "evidence"; str "validation"; str "validation.hardConstraints";
   str "validation.crossField"; str "provenance"; str "provenance.documents"].

(** The three variables that [countFields] updates. *)
Record Coverage := mkCoverage
  { totalFields : Z;
    fieldsWithEvidence : Z;
    fieldsWithoutEvidence : list jsstring }.

(** [evidence.some(e => e.field === fieldPath)] *)
Definition hasEvidence (evidence : list Evidence) (fieldPath : jsstring)
    : bool :=
  existsb (fun e => bool_decide (field e = Some fieldPath)) evidence.

(** The branch of [countFields] for a value that is neither an object nor
    an array. *)
Definition countLeaf (evidence : list Evidence) (fieldPath : jsstring)
    (val : json) (st : Coverage) : Coverage :=
  match val with
  | JNull | JString [] => st
  | _ =>
      if hasEvidence evidence fieldPath then
        mkCoverage (totalFields st + 1) (fieldsWithEvidence st + 1)
                   (fieldsWithoutEvidence st)
      else
        mkCoverage (totalFields st + 1) (fieldsWithEvidence st)
                   (fieldsWithoutEvidence st ++ [fieldPath])
  end.

(** [countFields(obj, prefix)] on the entries of [obj]: a skipped path is
    left before anything else is looked at. *)
Fixpoint countValue (evidence : list Evidence) (fieldPath : jsstring)
    (val : json) (st : Coverage) : Coverage :=
  match val with
  | JObject entries =>
      (fix countEntries (es : list (jsstring * json)) (st : Coverage)
           : Coverage :=
         match es with
         | [] => st
         | (key, v) :: es' =>
             let fieldPath' := joinPath fieldPath key in
             countEntries es'
               (if bool_decide (fieldPath' ∈ SKIP_FIELDS) then st
                else countValue evidence fieldPath' v st)
         end) entries st
  | JArray _ => st
  | _ => countLeaf evidence fieldPath val st
  end.

(** The variables after [countFields(data)]. *)
Definition countFields (evidence : list Evidence)
    (data : list (jsstring * json)) : Coverage :=
  countValue evidence [] (JObject data) (mkCoverage 0 0 []).

(** A path below a skipped one. *)
Definition belowSkipped (fieldPath : jsstring) : Prop :=
  exists skipped rest,
    skipped ∈ SKIP_FIELDS /\ fieldPath = skipped ++ str "." ++ rest.

(** An evidence object that names no field, or a skipped one. *)
Definition skippedRow (e : Evidence) : bool :=
  match field e with
  | Some f => bool_decide (f ∈ Validate.SKIP_FIELDS)
  | None => true
  end.

(** What one call of [countFields] adds to the three variables, against
    what [walk] of the validator reports for the same value. *)
Definition counts (fs : fileSystem) (chunkDir : jsstring)
    (evidence : list Evidence)
    (p : jsstring) (v : json) (st st' : Coverage) : Prop :=
  exists (n : Z) (added : list jsstring),
    0 <= n /\
    st' = mkCoverage (totalFields st + n + Z.of_nat (length added))
                     (fieldsWithEvidence st + n)
                     (fieldsWithoutEvidence st ++ added) /\
    (forall q, q ∈ added ->
               (threw (walkValue fs chunkDir evidence p v) = false ->
                NoEvidence q ∈ pushed (walkValue fs chunkDir evidence p v)) /\
               hasEvidence evidence q = false) /\
    (forall q, NoEvidence q ∈ pushed (walkValue fs chunkDir evidence p v) ->
               q ∈ added \/ belowSkipped q).

End Report.

(* ===================================================================== *)
(** * The text that [run] reads: lines 264 and 291-297 of extract-manual.js *)
(* ===================================================================== *)

Module Context.
Import JS Regex Manual.

Definition LF : ascii := ascii_of_N 10.

(** [parts.join(sep)] *)
Fixpoint join (sep : jsstring) (parts : list jsstring) : jsstring :=
  match parts with
  | [] => []
  | [p] => p
  | p :: parts' => p ++ sep ++ join sep parts'
  end.

(** [chunks.map(c => c.text).join("\n\n")] *)
Definition fullText (chunks : list Chunk) : jsstring :=
  join [LF; LF] (map text chunks).

(** [/===\s*Item\s+([\d.]+)/i] *)
Definition re_itemMarker : regex :=
  seqs [lit "==="; star ws; lit "Item"; plus ws;
        Group 1 (plus (Class false [CDigit; cc "."]))].

(** [itemMatch?.index || 0] *)
Definition itemIndex (fullText : jsstring) : Z :=
  match exec true re_itemMarker fullText with
  | Some m => Z.of_nat (index m)
  | None => 0
  end.

Definition contextWindow (fullText : jsstring) : jsstring :=
  slice fullText (Z.max 0 (itemIndex fullText - 1000))
        (Z.min (len fullText) (itemIndex fullText + 8000)).

(** [chunks.reduce((sum, c) => sum + c.text.length, 0)], the
    [totalLength] of the index that [saveChunks] writes. *)
Definition totalTextLength (chunks : list Chunker.Chunk) : Z :=
  fold_left (fun sum c => sum + len (Chunker.text c)) chunks 0.

End Context.

(* ===================================================================== *)
(** * The hard constraints: lines 625-655 of [run] *)
(* ===================================================================== *)

Module Constraints.
Import JS Regex Num Manual Accession.

(** An entry of [provDocs]. *)
Record ProvDoc := mkProvDoc
  { role : jsstring;
    filename : jsstring;
    doc_sourceUrl : option jsstring;
    sha256 : jsstring }.

Definition INVALID_ACCESSION : jsstring := str "Invalid accession format".
Definition MISSING_FILED_DATE : jsstring := str "Missing filed date".
Definition MISSING_SEC_ITEM : jsstring := str "Missing SEC Item number".
Definition INVALID_COMPANY : jsstring :=
  str "Missing or invalid company name".
Definition INVALID_PARTNER_A : jsstring :=
  str "Invalid partnerA - appears to be sentence fragment".
Definition INVALID_PARTNER_B : jsstring :=
  str "Invalid partnerB - appears to be sentence fragment".

(** [`provenance.sha256 invalid for ${pd.filename}`] *)
Definition SHA256_INVALID (pd : ProvDoc) : jsstring :=
  str "provenance.sha256 invalid for " ++ filename pd.

(** [/\b(provisions|warranties|obligations|agreement|contains)\b/i] *)
Definition re_fragment : regex :=
  seqs [WordB;
        Group 1 (alts [lit "provisions"; lit "warranties"; lit "obligations";
                       lit "agreement"; lit "contains"]);
        WordB].

Definition FRAGMENT_WORDS : list string :=
  ["provisions"; "warranties"; "obligations"; "agreement";
   "contains"]%string.

(** The vocabulary of [re_notAName]. *)
Definition NOT_A_NAME_WORDS : list string :=
  ["Agreement"; "provisions"; "warranties"; "obligations";
   "representations"; "confidentiality"; "contains"; "among"]%string.

(** The test of lines 644-646 and 649-651 on a partner name. *)
Definition fragment (partner : option jsstring) : bool :=
  negb (falsy partner) &&
  (test true re_fragment (default [] partner) ||
   (10 <? wordCount (default [] partner))).

(** The list [hardConstraints] at line 655. *)
Definition hardConstraints (doc : Doc) (event : Event)
    (provDocs : list ProvDoc) (partnership : option Partnership)
    : list jsstring :=
  (if accessionInvalid (accession doc) then [INVALID_ACCESSION] else []) ++
  (if falsy (filedDate doc) then [MISSING_FILED_DATE] else []) ++
  (if falsy (secItem event) then [MISSING_SEC_ITEM] else []) ++
  (if falsy (companyName doc) ||
      bool_decide (companyName doc = Some (str "Not applicable"))
   then [INVALID_COMPANY] else []) ++
  flat_map (fun pd =>
              if bool_decide (sha256 pd = []) || negb (len (sha256 pd) =? 64)
              then [SHA256_INVALID pd] else []) provDocs ++
  match partnership with
  | Some p =>
      (if fragment (partnerA p) then [INVALID_PARTNER_A] else []) ++
      (if fragment (partnerB p) then [INVALID_PARTNER_B] else [])
  | None => []
  end.

(** The vocabulary of [re_territory]. *)
Definition TERRITORY_WORDS : list string :=
  ["worldwide"; "globally"; "global"; "United States"; "U.S.";
   "outside the U.S."]%string.

End Constraints.

(* ===================================================================== *)
(** * The company name: [extractCompanyName] of extract-manual.js *)
(* ===================================================================== *)

Module Company.
Import JS Regex Manual Context.

Definition CR : ascii := ascii_of_N 13.
Definition TAB : ascii := ascii_of_N 9.
Definition DQUOTE : ascii := ascii_of_N 34.

(** [[\s\S]] *)
Definition anychar : regex := Class true [].

(** The optional quotation mark of the pattern of strategy 1. *)
Definition quote_opt : regex := opt (Class false [CChar DQUOTE; cc "'"]).

(** [[A-Za-z0-9\s,&.'\-]] *)
Definition company_char : regex :=
  Class false [cr "A" "Z"; cr "a" "z"; cr "0" "9"; CSpace; cc ","; cc "&";
               cc "."; cc "'"; cc "-"].

(** [(?:Inc\.?|Corporation|Corp\.?|Ltd\.?|LLC|Pharmaceuticals|Holdings|Technologies|Systems|Group|PLC|AG|GmbH)] *)
Definition company_suffix : regex :=
  alts [Seq (lit "Inc") dot_opt; lit "Corporation"; Seq (lit "Corp") dot_opt;
        Seq (lit "Ltd") dot_opt; lit "LLC"; lit "Pharmaceuticals";
        lit "Holdings"; lit "Technologies"; lit "Systems"; lit "Group";
        lit "PLC"; lit "AG"; lit "GmbH"].

(** [[A-Z][A-Za-z0-9\s,&.'\-]{lo,80}?(?:Inc\.?|...|GmbH)] *)
Definition company_name (lo : nat) : regex :=
  seqs [upper; range_lazy lo 80 company_char; company_suffix].

(** [Item\s+1\.01] *)
Definition item101 : regex := seqs [lit "Item"; plus ws; lit "1.01"].

(** The pattern of strategy 1. *)
Definition item101Pattern : regex :=
  seqs [item101; range_lazy 0 800 anychar; Group 1 (company_name 3);
        plus (Class false [CSpace; cc ","]); Chr (ch "("); quote_opt;
        lit "the"; plus ws; quote_opt; Alt (lit "Company") (lit "Registrant");
        quote_opt; Chr (ch ")")].

(** The pattern of strategy 2. *)
Definition beforeItemPattern : regex :=
  seqs [Group 1 (company_name 5); range_lazy 0 500 anychar; lit "===";
        star ws; item101].

(** The pattern of strategy 4. *)
Definition exactNamePattern : regex :=
  seqs [lit "Date of report"; star (Class true [CChar LF]); Chr LF; star ws;
        Group 1 (Seq (company_name 5) dot_opt);
        star ws; Chr LF; star ws; Chr (ch "("); lit "Exact"; plus ws;
        lit "name"].

(** The pattern of strategy 5. *)
Definition headerPattern : regex :=
  seqs [lit "FORM"; plus ws; lit "8-K"; range_lazy 0 2000 anychar;
        Alt (seqs [Chr (ch "("); lit "Exact"; plus ws; lit "name"]) item101].

(** The words that strategies 1, 2 and 4 and the manifest check refuse. *)
Definition re_refused1 : regex :=
  seqs [WordB;
        Group 1 (alts [lit "State"; lit "jurisdiction"; lit "incorporation";
                       lit "provisions"; lit "warranties"; lit "Commission";
                       lit "File"; lit "Number"]);
        WordB].

Definition re_refused2 : regex :=
  seqs [WordB;
        Group 1 (alts [lit "State"; lit "jurisdiction"; lit "incorporation";
                       lit "Commission"; lit "File"; lit "Trading";
                       lit "Symbol"]);
        WordB].

Definition re_refused3 : regex :=
  seqs [WordB;
        Group 1 (alts [lit "jurisdiction"; lit "incorporation"; lit "State"]);
        WordB].

Definition re_refused4 : regex :=
  seqs [WordB;
        Group 1 (alts [lit "State"; lit "jurisdiction"; lit "incorporation";
                       lit "Commission"]);
        WordB].

(** [/(?:Inc\.?|...|GmbH)\.?\s*$/i] *)
Definition re_lineSuffix : regex :=
  seqs [company_suffix; dot_opt; star ws; Eol].

(** [/^(UNITED STATES|SECURITIES|...|telephone)/i] *)
Definition re_lineHeading : regex :=
  seqs [Bol;
        Group 1 (alts [lit "UNITED STATES"; lit "SECURITIES";
                       lit "COMMISSION"; lit "WASHINGTON"; lit "FORM";
                       lit "CURRENT REPORT"; lit "Date of"; lit "State";
                       lit "Commission"; lit "File"; lit "Number";
                       lit "Exact name"; lit "incorporation";
                       lit "jurisdiction"; lit "Trading"; lit "Symbol";
                       lit "Title"; lit "Name of"; lit "Address";
                       lit "Registrant"; lit "telephone"])].

(** [/^[A-Z]/] *)
Definition re_startsUpper : regex := seqs [Bol; upper].

Definition isCommaOrSpace (c : ascii) : bool :=
  char_eqb c (ch ",") || isWhiteSpace c.

(** What is left of [s] after its longest prefix of characters that
    satisfy [p]. *)
Fixpoint skip (p : ascii -> bool) (s : jsstring) : jsstring :=
  match s with
  | c :: s' => if p c then skip p s' else s
  | [] => []
  end.

(** [s.replace(/[...]+$/, '')]: [s] without its last characters that
    satisfy [p]. *)
Definition stripEnd (p : ascii -> bool) (s : jsstring) : jsstring :=
  rev (skip p (rev s)).

(** A piece of [s.split(/\r?\n/)] ends in front of the line feed, or in
    front of a carriage return that precedes it. *)
Definition beforeBreak (cur : jsstring) : jsstring :=
  match last cur with
  | Some c => if char_eqb c CR then take (length cur - 1) cur else cur
  | None => cur
  end.

(** [s.split(/\r?\n/)] *)
Fixpoint splitLines_aux (s cur : jsstring) : list jsstring :=
  match s with
  | [] => [cur]
  | c :: s' =>
      if char_eqb c LF then beforeBreak cur :: splitLines_aux s' []
      else splitLines_aux s' (cur ++ [c])
  end.

Definition splitLines (s : jsstring) : list jsstring := splitLines_aux s [].

(** The test of strategy 5 on a trimmed line. *)
Definition headerLine (trimmed : jsstring) : bool :=
  test true re_lineSuffix trimmed &&
  negb (test true re_lineHeading trimmed) &&
  negb (includes trimmed [TAB]) &&
  (5 <=? len trimmed) && (len trimmed <=? 100) &&
  (wordCount trimmed <=? 8) &&
  test false re_startsUpper trimmed.

Definition NOT_APPLICABLE : jsstring := str "Not applicable".

Definition strategy1 (text : jsstring) : option jsstring :=
  match exec true item101Pattern text with
  | Some m =>
      let candidate :=
        stripEnd isCommaOrSpace (trim (default [] (group m 1))) in
      if negb (test true re_refused1 candidate) &&
         (wordCount candidate <=? 8)
      then Some candidate else None
  | None => None
  end.

Definition strategy2 (text : jsstring) : option jsstring :=
  match exec true beforeItemPattern text with
  | Some m =>
      let candidate :=
        stripEnd isCommaOrSpace (trim (default [] (group m 1))) in
      if negb (test true re_refused2 candidate) &&
         (wordCount candidate <=? 8)
      then Some candidate else None
  | None => None
  end.

(** The condition of strategy 3 on [manifest.company_name]. *)
Definition strategy3 (company_name : option jsstring) : bool :=
  negb (falsy company_name) &&
  negb (bool_decide (company_name = Some NOT_APPLICABLE)) &&
  (3 <? len (default [] company_name)) &&
  negb (test true re_refused3 (default [] company_name)).

Definition strategy4 (text : jsstring) : option jsstring :=
  match exec true exactNamePattern text with
  | Some m =>
      let candidate := trim (default [] (group m 1)) in
      if negb (test true re_refused4 candidate) &&
         (wordCount candidate <=? 8)
      then Some candidate else None
  | None => None
  end.

Definition strategy5 (text : jsstring) : option jsstring :=
  match exec true headerPattern text with
  | Some m => List.find headerLine (map trim (splitLines (matched m)))
  | None => None
  end.

(** [extractCompanyName(text, manifest)]; [company_name] is
    [manifest?.company_name], and [None] is [null] or [undefined]. *)
Definition extractCompanyName (text : option jsstring)
    (company_name : option jsstring) : option jsstring :=
  match text with
  | None | Some [] => if falsy company_name then None else company_name
  | Some text =>
      match strategy1 text with
      | Some candidate => Some candidate
      | None =>
          match strategy2 text with
          | Some candidate => Some candidate
          | None =>
              if strategy3 company_name then company_name
              else
                match strategy4 text with
                | Some candidate => Some candidate
                | None => strategy5 text
                end
          end
      end
  end.

(** The endings of [company_suffix]. *)
Definition SUFFIXES : list string :=
  ["Inc"; "Corporation"; "Corp"; "Ltd"; "LLC"; "Pharmaceuticals"; "Holdings";
   "Technologies"; "Systems"; "Group"; "PLC"; "AG"; "GmbH"]%string.

(** A name that ends with one of the endings, up to case, and at most two
    periods after it. *)
Definition corporate (name : jsstring) : Prop :=
  exists body suffix dots t,
    name = body ++ suffix ++ dots /\ In t SUFFIXES /\ ci_eq suffix (str t) /\
    (dots = [] \/ dots = str "." \/ dots = str "..").

(** The words that strategy 3 refuses. *)
Definition REFUSED3 : list string :=
  ["jurisdiction"; "incorporation"; "State"]%string.

End Company.

(* ===================================================================== *)
(** * Fields of the output: the CIK, the SEC item and the headline *)
(* ===================================================================== *)

Module Fields.
Import JS Regex Manual Accession Context.

(** [/data\/(\d+)\//] *)
Definition re_cik : regex :=
  seqs [lit "data/"; Group 1 (plus digit_d); Chr (ch "/")].

(** [manifest.primary_url?.match(/data\/(\d+)\//)?.[1] || null] *)
Definition cikOf (primary_url : option jsstring) : option jsstring :=
  match primary_url with
  | None => None
  | Some url =>
      match exec false re_cik url with
      | Some m => if falsy (group m 1) then None else group m 1
      | None => None
      end
  end.

(** [itemMatch ? `Item ${itemMatch[1]}` : null] *)
Definition secItemOf (fullText : jsstring) : option jsstring :=
  match exec true re_itemMarker fullText with
  | Some m => Some (str "Item " ++ default (str "undefined") (group m 1))
  | None => None
  end.

Definition notLF : regex := Class true [CChar LF].      (* [^\n] *)

Definition item_number : regex :=                       (* [\d.]+ *)
  plus (Class false [CDigit; cc "."]).

(** [/===\s*Item\s+[\d.]+\s*===\s*\n\s*([^\n]{10,200})/i] *)
Definition headline1 : regex :=
  seqs [lit "==="; star ws; lit "Item"; plus ws; item_number; star ws;
        lit "==="; star ws; Chr LF; star ws; Group 1 (range 10 200 notLF)].

(** [/^(?:PRESS RELEASE:|Press Release:)\s*([^\n]{10,200})/i] *)
Definition headline2 : regex :=
  seqs [Bol; Alt (lit "PRESS RELEASE:") (lit "Press Release:"); star ws;
        Group 1 (range 10 200 notLF)].

(** [/Item\s+[\d.]+\s+([A-Z][^\n]{10,150}\.)/i] *)
Definition headline3 : regex :=
  seqs [lit "Item"; plus ws; item_number; plus ws;
        Group 1 (seqs [upper; range 10 150 notLF; Chr (ch ".")])].

Definition headlinePatterns : list regex := [headline1; headline2; headline3].

(** The loop over [headlinePatterns]: [event.headline], [None] when no
    pattern matches. *)
Fixpoint headlineLoop (patterns : list regex) (contextWindow : jsstring)
    : option jsstring :=
  match patterns with
  | [] => None
  | p :: patterns' =>
      match exec true p contextWindow with
      | Some m =>
          Some (trim (if falsy (group m 1) then matched m
                      else default [] (group m 1)))
      | None => headlineLoop patterns' contextWindow
      end
  end.

(** What the first group of the patterns holds. *)
Definition headlineGroup (contextWindow w : jsstring) : Prop :=
  substring_of w contextWindow /\ (0 < length w <= 200)%nat /\ (LF ∉ w).

(** A digit or a period. *)
Definition isNumberChar (c : ascii) : bool :=
  isDigit c || char_eqb c (ch ".").

End Fields.

(* ===================================================================== *)
(** * Properties *)
(* ===================================================================== *)

Module JSFacts.
Import JS.

Lemma substring_of_refl s : substring_of s s.
Proof. exists [], []. by rewrite app_nil_r. Qed.


Lemma substring_of_trans a b c :
  substring_of a b -> substring_of b c -> substring_of a c.
Proof.
  intros (p1 & q1 & ->) (p2 & q2 & ->).
  exists (p2 ++ p1), (q1 ++ q2). by rewrite <- !app_assoc.
Qed.

Lemma substring_of_take n s : substring_of (take n s) s.
Proof. exists [], (drop n s). simpl. by rewrite take_drop. Qed.

Lemma substring_of_drop n s : substring_of (drop n s) s.
Proof. exists (take n s), []. by rewrite app_nil_r, take_drop. Qed.

Lemma slice_substring s a b : substring_of (slice s a b) s.
Proof.
  unfold slice. eapply substring_of_trans;
    [apply substring_of_take|apply substring_of_drop].
Qed.

Lemma trimStart_suffix s : exists pre, s = pre ++ trimStart s.
Proof.
  induction s as [|c s [pre IH]]; [by exists []|]. simpl.
  destruct (isWhiteSpace c); [|by exists []].
  exists (c :: pre). simpl. by rewrite <- IH.
Qed.

Lemma trimStart_substring s : substring_of (trimStart s) s.
Proof.
  destruct (trimStart_suffix s) as [pre H].
  exists pre, []. by rewrite app_nil_r.
Qed.

Lemma trimEnd_substring s : substring_of (trimEnd s) s.
Proof.
  unfold trimEnd. destruct (trimStart_suffix (rev s)) as [pre H].
  exists [], (rev pre). simpl.
  rewrite <- rev_app_distr, <- H. by rewrite rev_involutive.
Qed.

Lemma trim_substring s : substring_of (trim s) s.
Proof.
  unfold trim. eapply substring_of_trans;
    [apply trimEnd_substring|apply trimStart_substring].
Qed.





Lemma len_nonneg (s : jsstring) : 0 <= len s.
Proof. unfold len. lia. Qed.

(** ** Words *)

Lemma trimStart_head s :
  trimStart s = [] \/
  exists c r, trimStart s = c :: r /\ isWhiteSpace c = false.
Proof.
  induction s as [|c s IH]; simpl; [by left|].
  destruct (isWhiteSpace c) eqn:Hc; [done|]. right. eauto.
Qed.

Lemma trimStart_spaces s :
  exists pre, s = pre ++ trimStart s /\ Forall (fun c => isWhiteSpace c = true) pre.
Proof.
  induction s as [|c s (pre & IH & Hpre)]; simpl.
  - by exists [].
  - destruct (isWhiteSpace c) eqn:Hc; [|by exists []].
    exists (c :: pre). split; [simpl; by rewrite <- IH|by constructor].
Qed.

Lemma trimStart_clean c s :
  isWhiteSpace c = false -> trimStart (c :: s) = c :: s.
Proof. simpl. by intros ->. Qed.

Lemma trimStart_app_clean s c :
  isWhiteSpace c = false -> trimStart (s ++ [c]) = trimStart s ++ [c].
Proof.
  intros Hc. induction s as [|d s IH]; simpl; [by rewrite Hc|].
  by destruct (isWhiteSpace d).
Qed.

Lemma trimEnd_endsClean s : endsClean (trimEnd s).
Proof.
  unfold trimEnd, endsClean.
  destruct (trimStart_head (rev s)) as [->|(c & r & -> & Hc)]; [done|].
  simpl. by rewrite last_snoc.
Qed.

Lemma trimEnd_spaces s :
  exists post, s = trimEnd s ++ post /\
               Forall (fun c => isWhiteSpace c = true) post.
Proof.
  unfold trimEnd. destruct (trimStart_spaces (rev s)) as (pre & H & Hpre).
  exists (rev pre). split.
  - rewrite <- rev_app_distr, <- H. by rewrite rev_involutive.
  - rewrite Forall_forall in *. intros c Hc. apply Hpre.
    apply list_elem_of_In. apply list_elem_of_In in Hc. by apply in_rev.
Qed.

Lemma trimEnd_head c s :
  isWhiteSpace c = false -> exists r, trimEnd (c :: s) = c :: r.
Proof.
  intros Hc. unfold trimEnd. simpl. rewrite trimStart_app_clean by done.
  rewrite rev_app_distr. simpl. eauto.
Qed.

Lemma trim_shape s :
  endsClean (trim s) /\
  (trim s = [] \/ exists c r, trim s = c :: r /\ isWhiteSpace c = false).
Proof.
  unfold trim. split; [apply trimEnd_endsClean|].
  destruct (trimStart_head s) as [->|(c & r & -> & Hc)]; [by left|].
  right. destruct (trimEnd_head c r Hc) as [r' ->]. eauto.
Qed.

Lemma countWords_aux_spaces_l pre s b :
  Forall (fun c => isWhiteSpace c = true) pre -> pre <> [] ->
  countWords_aux (pre ++ s) b = countWords_aux s false.
Proof.
  intros Hpre. revert b. induction Hpre as [|c pre Hc Hpre IH]; intros b Hne;
    [done|].
  simpl. rewrite Hc. destruct pre; [done|]. by apply IH.
Qed.

Lemma countWords_aux_spaces_r s post : forall b,
  Forall (fun c => isWhiteSpace c = true) post ->
  countWords_aux (s ++ post) b = countWords_aux s b.
Proof.
  induction s as [|c s IH]; intros b Hpost; simpl.
  - revert b. induction Hpost as [|c post Hc Hpost IH]; intros b; [done|].
    simpl. by rewrite Hc.
  - destruct (isWhiteSpace c); by rewrite IH.
Qed.

Lemma countWords_trim s : countWords (trim s) = countWords s.
Proof.
  unfold countWords, trim.
  destruct (trimStart_spaces s) as (pre & Hs & Hpre).
  destruct (trimEnd_spaces (trimStart s)) as (post & Ht & Hpost).
  transitivity (countWords_aux (trimStart s) false).
  - rewrite <- (countWords_aux_spaces_r _ post false Hpost). by rewrite <- Ht.
  - destruct pre as [|c pre]; [by rewrite Hs at 2|].
    rewrite Hs at 2. by rewrite countWords_aux_spaces_l.
Qed.

Lemma endsClean_cons c s : s <> [] -> endsClean (c :: s) -> endsClean s.
Proof. unfold endsClean. destruct s; [done|]. by rewrite last_cons_cons. Qed.

(** On a string that does not end with white space, [split(/\s+/)] gives
    one piece per word that starts in it, and one for the word that the
    scan is in. *)
Lemma split_ws_aux_length s : forall cur,
  endsClean s ->
  Z.of_nat (length (split_ws_aux s cur false)) = 1 + countWords_aux s true /\
  (s <> [] ->
   Z.of_nat (length (split_ws_aux s cur true)) = countWords_aux s false).
Proof.
  induction s as [|c s IH]; intros cur Hclean.
  - split; [done|]. by intros [].
  - simpl. destruct (isWhiteSpace c) eqn:Hc.
    + assert (s <> []) as Hne.
      { intros ->. unfold endsClean in Hclean. simpl in Hclean. congruence. }
      destruct (IH [] (endsClean_cons _ _ Hne Hclean)) as [_ IH2].
      specialize (IH2 Hne). split; [|done].
      cbn [length]. lia.
    + assert (endsClean s) as Hs.
      { destruct s; [done|]. by apply (endsClean_cons c). }
      destruct (IH (cur ++ [c]) Hs) as [IH1 _].
      split; [lia|]. intros _. lia.
Qed.

(** The number of pieces of the trimmed string exceeds a positive bound
    when the number of words does. *)
Lemma split_ws_trim_count s n :
  1 <= n ->
  n < Z.of_nat (length (split_ws (trim s))) <-> n < countWords s.
Proof.
  intros Hn. rewrite <- countWords_trim.
  destruct (trim_shape s) as [Hclean [->|(c & r & Heq & Hc)]].
  - simpl. unfold countWords. simpl. lia.
  - destruct (split_ws_aux_length (trim s) [] Hclean) as [H1 _].
    unfold split_ws. rewrite H1. unfold countWords. rewrite Heq. simpl.
    rewrite Hc. lia.
Qed.

Lemma slice_take (s : jsstring) n :
  0 <= n -> slice s 0 n = take (Z.to_nat n) s.
Proof.
  intros Hn. unfold slice, rel_index, len.
  destruct (Z.ltb_spec n 0); [lia|]. change (0 <? 0) with false. cbv iota.
  rewrite (Z.min_l 0) by lia. rewrite Z.sub_0_r. simpl.
  destruct (Z.le_gt_cases n (Z.of_nat (length s))).
  - rewrite Z.min_l by lia. by change (Z.to_nat 0) with 0%nat.
  - rewrite Z.min_r by lia. rewrite Nat2Z.id.
    change (Z.to_nat 0) with 0%nat. rewrite drop_0.
    rewrite (take_ge s (length s)) by lia.
    by rewrite (take_ge s (Z.to_nat n)) by lia.
Qed.

End JSFacts.

Module RegexFacts.
Import JS Regex JSFacts.

Lemma char_eqb_eq c d : char_eqb c d = true <-> c = d.
Proof.
  unfold char_eqb, code. rewrite N.eqb_eq. split; [|by intros ->].
  intros H. rewrite <- (ascii_N_embedding c), <- (ascii_N_embedding d).
  by rewrite H.
Qed.

Lemma advance_state_of pre d r :
  advance (state_of pre (d :: r)) = state_of (pre ++ [d]) r.
Proof.
  unfold advance, state_of. simpl. f_equal.
  - by rewrite last_snoc.
  - rewrite length_app. simpl. lia.
Qed.

Lemma strip_ci_spec t r post :
  strip_ci t r = Some post <->
  exists w, r = w ++ post /\ ci_eq w t.
Proof.
  revert r. induction t as [|c t IH]; intros r; simpl.
  - split.
    + intros [= ->]. by exists [].
    + intros (w & -> & Hw). destruct w; [done|discriminate].
  - destruct r as [|d r].
    + split; [done|]. intros (w & Hr & Hw). by destruct w.
    + destruct (char_eqb (toUpperChar c) (toUpperChar d)) eqn:Hc.
      * apply char_eqb_eq in Hc. rewrite IH. split.
        -- intros (w & -> & Hw). exists (d :: w). split; [done|].
           unfold ci_eq in *. simpl. by rewrite Hc, Hw.
        -- intros (w & Hr & Hw). destruct w as [|e w]; [done|].
           simpl in Hr. injection Hr as <- ->. exists w. split; [done|].
           unfold ci_eq in *. simpl in Hw. by injection Hw.
      * split; [done|]. intros (w & Hr & Hw). destruct w as [|e w]; [done|].
        simpl in Hr. injection Hr as <- ->. unfold ci_eq in Hw. simpl in Hw.
        injection Hw as Hw _. rewrite Hw in Hc.
        assert (char_eqb (toUpperChar c) (toUpperChar c) = true)
          by by apply char_eqb_eq.
        congruence.
Qed.

(** The prefix that [strip_ci] removes. *)
Lemma strip_ci_take t r post :
  strip_ci t r = Some post -> r = take (length t) r ++ post.
Proof.
  revert r. induction t as [|c t IH]; intros r; simpl.
  - by intros [= ->].
  - destruct r as [|d r]; [done|].
    destruct (char_eqb _ _); [|done]. intros H. simpl. f_equal. by apply IH.
Qed.

Section Matcher.
Context {R : Type}.
Implicit Types (k : mstate -> caps -> option R).

(** The matcher of a literal string consumes it, up to case. *)
Lemma mt_lit t : forall pre r cs k,
  mt true (lit_chars t) (state_of pre r) cs k =
  match strip_ci t r with
  | Some post => k (state_of (pre ++ take (length t) r) post) cs
  | None => None
  end.
Proof.
  induction t as [|c t IH]; intros pre r cs k.
  - simpl. by rewrite app_nil_r.
  - assert (mt true (lit_chars (c :: t)) (state_of pre r) cs k =
            mt true (Chr c) (state_of pre r) cs
               (fun st' cs' => mt true (lit_chars t) st' cs' k)) as ->.
    { destruct t; [|done]. simpl. unfold mchar.
      destruct (rest (state_of pre r)); [done|]. by destruct (char_eqb _ _). }
    cbn [mt]. unfold mchar, canon.
    destruct r as [|d r]; [done|]. cbn [rest state_of strip_ci].
    destruct (char_eqb (toUpperChar c) (toUpperChar d)); [|done].
    rewrite advance_state_of, IH.
    destruct (strip_ci t r); [|done]. simpl. by rewrite <- app_assoc.
Qed.

(** An alternation is the first alternative that succeeds. *)
Lemma mt_alts rs : forall st cs k,
  rs <> [] ->
  mt true (alts rs) st cs k =
  foldr (fun r acc => match mt true r st cs k with
                      | Some z => Some z
                      | None => acc
                      end) None rs.
Proof.
  induction rs as [|r rs IH]; intros st cs k Hne; [done|].
  destruct rs as [|r' rs].
  - simpl. by destruct (mt true r st cs k).
  - change (alts (r :: r' :: rs)) with (Alt r (alts (r' :: rs))).
    cbn [mt foldr]. by rewrite IH.
Qed.

End Matcher.

(** The leftmost search succeeds when a match starts at some position. *)
Lemma exec_from_Some ic r : forall tl pre,
  (exists m, exec_from ic r (last pre) tl (length pre) = Some m) <->
  exists skipped tl',
    tl = skipped ++ tl' /\
    exists m, match_at ic r (state_of (pre ++ skipped) tl') = Some m.
Proof.
  induction tl as [|c tl IH]; intros pre; simpl.
  - fold (state_of pre []).
    destruct (match_at ic r (state_of pre [])) as [m|] eqn:Hm.
    + split; [|eauto]. intros _. exists [], []. split; [done|].
      rewrite app_nil_r. eauto.
    + split; [by intros [? ?]|]. intros (sk & tl' & Heq & m & Hm').
      symmetry in Heq. apply app_eq_nil in Heq as [-> ->].
      rewrite app_nil_r in Hm'. congruence.
  - fold (state_of pre (c :: tl)).
    destruct (match_at ic r (state_of pre (c :: tl))) as [m|] eqn:Hm.
    + split; [|eauto]. intros _. exists [], (c :: tl). split; [done|].
      rewrite app_nil_r. eauto.
    + specialize (IH (pre ++ [c])).
      rewrite last_snoc, length_app in IH. simpl in IH.
      replace (length pre + 1)%nat with (S (length pre)) in IH by lia.
      rewrite IH. split.
      * intros (sk & tl' & -> & m & Hm'). exists (c :: sk), tl'.
        split; [done|]. exists m. by rewrite <- app_assoc in Hm'.
      * intros (sk & tl' & Heq & m & Hm'). destruct sk as [|d sk].
        -- simpl in Heq. subst tl'. rewrite app_nil_r in Hm'. congruence.
        -- injection Heq as <- ->. exists sk, tl'. split; [done|].
           exists m. by rewrite <- app_assoc.
Qed.

Lemma test_spec ic r s :
  test ic r s = true <->
  exists pre tl,
    s = pre ++ tl /\ exists m, match_at ic r (state_of pre tl) = Some m.
Proof.
  unfold test, exec.
  pose proof (exec_from_Some ic r s []) as H. simpl in H.
  destruct (exec_from ic r None s 0) as [m|].
  - split; [|done]. intros _. apply H. eauto.
  - split; [done|]. intros Hex. apply H in Hex as [? ?]. done.
Qed.

(** The word boundary as the matcher tests it. *)
Lemma boundary_xorb before after :
  xorb (is_word_opt (last before)) (is_word_opt (head after)) = true <->
  boundary before after.
Proof.
  unfold boundary.
  destruct (is_word_opt (last before)), (is_word_opt (head after));
    simpl; split; congruence.
Qed.

(** [/\b(t1|...|tn)\b/i] tests the containment of one of the terms as a
    whole word. *)
Lemma test_word_pattern (terms : list string) s :
  terms <> [] ->
  test true (seqs [WordB; Group 1 (alts (map lit terms)); WordB]) s = true <->
  containsWord terms s.
Proof.
  intros Hne. rewrite test_spec. unfold containsWord. split.
  - intros (pre & tl & -> & m & Hm). revert Hm.
    unfold match_at. cbn [seqs mt]. cbn [prev rest state_of].
    destruct (xorb (is_word_opt (last pre)) (is_word_opt (head tl)))
      eqn:Hb1; [|done].
    apply boundary_xorb in Hb1.
    rewrite mt_alts by (by destruct terms).
    clear Hne. induction terms as [|t terms IH]; [done|].
    cbn [map foldr]. unfold lit at 1. rewrite mt_lit.
    destruct (strip_ci (str t) tl) as [post|] eqn:Hstrip.
    + cbn [prev rest state_of].
      destruct (xorb (is_word_opt (last (pre ++ take (length (str t)) tl)))
                     (is_word_opt (head post))) eqn:Hb2.
      * intros _. apply boundary_xorb in Hb2.
        pose proof (strip_ci_take _ _ _ Hstrip) as Htake.
        exists pre, (take (length (str t)) tl), post, t.
        rewrite <- Htake. split; [done|]. split; [by left|].
        split; [|done].
        apply strip_ci_spec in Hstrip as (w & Hr & Hw).
        rewrite Hr, take_app_length'; [done|].
        apply (f_equal length) in Hw. by rewrite !length_map in Hw.
      * intros H. destruct (IH H) as (p & w & q & t' & ? & ? & ?).
        exists p, w, q, t'. split; [done|]. split; [by right|done].
    + intros H. destruct (IH H) as (p & w & q & t' & ? & ? & ?).
      exists p, w, q, t'. split; [done|]. split; [by right|done].
  - intros (pre & w & post & t & -> & Hin & Hw & Hb1 & Hb2).
    exists pre, (w ++ post). split; [done|].
    unfold match_at. cbn [seqs mt]. cbn [prev rest state_of].
    apply boundary_xorb in Hb1. rewrite Hb1.
    rewrite mt_alts by (by destruct terms).
    clear Hne. induction terms as [|t' terms IH]; [done|].
    cbn [map foldr]. unfold lit at 1. rewrite mt_lit.
    match goal with
    | |- exists m, match ?x with Some z => Some z | None => _ end = Some m =>
        destruct x as [z|] eqn:Hx; [eauto|]
    end.
    destruct Hin as [->|Hin]; [|by apply IH].
    exfalso. revert Hx.
    assert (strip_ci (str t) (w ++ post) = Some post) as ->
      by (apply strip_ci_spec; eauto).
    assert (take (length (str t)) (w ++ post) = w) as ->.
    { apply take_app_length'.
      apply (f_equal length) in Hw. by rewrite !length_map in Hw. }
    cbn [prev rest state_of]. apply boundary_xorb in Hb2. by rewrite Hb2.
Qed.

(** ** Greedy repetition of a character class *)

Lemma clear_nil cs : clear [] cs = cs.
Proof. unfold clear. induction cs as [|p cs IH]; simpl; [done|]. by f_equal. Qed.

Lemma mchar_state_of {R} P pre c tl cs (k : mstate -> caps -> option R) :
  mchar P (state_of pre (c :: tl)) cs k =
  if P c then k (state_of (pre ++ [c]) tl) cs else None.
Proof. unfold mchar. cbn [rest state_of]. by rewrite advance_state_of. Qed.

Lemma mchar_fails {R} P pre tl cs (k : mstate -> caps -> option R) :
  head_fails P tl -> mchar P (state_of pre tl) cs k = None.
Proof. destruct tl as [|c tl]; [done|]. intros H. by rewrite mchar_state_of, H. Qed.

Lemma mrep_greedy_run {R} (P : ascii -> bool)
    (m : mstate -> caps -> (mstate -> caps -> option R) -> option R) run :
  (forall st cs k, m st cs k = mchar P st cs k) ->
  forall pre tl lo n cs k z,
    Forall (fun c => P c = true) run ->
    head_fails P tl ->
    (lo <= length run)%nat -> (length run <= n)%nat ->
    k (state_of (pre ++ run) tl) cs = Some z ->
    mrep n m [] true lo (state_of pre (run ++ tl)) cs k = Some z.
Proof.
  intros Hm. induction run as [|c run IH]; intros pre tl lo n cs k z Hrun Htl Hlo Hn Hk.
  - simpl in Hlo. assert (lo = 0%nat) as -> by lia. rewrite app_nil_r in Hk.
    destruct n as [|n]; [done|]. cbn [mrep Nat.eqb negb app].
    by rewrite Hm, clear_nil, mchar_fails.
  - destruct n as [|n]; [simpl in Hn; lia|].
    inversion Hrun as [|? ? Hc Hrun']; subst.
    assert (m (state_of pre ((c :: run) ++ tl)) (clear [] cs)
              (fun st' cs' =>
                 if Nat.eqb lo 0 && Nat.eqb (pos st') (pos (state_of pre ((c :: run) ++ tl)))
                 then None
                 else mrep n m [] true (Nat.pred lo) st' cs' k) = Some z) as Hstep.
    { rewrite Hm, clear_nil. cbn [app]. rewrite mchar_state_of, Hc.
      cbn [pos state_of]. rewrite length_app. cbn [length].
      replace (Nat.eqb (length pre + 1) (length pre)) with false
        by (symmetry; apply Nat.eqb_neq; lia).
      rewrite andb_false_r. apply IH; try done; simpl in *; try lia.
      by rewrite <- app_assoc. }
    cbn [mrep]. destruct (Nat.eqb lo 0); cbn [negb]; by rewrite Hstep.
Qed.

Lemma digit_class d : xorb false (class_mem true [cr "0" "9"] d) = isDigit d.
Proof. destruct d as [[] [] [] [] [] [] [] []]; reflexivity. Qed.

Lemma ws_class d : xorb false (class_mem true [CSpace] d) = isWhiteSpace d.
Proof. destruct d as [[] [] [] [] [] [] [] []]; reflexivity. Qed.

Lemma digit_not_ws d : isDigit d = true -> isWhiteSpace d = false.
Proof. destruct d as [[] [] [] [] [] [] [] []]; vm_compute; congruence. Qed.

Lemma digit_not_marker d :
  isDigit d = true ->
  char_eqb (toUpperChar (ch "$")) (toUpperChar d) = false /\
  char_eqb (toUpperChar (ch "U")) (toUpperChar d) = false /\
  char_eqb (toUpperChar (ch ".")) (toUpperChar d) = false.
Proof. destruct d as [[] [] [] [] [] [] [] []]; vm_compute; intros; repeat split; congruence. Qed.

Lemma mt_opt {R} ic r st cs (k : mstate -> caps -> option R) :
  mt ic (opt r) st cs k =
  match mt ic r st (clear (groups r) cs)
          (fun st' cs' => if Nat.eqb (pos st') (pos st) then None else k st' cs')
  with
  | Some z => Some z
  | None => k st cs
  end.
Proof. reflexivity. Qed.

Lemma mt_Group {R} ic i r pre tl cs (k : mstate -> caps -> option R) :
  mt ic (Group i r) (state_of pre tl) cs k =
  mt ic r (state_of pre tl) cs
     (fun st' cs' => k st' ((i, take (pos st' - length pre) tl) :: cs')).
Proof. reflexivity. Qed.

Lemma mt_Seq {R} ic r1 r2 st cs (k : mstate -> caps -> option R) :
  mt ic (Seq r1 r2) st cs k = mt ic r1 st cs (fun st' cs' => mt ic r2 st' cs' k).
Proof. reflexivity. Qed.

(** greedy star / plus of a class over a run *)
Lemma mt_class_run {R} neg items (P : ascii -> bool) lo run pre tl cs
    (k : mstate -> caps -> option R) z :
  (forall d, xorb neg (class_mem true items d) = P d) ->
  Forall (fun c => P c = true) run ->
  head_fails P tl ->
  (lo <= length run)%nat ->
  k (state_of (pre ++ run) tl) cs = Some z ->
  mt true (Rep (Class neg items) lo None true) (state_of pre (run ++ tl)) cs k = Some z.
Proof.
  intros HP Hrun Htl Hlo Hk. cbn [mt groups].
  apply (mrep_greedy_run P); try done.
  - intros st cs' k'. cbn [mt]. unfold mchar. destruct (rest st); [done|]. by rewrite HP.
  - cbn [rest state_of]. rewrite length_app. lia.
Qed.

Lemma take_all (l : jsstring) : take (length l) l = l.
Proof. by apply take_ge. Qed.

Lemma pos_moved pre (l : jsstring) :
  l <> [] -> Nat.eqb (length (pre ++ l)) (length pre) = false.
Proof.
  intros Hl. apply Nat.eqb_neq. rewrite length_app.
  destruct l; [done|simpl; lia].
Qed.

Lemma take_consumed pre (l : jsstring) :
  take (length (pre ++ l) - length pre) l = l.
Proof.
  rewrite length_app. replace (length pre + length l - length pre)%nat with (length l) by lia.
  apply take_all.
Qed.

Lemma exec_first ic r s m :
  match_at ic r (state_of [] s) = Some m -> exec ic r s = Some m.
Proof.
  unfold exec. intros H. destruct s; simpl; unfold state_of in H; simpl in H; by rewrite H.
Qed.

(** ** The bounds of the matcher *)

Lemma reach_refl st : reach st st.
Proof. exists []. split; [done|simpl; lia]. Qed.

Lemma reach_trans a b c : reach a b -> reach b c -> reach a c.
Proof.
  intros (x & Hx & Px) (y & Hy & Py). exists (x ++ y). split.
  - by rewrite Hx, Hy, app_assoc.
  - rewrite length_app. lia.
Qed.

Lemma reach_advance st c s : rest st = c :: s -> reach st (advance st).
Proof.
  intros H. unfold advance. rewrite H. exists [c]. simpl. split; [done|lia].
Qed.

Section Budget.
Context {R : Type}.
Implicit Types (k : mstate -> caps -> option R).
Implicit Types (m : matcher R).

Lemma mchar_local P : local (mchar (R:=R) P).
Proof.
  intros st cs k1 k2 Hk. unfold mchar. destruct (rest st) as [|c s] eqn:Hr; [done|].
  destruct (P c); [|done]. apply Hk. by eapply reach_advance.
Qed.

Lemma mrep_local m inner greedy n : 
  local m -> forall lo, local (fun st cs k => mrep n m inner greedy lo st cs k).
Proof.
  intros Hm. induction n as [|n IH]; intros lo st cs k1 k2 Hk; cbn [mrep].
  - destruct (Nat.eqb lo 0); [|done]. apply Hk, reach_refl.
  - set (d1 := fun st' cs' => if Nat.eqb lo 0 && Nat.eqb (pos st') (pos st) then None
                             else mrep n m inner greedy (Nat.pred lo) st' cs' k1).
    set (d2 := fun st' cs' => if Nat.eqb lo 0 && Nat.eqb (pos st') (pos st) then None
                             else mrep n m inner greedy (Nat.pred lo) st' cs' k2).
    assert (m st (clear inner cs) d1 = m st (clear inner cs) d2) as Hd.
    { apply Hm. intros st' cs' Hst'. unfold d1, d2.
      destruct (_ && _); [done|]. apply IH. intros st'' cs'' Hst''.
      apply Hk. by eapply reach_trans. }
    rewrite Hd, (Hk st cs (reach_refl st)). done.
Qed.

Lemma mt_local ic r : local (mt (R:=R) ic r).
Proof.
  induction r as [|c| |neg items|r1 IH1 r2 IH2|r1 IH1 r2 IH2|r IH lo hi greedy|i r IH| | |];
    intros st cs k1 k2 Hk; cbn [mt].
  - apply Hk, reach_refl.
  - by apply mchar_local.
  - by apply mchar_local.
  - by apply mchar_local.
  - apply IH1. intros st' cs' Hst'. apply IH2. intros st'' cs'' Hst''.
    apply Hk. by eapply reach_trans.
  - by rewrite (IH1 st cs k1 k2 Hk), (IH2 st cs k1 k2 Hk).
  - by apply (mrep_local _ _ _ _ IH).
  - apply IH. intros st' cs' Hst'. by apply Hk.
  - destruct (xorb _ _); [|done]. apply Hk, reach_refl.
  - destruct (Nat.eqb _ _); [|done]. apply Hk, reach_refl.
  - destruct (rest st); [|done]. apply Hk, reach_refl.
Qed.

Lemma mrep_strict m inner greedy n :
  local m -> strict m -> forall lo, strict (fun st cs k => mrep n m inner greedy lo st cs k).
Proof.
  intros Hl Hs. induction n as [|n IH]; intros lo st cs; cbn [mrep].
  - by destruct (Nat.eqb lo 0).
  - assert (m st (clear inner cs)
              (fun st' cs' => if Nat.eqb lo 0 && Nat.eqb (pos st') (pos st) then None
                              else mrep n m inner greedy (Nat.pred lo) st' cs' (fun _ _ => None))
            = None) as ->.
    { transitivity (m st (clear inner cs) (fun _ _ => None)); [|apply Hs].
      apply Hl. intros st' cs' _. destruct (_ && _); [done|]. apply IH. }
    by destruct (negb _), greedy.
Qed.

Lemma mt_strict ic r : strict (mt (R:=R) ic r).
Proof.
  induction r as [|c| |neg items|r1 IH1 r2 IH2|r1 IH1 r2 IH2|r IH lo hi greedy|i r IH| | |];
    intros st cs; cbn [mt]; unfold mchar.
  - done.
  - destruct (rest st); [done|]. by destruct (char_eqb _ _).
  - destruct (rest st); [done|]. by destruct (negb _).
  - destruct (rest st); [done|]. by destruct (xorb _ _).
  - transitivity (mt ic r1 st cs (fun _ _ => @None R)); [|apply IH1].
    apply mt_local. intros st' cs' _. apply IH2.
  - by rewrite IH1, IH2.
  - apply (mrep_strict _ _ _ _ (mt_local ic r) IH).
  - apply IH.
  - by destruct (xorb _ _).
  - by destruct (Nat.eqb _ _).
  - by destruct (rest st).
Qed.

(** Iterations beyond the budget [lo + length rest] cannot happen: a
    larger budget gives the same result. *)
Lemma mrep_budget m inner greedy :
  local m -> strict m ->
  forall n1 n2 lo st cs k,
    (lo + length (rest st) <= n1)%nat -> (lo + length (rest st) <= n2)%nat ->
    mrep n1 m inner greedy lo st cs k = mrep n2 m inner greedy lo st cs k.
Proof.
  intros Hl Hs.
  assert (forall n lo st cs k,
             (lo + length (rest st) = 0)%nat ->
             mrep n m inner greedy lo st cs k = k st cs) as Hzero.
  { intros n lo st cs k H0. assert (lo = 0%nat) as -> by lia.
    destruct n as [|n]; [done|]. cbn [mrep Nat.eqb negb andb].
    assert (m st (clear inner cs)
              (fun st' cs' => if Nat.eqb (pos st') (pos st) then None
                              else mrep n m inner greedy (Nat.pred 0) st' cs' k) = None) as ->.
    { transitivity (m st (clear inner cs) (fun _ _ => None)); [|apply Hs].
      apply Hl. intros st' cs' (consumed & Hr & Hp).
      assert (consumed = []) as ->.
      { destruct consumed; [done|]. rewrite Hr in H0. simpl in H0. lia. }
      simpl in Hp. replace (pos st') with (pos st) by lia. by rewrite Nat.eqb_refl. }
    destruct greedy; [done|]. by destruct (k st cs). }
  induction n1 as [|n1 IH]; intros n2 lo st cs k H1 H2.
  - rewrite !Hzero by lia. done.
  - destruct n2 as [|n2]; [rewrite !Hzero by lia; done|]. cbn [mrep].
    assert (m st (clear inner cs)
              (fun st' cs' => if Nat.eqb lo 0 && Nat.eqb (pos st') (pos st) then None
                              else mrep n1 m inner greedy (Nat.pred lo) st' cs' k) =
            m st (clear inner cs)
              (fun st' cs' => if Nat.eqb lo 0 && Nat.eqb (pos st') (pos st) then None
                              else mrep n2 m inner greedy (Nat.pred lo) st' cs' k)) as ->; [|done].
    apply Hl. intros st' cs' (consumed & Hr & Hp).
    destruct (Nat.eqb lo 0 && Nat.eqb (pos st') (pos st)) eqn:Hc; [done|].
    assert (Nat.pred lo + length (rest st') <= n1 /\
            Nat.pred lo + length (rest st') <= n2)%nat as [? ?].
    { rewrite Hr, length_app in H1, H2.
      apply andb_false_iff in Hc as [Hc|Hc].
      - apply Nat.eqb_neq in Hc. lia.
      - apply Nat.eqb_neq in Hc. destruct consumed; simpl in *; lia. }
    by apply IH.
Qed.

End Budget.

(** The budget of an unbounded quantifier is never what stops it. *)
Lemma Rep_unbounded {R} ic r lo greedy st cs (k : mstate -> caps -> option R) n :
  (lo + length (rest st) <= n)%nat ->
  mrep n (mt ic r) (groups r) greedy lo st cs k =
  mt ic (Rep r lo None greedy) st cs k.
Proof.
  intros Hn. cbn [mt]. apply mrep_budget; [apply mt_local|apply mt_strict|done|lia].
Qed.

Section Sound.
Context {R : Type}.
Implicit Types (k : mstate -> caps -> option R).
Implicit Types (m : matcher R).

Lemma mchar_sound P : sound (mchar (R:=R) P).
Proof.
  intros st cs k z. unfold mchar. destruct (rest st) as [|c s] eqn:Hr; [done|].
  destruct (P c); [|done]. intros Hk. exists (advance st), cs.
  split; [by eapply reach_advance|done].
Qed.

Lemma mrep_sound m inner greedy n :
  sound m -> forall lo, sound (fun st cs k => mrep n m inner greedy lo st cs k).
Proof.
  intros Hm. induction n as [|n IH]; intros lo st cs k z; cbn [mrep].
  - destruct (Nat.eqb lo 0); [|done]. intros Hk. exists st, cs. split; [apply reach_refl|done].
  - assert (forall d, d = (fun st' cs' => if Nat.eqb lo 0 && Nat.eqb (pos st') (pos st) then None
                             else mrep n m inner greedy (Nat.pred lo) st' cs' k) ->
              m st (clear inner cs) d = Some z ->
              exists st' cs', reach st st' /\ k st' cs' = Some z) as Hiter.
    { intros d -> Hd. apply Hm in Hd as (st1 & cs1 & Hr1 & Hd).
      destruct (_ && _); [done|]. apply IH in Hd as (st2 & cs2 & Hr2 & Hk).
      exists st2, cs2. split; [by eapply reach_trans|done]. }
    destruct (negb (Nat.eqb lo 0)); [by apply Hiter|].
    destruct greedy.
    + destruct (m st (clear inner cs) _) as [z'|] eqn:Hd.
      * intros [= <-]. by eapply Hiter.
      * intros Hk. exists st, cs. split; [apply reach_refl|done].
    + destruct (k st cs) as [z'|] eqn:Hk.
      * intros [= <-]. exists st, cs. split; [apply reach_refl|done].
      * by apply Hiter.
Qed.

Lemma mt_sound ic r : sound (mt (R:=R) ic r).
Proof.
  induction r as [|c| |neg items|r1 IH1 r2 IH2|r1 IH1 r2 IH2|r IH lo hi greedy|i r IH| | |];
    intros st cs k z; cbn [mt].
  - intros Hk. exists st, cs. split; [apply reach_refl|done].
  - apply mchar_sound.
  - apply mchar_sound.
  - apply mchar_sound.
  - intros H. apply IH1 in H as (st1 & cs1 & Hr1 & H).
    apply IH2 in H as (st2 & cs2 & Hr2 & H).
    exists st2, cs2. split; [by eapply reach_trans|done].
  - destruct (mt ic r1 st cs k) as [z'|] eqn:H1.
    + intros [= <-]. by apply IH1 in H1.
    + apply IH2.
  - apply (mrep_sound _ _ _ _ IH).
  - intros H. apply IH in H as (st1 & cs1 & Hr1 & H). eauto.
  - destruct (xorb _ _); [|done]. intros Hk. exists st, cs. split; [apply reach_refl|done].
  - destruct (Nat.eqb _ _); [|done]. intros Hk. exists st, cs. split; [apply reach_refl|done].
  - destruct (rest st) eqn:Hr; [|done]. intros Hk. exists st, cs. split; [apply reach_refl|done].
Qed.

End Sound.

(** A match found at a position starts there, and its text is a prefix of
    the rest of the input. *)
Lemma match_at_shape ic r st m :
  match_at ic r st = Some m ->
  index m = pos st /\ exists tl, rest st = matched m ++ tl.
Proof.
  unfold match_at. intros H. apply mt_sound in H as (st' & cs' & (consumed & Hr & Hp) & H).
  injection H as <-. simpl. split; [done|]. exists (rest st').
  rewrite Hp, Hr. replace (pos st + length consumed - pos st)%nat with (length consumed) by lia.
  by rewrite take_app_length.
Qed.

Lemma exec_from_shape ic r : forall s p i m,
  exec_from ic r p s i = Some m ->
  (i <= index m)%nat /\ (index m + length (matched m) <= i + length s)%nat.
Proof.
  induction s as [|c s IH]; intros p i m; cbn [exec_from].
  - destruct (match_at ic r (mkState p [] i)) as [m'|] eqn:Hm; [|done].
    intros [= <-]. apply match_at_shape in Hm as [Hi [tl Htl]]. simpl in *.
    apply (f_equal length) in Htl. rewrite length_app in Htl. simpl in Htl. lia.
  - destruct (match_at ic r (mkState p (c :: s) i)) as [m'|] eqn:Hm.
    + intros [= <-]. apply match_at_shape in Hm as [Hi [tl Htl]]. simpl in *.
      apply (f_equal length) in Htl. rewrite length_app in Htl. simpl in Htl. lia.
    + intros H. apply IH in H. simpl. lia.
Qed.

(** The bound on the number of matches is never what ends the list. *)
Lemma matchAll_from_budget ic r : forall n1 n2 p s i,
  (length s < n1)%nat -> (length s < n2)%nat ->
  matchAll_from n1 ic r p s i = matchAll_from n2 ic r p s i.
Proof.
  induction n1 as [|n1 IH]; intros n2 p s i H1 H2; [lia|].
  destruct n2 as [|n2]; [lia|]. cbn [matchAll_from].
  destruct (exec_from ic r p s i) as [m|] eqn:Hm; [|done].
  apply exec_from_shape in Hm as [Hi He].
  destruct (Nat.ltb_spec (length s)
              ((if Nat.eqb (length (matched m)) 0
                then S (index m + length (matched m))
                else (index m + length (matched m))%nat) - i)) as [Hd|Hd]; [done|].
  f_equal. apply IH; rewrite length_drop.
  - destruct (Nat.eqb_spec (length (matched m)) 0); lia.
  - destruct (Nat.eqb_spec (length (matched m)) 0); lia.
Qed.

End RegexFacts.

Module MoneyFacts.
Import JS Regex Num Manual JSFacts RegexFacts.

Lemma re_money_eq :
  re_money = Seq (opt re_marker) (Seq (star ws) (Seq (Group 1 re_number) (opt re_scale))).
Proof. reflexivity. Qed.

Lemma mt_number {R} pre ip fp tl cs (k : mstate -> caps -> option R) z :
  ip <> [] -> digits ip -> digits fp -> number_end tl ->
  k (state_of (pre ++ ip ++ fraction fp) tl) cs = Some z ->
  mt true re_number (state_of pre ((ip ++ fraction fp) ++ tl)) cs k = Some z.
Proof.
  intros Hne Hip Hfp Htl Hk. unfold re_number. rewrite mt_Seq.
  rewrite <- app_assoc.
  apply (mt_class_run false [cr "0" "9"] isDigit);
    [apply digit_class|done| | |].
  - destruct fp; simpl; [by destruct tl as [|? ?]; [|destruct Htl]|done].
  - destruct ip; [done|simpl; lia].
  - rewrite mt_opt. cbn [groups app clear]. rewrite clear_nil.
    destruct fp as [|f fp].
    + simpl fraction in *. rewrite app_nil_r in Hk. cbn [app].
      rewrite mt_Seq. cbn [mt]. rewrite mchar_fails; [done|].
      destruct tl as [|c tl]; [done|]. exact (proj2 Htl).
    + cbn [fraction app]. rewrite mt_Seq. cbn [mt]. rewrite mchar_state_of.
      replace (char_eqb (canon true (ch ".")) (canon true (ch "."))) with true by done.
      fold (mt (R:=R) true (plus digit)).
      assert (mt true (plus digit) (state_of (pre ++ ip ++ [ch "."]) ((f :: fp) ++ tl)) cs
                (fun st' cs' =>
                   if Nat.eqb (pos st') (pos (state_of (pre ++ ip) (ch "." :: f :: fp ++ tl)))
                   then None else k st' cs') = Some z) as Hstep.
      { apply (mt_class_run false [cr "0" "9"] isDigit);
          [apply digit_class|done| |simpl; lia|].
        - by destruct tl as [|? ?]; [|destruct Htl].
        - cbn [pos state_of]. rewrite !length_app. cbn [length].
          replace (Nat.eqb _ _) with false by (symmetry; apply Nat.eqb_neq; lia).
          rewrite <- Hk. f_equal. by rewrite <- !app_assoc. }
      rewrite <- app_assoc. cbn [app] in Hstep |- *. by rewrite Hstep.
Qed.

Lemma mt_scale {R} pre sc cs (k : mstate -> caps -> option R) z :
  scale_ok sc ->
  k (state_of (pre ++ suffix sc) [])
    (match sc with Some w => (2%nat, str w) :: clear [2%nat] cs | None => cs end) = Some z ->
  mt true (opt re_scale) (state_of pre (suffix sc)) cs k = Some z.
Proof.
  intros Hsc Hk. rewrite mt_opt. destruct sc as [w|].
  - assert (mt true re_scale (state_of pre (suffix (Some w))) (clear (groups re_scale) cs)
              (fun st' cs' => if Nat.eqb (pos st') (pos (state_of pre (suffix (Some w))))
                              then None else k st' cs') = Some z) as ->; [|done].
    unfold re_scale. rewrite mt_Seq.
    change (suffix (Some w)) with ([ch " "] ++ str w) in *.
    apply (mt_class_run false [CSpace] isWhiteSpace); [apply ws_class|by repeat constructor| |simpl; lia|].
    { destruct Hsc as [<-|[<-|[<-|[]]]]; done. }
    rewrite mt_Group, mt_alts by done. cbn [map foldr]. unfold lit. rewrite !mt_lit.
    replace (groups (Seq (star ws)
               (Group 2 (alts [lit_chars (str "thousand"); lit_chars (str "million");
                               lit_chars (str "billion")])))) with [2%nat] by reflexivity.
    assert (k (state_of ((pre ++ [ch " "]) ++ str w) [])
              ((2%nat, take (pos (state_of ((pre ++ [ch " "]) ++ str w) []) - length (pre ++ [ch " "])) (str w))
                 :: clear [2%nat] cs) = Some z) as Hk'.
    { cbn [pos state_of]. rewrite take_consumed. by rewrite <- app_assoc. }
    assert (Nat.eqb (pos (state_of ((pre ++ [ch " "]) ++ str w) []))
                    (pos (state_of pre ([ch " "] ++ str w))) = false) as Hpos.
    { cbn [pos state_of]. rewrite <- app_assoc. by apply pos_moved. }
    destruct Hsc as [<-|[<-|[<-|[]]]].
    + replace (strip_ci (str "thousand") (str "thousand")) with (Some (@nil ascii)) by reflexivity.
      rewrite take_all, Hpos, Hk'. done.
    + replace (strip_ci (str "thousand") (str "million")) with (@None jsstring) by reflexivity.
      replace (strip_ci (str "million") (str "million")) with (Some (@nil ascii)) by reflexivity.
      rewrite take_all, Hpos, Hk'. done.
    + replace (strip_ci (str "thousand") (str "billion")) with (@None jsstring) by reflexivity.
      replace (strip_ci (str "million") (str "billion")) with (@None jsstring) by reflexivity.
      replace (strip_ci (str "billion") (str "billion")) with (Some (@nil ascii)) by reflexivity.
      rewrite take_all, Hpos, Hk'. done.
  - cbn [suffix] in *. rewrite app_nil_r in Hk. by rewrite Hk.
Qed.

Lemma star_ws_none {R} pre X cs (k : mstate -> caps -> option R) z :
  starts_with_digit X ->
  k (state_of pre X) cs = Some z ->
  mt true (star ws) (state_of pre X) cs k = Some z.
Proof.
  intros HX Hk.
  apply (mt_class_run false [CSpace] isWhiteSpace 0 [] pre X);
    [apply ws_class|constructor| |simpl; lia|by rewrite app_nil_r].
  destruct X as [|c X]; [done|]. by apply digit_not_ws.
Qed.

Lemma mt_marker {R} marker X cs (r : regex) (k : mstate -> caps -> option R) z :
  In marker MARKERS -> starts_with_digit X ->
  mt true r (state_of (str marker) X) cs k = Some z ->
  mt true (Seq (opt re_marker) (Seq (star ws) r)) (state_of [] (str marker ++ X)) cs k = Some z.
Proof.
  intros Hm HX Hk. rewrite mt_Seq, mt_opt.
  replace (groups re_marker) with (@nil nat) by reflexivity. rewrite clear_nil.
  destruct Hm as [<-|[<-|[<-|[<-|[]]]]].
  - (* no marker *)
    assert (mt true re_marker (state_of [] (str EmptyString ++ X)) cs
              (fun st' cs' => if Nat.eqb (pos st') (pos (state_of [] (str EmptyString ++ X))) then None
                              else mt true (Seq (star ws) r) st' cs' k) = None) as ->.
    { destruct X as [|c X]; [done|]. destruct (digit_not_marker c HX) as (H1 & H2 & _).
      unfold re_marker. cbn [mt app str list_ascii_of_string]. rewrite mchar_state_of.
      change (canon true (ch "$")) with (toUpperChar (ch "$")).
      change (canon true c) with (toUpperChar c). rewrite H1.
      unfold lit. rewrite mt_lit.
      change (strip_ci (str "USD") (c :: X))
        with (if char_eqb (toUpperChar (ch "U")) (toUpperChar c)
              then strip_ci (str "SD") X else None).
      by rewrite H2. }
    rewrite mt_Seq. by apply star_ws_none.
  - (* $ *)
    assert (mt true re_marker (state_of [] (str "$" ++ X)) cs
              (fun st' cs' => if Nat.eqb (pos st') (pos (state_of [] (str "$" ++ X))) then None
                              else mt true (Seq (star ws) r) st' cs' k) = Some z) as ->; [|done].
    unfold re_marker. cbn [mt app str list_ascii_of_string]. rewrite mchar_state_of.
    replace (char_eqb (canon true (ch "$")) (canon true "$"%char)) with true by reflexivity.
    cbn [pos state_of length app Nat.eqb].
    assert (mt true (star ws) (state_of ["$"%char] X) cs (fun st' cs' => mt true r st' cs' k) = Some z) as ->;
      [|done].
    by apply star_ws_none.
  - (* USD *)
    assert (mt true re_marker (state_of [] (str "USD" ++ X)) cs
              (fun st' cs' => if Nat.eqb (pos st') (pos (state_of [] (str "USD" ++ X))) then None
                              else mt true (Seq (star ws) r) st' cs' k) = Some z) as ->; [|done].
    unfold re_marker.
    assert (forall k', mt true (Chr (ch "$")) (state_of [] (str "USD" ++ X)) cs k' = @None R) as Hd
      by reflexivity.
    cbn [mt] in Hd |- *. rewrite Hd. clear Hd.
    fold (mt (R:=R) true (lit "USD")). fold (mt (R:=R) true (star ws)).
    unfold lit. rewrite mt_lit.
    replace (strip_ci (str "USD") (str "USD" ++ X)) with (Some X) by reflexivity.
    replace (take (length (str "USD")) (str "USD" ++ X)) with (str "USD") by reflexivity.
    apply star_ws_none; [done|]. cbn [pos state_of length app Nat.eqb str list_ascii_of_string].
    apply star_ws_none; [done|exact Hk].
  - (* USD and a blank *)
    assert (mt true re_marker (state_of [] (str "USD " ++ X)) cs
              (fun st' cs' => if Nat.eqb (pos st') (pos (state_of [] (str "USD " ++ X))) then None
                              else mt true (Seq (star ws) r) st' cs' k) = Some z) as ->; [|done].
    unfold re_marker.
    assert (forall k', mt true (Chr (ch "$")) (state_of [] (str "USD " ++ X)) cs k' = @None R) as Hd
      by reflexivity.
    cbn [mt] in Hd |- *. rewrite Hd. clear Hd.
    fold (mt (R:=R) true (lit "USD")). fold (mt (R:=R) true (star ws)).
    unfold lit. rewrite mt_lit.
    replace (strip_ci (str "USD") (str "USD " ++ X)) with (Some (ch " " :: X)) by reflexivity.
    replace (take (length (str "USD")) (str "USD " ++ X)) with (str "USD") by reflexivity.
    apply (mt_class_run false [CSpace] isWhiteSpace 0 [ch " "] ([] ++ str "USD") X);
      [apply ws_class|by repeat constructor| |simpl; lia|].
    { destruct X as [|c X]; [done|]. by apply digit_not_ws. }
    cbn [pos state_of length app Nat.eqb str list_ascii_of_string].
    apply star_ws_none; [done|exact Hk].
Qed.

Lemma number_end_suffix sc : scale_ok sc -> number_end (suffix sc).
Proof. destruct sc as [w|]; [|done]. by split. Qed.

Lemma take_number (pre number tl : jsstring) :
  take (length (pre ++ number) - length pre) (number ++ tl) = number.
Proof.
  rewrite length_app. replace (length pre + length number - length pre)%nat with (length number) by lia.
  by rewrite take_app_length.
Qed.

Lemma exec_money marker ip fp sc :
  In marker MARKERS -> ip <> [] -> digits ip -> digits fp -> scale_ok sc ->
  exists m,
    exec true re_money (str marker ++ (ip ++ fraction fp) ++ suffix sc) = Some m /\
    group m 1 = Some (ip ++ fraction fp) /\
    group m 2 = (str <$> sc).
Proof.
  intros Hm Hne Hip Hfp Hsc.
  eexists. split.
  - apply exec_first. unfold match_at. rewrite re_money_eq.
    apply mt_marker; [done| |].
    { destruct ip as [|c ip]; [done|]. by inversion Hip. }
    rewrite mt_Seq, mt_Group.
    apply mt_number; [done..|by apply number_end_suffix|].
    cbn beta. apply mt_scale; [done|]. reflexivity.
  - cbn [pos state_of]. rewrite take_number.
    destruct sc as [w|]; split; reflexivity.
Qed.

Lemma removeAll_removeAll p q s :
  removeAll p (removeAll q s) = removeAll (fun c => q c || p c) s.
Proof.
  unfold removeAll. induction s as [|c s IH]; simpl; [done|].
  destruct (q c); simpl; [done|]. destruct (p c); simpl; by rewrite IH.
Qed.

Lemma removeAll_idem p s : removeAll p (removeAll p s) = removeAll p s.
Proof.
  unfold removeAll. induction s as [|c s IH]; simpl; [done|].
  destruct (p c) eqn:Hc; simpl; [done|]. by rewrite Hc, IH.
Qed.

Lemma strip_idem text : strip (strip text) = strip text.
Proof.
  unfold strip. rewrite (removeAll_removeAll isComma isParen text).
  rewrite (removeAll_removeAll isComma isParen).
  apply removeAll_idem.
Qed.

Lemma parseMoneyToUSD_cleaned c t :
  parseMoneyToUSD (Some (c :: t)) =
  matchMoney (trim (strip (c :: t))).
Proof. reflexivity. Qed.

Lemma parseMoneyToUSD_strip text :
  parseMoneyToUSD (Some text) = parseMoneyToUSD (Some (strip text)).
Proof.
  destruct text as [|c t]; [done|].
  rewrite parseMoneyToUSD_cleaned.
  destruct (strip (c :: t)) as [|d u] eqn:Hs; [reflexivity|].
  by rewrite parseMoneyToUSD_cleaned, <- Hs, strip_idem.
Qed.

Lemma trim_id (s : jsstring) c r :
  s = c :: r -> isWhiteSpace c = false -> endsClean s -> trim s = s.
Proof.
  intros -> Hc Hclean. unfold trim. rewrite trimStart_clean by done.
  unfold trimEnd, endsClean in *.
  destruct (last (c :: r)) as [d|] eqn:Hl; [|by apply last_None in Hl].
  apply last_Some in Hl as [l' Hl]. rewrite Hl, rev_app_distr. simpl.
  rewrite Hclean. simpl. by rewrite rev_involutive.
Qed.

Lemma digit_ends_clean (s : jsstring) : s <> [] -> digits s -> endsClean s.
Proof.
  intros Hne Hs. unfold endsClean.
  destruct (last s) as [d|] eqn:Hl; [|done].
  apply digit_not_ws. apply last_Some_elem_of in Hl.
  unfold digits in Hs. rewrite Forall_forall in Hs. by apply Hs.
Qed.

Lemma endsClean_app (a b : jsstring) : b <> [] -> endsClean b -> endsClean (a ++ b).
Proof.
  unfold endsClean. intros Hne Hb. rewrite last_app.
  destruct (last b) eqn:Hl; [done|]. by apply last_None in Hl.
Qed.

Lemma amountText_trim marker ip fp sc :
  In marker MARKERS -> ip <> [] -> digits ip -> digits fp -> scale_ok sc ->
  trim (amountText marker ip fp sc) = amountText marker ip fp sc.
Proof.
  intros Hm Hne Hip Hfp Hsc.
  assert (endsClean ((ip ++ fraction fp) ++ suffix sc)) as Hend.
  { destruct sc as [w|].
    - apply endsClean_app; [done|].
      destruct Hsc as [<-|[<-|[<-|[]]]]; done.
    - cbn [suffix]. rewrite app_nil_r. destruct fp as [|f fp].
      + cbn [fraction]. rewrite app_nil_r. by apply digit_ends_clean.
      + apply endsClean_app; [done|]. cbn [fraction].
        apply (endsClean_app [ch "."]); [done|]. by apply digit_ends_clean. }
  assert ((ip ++ fraction fp) ++ suffix sc <> []) as Hne'.
  { destruct ip; [done|]. done. }
  destruct ip as [|c ip]; [done|]. inversion Hip as [|? ? Hc _]; subst.
  unfold amountText.
  destruct Hm as [<-|[<-|[<-|[<-|[]]]]].
  - eapply trim_id; [reflexivity|by apply digit_not_ws|done].
  - eapply trim_id; [reflexivity|done|]. by apply endsClean_app.
  - eapply trim_id; [reflexivity|done|]. by apply endsClean_app.
  - eapply trim_id; [reflexivity|done|]. by apply endsClean_app.
Qed.

Lemma parseMoneyToUSD_amount text marker ip fp sc :
  In marker MARKERS -> ip <> [] -> digits ip -> digits fp -> scale_ok sc ->
  strip text = amountText marker ip fp sc ->
  parseMoneyToUSD (Some text) = Some (amountValue ip fp sc).
Proof.
  intros Hm Hne Hip Hfp Hsc Htext.
  destruct (exec_money marker ip fp sc) as (m & Hex & Hg1 & Hg2); [done..|].
  fold (amountText marker ip fp sc) in Hex.
  destruct text as [|c t].
  { exfalso. unfold amountText in Htext. destruct ip; [done|].
    by destruct (str marker). }
  rewrite parseMoneyToUSD_cleaned, Htext, amountText_trim by done.
  unfold matchMoney. rewrite Hex, Hg1, Hg2. unfold amountValue.
  destruct sc as [w|]; [|done].
  destruct Hsc as [<-|[<-|[<-|[]]]]; reflexivity.
Qed.

Lemma span_digits ip tl :
  digits ip -> head_fails isDigit tl -> span isDigit (ip ++ tl) = (ip, tl).
Proof.
  intros Hip Htl. induction Hip as [|c ip Hc Hip IH]; cbn [span app].
  - destruct tl as [|d tl]; [done|]. cbn [span head_fails] in *. by rewrite Htl.
  - by rewrite Hc, IH.
Qed.

Lemma digit_not_sign c :
  isDigit c = true ->
  (code c =? 45)%N = false /\ (code c =? 43)%N = false /\
  Ascii.eqb (ch "I") c = false.
Proof.
  destruct c as [[] [] [] [] [] [] [] []]; vm_compute; intros;
    repeat split; congruence.
Qed.

(** The value of a number text: its digits as an integer, scaled by the
    number of fraction digits, rounded to the nearest Number. *)
Lemma parseFloat_number ip fp :
  ip <> [] -> digits ip -> digits fp ->
  parseFloat (ip ++ fraction fp) =
  decimal false (digits_value (ip ++ fp)) (- len fp).
Proof.
  intros Hne Hip Hfp. destruct ip as [|c ip]; [done|].
  inversion Hip as [|? ? Hc Hip']; subst.
  destruct (digit_not_sign c Hc) as (H1 & H2 & H3).
  unfold parseFloat. cbn [app]. rewrite trimStart_clean by (by apply digit_not_ws).
  rewrite H1, H2.
  assert (startsWith (c :: ip ++ fraction fp) (str "Infinity") = false) as ->.
  { change (startsWith (c :: ip ++ fraction fp) (str "Infinity"))
      with (if Ascii.eqb (ch "I") c
            then startsWith (ip ++ fraction fp) (str "nfinity") else false).
    by rewrite H3. }
  change (c :: ip ++ fraction fp) with ((c :: ip) ++ fraction fp).
  destruct fp as [|f fp].
  - cbn [fraction]. rewrite (span_digits (c :: ip) []) by done.
    reflexivity.
  - rewrite (span_digits (c :: ip) (fraction (f :: fp))) by done.
    cbn [fraction]. replace (code (ch ".") =? 46)%N with true by reflexivity.
    rewrite <- (app_nil_r (f :: fp)) at 1.
    rewrite (span_digits (f :: fp) []) by done.
    cbn [app exponent]. reflexivity.
Qed.

Lemma strip_clean text :
  Forall (fun c => isParen c = false /\ isComma c = false) (strip text).
Proof.
  unfold strip, removeAll. rewrite Forall_forall. intros c Hc.
  apply list_elem_of_In, filter_In in Hc as [Hc Hcomma].
  apply filter_In in Hc as [_ Hparen].
  by destruct (isParen c), (isComma c).
Qed.

End MoneyFacts.

Module ChunkerFacts.
Import JS Chunker.

Section Loop.
Variables (txt : jsstring) (target overlap : Z).

Lemma chunkText_loop_unfold fuel s acc :
  chunkText_loop (S fuel) txt target overlap s acc =
  if s <? len txt then
    if Z.min (s + target) (len txt) =? len txt
    then Some (acc ++ [chunk_at txt target s])
    else chunkText_loop fuel txt target overlap (s + (target - overlap))
           (acc ++ [chunk_at txt target s])
  else Some acc.
Proof. reflexivity. Qed.

Hypothesis overlap_range : 0 <= overlap < target.

(** With a positive step the loop reaches the end of the text, and what it
    has appended is a [ChunksFrom] sequence. *)
Lemma chunkText_loop_runs fuel : forall s acc,
  0 <= s < len txt ->
  len txt - s < Z.of_nat fuel ->
  exists rest,
    chunkText_loop fuel txt target overlap s acc = Some (acc ++ rest) /\
    ChunksFrom txt target overlap s rest.
Proof.
  induction fuel as [|fuel IH]; intros s acc Hs Hfuel; [lia|].
  rewrite chunkText_loop_unfold.
  destruct (Z.ltb_spec s (len txt)); [|lia].
  destruct (Z.eqb_spec (Z.min (s + target) (len txt)) (len txt)) as [He|He].
  - exists [chunk_at txt target s]. split; [done|]. apply CF_last; lia.
  - destruct (IH (s + (target - overlap)) (acc ++ [chunk_at txt target s]))
      as (rest & Hrun & Hrest); [lia..|].
    exists (chunk_at txt target s :: rest). split.
    + rewrite Hrun. by rewrite <- app_assoc.
    + apply CF_step; [lia..|done].
Qed.

End Loop.

Section ChunksFromFacts.
Variables (txt : jsstring) (target overlap : Z).

Lemma ChunksFrom_shape s cs :
  ChunksFrom txt target overlap s cs ->
  Forall (fun c => c = chunk_at txt target (start c)) cs.
Proof. induction 1; constructor; auto. Qed.

Lemma ChunksFrom_head s cs :
  ChunksFrom txt target overlap s cs ->
  exists c cs', cs = c :: cs' /\ start c = s.
Proof. destruct 1; eauto. Qed.

Lemma ChunksFrom_last s cs :
  ChunksFrom txt target overlap s cs ->
  exists cs' c, cs = cs' ++ [c] /\ end_ c = len txt.
Proof.
  induction 1 as [s Hlt Hs|s rest Hlt Hs Hrest IH].
  - exists [], (chunk_at txt target s). split; [done|]. simpl. lia.
  - destruct IH as (cs' & c & -> & Hc).
    exists (chunk_at txt target s :: cs'), c. done.
Qed.

Lemma ChunksFrom_starts s cs :
  overlap < target ->
  ChunksFrom txt target overlap s cs ->
  Forall (fun c => s <= start c < len txt) cs.
Proof.
  intros Hov H. induction H as [s Hlt Hs|s rest Hlt Hs Hrest IH].
  - constructor; [simpl; lia|constructor].
  - constructor; [simpl; lia|].
    eapply Forall_impl; [apply IH|]. simpl. intros c Hc. lia.
Qed.

Lemma ChunksFrom_adjacent s cs :
  ChunksFrom txt target overlap s cs ->
  forall l1 c1 c2 l2, cs = l1 ++ c1 :: c2 :: l2 ->
    end_ c1 = start c1 + target /\
    start c2 = start c1 + (target - overlap).
Proof.
  induction 1 as [s Hlt Hs|s rest Hlt Hs Hrest IH]; intros l1 c1 c2 l2 Heq.
  - destruct l1 as [|? [|? ?]]; discriminate.
  - destruct l1 as [|c l1]; simpl in Heq.
    + injection Heq as <- ->.
      destruct (ChunksFrom_head _ _ Hrest) as (c & cs' & Hc & Hst).
      injection Hc as <- <-. simpl. lia.
    + injection Heq as _ ->. eauto.
Qed.

Lemma ChunksFrom_covers s cs :
  0 <= overlap ->
  ChunksFrom txt target overlap s cs ->
  forall p, s <= p < len txt ->
    exists c, c ∈ cs /\ start c <= p < end_ c.
Proof.
  intros Hov. induction 1 as [s Hlt Hs|s rest Hlt Hs Hrest IH]; intros p Hp.
  - exists (chunk_at txt target s). split; [left|simpl; lia].
  - destruct (Z_lt_ge_dec p (s + target)) as [Hp'|Hp'].
    + exists (chunk_at txt target s). split; [left|simpl; lia].
    + destruct (IH p) as (c & Hin & Hc); [lia|].
      exists c. split; [by right|done].
Qed.

End ChunksFromFacts.

Lemma slice_all (s : jsstring) : slice s 0 (len s) = s.
Proof.
  unfold slice, rel_index, len. simpl.
  destruct (Z.ltb_spec (Z.of_nat (length s)) 0); [lia|].
  rewrite Z.min_id, Z.min_l by lia.
  rewrite Z.sub_0_r, Nat2Z.id. simpl. by rewrite take_ge.
Qed.

(** C1. For [0 < target] and [0 <= overlap < target] the loop of
    [chunkText] terminates (within [len txt + 1] evaluations of its
    condition); every chunk spans [start, min(start+target, len)) of the
    text; the chunks cover every offset of [0, len) starting at 0 and ending
    at [len]; consecutive chunks overlap by exactly [overlap] characters.
    A text of 7000 characters with [target = 3000], [overlap = 200] gives
    three chunks, starting at 0, 2800 and 5600. *)
Theorem chunkText_coverage :
  (forall (txt : jsstring) (target overlap : Z) (fuel : nat),
      0 < target -> 0 <= overlap < target ->
      len txt < Z.of_nat fuel ->
      exists cs,
        chunkText fuel txt target overlap = Some cs /\
        Forall (fun c =>
                  0 <= start c < len txt /\
                  end_ c = Z.min (start c + target) (len txt) /\
                  text c = slice txt (start c) (end_ c)) cs /\
        (forall p, 0 <= p < len txt ->
                   exists c, c ∈ cs /\ start c <= p < end_ c) /\
        (len txt = 0 -> cs = []) /\
        (0 < len txt ->
           (exists c cs', cs = c :: cs' /\ start c = 0) /\
           (exists cs' c, cs = cs' ++ [c] /\ end_ c = len txt)) /\
        (forall l1 c1 c2 l2, cs = l1 ++ c1 :: c2 :: l2 ->
           start c1 < start c2 <= end_ c1 /\
           end_ c1 - start c2 = overlap)) /\
  (forall (txt : jsstring) (fuel : nat),
      len txt = 7000 -> (3 <= fuel)%nat ->
      exists cs,
        chunkText fuel txt 3000 200 = Some cs /\
        map start cs = [0; 2800; 5600]).
Proof.
  split.
  - intros txt target overlap fuel Ht Ho Hfuel. unfold chunkText.
    destruct (Z.eq_dec (len txt) 0) as [Hz|Hnz].
    + exists []. destruct fuel as [|fuel]; [lia|].
      rewrite chunkText_loop_unfold.
      destruct (Z.ltb_spec 0 (len txt)); [lia|].
      repeat split; try done; intros; try lia;
        by destruct l1 as [|? [|? ?]].
    + assert (0 < len txt) as Hpos by (unfold len in *; lia).
      destruct (chunkText_loop_runs txt target overlap Ho fuel 0 [])
        as (cs & Hrun & Hcs); [lia..|].
      exists cs. split; [done|]. repeat split.
      * pose proof (ChunksFrom_shape _ _ _ _ _ Hcs) as Hshape.
        pose proof (ChunksFrom_starts _ _ _ _ _ (proj2 Ho) Hcs) as Hst.
        rewrite Forall_forall in *. intros c Hc.
        specialize (Hshape c Hc). specialize (Hst c Hc).
        split; [lia|]. rewrite Hshape. simpl. done.
      * intros p Hp. eapply ChunksFrom_covers; eauto. lia.
      * lia.
      * by apply ChunksFrom_head in Hcs.
      * by apply ChunksFrom_last in Hcs.
      * destruct (ChunksFrom_adjacent _ _ _ _ _ Hcs _ _ _ _ H). lia.
      * destruct (ChunksFrom_adjacent _ _ _ _ _ Hcs _ _ _ _ H). lia.
      * destruct (ChunksFrom_adjacent _ _ _ _ _ Hcs _ _ _ _ H). lia.
  - intros txt fuel Hlen Hfuel. unfold chunkText.
    destruct fuel as [|[|[|fuel]]]; [lia..|].
    rewrite !chunkText_loop_unfold. unfold chunk_at. rewrite !Hlen. simpl.
    eexists. split; [reflexivity|reflexivity].
Qed.

Lemma chunkText_coverage_witness :
  exists cs,
    chunkText 11 (str "abcdefghij") 4 1 = Some cs /\
    map start cs = [0; 3; 6] /\
    (forall p, 0 <= p < 10 -> exists c, c ∈ cs /\ start c <= p < end_ c).
Proof.
  destruct (proj1 chunkText_coverage (str "abcdefghij") 4 1 11%nat)
    as (cs & Hrun & _ & Hcov & _); [lia | lia | reflexivity |].
  exists cs. split; [exact Hrun|]. split; [|exact Hcov].
  vm_compute in Hrun. injection Hrun as <-. reflexivity.
Defined.

(** A configuration with [overlap >= target] is chunked like any other. *)
Lemma chunkText_accepts_large_overlap :
  3 <= 5 /\ chunkText 1 (str "ab") 3 5 = Some [mkChunk 0 2 (str "ab")].
Proof. split; [lia|reflexivity]. Qed.

(** C2 (amended). [chunkText] has no configuration check: a
    configuration with [overlap >= target > 0] is chunked like any other.
    A text that fits into one chunk is returned as that chunk, and the
    empty text gives no chunk. *)
Theorem chunkText_large_overlap txt target overlap fuel :
  0 < target -> target <= overlap ->
  len txt <= target -> (0 < fuel)%nat ->
  chunkText fuel txt target overlap =
  Some (if len txt =? 0 then [] else [mkChunk 0 (len txt) txt]).
Proof.
  intros Ht Ho Hl Hf. destruct fuel as [|fuel]; [lia|]. unfold chunkText.
  rewrite chunkText_loop_unfold. unfold chunk_at.
  assert (0 <= len txt) by (unfold len; lia).
  destruct (Z.eqb_spec (len txt) 0) as [->|Hnz]; [done|].
  destruct (Z.ltb_spec 0 (len txt)); [|lia].
  rewrite Z.add_0_l, Z.min_r by lia. rewrite Z.eqb_refl, slice_all. done.
Qed.

Lemma chunkText_large_overlap_witness :
  chunkText 1 (str "ab") 3 5 = Some [mkChunk 0 2 (str "ab")].
Proof.
  apply (chunkText_large_overlap (str "ab") 3 5 1%nat); [lia|lia| |lia].
  vm_compute. discriminate.
Defined.

(** When [target <= overlap] the offset never moves forward, so on a text
    longer than [target] the loop condition stays true. *)
Lemma chunkText_loop_stuck txt target overlap fuel : forall s acc,
  target <= overlap -> target < len txt -> 0 < len txt -> s <= 0 ->
  chunkText_loop fuel txt target overlap s acc = None.
Proof.
  induction fuel as [|fuel IH]; intros s acc Ho Hl Hp Hs; [done|].
  rewrite chunkText_loop_unfold.
  assert (0 <= len txt) by (unfold len; lia).
  destruct (Z.ltb_spec s (len txt)); [|lia].
  destruct (Z.eqb_spec (Z.min (s + target) (len txt)) (len txt)); [lia|].
  apply IH; lia.
Qed.

(** On a text longer than [target], a configuration with
    [overlap >= target > 0] has no result within any bound. *)
Lemma chunkText_large_overlap_runs_on txt target overlap fuel :
  0 < target -> target <= overlap -> target < len txt ->
  chunkText fuel txt target overlap = None.
Proof. intros Ht Ho Hl. apply chunkText_loop_stuck; lia. Qed.

End ChunkerFacts.

Module EvidenceFacts.
Import JS Regex Manual JSFacts.

(** ** The pattern of the exact match *)

Lemma whitespace_not_syntax c : isWhiteSpace c = true -> isSyntaxChar c = false.
Proof. destruct c as [[] [] [] [] [] [] [] []]; vm_compute; congruence. Qed.

Lemma syntax_not_whitespace c : isSyntaxChar c = true -> isWhiteSpace c = false.
Proof. destruct c as [[] [] [] [] [] [] [] []]; vm_compute; congruence. Qed.

Lemma syntax_not_s c : isSyntaxChar c = true -> char_eqb c (ch "s") = false.
Proof. destruct c as [[] [] [] [] [] [] [] []]; vm_compute; congruence. Qed.

Lemma plain_not_backslash c :
  isSyntaxChar c = false -> char_eqb c backslash = false.
Proof. destruct c as [[] [] [] [] [] [] [] []]; vm_compute; congruence. Qed.

Lemma backslash_not_whitespace : isWhiteSpace backslash = false.
Proof. reflexivity. Qed.

(** [new RegExp] accepts every source that [findEvidence] builds. *)
Lemma RegExp_literal norm : forall inws,
  RegExp (replace_ws_aux (escapeForRegex norm) inws) =
  Some (literalPattern norm inws).
Proof.
  induction norm as [|c norm IH]; intros inws; [done|].
  cbn [escapeForRegex flat_map literalPattern].
  fold (escapeForRegex norm).
  destruct (isWhiteSpace c) eqn:Hws.
  - rewrite (whitespace_not_syntax c Hws). cbn [app replace_ws_aux].
    rewrite Hws. destruct inws; [apply IH|].
    change (RegExp (str "\s+" ++ replace_ws_aux (escapeForRegex norm) true))
      with (Seq (plus ws) <$> RegExp (replace_ws_aux (escapeForRegex norm) true)).
    by rewrite IH.
  - destruct (isSyntaxChar c) eqn:Hsyn; cbn [app replace_ws_aux].
    + rewrite backslash_not_whitespace, Hws.
      cbn [RegExp]. replace (char_eqb backslash backslash) with true by done.
      rewrite (syntax_not_s c Hsyn), Hsyn, IH. done.
    + rewrite Hws. cbn [RegExp].
      rewrite (plain_not_backslash c Hsyn), Hsyn, IH. done.
Qed.

(** ** What an evidence object cites *)



Lemma threshold_pos words : 1 <= threshold words.
Proof. unfold threshold. lia. Qed.

Lemma countHits_find words lower :
  1 <= countHits words lower ->
  exists w, w ∈ words /\
    List.find (fun w => includes lower (toLowerCase w)) words = Some w.
Proof.
  unfold countHits. intros H.
  destruct (List.find _ words) as [w|] eqn:Hf.
  - exists w. split; [|done]. apply find_some in Hf as [Hin _].
    by apply list_elem_of_In.
  - exfalso. pose proof (find_none _ _ Hf) as Hnone.
    destruct (List.filter _ (take 6 words)) as [|w l] eqn:Hfl;
      [simpl in H; lia|].
    assert (In w (List.filter
                    (fun w => includes lower (toLowerCase w)) (take 6 words)))
      as Hin by (rewrite Hfl; by left).
    apply filter_In in Hin as [Hin Hw].
    rewrite (Hnone w) in Hw; [done|].
    apply list_elem_of_In. eapply subseteq_take. by apply list_elem_of_In.
Qed.

Lemma fuzzyMatch_total words chunks manifest :
  exists r, fuzzyMatch words chunks manifest = Some r.
Proof.
  induction chunks as [|chunk chunks IH]; simpl; [eauto|].
  destruct (Z.leb_spec (threshold words)
              (countHits words (toLowerCase (text chunk)))) as [Hle|Hgt];
    [|done].
  destruct (countHits_find words (toLowerCase (text chunk)))
    as (w & Hin & ->); [pose proof (threshold_pos words); lia|].
  destruct (bool_decide (w = [])); [|eauto].
  destruct words; [by apply elem_of_nil in Hin|simpl; eauto].
Qed.



Lemma searchEvidence_total norm chunks manifest :
  exists ev, searchEvidence norm chunks manifest = Some ev.
Proof.
  unfold searchEvidence, replace_ws. rewrite RegExp_literal. simpl.
  destruct (exactMatch _ norm chunks manifest); [eauto|].
  destruct (fuzzyMatch_total
              (List.filter (fun w => 3 <? len w) (split_ws norm))
              chunks manifest) as [[ev|] ->]; simpl; eauto.
Qed.

(** [findEvidence] returns an evidence object: it raises no exception. *)
Lemma findEvidence_total searchText chunks manifest :
  exists ev, findEvidence searchText chunks manifest = Some ev.
Proof.
  destruct searchText as [[|c s]|]; simpl; eauto.
  destruct (suspicious _); eauto using searchEvidence_total.
Qed.



(** ** Chunks loaded from a directory *)

Lemma elem_of_insert_sorted x y l : x ∈ insert_sorted y l <-> x = y \/ x ∈ l.
Proof.
  induction l as [|z l IH]; simpl.
  - rewrite list_elem_of_singleton, elem_of_nil. tauto.
  - destruct (str_leb y z); rewrite !elem_of_cons; [tauto|].
    rewrite IH. tauto.
Qed.

Lemma elem_of_sort x l : x ∈ sort l <-> x ∈ l.
Proof.
  induction l as [|y l IH]; simpl; [done|].
  rewrite elem_of_insert_sorted, IH, elem_of_cons. tauto.
Qed.

Lemma loadChunks_elem (dir : gmap jsstring jsstring) c :
  c ∈ loadChunks (Some dir) ->
  dir !! file c = Some (text c) /\ file c <> [].
Proof.
  unfold loadChunks. rewrite list_elem_of_fmap.
  intros (f & -> & Hf). simpl.
  apply elem_of_sort, list_elem_of_In, filter_In in Hf as [Hin Hname].
  apply list_elem_of_In, list_elem_of_fmap in Hin as ([f' v] & -> & Hin).
  apply elem_of_map_to_list in Hin. cbn [fst file text] in *.
  unfold jsstring in *. split; [by rewrite Hin|].
  intros ->. by rewrite andb_false_r in Hname.
Qed.

(** ** The tiers of [findEvidence] *)

Lemma suspicious_spec s :
  suspicious (trim s) = true <->
  8 < countWords s /\ containsWord BOILERPLATE (trim s).
Proof.
  unfold suspicious. rewrite andb_true_iff, Z.ltb_lt.
  rewrite (split_ws_trim_count s 8) by lia.
  change re_boilerplate
    with (seqs [WordB; Group 1 (alts (map lit BOILERPLATE)); WordB]).
  rewrite RegexFacts.test_word_pattern by done. tauto.
Qed.

(** C4. A null or empty candidate with a non-empty chunk list: the
    evidence object cites the first chunk and its snippet is the first 200
    characters of that chunk's text.  (A chunk that [loadChunks] returns
    has a non-empty file name.) *)
Theorem empty_candidate_first_chunk :
  (forall searchText chunks first others manifest,
      searchText = None \/ searchText = Some [] ->
      chunks = first :: others ->
      file first <> [] ->
      exists ev,
        findEvidence searchText chunks manifest = Some ev /\
        sourceFile ev = file first /\
        selector ev = str "chunk:" ++ file first /\
        sourceSection ev = [] /\
        snippet ev = take 200 (text first)) /\
  (forall (dir : gmap jsstring jsstring) c,
      c ∈ loadChunks (Some dir) -> file c <> []).
Proof.
  split.
  - intros searchText chunks first others manifest Hs -> Hfile.
    exists (firstChunkEvidence (first :: others) manifest). split.
    + by destruct Hs as [-> | ->].
    + simpl. unfold firstFile. rewrite bool_decide_false by done.
      repeat split; try done. rewrite slice_take by lia. reflexivity.
  - intros dir c Hc. by apply loadChunks_elem in Hc as [_ ?].
Qed.

Lemma empty_candidate_first_chunk_witness :
  exists ev,
    findEvidence (Some [])
      [mkChunk (str "chunk_0001.txt") (str "UNITED STATES");
       mkChunk (str "chunk_0002.txt") (str "Item 1.01")]
      (mkManifest None) = Some ev /\
    sourceFile ev = str "chunk_0001.txt" /\
    snippet ev = str "UNITED STATES".
Proof.
  destruct (proj1 empty_candidate_first_chunk (Some [])
              [mkChunk (str "chunk_0001.txt") (str "UNITED STATES");
               mkChunk (str "chunk_0002.txt") (str "Item 1.01")]
              (mkChunk (str "chunk_0001.txt") (str "UNITED STATES"))
              [mkChunk (str "chunk_0002.txt") (str "Item 1.01")]
              (mkManifest None))
    as (ev & Hev & Hfile & _ & _ & Hsnip);
    [by right | reflexivity | discriminate |].
  exists ev. split; [exact Hev|]. split; [exact Hfile|exact Hsnip].
Defined.

(** C5. A candidate with more than 8 words that contains a boilerplate
    term as a whole word gets the evidence object that cites the first
    chunk with the marker as its snippet; the result depends on the chunks
    through the name of the first one only.  Any other non-empty candidate
    goes on to the search of the chunks. *)
Theorem suspicious_text_rejected (searchText : jsstring) chunks manifest :
  searchText <> [] ->
  (8 < countWords searchText /\ containsWord BOILERPLATE (trim searchText) ->
   findEvidence (Some searchText) chunks manifest =
   Some (mkEvidence None (firstFile chunks) (primary_url manifest) []
           (str "chunk:" ++ firstFile chunks) NO_EVIDENCE) /\
   (forall first others,
       chunks = first :: others -> file first <> [] ->
       firstFile chunks = file first) /\
   (forall chunks',
       firstFile chunks' = firstFile chunks ->
       findEvidence (Some searchText) chunks' manifest =
       findEvidence (Some searchText) chunks manifest)) /\
  (~ (8 < countWords searchText /\
      containsWord BOILERPLATE (trim searchText)) ->
   findEvidence (Some searchText) chunks manifest =
   searchEvidence (trim searchText) chunks manifest).
Proof.
  intros Hne. destruct searchText as [|c s]; [done|].
  unfold findEvidence. split.
  - intros Hsus. apply suspicious_spec in Hsus. rewrite Hsus.
    split; [done|]. split.
    + intros first others -> Hfile.
      unfold firstFile. by rewrite bool_decide_false.
    + by intros chunks' ->.
  - intros Hsus. destruct (suspicious (trim (c :: s))) eqn:Hs; [|done].
    by apply suspicious_spec in Hs.
Qed.

Lemma suspicious_text_rejected_witness :
  findEvidence
    (Some (str "the provisions of this agreement shall remain in force indefinitely"))
    [mkChunk (str "chunk_0001.txt") (str "the provisions of this agreement")]
    (mkManifest None) =
  Some (mkEvidence None (str "chunk_0001.txt") None []
          (str "chunk:chunk_0001.txt") NO_EVIDENCE) /\
  findEvidence (Some (str "the provisions of this agreement"))
    [mkChunk (str "chunk_0001.txt") (str "the provisions of this agreement")]
    (mkManifest None) =
  Some (mkEvidence None (str "chunk_0001.txt") None []
          (str "chunk:chunk_0001.txt")
          (str "the provisions of this agreement")).
Proof.
  split.
  - refine (proj1 (proj1 (suspicious_text_rejected _ _ _ _) _)).
    + discriminate.
    + apply suspicious_spec. reflexivity.
  - etransitivity.
    + refine (proj2 (suspicious_text_rejected _ _ _ _) _).
      * discriminate.
      * intros H. apply suspicious_spec in H. discriminate H.
    + reflexivity.
Defined.

(** With no chunks, a candidate of the suspicious-text tier still gets the
    marker as its snippet. *)
Lemma marker_snippet_without_chunks :
  findEvidence
    (Some (str "the provisions of this agreement shall remain in force indefinitely"))
    [] (mkManifest None) =
  Some (mkEvidence None (str "unknown") None [] (str "chunk:unknown")
          NO_EVIDENCE) /\
  NO_EVIDENCE <> [].
Proof. split; [reflexivity|discriminate]. Qed.

(** C10 (amended). [findEvidence] raises no exception, whatever the
    candidate and the chunks.  With no chunks the evidence object has the
    source file ["unknown"] and an empty section; its snippet is empty,
    except for a candidate of the suspicious-text tier, where it is the
    marker. *)
Theorem findEvidence_no_chunks :
  (forall searchText chunks manifest,
      exists ev, findEvidence searchText chunks manifest = Some ev) /\
  (forall searchText manifest,
      exists ev,
        findEvidence searchText [] manifest = Some ev /\
        sourceFile ev = str "unknown" /\
        selector ev = str "chunk:unknown" /\
        sourceSection ev = [] /\
        ((snippet ev = [] /\ ~ boilerplateCandidate searchText) \/
         (snippet ev = NO_EVIDENCE /\ boilerplateCandidate searchText))).
Proof.
  split; [apply findEvidence_total|].
  intros searchText manifest. unfold boilerplateCandidate.
  destruct searchText as [[|c s]|]; simpl.
  - eexists. repeat split. left. split; [done|]. by intros (s & [= <-] & ? & _).
  - destruct (suspicious (trim (c :: s))) eqn:Hs.
    + eexists. repeat split. right. split; [done|].
      apply suspicious_spec in Hs as [? ?]. exists (c :: s). by repeat split.
    + unfold searchEvidence, replace_ws. rewrite RegExp_literal. simpl.
      eexists. repeat split. left. split; [done|].
      intros (s' & [= <-] & _ & H). apply suspicious_spec in H. congruence.
  - eexists. repeat split. left. split; [done|]. by intros (s & ? & _).
Qed.

End EvidenceFacts.

Module RelationshipFacts.
Import JS Regex Num Manual JSFacts.

Lemma falsy_false (s : option jsstring) :
  falsy s = false -> exists a, s = Some a /\ a <> [].
Proof. destruct s as [[|c a]|]; [done| |done]. intros _. by eexists. Qed.

Lemma isPartnership_spec contextWindow :
  test true re_isPartnership contextWindow = true <->
  containsWord PARTNERSHIP_WORDS contextWindow.
Proof.
  change re_isPartnership
    with (seqs [WordB; Group 1 (alts (map lit PARTNERSHIP_WORDS)); WordB]).
  by apply RegexFacts.test_word_pattern.
Qed.

Lemma isDeal_spec contextWindow :
  test true re_isDeal contextWindow = true <->
  containsWord DEAL_WORDS contextWindow.
Proof.
  change re_isDeal
    with (seqs [WordB; Group 1 (alts (map lit DEAL_WORDS)); WordB]).
  by apply RegexFacts.test_word_pattern.
Qed.

(** The three outcomes of lines 394-561. *)
Lemma relationshipOutput_cases companyName fullText contextWindow :
  let built := fst (buildPartnership companyName fullText contextWindow) in
  let out := relationshipOutput companyName fullText contextWindow in
  (test true re_isPartnership contextWindow = true /\
   out_deal out = None /\
   out_partnership out =
   if falsy (partnerA built) || falsy (partnerB built) then None
   else Some built) \/
  (test true re_isPartnership contextWindow = false /\
   out_partnership out = None /\
   out_deal out =
   if test true re_isDeal contextWindow then Some (buildDeal contextWindow)
   else None).
Proof.
  unfold relationshipOutput, extractRelationship.
  destruct (test true re_isPartnership contextWindow).
  - left. destruct (buildPartnership _ _ _) as [p t]. simpl.
    by destruct (falsy (partnerA p) || falsy (partnerB p)).
  - right. by destruct (test true re_isDeal contextWindow).
Qed.

(** C6. A partnership sub-record in the output has both partners, each a
    non-empty string; when either partner of the record built by the
    partnership branch is missing, the output has no partnership
    sub-record at all. *)
Theorem partnership_atomic companyName fullText contextWindow :
  let built := fst (buildPartnership companyName fullText contextWindow) in
  let out := relationshipOutput companyName fullText contextWindow in
  (forall p, out_partnership out = Some p ->
     p = built /\
     exists a b, partnerA p = Some a /\ a <> [] /\
                 partnerB p = Some b /\ b <> []) /\
  (falsy (partnerA built) = true \/ falsy (partnerB built) = true ->
   out_partnership out = None).
Proof.
  intros built out.
  destruct (relationshipOutput_cases companyName fullText contextWindow)
    as [(_ & _ & Hp)|(_ & Hp & _)]; fold built out in Hp; rewrite Hp.
  - destruct (falsy (partnerA built)) eqn:Ha; [by split; [|intros _]|].
    destruct (falsy (partnerB built)) eqn:Hb; [by split; [|intros _]|].
    simpl. split; [|by intros [?|?]].
    intros p [= <-]. split; [done|].
    destruct (falsy_false _ Ha) as (a & -> & ?).
    destruct (falsy_false _ Hb) as (b & -> & ?). by exists a, b.
  - by split.
Qed.

Lemma partnership_atomic_witness :
  exists p,
    out_partnership
      (relationshipOutput (Some (str "Acme Inc."))
         (str "Acme Inc. entered into a collaboration with Beta Pharma Corp.")
         (str "Acme Inc. entered into a collaboration with Beta Pharma Corp."))
    = Some p /\
    partnerA p = Some (str "Acme Inc.") /\
    partnerB p = Some (str "Beta Pharma Corp") /\
    out_partnership
      (relationshipOutput None
         (str "Acme Inc. entered into a collaboration with Beta Pharma Corp.")
         (str "Acme Inc. entered into a collaboration with Beta Pharma Corp."))
    = None.
Proof.
  eexists. split; [vm_compute; reflexivity|].
  split; [reflexivity|]. split; [reflexivity|].
  refine (proj2 (partnership_atomic None _ _) _). left. reflexivity.
Defined.

(** C7. A context window that matches both vocabularies goes through the
    partnership branch and gets no deal sub-record.  A deal sub-record
    exists exactly when the window matches the deal vocabulary and not the
    partnership vocabulary; the output never has both sub-records. *)
Theorem partnership_precedes_deal companyName fullText contextWindow :
  let built := fst (buildPartnership companyName fullText contextWindow) in
  let out := relationshipOutput companyName fullText contextWindow in
  (containsWord PARTNERSHIP_WORDS contextWindow ->
   containsWord DEAL_WORDS contextWindow ->
   out_deal out = None /\
   out_partnership out =
   if falsy (partnerA built) || falsy (partnerB built) then None
   else Some built) /\
  (out_deal out <> None <->
   ~ containsWord PARTNERSHIP_WORDS contextWindow /\
   containsWord DEAL_WORDS contextWindow) /\
  ~ (out_partnership out <> None /\ out_deal out <> None).
Proof.
  intros built out.
  rewrite <- isPartnership_spec, <- isDeal_spec.
  destruct (relationshipOutput_cases companyName fullText contextWindow)
    as [(Hp & Hd & Ho)|(Hp & Ho & Hd)]; fold built out in Hd, Ho;
    rewrite Hp, Hd.
  - split; [done|]. split; [|by intros [_ ?]].
    split; [done|]. by intros [? _].
  - rewrite Ho. split; [done|]. split; [|by intros [? _]].
    destruct (test true re_isDeal contextWindow); split; try done.
    by intros [_ ?].
Qed.

Lemma partnership_precedes_deal_witness :
  out_deal
    (relationshipOutput (Some (str "Acme Inc."))
       (str "Acme Inc. announced a merger and a partnership with Beta Corp.")
       (str "Acme Inc. announced a merger and a partnership with Beta Corp."))
  = None /\
  exists p,
    out_partnership
      (relationshipOutput (Some (str "Acme Inc."))
         (str "Acme Inc. announced a merger and a partnership with Beta Corp.")
         (str "Acme Inc. announced a merger and a partnership with Beta Corp."))
    = Some p /\ partnerB p = Some (str "Beta Corp").
Proof.
  split.
  - refine (proj1 (proj1 (partnership_precedes_deal _ _ _) _ _)).
    + apply isPartnership_spec. reflexivity.
    + apply isDeal_spec. reflexivity.
  - eexists. split; [vm_compute; reflexivity|reflexivity].
Defined.

End RelationshipFacts.

Module DateFacts.
Import JS DateTime.

Lemma DayFromYear_succ y : DayFromYear (y + 1) = DayFromYear y + yearLength y.
Proof.
  unfold DayFromYear, yearLength, InLeapYear.
  destruct (Z.eqb_spec (y mod 4) 0), (Z.eqb_spec (y mod 100) 0),
    (Z.eqb_spec (y mod 400) 0); simpl;
    Z.div_mod_to_equations; lia.
Qed.

Lemma yearLength_pos y : 365 <= yearLength y.
Proof. unfold yearLength. destruct (InLeapYear y); lia. Qed.

(** The first day of a later year comes after the last day of an earlier
    one. *)
Lemma DayFromYear_mono y1 y2 :
  y1 < y2 -> DayFromYear y1 + yearLength y1 <= DayFromYear y2.
Proof.
  intros H. replace y2 with (y1 + 1 + (y2 - y1 - 1)) by lia.
  assert (0 <= y2 - y1 - 1) as Hk by lia.
  revert Hk. generalize (y2 - y1 - 1). clear H.
  apply natlike_ind.
  - rewrite Z.add_0_r, DayFromYear_succ. lia.
  - intros k Hk IH.
    replace (y1 + 1 + Z.succ k) with (y1 + 1 + k + 1) by lia.
    rewrite DayFromYear_succ. pose proof (yearLength_pos (y1 + 1 + k)). lia.
Qed.

Lemma validDate_month y m d : validDate y m d = true -> 1 <= m <= 12 /\ 1 <= d.
Proof. unfold validDate. rewrite !andb_true_iff, !Z.leb_le. lia. Qed.

(** The months as cases. *)
Ltac months m Hm :=
  assert (m = 1 \/ m = 2 \/ m = 3 \/ m = 4 \/ m = 5 \/ m = 6 \/ m = 7 \/
          m = 8 \/ m = 9 \/ m = 10 \/ m = 11 \/ m = 12) as Hm by lia;
  repeat destruct Hm as [Hm|Hm]; subst m.

(** The day of the year of a calendar date. *)
Lemma dayOfYear_range y m d :
  validDate y m d = true ->
  0 <= daysBeforeMonth (InLeapYear y) m + d - 1 < yearLength y.
Proof.
  intros H. pose proof (validDate_month _ _ _ H) as [Hm12 Hd].
  unfold validDate in H. rewrite !andb_true_iff, !Z.leb_le in H.
  destruct H as [_ Hdim]. unfold yearLength.
  months m Hm; destruct (InLeapYear y);
    unfold daysInMonth, daysBeforeMonth in *; simpl in *; lia.
Qed.

Lemma dayOfYear_mono leap m1 d1 m2 d2 :
  1 <= m1 <= 12 -> 1 <= m2 <= 12 ->
  1 <= d1 <= daysInMonth leap m1 -> 1 <= d2 <= daysInMonth leap m2 ->
  (daysBeforeMonth leap m1 + d1 < daysBeforeMonth leap m2 + d2 <->
   m1 < m2 \/ (m1 = m2 /\ d1 < d2)).
Proof.
  intros H1 H2 Hd1 Hd2.
  months m1 Hm1; months m2 Hm2; destruct leap;
    unfold daysInMonth, daysBeforeMonth in *; simpl in *; lia.
Qed.

(** Day numbers order calendar dates chronologically. *)
Lemma MakeDay_mono y1 m1 d1 y2 m2 d2 :
  validDate y1 m1 d1 = true -> validDate y2 m2 d2 = true ->
  (MakeDay y1 m1 d1 < MakeDay y2 m2 d2 <->
   dateBefore (y1, m1, d1) (y2, m2, d2)).
Proof.
  intros V1 V2. unfold dateBefore, MakeDay.
  pose proof (dayOfYear_range _ _ _ V1) as R1.
  pose proof (dayOfYear_range _ _ _ V2) as R2.
  destruct (Z.lt_total y1 y2) as [Hy|[Hy|Hy]].
  - pose proof (DayFromYear_mono _ _ Hy). lia.
  - subst y2.
    pose proof (validDate_month _ _ _ V1) as [Hm1 Hd1].
    pose proof (validDate_month _ _ _ V2) as [Hm2 Hd2].
    unfold validDate in V1, V2.
    rewrite !andb_true_iff, !Z.leb_le in V1, V2.
    pose proof (dayOfYear_mono (InLeapYear y1) m1 d1 m2 d2) as Hmono.
    lia.
  - pose proof (DayFromYear_mono _ _ Hy). lia.
Qed.

End DateFacts.

Module CrossFieldFacts.
Import JS Num DateTime Manual DateFacts.

Lemma dateFields_nonempty s a : dateFields s = Some a -> falsy (Some s) = false.
Proof. by destruct s. Qed.

Lemma falsy_present (o : option jsstring) :
  falsy o = false <-> exists s, o = Some s /\ s <> [].
Proof.
  destruct o as [[|c s]|]; simpl.
  - split; [done|]. by intros (s & [= <-] & ?).
  - split; [|done]. intros _. by exists (c :: s).
  - split; [done|]. by intros (s & ? & _).
Qed.

(** A calendar date has its month and its day in the range of the
    format. *)
Lemma validDate_inRange y m d : validDate y m d = true -> inRange m d = true.
Proof.
  unfold validDate, inRange. rewrite !andb_true_iff, !Z.leb_le.
  intros [[[H1 H12] Hd] Hdim]. repeat split; try done.
  unfold daysInMonth in Hdim.
  destruct (m =? 2); [destruct (InLeapYear y); lia|].
  destruct (_ || _); lia.
Qed.

(** The time value of a string of the date-only form. *)
Lemma parse_date engine s y m d :
  dateFields s = Some (y, m, d) -> inRange m d = true ->
  parse engine s = Some (MakeDay y m d * msPerDay).
Proof. intros Hs Hr. unfold parse. by rewrite Hs, Hr. Qed.

Lemma after_days engine eff filed y1 m1 d1 y2 m2 d2 :
  dateFields eff = Some (y1, m1, d1) -> inRange m1 d1 = true ->
  dateFields filed = Some (y2, m2, d2) -> inRange m2 d2 = true ->
  DateTime.after engine eff filed = true <->
  MakeDay y2 m2 d2 < MakeDay y1 m1 d1.
Proof.
  intros He Hre Hf Hrf. unfold DateTime.after.
  rewrite (parse_date _ _ _ _ _ He Hre), (parse_date _ _ _ _ _ Hf Hrf).
  rewrite Z.ltb_lt. unfold msPerDay. lia.
Qed.

Lemma after_spec engine eff filed de df :
  dateFields eff = Some de -> isCalendarDate de ->
  dateFields filed = Some df -> isCalendarDate df ->
  DateTime.after engine eff filed = true <-> dateBefore df de.
Proof.
  intros He Hve Hf Hvf.
  destruct de as [[y1 m1] d1], df as [[y2 m2] d2].
  cbn -[dateBefore MakeDay validDate] in Hve, Hvf.
  pose proof (validDate_inRange _ _ _ Hve) as Hre.
  pose proof (validDate_inRange _ _ _ Hvf) as Hrf.
  rewrite (after_days engine eff filed y1 m1 d1 y2 m2 d2 He Hre Hf Hrf).
  by apply MakeDay_mono.
Qed.

Lemma after_times engine a b :
  DateTime.after engine a b = true <->
  exists ta tb, parse engine a = Some ta /\ parse engine b = Some tb /\ tb < ta.
Proof.
  unfold DateTime.after.
  destruct (parse engine a) as [ta|], (parse engine b) as [tb|].
  - rewrite Z.ltb_lt. split; [by eauto|]. by intros (? & ? & [= <-] & [= <-] & ?).
  - split; [done|]. by intros (? & ? & _ & ? & _).
  - split; [done|]. by intros (? & ? & ? & _).
  - split; [done|]. by intros (? & ? & ? & _).
Qed.

(** The entries of the other two checks are other messages. *)
Lemma crossFieldChecks_date engine doc event fullText contextWindow :
  In EFFECTIVE_AFTER_FILED
     (crossFieldChecks engine doc event fullText contextWindow)
  <->
  falsy (effectiveDate event) = false /\ falsy (filedDate doc) = false /\
  DateTime.after engine (default [] (effectiveDate event))
                 (default [] (filedDate doc)) = true.
Proof.
  unfold crossFieldChecks. rewrite !in_app_iff.
  assert (forall (b : bool) (m : jsstring),
             m <> EFFECTIVE_AFTER_FILED ->
             ~ In EFFECTIVE_AFTER_FILED (if b then [m] else [])) as Hother.
  { intros [] m Hm; simpl; tauto. }
  split.
  - intros [H|[H|H]].
    + destruct (totalValueUSD event); [|done].
      by apply Hother in H.
    + destruct (bool_decide _); [|done]. by apply Hother in H.
    + destruct (falsy (effectiveDate event)), (falsy (filedDate doc));
        try done.
      simpl in H. by destruct (DateTime.after _ _).
  - intros (-> & -> & ->). right. right. by left.
Qed.

(** A day past the end of its month is that many days into the next
    month. *)
Lemma MakeDay_next_month y m k :
  1 <= m <= 11 ->
  MakeDay y m (daysInMonth (InLeapYear y) m + k) = MakeDay y (m + 1) k.
Proof.
  intros Hm. unfold MakeDay. months m Hm'; try lia;
    destruct (InLeapYear y);
    unfold daysInMonth, daysBeforeMonth; simpl; lia.
Qed.

(** C9. The cross-field list has the entry exactly when both dates are
    present and the time value of the effective date, as [new Date] reads
    it, is larger than that of the filed date.  For two strings of the
    form YYYY-MM-DD with a month from 01 to 12 and a day from 01 to 31
    the time values are the day numbers, so the entry is there exactly
    when the effective day comes after the filed day; when both are
    calendar dates this is the order of (year, month, day): there is the
    entry when the effective date is after the filed date, and none when
    it is earlier or the same.  There is no entry when one of the two
    dates is missing; 2023-08-01 against 2023-07-26 gives the entry.  A
    day past the end of its month counts on into the next month. *)
Theorem effective_after_filed :
  (forall engine doc event fullText contextWindow,
      In EFFECTIVE_AFTER_FILED
         (crossFieldChecks engine doc event fullText contextWindow) <->
      exists eff filed te tf,
        effectiveDate event = Some eff /\ eff <> [] /\
        filedDate doc = Some filed /\ filed <> [] /\
        parse engine eff = Some te /\ parse engine filed = Some tf /\
        tf < te) /\
  (forall engine doc event fullText contextWindow eff filed
          y1 m1 d1 y2 m2 d2,
      effectiveDate event = Some eff -> filedDate doc = Some filed ->
      dateFields eff = Some (y1, m1, d1) -> inRange m1 d1 = true ->
      dateFields filed = Some (y2, m2, d2) -> inRange m2 d2 = true ->
      parse engine eff = Some (MakeDay y1 m1 d1 * msPerDay) /\
      parse engine filed = Some (MakeDay y2 m2 d2 * msPerDay) /\
      (In EFFECTIVE_AFTER_FILED
          (crossFieldChecks engine doc event fullText contextWindow) <->
       MakeDay y2 m2 d2 < MakeDay y1 m1 d1)) /\
  (forall engine doc event fullText contextWindow eff filed de df,
      effectiveDate event = Some eff -> filedDate doc = Some filed ->
      dateFields eff = Some de -> isCalendarDate de ->
      dateFields filed = Some df -> isCalendarDate df ->
      (In EFFECTIVE_AFTER_FILED
          (crossFieldChecks engine doc event fullText contextWindow) <->
       dateBefore df de)) /\
  (forall engine doc event fullText contextWindow,
      falsy (effectiveDate event) = true \/ falsy (filedDate doc) = true ->
      ~ In EFFECTIVE_AFTER_FILED
           (crossFieldChecks engine doc event fullText contextWindow)) /\
  (forall engine doc event fullText contextWindow,
      effectiveDate event = Some (str "2023-08-01") ->
      filedDate doc = Some (str "2023-07-26") ->
      In EFFECTIVE_AFTER_FILED
         (crossFieldChecks engine doc event fullText contextWindow)) /\
  (forall y m k,
      1 <= m <= 11 ->
      MakeDay y m (daysInMonth (InLeapYear y) m + k) = MakeDay y (m + 1) k).
Proof.
  split; [|split; [|split; [|split; [|split]]]].
  - intros engine doc event fullText contextWindow.
    rewrite crossFieldChecks_date, !falsy_present, after_times. split.
    + intros ((eff & He & Hne) & (filed & Hf & Hnf) & te & tf & Hte & Htf & Hlt).
      rewrite He in Hte. rewrite Hf in Htf. by exists eff, filed, te, tf.
    + intros (eff & filed & te & tf & He & Hne & Hf & Hnf & Hte & Htf & Hlt).
      rewrite He, Hf. split; [by eauto|]. split; [by eauto|].
      by exists te, tf.
  - intros engine doc event fullText contextWindow eff filed
      y1 m1 d1 y2 m2 d2 He Hf Hde Hre Hdf Hrf.
    split; [by apply parse_date|]. split; [by apply parse_date|].
    rewrite crossFieldChecks_date, He, Hf.
    rewrite (dateFields_nonempty _ _ Hde), (dateFields_nonempty _ _ Hdf).
    simpl.
    rewrite <- (after_days engine eff filed y1 m1 d1 y2 m2 d2) by done.
    tauto.
  - intros engine doc event fullText contextWindow eff filed de df He Hf
      Hde Hve Hdf Hvf.
    rewrite crossFieldChecks_date, He, Hf.
    rewrite (dateFields_nonempty _ _ Hde), (dateFields_nonempty _ _ Hdf).
    simpl. rewrite <- (after_spec engine eff filed de df) by done. tauto.
  - intros engine doc event fullText contextWindow H.
    rewrite crossFieldChecks_date. intros (? & ? & _).
    destruct H; congruence.
  - intros engine doc event fullText contextWindow He Hf.
    rewrite crossFieldChecks_date, He, Hf. done.
  - apply MakeDay_next_month.
Qed.

Lemma effective_after_filed_witness :
  In EFFECTIVE_AFTER_FILED
     (crossFieldChecks (fun _ => None)
        (mkDoc None (str "8-K") (Some (str "2023-07-26")) None None)
        (mkEvent None None None None None (Some (str "2023-08-01")))
        [] []) /\
  ~ In EFFECTIVE_AFTER_FILED
      (crossFieldChecks (fun _ => None)
         (mkDoc None (str "8-K") (Some (str "2023-07-26")) None None)
         (mkEvent None None None None None (Some (str "2023-07-26")))
         [] []) /\
  In EFFECTIVE_AFTER_FILED
     (crossFieldChecks (fun _ => None)
        (mkDoc None (str "8-K") (Some (str "2023-02-30")) None None)
        (mkEvent None None None None None (Some (str "2023-03-03")))
        [] []) /\
  ~ In EFFECTIVE_AFTER_FILED
      (crossFieldChecks (fun _ => None)
         (mkDoc None (str "8-K") None None None)
         (mkEvent None None None None None (Some (str "2023-07-26")))
         [] []).
Proof.
  split; [|split; [|split]].
  - apply (proj2 (proj1 (proj2 (proj2 effective_after_filed))
             (fun _ => None)
             (mkDoc None (str "8-K") (Some (str "2023-07-26")) None None)
             (mkEvent None None None None None (Some (str "2023-08-01")))
             [] [] (str "2023-08-01") (str "2023-07-26")
             (2023, 8, 1) (2023, 7, 26)
             eq_refl eq_refl eq_refl eq_refl eq_refl eq_refl)).
    unfold dateBefore. lia.
  - intros H.
    apply (proj1 (proj1 (proj2 (proj2 effective_after_filed))
             (fun _ => None)
             (mkDoc None (str "8-K") (Some (str "2023-07-26")) None None)
             (mkEvent None None None None None (Some (str "2023-07-26")))
             [] [] (str "2023-07-26") (str "2023-07-26")
             (2023, 7, 26) (2023, 7, 26)
             eq_refl eq_refl eq_refl eq_refl eq_refl eq_refl)) in H.
    unfold dateBefore in H. lia.
  - apply (proj2 (proj2 (proj2 (proj1 (proj2 effective_after_filed)
             (fun _ => None)
             (mkDoc None (str "8-K") (Some (str "2023-02-30")) None None)
             (mkEvent None None None None None (Some (str "2023-03-03")))
             [] [] (str "2023-03-03") (str "2023-02-30")
             2023 3 3 2023 2 30
             eq_refl eq_refl eq_refl eq_refl eq_refl eq_refl)))).
    vm_compute. reflexivity.
  - apply (proj1 (proj2 (proj2 (proj2 effective_after_filed)))). by right.
Defined.

End CrossFieldFacts.

Module PathFacts.
Import JS Path.





End PathFacts.

Module ValidateFacts.
Import JS Regex Manual Validate JSFacts EvidenceFacts PathFacts.




(** A name with [./] in front, or one that goes through another
    directory and back, cites the same chunk file; an empty name cites
    the chunk directory itself, and reading it throws. *)
Lemma checkEvidence_resolves_names :
  let fs : fileSystem := fun path =>
    if bool_decide (path = str "data/chunks/1178670/chunk_0001.txt")
    then Some (File (str "Acme Inc. entered into an agreement"))
    else if bool_decide (path = str "data/chunks/1178670")
         then Some Unreadable else None in
  let cite name :=
    checkEvidence fs (str "data/chunks/1178670") (str "doc.companyName")
      (mkEvidence None (str name) None [] [] (str "Acme Inc.")) in
  cite "chunk_0001.txt" = mkOutcome [] false /\
  cite "./chunk_0001.txt" = mkOutcome [] false /\
  cite "a/../chunk_0001.txt" = mkOutcome [] false /\
  cite "" = mkOutcome [] true /\
  cite "chunk_0002.txt" =
    mkOutcome [MissingChunkFile (str "data/chunks/1178670/chunk_0002.txt")]
              false.
Proof. repeat split; vm_compute; reflexivity. Qed.

End ValidateFacts.

Module RegexSemFacts.
Import JS Regex JSFacts RegexFacts RegexSem.

Lemma state_of_pos pre tl : pos (state_of pre tl) = length pre.
Proof. reflexivity. Qed.

Lemma capture_clear inner cs i :
  ~ In i inner -> capture (clear inner cs) i = capture cs i.
Proof.
  intros Hi. unfold capture, clear. f_equal.
  induction cs as [|[j v] cs IH]; [done|]. cbn [List.filter List.find fst].
  destruct (existsb (Nat.eqb j) inner) eqn:He; cbn [negb List.find fst].
  - destruct (Nat.eqb_spec j i) as [->|]; [|done].
    apply existsb_exists in He as (x & Hx & Hxe).
    apply Nat.eqb_eq in Hxe. by subst.
  - by rewrite IH.
Qed.

Section Soundness.
Context {R : Type}.
Implicit Types k : mstate -> caps -> option R.

Lemma mchar_sound_for ic r P :
  (forall d b a, P d = true -> Matches ic r b [d] a) ->
  sound_for ic r (mchar (R:=R) P).
Proof.
  intros HP pre tl cs k z. destruct tl as [|d tl]; [done|].
  rewrite mchar_state_of. destruct (P d) eqn:Hd; [|done]. intros Hk.
  exists [d], tl, cs. split; [done|]. split; [by apply HP|done].
Qed.

Lemma mrep_sound_for ic r m greedy :
  sound_for ic r m ->
  forall n lo hi pre tl cs k z,
    hi = None \/ hi = Some n ->
    mrep n m (groups r) greedy lo (state_of pre tl) cs k = Some z ->
    exists w tl' cs',
      tl = w ++ tl' /\ Matches ic (Rep r lo hi greedy) pre w tl' /\
      k (state_of (pre ++ w) tl') cs' = Some z /\
      forall i, ~ In i (groups r) -> capture cs' i = capture cs i.
Proof.
  intros Hm. induction n as [|n IH]; intros lo hi pre tl cs k z Hhi.
  - cbn [mrep]. destruct (Nat.eqb_spec lo 0) as [->|]; [|done]. intros Hk.
    exists [], tl, cs. rewrite app_nil_r. split; [done|].
    split; [constructor|done].
  - cbn [mrep].
    assert (m (state_of pre tl) (clear (groups r) cs)
        (fun st' cs' =>
           if Nat.eqb lo 0 && Nat.eqb (pos st') (pos (state_of pre tl)) then None
           else mrep n m (groups r) greedy (Nat.pred lo) st' cs' k) = Some z ->
      exists w tl' cs',
        tl = w ++ tl' /\ Matches ic (Rep r lo hi greedy) pre w tl' /\
        k (state_of (pre ++ w) tl') cs' = Some z /\
        forall i, ~ In i (groups r) -> capture cs' i = capture cs i) as Hiter.
    { intros H. apply Hm in H as (w1 & tl1 & cs1 & -> & Hw1 & H & Hc1).
      rewrite !state_of_pos in H.
      destruct (Nat.eqb lo 0 && Nat.eqb (length (pre ++ w1)) (length pre)) eqn:Hc;
        [done|].
      apply (IH _ (Nat.pred <$> hi)) in H as (w2 & tl2 & cs2 & -> & Hw2 & H & Hc2).
      - exists (w1 ++ w2), tl2, cs2. rewrite <- !app_assoc in *.
        split; [done|]. split; [|split; [done|]].
        + constructor; [| |done|done].
          * destruct Hhi as [Hh|Hh]; rewrite Hh; discriminate.
          * intros -> ->. rewrite app_nil_r, !Nat.eqb_refl in Hc. done.
        + intros i Hi. rewrite Hc2, Hc1 by done. by apply capture_clear.
      - destruct Hhi as [->| ->]; [by left|by right]. }
    assert (k (state_of pre tl) cs = Some z -> lo = 0%nat ->
      exists w tl' cs',
        tl = w ++ tl' /\ Matches ic (Rep r lo hi greedy) pre w tl' /\
        k (state_of (pre ++ w) tl') cs' = Some z /\
        forall i, ~ In i (groups r) -> capture cs' i = capture cs i) as Hstop.
    { intros Hk ->. exists [], tl, cs. rewrite app_nil_r.
      split; [done|]. split; [constructor|done]. }
    destruct (Nat.eqb_spec lo 0) as [Hlo|Hlo]; cbn [negb].
    + destruct greedy.
      * destruct (m _ _ _) as [z'|] eqn:Hz.
        -- intros [= ->]. by apply Hiter.
        -- intros Hk. by apply Hstop.
      * destruct (k _ _) as [z'|] eqn:Hz.
        -- intros [= ->]. by apply Hstop.
        -- intros H. by apply Hiter.
    + intros H. by apply Hiter.
Qed.

Lemma mt_Matches_sound ic r : sound_for ic r (mt (R:=R) ic r).
Proof.
  induction r as [|c| |neg items|r1 IH1 r2 IH2|r1 IH1 r2 IH2|r IH lo hi g
                 |i r IH| | |]; intros pre tl cs k z; cbn [mt].
  - intros H. exists [], tl, cs. rewrite app_nil_r. split; [done|].
    split; [constructor|done].
  - apply mchar_sound_for. intros. by constructor.
  - apply mchar_sound_for. intros. constructor. by destruct (isLineTerminator d).
  - apply mchar_sound_for. intros. by constructor.
  - intros H. apply IH1 in H as (w1 & tl1 & cs1 & -> & Hw1 & H & Hc1).
    apply IH2 in H as (w2 & tl2 & cs2 & -> & Hw2 & H & Hc2).
    exists (w1 ++ w2), tl2, cs2. rewrite <- !app_assoc in *.
    split; [done|]. split; [by constructor|]. split; [done|].
    intros i Hi. cbn [groups] in Hi. rewrite in_app_iff in Hi.
    rewrite Hc2, Hc1 by tauto. done.
  - destruct (mt ic r1 _ _ _) as [z'|] eqn:Hz.
    + intros [= ->]. apply IH1 in Hz as (w & tl' & cs' & ? & ? & ? & Hc).
      exists w, tl', cs'. split; [done|]. split; [by apply M_AltL|].
      split; [done|]. intros i Hi. cbn [groups] in Hi. rewrite in_app_iff in Hi.
      apply Hc. tauto.
    + intros H. apply IH2 in H as (w & tl' & cs' & ? & ? & ? & Hc).
      exists w, tl', cs'. split; [done|]. split; [by apply M_AltR|].
      split; [done|]. intros i Hi. cbn [groups] in Hi. rewrite in_app_iff in Hi.
      apply Hc. tauto.
  - intros H. eapply mrep_sound_for in H; [exact H|exact IH|].
    destruct hi; [by right|by left].
  - intros H. apply IH in H as (w & tl' & cs' & ? & ? & ? & Hc).
    exists w, tl', ((i, take (pos (state_of (pre ++ w) tl') - pos (state_of pre tl))
                          (rest (state_of pre tl))) :: cs').
    split; [done|]. split; [by constructor|]. split; [done|].
    intros j Hj. cbn [groups] in Hj. simpl in Hj.
    rewrite <- Hc by tauto. unfold capture. cbn [List.find fst].
    destruct (Nat.eqb_spec i j); [tauto|done].
  - cbn [prev rest state_of].
    destruct (xorb _ _) eqn:Hb; [|done]. intros H.
    exists [], tl, cs. rewrite app_nil_r. split; [done|].
    split; [|done]. constructor. by apply boundary_xorb.
  - cbn [pos state_of]. destruct pre; [|done]. intros H.
    exists [], tl, cs. split; [done|]. split; [constructor|done].
  - cbn [rest state_of]. destruct tl; [|done]. intros H.
    exists [], [], cs. rewrite (app_nil_r pre). split; [done|]. split; [constructor|done].
Qed.

(** What a capturing group records is what its pattern matched. *)
Lemma mt_Group_sound ic i r pre tl cs k z :
  mt ic (Group i r) (state_of pre tl) cs k = Some z ->
  exists w tl' cs',
    tl = w ++ tl' /\ Matches ic r pre w tl' /\
    k (state_of (pre ++ w) tl') cs' = Some z /\
    capture cs' i = Some w /\
    forall j, ~ In j (i :: groups r) -> capture cs' j = capture cs j.
Proof.
  cbn [mt]. intros H.
  apply mt_Matches_sound in H as (w & tl' & cs' & -> & Hw & H & Hc).
  cbn [pos rest state_of] in H.
  replace (length (pre ++ w) - length pre)%nat with (length w) in H
    by (rewrite length_app; lia).
  rewrite take_app_length in H.
  exists w, tl', ((i, w) :: cs'). split; [done|]. split; [done|].
  split; [done|]. split.
  - unfold capture. cbn [List.find fst]. by rewrite Nat.eqb_refl.
  - intros j Hj. simpl in Hj. rewrite <- Hc by tauto.
    unfold capture. cbn [List.find fst].
    destruct (Nat.eqb_spec i j); [tauto|done].
Qed.

End Soundness.

Section Completeness.
Context {R : Type}.
Implicit Types k : mstate -> caps -> option R.

Lemma mt_Matches_complete ic r pre w tl' :
  Matches ic r pre w tl' ->
  forall cs k,
    (forall cs', is_Some (k (state_of (pre ++ w) tl') cs')) ->
    is_Some (mt ic r (state_of pre (w ++ tl')) cs k).
Proof.
  induction 1 as [b a|c d b a Hc|d b a Hd|neg items d b a Hd
                 |r1 r2 b w1 w2 a H1 IH1 H2 IH2
                 |r1 r2 b w a H1 IH1|r1 r2 b w a H1 IH1
                 |r hi g b a
                 |r lo hi g b w1 w2 a Hhi Hne H1 IH1 H2 IH2
                 |i r b w a H1 IH1|b a Hb|a|b]; intros cs k Hk.
  - cbn [mt app]. rewrite app_nil_r in Hk. apply Hk.
  - cbn [mt app]. rewrite mchar_state_of, Hc. apply Hk.
  - cbn [mt app]. rewrite mchar_state_of, Hd. apply Hk.
  - cbn [mt app]. rewrite mchar_state_of, Hd. apply Hk.
  - cbn [mt]. rewrite <- app_assoc. apply IH1. intros cs'. apply IH2.
    intros cs''. rewrite <- app_assoc. apply Hk.
  - cbn [mt]. destruct (mt ic r1 _ _ _) eqn:Hz; [done|].
    specialize (IH1 cs k Hk). rewrite Hz in IH1. by destruct IH1.
  - cbn [mt]. destruct (mt ic r1 _ _ _) eqn:Hz; [done|]. by apply IH1.
  - cbn [mt app]. rewrite app_nil_r in Hk.
    destruct (match hi with Some h => h | None => _ end) as [|n].
    + cbn [mrep Nat.eqb]. apply Hk.
    + cbn [mrep Nat.eqb negb]. destruct g.
      * destruct (mt ic r _ _ _); [done|apply Hk].
      * destruct (k _ _) eqn:Hz; [done|].
        specialize (Hk cs). rewrite Hz in Hk. by destruct Hk.
  - cbn [mt].
    set (st := state_of b ((w1 ++ w2) ++ a)).
    set (n := match hi with Some h => h | None => (lo + length (rest st))%nat end).
    assert (exists n', n = S n' /\
              forall cs',
                is_Some (mrep n' (mt ic r) (groups r) g (Nat.pred lo)
                           (state_of (b ++ w1) (w2 ++ a)) cs' k)) as (n' & Hn & Hrest).
    { destruct hi as [[|h]|]; [done| |].
      - exists h. split; [done|]. intros cs'. apply (IH2 cs' k).
        intros cs''. rewrite <- app_assoc. apply Hk.
      - subst n st. cbn [rest state_of]. rewrite !length_app.
        exists (Nat.pred (lo + (length w1 + length w2 + length a))).
        split.
        + destruct lo; [|simpl; lia].
          destruct w1; [by exfalso; apply Hne|simpl; lia].
        + intros cs'.
          rewrite (Rep_unbounded (R:=R) ic r (Nat.pred lo) g
                     (state_of (b ++ w1) (w2 ++ a)) cs' k).
          * apply (IH2 cs' k). intros cs''. rewrite <- app_assoc. apply Hk.
          * cbn [rest state_of]. rewrite length_app.
            destruct lo; [|simpl; lia].
            destruct w1; [by exfalso; apply Hne|simpl; lia]. }
    rewrite Hn. cbn [mrep].
    assert (is_Some (mt ic r st (clear (groups r) cs)
              (fun st' cs' =>
                 if Nat.eqb lo 0 && Nat.eqb (pos st') (pos st) then None
                 else mrep n' (mt ic r) (groups r) g (Nat.pred lo) st' cs' k)))
      as Hiter.
    { subst st. rewrite <- app_assoc. apply IH1. intros cs'.
      rewrite !state_of_pos.
      destruct (Nat.eqb lo 0 && Nat.eqb (length (b ++ w1)) (length b)) eqn:Hc.
      - apply andb_true_iff in Hc as [Hlo Hp].
        apply Nat.eqb_eq in Hlo. apply Nat.eqb_eq in Hp.
        rewrite length_app in Hp. destruct w1; [by exfalso; apply Hne|].
        simpl in Hp. lia.
      - apply Hrest. }
    destruct (Nat.eqb lo 0); cbn [negb]; [|done].
    destruct g.
    + destruct (mt ic r st _ _) eqn:Hz; [done|]. by destruct Hiter.
    + destruct (k st cs); [done|]. done.
  - cbn [mt]. apply IH1. intros cs'. apply Hk.
  - cbn [mt app prev rest state_of]. apply boundary_xorb in Hb. rewrite Hb.
    rewrite app_nil_r in Hk. apply Hk.
  - cbn [mt app pos state_of length Nat.eqb]. apply Hk.
  - cbn [mt app rest state_of]. rewrite app_nil_r in Hk. apply Hk.
Qed.

End Completeness.

(** A match that starts after [pre]. *)
Lemma match_at_Matches ic r pre tl m :
  match_at ic r (state_of pre tl) = Some m ->
  index m = length pre /\
  exists post, tl = matched m ++ post /\ Matches ic r pre (matched m) post.
Proof.
  unfold match_at. intros H.
  apply mt_Matches_sound in H as (w & tl' & cs' & -> & Hw & H & _).
  injection H as <-. cbn [index matched pos rest state_of].
  split; [done|]. exists tl'.
  replace (length (pre ++ w) - length pre)%nat with (length w)
    by (rewrite length_app; lia).
  by rewrite take_app_length.
Qed.

Lemma match_at_is_Some ic r pre w post :
  Matches ic r pre w post ->
  is_Some (match_at ic r (state_of pre (w ++ post))).
Proof.
  intros H. unfold match_at. eapply mt_Matches_complete; [exact H|].
  intros cs'. eauto.
Qed.

(** [re.test(s)] is true exactly when the pattern matches somewhere. *)
Lemma test_occurs ic r s : test ic r s = true <-> occurs ic r s.
Proof.
  rewrite test_spec. unfold occurs. split.
  - intros (pre & tl & -> & m & Hm).
    apply match_at_Matches in Hm as (_ & post & -> & Hm). eauto.
  - intros (pre & w & post & -> & Hm). exists pre, (w ++ post).
    split; [done|]. by apply match_at_is_Some in Hm as [m Hm]; eauto.
Qed.

(** [re.exec(s)] returns the leftmost match. *)
Lemma exec_from_Matches ic r : forall tl pre m,
  exec_from ic r (last pre) tl (length pre) = Some m ->
  exists skipped post,
    tl = skipped ++ matched m ++ post /\
    index m = length (pre ++ skipped) /\
    Matches ic r (pre ++ skipped) (matched m) post /\
    forall sk' w' post',
      tl = sk' ++ w' ++ post' -> Matches ic r (pre ++ sk') w' post' ->
      (length skipped <= length sk')%nat.
Proof.
  induction tl as [|c tl IH]; intros pre m; cbn [exec_from].
  - fold (state_of pre []).
    destruct (match_at ic r (state_of pre [])) as [m'|] eqn:Hm; [|done].
    intros [= ->]. apply match_at_Matches in Hm as (Hi & post & Hp & Hm).
    exists [], post. rewrite app_nil_r. repeat split; try done.
    intros. simpl. lia.
  - fold (state_of pre (c :: tl)).
    destruct (match_at ic r (state_of pre (c :: tl))) as [m'|] eqn:Hm.
    + intros [= ->]. apply match_at_Matches in Hm as (Hi & post & Hp & Hm).
      exists [], post. rewrite app_nil_r. repeat split; try done.
      intros. simpl. lia.
    + intros H. specialize (IH (pre ++ [c]) m).
      rewrite last_snoc, length_app in IH. simpl in IH.
      replace (length pre + 1)%nat with (S (length pre)) in IH by lia.
      apply IH in H as (sk & post & -> & Hi & HM & Hleft).
      exists (c :: sk), post. rewrite <- !app_assoc in *. simpl in *.
      repeat split; try done.
      intros sk' w' post' Heq HM'. destruct sk' as [|d sk'].
      * exfalso. rewrite app_nil_r in HM'. simpl in Heq.
        apply match_at_is_Some in HM' as [m' Hm']. rewrite <- Heq in Hm'.
        congruence.
      * simpl in Heq. injection Heq as <- Heq.
        specialize (Hleft sk' w' post' Heq).
        rewrite <- app_assoc in Hleft. simpl in *.
        specialize (Hleft HM'). lia.
Qed.

Lemma exec_Matches ic r s m :
  exec ic r s = Some m ->
  exists pre post,
    s = pre ++ matched m ++ post /\ index m = length pre /\
    Matches ic r pre (matched m) post /\
    forall pre' w' post',
      s = pre' ++ w' ++ post' -> Matches ic r pre' w' post' ->
      (length pre <= length pre')%nat.
Proof.
  unfold exec. intros H. apply (exec_from_Matches ic r s []) in H.
  destruct H as (sk & post & ? & ? & ? & ?). exists sk, post. done.
Qed.

Lemma exec_None ic r s : exec ic r s = None <-> ~ occurs ic r s.
Proof.
  rewrite <- test_occurs. unfold test. by destruct (exec ic r s).
Qed.

Lemma exec_from_match_at ic r : forall tl pre m,
  exec_from ic r (last pre) tl (length pre) = Some m ->
  exists skipped tl',
    tl = skipped ++ tl' /\
    match_at ic r (state_of (pre ++ skipped) tl') = Some m.
Proof.
  induction tl as [|c tl IH]; intros pre m; cbn [exec_from].
  - fold (state_of pre []).
    destruct (match_at ic r (state_of pre [])) as [m'|] eqn:Hm; [|done].
    intros [= ->]. exists [], []. by rewrite (app_nil_r pre).
  - fold (state_of pre (c :: tl)).
    destruct (match_at ic r (state_of pre (c :: tl))) as [m'|] eqn:Hm.
    + intros [= ->]. exists [], (c :: tl). by rewrite (app_nil_r pre).
    + intros H. specialize (IH (pre ++ [c]) m).
      rewrite last_snoc, length_app in IH. simpl in IH.
      replace (length pre + 1)%nat with (S (length pre)) in IH by lia.
      apply IH in H as (sk & tl' & -> & H).
      exists (c :: sk), tl'. rewrite <- app_assoc in H. done.
Qed.

Lemma exec_match_at ic r s m :
  exec ic r s = Some m ->
  exists pre tl, s = pre ++ tl /\ match_at ic r (state_of pre tl) = Some m.
Proof. intros H. by apply (exec_from_match_at ic r s []) in H. Qed.

(** ** Inversion of matches *)

Lemma Matches_Seq ic r1 r2 b w a :
  Matches ic (Seq r1 r2) b w a <->
  exists w1 w2, w = w1 ++ w2 /\ Matches ic r1 b w1 (w2 ++ a) /\
                Matches ic r2 (b ++ w1) w2 a.
Proof.
  split.
  - inversion 1; subst. eauto.
  - intros (w1 & w2 & -> & ? & ?). by constructor.
Qed.

Lemma Matches_Chr ic c b w a :
  Matches ic (Chr c) b w a <->
  exists d, w = [d] /\ char_eqb (canon ic c) (canon ic d) = true.
Proof.
  split.
  - inversion 1; subst. eauto.
  - intros (d & -> & ?). by constructor.
Qed.

Lemma Matches_Class ic neg items b w a :
  Matches ic (Class neg items) b w a <->
  exists d, w = [d] /\ xorb neg (class_mem ic items d) = true.
Proof.
  split.
  - inversion 1; subst. eauto.
  - intros (d & -> & ?). by constructor.
Qed.

Lemma Matches_Bol ic b w a : Matches ic Bol b w a <-> b = [] /\ w = [].
Proof. split; [by inversion 1|]. intros [-> ->]. constructor. Qed.

Lemma Matches_Eol ic b w a : Matches ic Eol b w a <-> a = [] /\ w = [].
Proof. split; [by inversion 1|]. intros [-> ->]. constructor. Qed.

Lemma Matches_Eps ic b w a : Matches ic Eps b w a <-> w = [].
Proof. split; [by inversion 1|]. intros ->. constructor. Qed.

Lemma Matches_Alt ic r1 r2 b w a :
  Matches ic (Alt r1 r2) b w a <-> Matches ic r1 b w a \/ Matches ic r2 b w a.
Proof.
  split.
  - inversion 1; subst; eauto.
  - intros [?|?]; [by apply M_AltL|by apply M_AltR].
Qed.

Lemma Matches_Group ic i r b w a :
  Matches ic (Group i r) b w a <-> Matches ic r b w a.
Proof. split; [by inversion 1|by constructor]. Qed.

Lemma Matches_WordB ic b w a :
  Matches ic WordB b w a <-> w = [] /\ boundary b a.
Proof. split; [by inversion 1|]. intros [-> ?]. by constructor. Qed.

Lemma Matches_Rep ic r lo hi g b w a :
  Matches ic (Rep r lo hi g) b w a <->
  (lo = 0%nat /\ w = []) \/
  (exists w1 w2,
      w = w1 ++ w2 /\ hi <> Some 0%nat /\ (lo = 0%nat -> w1 <> []) /\
      Matches ic r b w1 (w2 ++ a) /\
      Matches ic (Rep r (Nat.pred lo) (Nat.pred <$> hi) g) (b ++ w1) w2 a).
Proof.
  split.
  - inversion 1; subst; [by left|]. right. eauto 10.
  - intros [[-> ->]|(w1 & w2 & -> & ? & ? & ? & ?)]; by constructor.
Qed.

(** A quantified character class matches the runs of its characters. *)
Lemma Matches_Rep_class ic neg items g w : forall lo hi b a,
  Matches ic (Rep (Class neg items) lo hi g) b w a <->
  within (length w) lo hi /\
  Forall (fun d => xorb neg (class_mem ic items d) = true) w.
Proof.
  induction w as [|d w IH]; intros lo hi b a; rewrite Matches_Rep.
  - split.
    + intros [[-> _]|(w1 & w2 & Heq & _ & _ & H1 & _)].
      * split; [|done]. split; [done|]. destruct hi; simpl; lia.
      * apply Matches_Class in H1 as (d & -> & _). done.
    + intros [[Hlo _] _]. simpl in Hlo. left. split; [lia|done].
  - split.
    + intros [[_ ?]|(w1 & w2 & Heq & Hhi & _ & H1 & H2)]; [done|].
      apply Matches_Class in H1 as (e & -> & He).
      injection Heq as -> ->.
      apply IH in H2 as [[Hlo Hh] Hw].
      split; [|by constructor]. split; [simpl; lia|].
      destruct hi as [[|h]|]; simpl in *; [done|lia|done].
    + intros [[Hlo Hh] Hw]. inversion Hw as [|? ? Hd Hw']; subst.
      right. exists [d], w. split; [done|].
      split; [destruct hi as [[|h]|]; simpl in *; [lia|done|done]|].
      split; [done|]. split; [by constructor|].
      apply IH. split; [|done]. split; [simpl in *; lia|].
      destruct hi as [[|h]|]; simpl in *; [lia|lia|done].
Qed.

Lemma Matches_opt ic r b w a :
  Matches ic (opt r) b w a <-> w = [] \/ (w <> [] /\ Matches ic r b w a).
Proof.
  unfold opt. rewrite Matches_Rep. split.
  - intros [[_ ->]|(w1 & w2 & -> & _ & Hne & H1 & H2)]; [by left|].
    apply Matches_Rep in H2 as [[_ ->]|(? & ? & _ & Hhi & _)]; [|done].
    rewrite app_nil_r in *. right. split; [by apply Hne|done].
  - intros [->|[Hne H]]; [by left|]. right. exists w, [].
    rewrite app_nil_r. split; [done|]. split; [done|]. split; [done|].
    split; [by rewrite app_nil_l|]. constructor.
Qed.


(** ** All matches *)

Lemma last_take_S (s : jsstring) n :
  (n < length s)%nat -> last (take (S n) s) = nth_error s n.
Proof.
  revert n. induction s as [|c s IH]; intros n Hn; [simpl in Hn; lia|].
  destruct n as [|n]; [done|]. simpl in Hn.
  cbn [take nth_error]. rewrite <- IH by lia.
  destruct s as [|d s]; [simpl in Hn; lia|]. done.
Qed.

(** Every match that [matchAll] finds is a match of the pattern in the
    input. *)
Lemma matchAll_from_Matches ic r : forall fuel s pre m,
  m ∈ matchAll_from fuel ic r (last pre) s (length pre) ->
  exists skipped post,
    s = skipped ++ matched m ++ post /\
    Matches ic r (pre ++ skipped) (matched m) post.
Proof.
  induction fuel as [|fuel IH]; intros s pre m; cbn [matchAll_from].
  - intros H. by apply elem_of_nil in H.
  - destruct (exec_from ic r (last pre) s (length pre)) as [m0|] eqn:Hm0;
      [|intros H; by apply elem_of_nil in H].
    apply exec_from_Matches in Hm0
      as (sk0 & post0 & Hs & Hidx & HM0 & _).
    set (e' := if Nat.eqb (length (matched m0)) 0
               then S (index m0 + length (matched m0))
               else (index m0 + length (matched m0))%nat).
    set (d := (e' - length pre)%nat).
    assert (m = m0 ->
            exists skipped post,
              s = skipped ++ matched m ++ post /\
              Matches ic r (pre ++ skipped) (matched m) post) as Hhead.
    { intros ->. eauto. }
    destruct (Nat.ltb_spec (length s) d) as [Hd|Hd].
    + intros H. apply list_elem_of_singleton in H. by apply Hhead.
    + intros H. apply elem_of_cons in H as [H|H]; [by apply Hhead|].
      assert (length pre <= e')%nat as He'.
      { subst e'. rewrite Hidx, length_app. destruct (Nat.eqb _ 0); lia. }
      assert ((match d with O => last pre | S d' => nth_error s d' end) =
              last (pre ++ take d s)) as Hp.
      { destruct d as [|d'] eqn:Ed.
        - by rewrite take_0, app_nil_r.
        - rewrite last_app, last_take_S by lia.
          destruct (nth_error s d') eqn:Hn; [done|].
          apply nth_error_None in Hn. lia. }
      assert (e' = length (pre ++ take d s)) as Hlen.
      { rewrite length_app, length_take. subst d. lia. }
      rewrite Hp, Hlen in H. apply IH in H as (sk & post & Hdrop & HM).
      exists (take d s ++ sk), post. split.
      * rewrite <- app_assoc, <- Hdrop. by rewrite take_drop.
      * by rewrite app_assoc.
Qed.

Lemma matchAll_Matches ic r s m :
  m ∈ matchAll ic r s ->
  exists pre post,
    s = pre ++ matched m ++ post /\ Matches ic r pre (matched m) post.
Proof.
  unfold matchAll. intros H.
  by apply (matchAll_from_Matches ic r _ s []) in H.
Qed.

(** ** Literal patterns *)

Lemma Matches_lit_chars t : forall b w a,
  Matches true (lit_chars t) b w a <-> ci_eq w t.
Proof.
  unfold ci_eq. induction t as [|c t IH]; intros b w a.
  - cbn [lit_chars]. rewrite Matches_Eps. split; [by intros ->|].
    by destruct w.
  - assert (Matches true (Seq (Chr c) (lit_chars t)) b w a <->
            map toUpperChar w = map toUpperChar (c :: t)) as Hseq.
    { rewrite Matches_Seq. split.
      - intros (w1 & w2 & -> & H1 & H2).
        apply Matches_Chr in H1 as (d & -> & Hd).
        unfold canon in Hd. apply char_eqb_eq in Hd.
        apply IH in H2. simpl. by rewrite Hd, H2.
      - destruct w as [|d w]; [done|]. simpl. intros [= Hd Hw].
        exists [d], w. split; [done|]. split.
        + apply Matches_Chr. exists d. split; [done|].
          unfold canon. apply char_eqb_eq. done.
        + by apply IH. }
    destruct t as [|c' t]; [|exact Hseq].
    cbn [lit_chars]. rewrite <- Hseq. rewrite Matches_Seq. split.
    + intros H. exists w, []. rewrite app_nil_r. split; [done|].
      split; [|constructor].
      apply Matches_Chr in H as (d & -> & Hd). constructor. done.
    + intros (w1 & w2 & -> & H1 & H2). apply Matches_Eps in H2 as ->.
      rewrite app_nil_r. apply Matches_Chr in H1 as (d & -> & Hd).
      by constructor.
Qed.

End RegexSemFacts.

Module RegexCapturesFacts.
Import JS Regex JSFacts RegexFacts RegexSem RegexSemFacts RegexCaptures.

Section CaptureSoundness.
Context {R : Type}.
Implicit Types k : mstate -> caps -> option R.

Lemma mchar_captures_for ic r P :
  (forall d b a cs, P d = true -> Captures ic r b [d] a cs cs) ->
  captures_for ic r (mchar (R:=R) P).
Proof.
  intros HP pre tl cs k z. destruct tl as [|d tl]; [done|].
  rewrite mchar_state_of. destruct (P d) eqn:Hd; [|done]. intros Hk.
  exists [d], tl, cs. split; [done|]. split; [by apply HP|done].
Qed.

Lemma mrep_captures_for ic r m greedy :
  captures_for ic r m ->
  forall n lo hi pre tl cs k z,
    hi = None \/ hi = Some n ->
    mrep n m (groups r) greedy lo (state_of pre tl) cs k = Some z ->
    exists w tl' cs',
      tl = w ++ tl' /\ Captures ic (Rep r lo hi greedy) pre w tl' cs cs' /\
      k (state_of (pre ++ w) tl') cs' = Some z.
Proof.
  intros Hm. induction n as [|n IH]; intros lo hi pre tl cs k z Hhi.
  - cbn [mrep]. destruct (Nat.eqb_spec lo 0) as [->|]; [|done]. intros Hk.
    exists [], tl, cs. rewrite app_nil_r. split; [done|].
    split; [constructor|done].
  - cbn [mrep].
    assert (m (state_of pre tl) (clear (groups r) cs)
        (fun st' cs' =>
           if Nat.eqb lo 0 && Nat.eqb (pos st') (pos (state_of pre tl))
           then None
           else mrep n m (groups r) greedy (Nat.pred lo) st' cs' k) = Some z ->
      exists w tl' cs',
        tl = w ++ tl' /\ Captures ic (Rep r lo hi greedy) pre w tl' cs cs' /\
        k (state_of (pre ++ w) tl') cs' = Some z) as Hiter.
    { intros H. apply Hm in H as (w1 & tl1 & cs1 & -> & Hw1 & H).
      rewrite !state_of_pos in H.
      destruct (Nat.eqb lo 0 && Nat.eqb (length (pre ++ w1)) (length pre))
        eqn:Hc; [done|].
      apply (IH _ (Nat.pred <$> hi)) in H as (w2 & tl2 & cs2 & -> & Hw2 & H).
      - exists (w1 ++ w2), tl2, cs2. rewrite <- !app_assoc in *.
        split; [done|]. split; [|done].
        econstructor; [| |exact Hw1|exact Hw2].
        + destruct Hhi as [Hh|Hh]; rewrite Hh; discriminate.
        + intros -> ->. rewrite (app_nil_r pre), !Nat.eqb_refl in Hc. done.
      - destruct Hhi as [->| ->]; [by left|by right]. }
    assert (k (state_of pre tl) cs = Some z -> lo = 0%nat ->
      exists w tl' cs',
        tl = w ++ tl' /\ Captures ic (Rep r lo hi greedy) pre w tl' cs cs' /\
        k (state_of (pre ++ w) tl') cs' = Some z) as Hstop.
    { intros Hk ->. exists [], tl, cs. rewrite app_nil_r.
      split; [done|]. split; [constructor|done]. }
    destruct (Nat.eqb_spec lo 0) as [Hlo|Hlo]; cbn [negb].
    + destruct greedy.
      * destruct (m _ _ _) as [z'|] eqn:Hz.
        -- intros [= ->]. by apply Hiter.
        -- intros Hk. by apply Hstop.
      * destruct (k _ _) as [z'|] eqn:Hz.
        -- intros [= ->]. by apply Hstop.
        -- intros H. by apply Hiter.
    + intros H. by apply Hiter.
Qed.

(** The matcher succeeds only with the captures of a match. *)
Lemma mt_Captures_sound ic r : captures_for ic r (mt (R:=R) ic r).
Proof.
  induction r as [|c| |neg items|r1 IH1 r2 IH2|r1 IH1 r2 IH2|r IH lo hi g
                 |i r IH| | |]; intros pre tl cs k z; cbn [mt].
  - intros H. exists [], tl, cs. rewrite app_nil_r. split; [done|].
    split; [constructor|done].
  - apply mchar_captures_for. intros. by constructor.
  - apply mchar_captures_for. intros. constructor.
    by destruct (isLineTerminator d).
  - apply mchar_captures_for. intros. by constructor.
  - intros H. apply IH1 in H as (w1 & tl1 & cs1 & -> & Hw1 & H).
    apply IH2 in H as (w2 & tl2 & cs2 & -> & Hw2 & H).
    exists (w1 ++ w2), tl2, cs2. rewrite <- !app_assoc in *.
    split; [done|]. split; [by econstructor|done].
  - destruct (mt ic r1 _ _ _) as [z'|] eqn:Hz.
    + intros [= ->]. apply IH1 in Hz as (w & tl' & cs' & ? & ? & ?).
      exists w, tl', cs'. split; [done|]. split; [by apply C_AltL|done].
    + intros H. apply IH2 in H as (w & tl' & cs' & ? & ? & ?).
      exists w, tl', cs'. split; [done|]. split; [by apply C_AltR|done].
  - intros H. eapply mrep_captures_for in H; [exact H|exact IH|].
    destruct hi; [by right|by left].
  - intros H. apply IH in H as (w & tl' & cs' & -> & Hw & H).
    cbn [pos rest state_of] in H.
    replace (length (pre ++ w) - length pre)%nat with (length w) in H
      by (rewrite length_app; lia).
    rewrite take_app_length in H.
    exists w, tl', ((i, w) :: cs'). split; [done|].
    split; [by constructor|done].
  - cbn [prev rest state_of].
    destruct (xorb _ _) eqn:Hb; [|done]. intros H.
    exists [], tl, cs. rewrite app_nil_r. split; [done|].
    split; [|done]. constructor. by apply boundary_xorb.
  - cbn [pos state_of]. destruct pre; [|done]. intros H.
    exists [], tl, cs. split; [done|]. split; [constructor|done].
  - cbn [rest state_of]. destruct tl; [|done]. intros H.
    exists [], [], cs. rewrite (app_nil_r pre). split; [done|].
    split; [constructor|done].
Qed.

End CaptureSoundness.

(** The captures of a match are those of a match in the sense of
    [Matches]. *)
Lemma Captures_Matches ic r b w a cs cs' :
  Captures ic r b w a cs cs' -> Matches ic r b w a.
Proof. induction 1; by econstructor. Qed.

Lemma clear_none cs : clear [] cs = cs.
Proof.
  unfold clear. induction cs as [|p cs IH]; [done|].
  cbn [List.filter existsb negb]. f_equal. exact IH.
Qed.

(** A pattern without groups leaves the captures as they are. *)
Lemma Captures_plain ic r b w a cs cs' :
  Captures ic r b w a cs cs' -> groups r = [] -> cs' = cs.
Proof.
  induction 1 as [| | | |r1 r2 b w1 w2 a cs cs1 cs2 H1 IH1 H2 IH2
                 |r1 r2 b w a cs cs' H1 IH1|r1 r2 b w a cs cs' H1 IH1
                 |
                 |r lo hi g b w1 w2 a cs cs1 cs2 Hhi Hne H1 IH1 H2 IH2
                 |i r b w a cs cs' H1 IH1| | |]; cbn [groups]; intros Hg;
    try done.
  - apply app_eq_nil in Hg as [Hg1 Hg2]. by rewrite IH2, IH1.
  - apply app_eq_nil in Hg as [Hg1 Hg2]. by apply IH1.
  - apply app_eq_nil in Hg as [Hg1 Hg2]. by apply IH1.
  - rewrite IH2, IH1 by done. rewrite Hg. apply clear_none.
Qed.

Lemma match_at_Captures ic r pre tl m :
  match_at ic r (state_of pre tl) = Some m ->
  index m = length pre /\
  exists post,
    tl = matched m ++ post /\
    Captures ic r pre (matched m) post [] (captures m).
Proof.
  unfold match_at. intros H.
  apply mt_Captures_sound in H as (w & tl' & cs' & -> & Hw & H).
  injection H as <-. cbn [index matched captures pos rest state_of].
  split; [done|]. exists tl'.
  replace (length (pre ++ w) - length pre)%nat with (length w)
    by (rewrite length_app; lia).
  by rewrite take_app_length.
Qed.

(** The captures of the match that [re.exec(s)] returns. *)
Lemma exec_Captures ic r s m :
  exec ic r s = Some m ->
  exists pre post,
    s = pre ++ matched m ++ post /\ index m = length pre /\
    Captures ic r pre (matched m) post [] (captures m).
Proof.
  intros H. apply exec_match_at in H as (pre & tl & -> & H).
  apply match_at_Captures in H as (Hi & post & -> & HC).
  by exists pre, post.
Qed.

(** ** Inversion of captures *)

Lemma Captures_Seq ic r1 r2 b w a cs cs2 :
  Captures ic (Seq r1 r2) b w a cs cs2 <->
  exists w1 w2 cs1,
    w = w1 ++ w2 /\ Captures ic r1 b w1 (w2 ++ a) cs cs1 /\
    Captures ic r2 (b ++ w1) w2 a cs1 cs2.
Proof.
  split.
  - inversion 1; subst. eauto 10.
  - intros (w1 & w2 & cs1 & -> & H1 & H2). by econstructor.
Qed.

Lemma Captures_Group ic i r b w a cs cs2 :
  Captures ic (Group i r) b w a cs cs2 <->
  exists cs1, cs2 = (i, w) :: cs1 /\ Captures ic r b w a cs cs1.
Proof.
  split.
  - inversion 1; subst. eauto.
  - intros (cs1 & -> & H). by constructor.
Qed.

(** The captures of a part without groups. *)
Lemma Captures_plain_inv ic r b w a cs cs' :
  groups r = [] ->
  Captures ic r b w a cs cs' -> Matches ic r b w a /\ cs' = cs.
Proof.
  intros Hg H. split; [by eapply Captures_Matches|by eapply Captures_plain].
Qed.

Lemma capture_head i w cs : capture ((i, w) :: cs) i = Some w.
Proof. unfold capture. cbn [List.find fst]. by rewrite Nat.eqb_refl. Qed.

End RegexCapturesFacts.

Module AccessionFacts.
Import JS Regex Num Manual JSFacts RegexFacts RegexSem RegexSemFacts Accession.

Lemma class_d d : xorb false (class_mem false [CDigit] d) = isDigit d.
Proof. unfold class_mem. simpl. by rewrite !orb_false_r. Qed.

Lemma Matches_hyphen b w a :
  Matches false (Chr (ch "-")) b w a <-> w = str "-".
Proof.
  rewrite Matches_Chr. split.
  - intros (d & -> & H). apply char_eqb_eq in H. simpl in H. by subst.
  - intros ->. exists (ch "-"). done.
Qed.

Lemma Matches_digits n b w a :
  Matches false (Rep digit_d n (Some n) true) b w a <->
  length w = n /\ digits w.
Proof.
  unfold digit_d. rewrite Matches_Rep_class. unfold within, digits. split.
  - intros [[? ?] Hw]. split; [lia|].
    eapply Forall_impl; [exact Hw|]. intros d Hd. cbv beta in Hd.
    by rewrite class_d in Hd.
  - intros [<- Hw]. split; [lia|].
    eapply Forall_impl; [exact Hw|]. intros d Hd. cbv beta.
    by rewrite class_d.
Qed.

(** The pattern of the accession format accepts exactly the strings of that
    format. *)
Lemma test_accession s : test false re_accession s = true <-> isAccession s.
Proof.
  rewrite test_occurs. unfold occurs, isAccession, re_accession. cbn [seqs].
  split.
  - intros (pre & w & post & -> & H).
    apply Matches_Seq in H as (w0 & w' & -> & H0 & H).
    apply Matches_Bol in H0 as [-> ->].
    apply Matches_Seq in H as (a & w'' & -> & Ha & H).
    apply Matches_Seq in H as (h1 & w3 & -> & Hh1 & H).
    apply Matches_Seq in H as (b & w4 & -> & Hb & H).
    apply Matches_Seq in H as (h2 & w5 & -> & Hh2 & H).
    apply Matches_Seq in H as (c & w6 & -> & Hc & H).
    apply Matches_Eol in H as [-> ->].
    apply Matches_hyphen in Hh1 as ->. apply Matches_hyphen in Hh2 as ->.
    apply Matches_digits in Ha as [? ?]. apply Matches_digits in Hb as [? ?].
    apply Matches_digits in Hc as [? ?].
    exists a, b, c. rewrite !app_nil_r. simpl. done.
  - intros (a & b & c & -> & Ha & Hb & Hc & Hda & Hdb & Hdc).
    exists [], (a ++ str "-" ++ b ++ str "-" ++ c), [].
    split; [by rewrite app_nil_r|].
    apply Matches_Seq. exists [], (a ++ str "-" ++ b ++ str "-" ++ c).
    split; [done|]. split; [constructor|].
    apply Matches_Seq. exists a, (str "-" ++ b ++ str "-" ++ c).
    split; [done|]. split; [by apply Matches_digits|].
    apply Matches_Seq. exists (str "-"), (b ++ str "-" ++ c).
    split; [done|]. split; [by apply Matches_hyphen|].
    apply Matches_Seq. exists b, (str "-" ++ c).
    split; [done|]. split; [by apply Matches_digits|].
    apply Matches_Seq. exists (str "-"), c.
    split; [done|]. split; [by apply Matches_hyphen|].
    apply Matches_Seq. exists c, [].
    split; [by rewrite app_nil_r|]. split; [by apply Matches_digits|].
    constructor.
Qed.

Lemma digitsOnly_digits s : digits (digitsOnly s).
Proof.
  unfold digits, digitsOnly, removeAll. rewrite Forall_forall. intros c Hc.
  apply list_elem_of_In, filter_In in Hc as [_ Hc].
  by destruct (isDigit c).
Qed.

Lemma digitsOnly_app a b : digitsOnly (a ++ b) = digitsOnly a ++ digitsOnly b.
Proof. unfold digitsOnly, removeAll. apply List.filter_app. Qed.

Lemma digitsOnly_id s : digits s -> digitsOnly s = s.
Proof.
  unfold digits, digitsOnly, removeAll. induction 1 as [|c s Hc Hs IH]; simpl; [done|].
  rewrite Hc. simpl. by rewrite IH.
Qed.

Lemma slice_range (s : jsstring) (a b : nat) :
  (a <= b)%nat ->
  slice s (Z.of_nat a) (Z.of_nat b) = take (b - a) (drop a s).
Proof.
  intros Hab. unfold slice, rel_index, len.
  destruct (Z.ltb_spec (Z.of_nat a) 0); [lia|].
  destruct (Z.ltb_spec (Z.of_nat b) 0); [lia|].
  destruct (Nat.le_gt_cases a (length s)) as [Ha|Ha].
  - rewrite (Z.min_l (Z.of_nat a)) by lia. rewrite Nat2Z.id.
    destruct (Nat.le_gt_cases b (length s)) as [Hb|Hb].
    + rewrite Z.min_l by lia. f_equal. lia.
    + rewrite Z.min_r by lia.
      by rewrite !take_ge by (rewrite length_drop; lia).
  - rewrite !Z.min_r by lia. rewrite Z.sub_diag, Nat2Z.id. simpl.
    rewrite !drop_ge by lia. by rewrite !take_nil.
Qed.

(** The string that [formatAccession] builds from 18 digits. *)
Lemma regroup ds :
  length ds = 18%nat ->
  slice ds 0 10 ++ str "-" ++ slice ds 10 12 ++ str "-" ++ slice ds 12 18 =
  take 10 ds ++ str "-" ++ take 2 (drop 10 ds) ++ str "-" ++ drop 12 ds.
Proof.
  intros Hl.
  change (slice ds 0 10) with (slice ds (Z.of_nat 0) (Z.of_nat 10)).
  change (slice ds 10 12) with (slice ds (Z.of_nat 10) (Z.of_nat 12)).
  change (slice ds 12 18) with (slice ds (Z.of_nat 12) (Z.of_nat 18)).
  rewrite (slice_range ds 0 10), (slice_range ds 10 12),
    (slice_range ds 12 18) by lia.
  rewrite drop_0. simpl (_ - _)%nat.
  by rewrite (take_ge (drop 12 ds)) by (rewrite length_drop; lia).
Qed.

Lemma digits_take n s : digits s -> digits (take n s).
Proof. unfold digits. apply Forall_take. Qed.

Lemma digits_drop n s : digits s -> digits (drop n s).
Proof. unfold digits. apply Forall_drop. Qed.

Lemma regroup_isAccession ds :
  length ds = 18%nat -> digits ds ->
  isAccession (take 10 ds ++ str "-" ++ take 2 (drop 10 ds) ++ str "-" ++
               drop 12 ds).
Proof.
  intros Hl Hd. exists (take 10 ds), (take 2 (drop 10 ds)), (drop 12 ds).
  split; [done|].
  rewrite !length_take, !length_drop, Hl.
  repeat split; try done;
    auto using digits_take, digits_drop.
Qed.

Lemma hyphen_not_digit : digitsOnly (str "-") = [].
Proof. reflexivity. Qed.

Lemma digitsOnly_hyphen s : digitsOnly (ch "-" :: s) = digitsOnly s.
Proof. reflexivity. Qed.

Lemma isAccession_digits s :
  isAccession s -> length (digitsOnly s) = 18%nat.
Proof.
  intros (a & b & c & -> & Ha & Hb & Hc & Hda & Hdb & Hdc).
  rewrite !digitsOnly_app, hyphen_not_digit, !digitsOnly_id by done.
  rewrite !length_app. simpl. lia.
Qed.

Lemma isAccession_nonempty s : isAccession s -> s <> [].
Proof.
  intros (a & b & c & -> & Ha & _). destruct a; [done|discriminate].
Qed.

(** [formatAccession] in terms of the format and of the digits of its
    argument. *)
Lemma formatAccession_cases s :
  formatAccession (Some s) =
  if bool_decide (s = []) then None
  else if test false re_accession s then Some s
  else if (length (digitsOnly s) =? 18)%nat then
    Some (take 10 (digitsOnly s) ++ str "-" ++
          take 2 (drop 10 (digitsOnly s)) ++ str "-" ++
          drop 12 (digitsOnly s))
  else None.
Proof.
  destruct s as [|c s]; [done|]. cbn [formatAccession].
  rewrite bool_decide_false by done.
  destruct (test false re_accession (c :: s)); [done|].
  unfold len. destruct (Nat.eqb_spec (length (digitsOnly (c :: s))) 18) as [He|He].
  - rewrite He. simpl (_ =? _). cbv iota. by rewrite regroup.
  - destruct (Z.eqb_spec (Z.of_nat (length (digitsOnly (c :: s)))) 18); [lia|done].
Qed.

(** X1 (formatAccession, canonical form).  Whatever [formatAccession]
    returns has the accession format, so the hard constraint of [run] on
    the format does not fire for it; [formatAccession] returns its own
    results unchanged, and the digits of the result are the digits of the
    argument, in order. *)
Theorem formatAccession_canonical acc r :
  formatAccession acc = Some r ->
  isAccession r /\
  accessionInvalid (Some r) = false /\
  formatAccession (Some r) = Some r /\
  digitsOnly r = digitsOnly (default [] acc).
Proof.
  intros H.
  assert (isAccession r /\ digitsOnly r = digitsOnly (default [] acc))
    as [Hr Hd].
  { destruct acc as [s|]; [|done]. rewrite formatAccession_cases in H.
    destruct (bool_decide (s = [])); [done|].
    destruct (test false re_accession s) eqn:Ht.
    - injection H as <-. split; [by apply test_accession|done].
    - destruct (Nat.eqb_spec (length (digitsOnly s)) 18) as [He|]; [|done].
      injection H as <-. split.
      + apply regroup_isAccession; [done|apply digitsOnly_digits].
      + change (default [] (Some s)) with s.
        change "-"%char with (ch "-").
        rewrite digitsOnly_app, digitsOnly_hyphen, digitsOnly_app,
          digitsOnly_hyphen.
        pose proof (digitsOnly_digits s) as Hds.
        rewrite (digitsOnly_id (take 10 _)), (digitsOnly_id (take 2 _)),
          (digitsOnly_id (drop 12 _)) by auto using digits_take, digits_drop.
        assert (drop 12 (digitsOnly s) = drop 2 (drop 10 (digitsOnly s)))
          as -> by (by rewrite drop_drop).
        by rewrite !take_drop. }
  split; [done|].
  pose proof (proj2 (test_accession r) Hr) as Ht.
  pose proof (isAccession_nonempty r Hr) as Hne.
  split; [|split; [|done]].
  - unfold accessionInvalid. simpl. rewrite Ht.
    destruct r; [done|reflexivity].
  - rewrite formatAccession_cases, bool_decide_false, Ht by done. done.
Qed.

Lemma formatAccession_canonical_witness :
  formatAccession (Some (str "0001178670 23 000042")) =
    Some (str "0001178670-23-000042") /\
  accessionInvalid (Some (str "0001178670-23-000042")) = false.
Proof.
  assert (formatAccession (Some (str "0001178670 23 000042")) =
          Some (str "0001178670-23-000042")) as H by (vm_compute; reflexivity).
  split; [exact H|].
  exact (proj1 (proj2 (formatAccession_canonical _ _ H))).
Defined.

(** X2 (formatAccession, when it gives up).  [formatAccession] returns
    [null] exactly for the empty string and for the strings that do not
    have the accession format and do not hold exactly 18 digits. *)
Theorem formatAccession_null s :
  formatAccession (Some s) = None <->
  s = [] \/ (~ isAccession s /\ length (digitsOnly s) <> 18%nat).
Proof.
  rewrite formatAccession_cases. destruct (bool_decide_reflect (s = [])) as [->|Hne].
  - split; [by left|done].
  - destruct (test false re_accession s) eqn:Ht.
    + split; [done|]. intros [?|[Hn _]]; [done|].
      exfalso. apply Hn. by apply test_accession.
    + destruct (Nat.eqb_spec (length (digitsOnly s)) 18) as [He|He].
      * split; [done|]. intros [?|[_ ?]]; done.
      * split; [|done]. intros _. right. split; [|done].
        intros Hacc. apply test_accession in Hacc. congruence.
Qed.

End AccessionFacts.

Module MoneySignFacts.
Import JS Regex Num Manual JSFacts RegexFacts RegexSem RegexSemFacts.
Import Accession AccessionFacts MoneyFacts Money.

(** ** The sign of rounded results *)

Lemma shr_1_nonneg mrs : 0 <= shr_m mrs -> 0 <= shr_m (shr_1 mrs).
Proof.
  destruct mrs as [m r s]. simpl.
  destruct m as [|[p|p|]|[p|p|]]; simpl; lia.
Qed.

Lemma iter_pos_nonneg p : forall mrs,
  0 <= shr_m mrs -> 0 <= shr_m (SpecFloat.iter_pos shr_1 p mrs).
Proof.
  induction p as [p IH|p IH|]; intros mrs H; simpl.
  - apply IH, IH. by apply shr_1_nonneg.
  - by apply IH, IH.
  - by apply shr_1_nonneg.
Qed.

Lemma shr_nonneg mrs e n : 0 <= shr_m mrs -> 0 <= shr_m (fst (shr mrs e n)).
Proof.
  intros H. unfold shr. destruct n; simpl; [done| |done].
  by apply iter_pos_nonneg.
Qed.

Lemma shr_fexp_nonneg m e l :
  0 <= m -> 0 <= shr_m (fst (shr_fexp prec emax m e l)).
Proof.
  intros H. unfold shr_fexp. apply shr_nonneg. by destruct l as [|[]].
Qed.

Lemma round_nearest_even_nonneg m l : 0 <= m -> 0 <= round_nearest_even m l.
Proof.
  intros H. unfold round_nearest_even.
  destruct l as [|[]]; [done| |done|lia]. destruct (Z.even m); lia.
Qed.

Lemma binary_round_aux_nonneg mx ex lx :
  0 <= mx -> nonneg (binary_round_aux prec emax false mx ex lx).
Proof.
  intros H. unfold binary_round_aux.
  pose proof (shr_fexp_nonneg mx ex lx H) as H1.
  destruct (shr_fexp prec emax mx ex lx) as [mrs' e']. simpl in H1.
  pose proof (shr_fexp_nonneg
                (round_nearest_even (shr_m mrs') (loc_of_shr_record mrs'))
                e' loc_Exact (round_nearest_even_nonneg _ _ H1)) as H2.
  destruct (shr_fexp prec emax _ e' loc_Exact) as [mrs'' e'']. simpl in H2.
  destruct (shr_m mrs'') as [|m|m]; [done| |lia].
  by destruct (e'' <=? emax - prec).
Qed.

Lemma binary_normalize_nonneg n e :
  0 <= n -> nonneg (binary_normalize prec emax n e false).
Proof.
  intros H. destruct n as [|p|p]; [done| |lia]. simpl.
  unfold binary_round. destruct (shl_align _ _ _) as [mz ez].
  by apply binary_round_aux_nonneg.
Qed.

Lemma of_Z_nonneg n : 0 <= n -> nonneg (of_Z n).
Proof. apply binary_normalize_nonneg. Qed.

Lemma SFdiv_nonneg mx ex my ey :
  nonneg (SFdiv prec emax (S754_finite false mx ex) (S754_finite false my ey)).
Proof.
  unfold SFdiv, SFdiv_core_binary.
  set (m' := match _ - _ - _ with Z.pos _ => _ | Z0 => _ | Z.neg _ => _ end).
  assert (0 <= m') as Hm'.
  { subst m'. destruct (_ - _ - _); [lia| |lia]. apply Z.shiftl_nonneg. lia. }
  pose proof (Z_div_mod m' (Z.pos my) ltac:(lia)) as Hdiv.
  destruct (Z.div_eucl m' (Z.pos my)) as [q r].
  apply binary_round_aux_nonneg. nia.
Qed.

Lemma decimal_nonneg n k : nonneg (decimal false n k).
Proof.
  unfold decimal. destruct n as [|p|p]; [done| |done].
  destruct (0 <=? k).
  - apply binary_normalize_nonneg. apply Z.mul_nonneg_nonneg; [lia|].
    apply Z.pow_nonneg. lia.
  - apply SFdiv_nonneg.
Qed.

Lemma mul_nonneg x m e :
  nonneg x -> nonneg (mul x (S754_finite false m e)).
Proof.
  destruct x as [s|s| |s mx ex]; simpl; try done.
  - intros ->. done.
  - intros ->. done.
  - intros ->. apply binary_round_aux_nonneg. lia.
Qed.

Lemma round_nonneg x : nonneg x -> nonneg (round x).
Proof.
  destruct x as [s|s| |s m e]; simpl; try done. intros ->.
  destruct (Z.leb_spec 0 e); [done|].
  set (n := (2 * Z.pos m + 2 ^ (- e)) / (2 * 2 ^ (- e))).
  assert (0 <= n) as Hn.
  { assert (0 < 2 ^ (- e)) by (apply Z.pow_pos_nonneg; lia).
    subst n. apply Z.div_pos; lia. }
  destruct (Z.eqb_spec n 0); [done|]. by apply of_Z_nonneg.
Qed.

(** A Number that is truthy and not negative is positive. *)
Lemma nonneg_truthy_pos x :
  nonneg x -> truthy x = true ->
  gtb x (of_Z 0) = true /\ leb x (of_Z 0) = false.
Proof. destruct x as [s|s| |s m e]; simpl; try done; by intros ->. Qed.

(** ** What the money pattern captures *)

Lemma Matches_digit_run ic lo hi g b w a :
  Matches ic (Rep digit lo hi g) b w a -> digits w /\ (lo <= length w)%nat.
Proof.
  unfold digit. rewrite Matches_Rep_class. intros [[Hlo _] Hw].
  split; [|done]. unfold digits. eapply Forall_impl; [exact Hw|].
  intros d Hd. cbv beta in Hd. destruct ic.
  - by rewrite digit_class in Hd.
  - revert Hd. unfold class_mem, cr. simpl. rewrite !orb_false_r.
    unfold isDigit. done.
Qed.

Lemma Matches_dot ic b w a :
  Matches ic (Chr (ch ".")) b w a -> w = [ch "."].
Proof.
  rewrite Matches_Chr. intros (d & -> & H). f_equal.
  destruct ic; simpl in H;
    destruct d as [[] [] [] [] [] [] [] []]; vm_compute in H;
    try discriminate H; reflexivity.
Qed.

(** A number text: digits, then optionally a full stop and digits. *)
Lemma Matches_number ic b w a :
  Matches ic re_number b w a ->
  exists ip fp, w = ip ++ fraction fp /\ ip <> [] /\ digits ip /\ digits fp.
Proof.
  unfold re_number. rewrite Matches_Seq.
  intros (ip & w2 & -> & Hip & H2).
  apply Matches_digit_run in Hip as [Hip Hlen].
  assert (ip <> []) by (destruct ip; [simpl in Hlen; lia|done]).
  apply Matches_opt in H2 as [->|[_ H2]].
  - exists ip, []. repeat split; try done. constructor.
  - apply Matches_Seq in H2 as (dot & fp & -> & Hdot & Hfp).
    apply Matches_dot in Hdot as ->.
    apply Matches_digit_run in Hfp as [Hfp Hlen'].
    exists ip, fp. split; [|done].
    destruct fp; [simpl in Hlen'; lia|done].
Qed.

(** A match of the money pattern has a number text as its first group. *)
Lemma exec_money_group cleaned m :
  exec true re_money cleaned = Some m ->
  exists ip fp,
    group m 1 = Some (ip ++ fraction fp) /\
    ip <> [] /\ digits ip /\ digits fp /\
    substring_of ip cleaned.
Proof.
  intros H. apply exec_match_at in H as (pre & tl & -> & H).
  unfold match_at in H. rewrite re_money_eq in H. cbn [mt] in H.
  change (mrep 1 (mt true re_marker) (groups re_marker) true 0
            (state_of pre tl) [] ?k)
    with (mt true (opt re_marker) (state_of pre tl) [] k) in H.
  apply mt_Matches_sound in H as (w1 & tl1 & cs1 & -> & _ & H & _).
  change (mrep ?n (mt true (Class false [CSpace])) ?i true 0 ?st ?cs ?k)
    with (mt true (star ws) st cs k) in H.
  apply mt_Matches_sound in H as (w2 & tl2 & cs2 & -> & _ & H & _).
  change (mt true re_number ?st ?cs ?k) with
    (mt true (Group 1 re_number) st cs
        (fun st' cs' => mt true (opt re_scale) st' cs'
           (fun st'' cs'' => Some (mkMatch (pos (state_of pre ((w1 ++ w2 ++ tl2))))
               (take (pos st'' - pos (state_of pre (w1 ++ w2 ++ tl2)))
                  (rest (state_of pre (w1 ++ w2 ++ tl2)))) cs'')))) in H.
  apply mt_Group_sound in H as (w & tl3 & cs3 & -> & Hw & H & Hc3 & _).
  apply mt_Matches_sound in H as (w4 & tl4 & cs4 & -> & _ & H & Hc4).
  injection H as <-. unfold group. cbn [captures].
  rewrite Hc4 by (simpl; lia). rewrite Hc3.
  apply Matches_number in Hw as (ip & fp & -> & ? & ? & ?).
  exists ip, fp. repeat split; try done.
  exists (pre ++ w1 ++ w2), (fraction fp ++ w4 ++ tl4).
  by rewrite <- !app_assoc.
Qed.

Lemma digits_value_nonneg ds : forall acc, 0 <= acc ->
  digits ds -> 0 <= fold_left (fun acc c => 10 * acc + digit_value c) ds acc.
Proof.
  induction ds as [|d ds IH]; intros acc Hacc Hds; simpl; [done|].
  inversion Hds as [|? ? Hd Hds']; subst. apply IH; [|done].
  assert (0 <= digit_value d); [|lia].
  unfold digit_value, isDigit, in_range in *.
  apply andb_true_iff in Hd as [Hd _]. apply N.leb_le in Hd. lia.
Qed.

Lemma scaled_nonneg x scale :
  nonneg x ->
  nonneg (match scaleOf scale with Some k => mul x k | None => x end).
Proof.
  intros Hx. unfold scaleOf.
  repeat (case_bool_decide; [by apply mul_nonneg|]). done.
Qed.

Lemma matchMoney_nonneg cleaned v : matchMoney cleaned = Some v -> nonneg v.
Proof.
  unfold matchMoney.
  destruct (exec true re_money _) as [m|] eqn:Hm; [|done].
  apply exec_money_group in Hm as (ip & fp & -> & Hne & Hip & Hfp & _).
  intros [= <-]. apply round_nonneg, scaled_nonneg.
  rewrite parseFloat_number by done. apply decimal_nonneg.
Qed.

(** X3 (parseMoneyToUSD, sign).  An amount that [parseMoneyToUSD] returns
    is never [NaN] and never negative: a sign or parentheses around the
    number are ignored. *)
Theorem parseMoneyToUSD_nonneg text v :
  parseMoneyToUSD text = Some v -> nonneg v.
Proof.
  destruct text as [[|c t]|]; [done| |done].
  rewrite parseMoneyToUSD_cleaned. apply matchMoney_nonneg.
Qed.

Lemma parseMoneyToUSD_nonneg_witness :
  nonneg (round (of_Z 500)).
Proof.
  apply (parseMoneyToUSD_nonneg (Some (str "(-$500)"))).
  vm_compute. reflexivity.
Defined.

(** ** Texts without an amount *)

Lemma hasDigit_app a b : hasDigit (a ++ b) <-> hasDigit a \/ hasDigit b.
Proof. unfold hasDigit. apply Exists_app. Qed.

Lemma hasDigit_substring a s : substring_of a s -> hasDigit a -> hasDigit s.
Proof.
  intros (pre & post & ->) H. rewrite !hasDigit_app. tauto.
Qed.

Lemma hasDigit_split s :
  hasDigit s <-> exists pre d post, s = pre ++ d :: post /\ isDigit d = true.
Proof.
  unfold hasDigit. rewrite Exists_exists. split.
  - intros (d & Hd & Hdig). apply list_elem_of_split in Hd as (pre & post & ->).
    eauto.
  - intros (pre & d & post & -> & Hd). exists d. split; [|done].
    apply elem_of_app. right. left.
Qed.

Lemma hasDigit_removeAll p s :
  (forall c, isDigit c = true -> p c = false) ->
  hasDigit (removeAll p s) <-> hasDigit s.
Proof.
  intros Hp. unfold hasDigit, removeAll. rewrite !Exists_exists. split.
  - intros (d & Hd & ?). apply list_elem_of_In, filter_In in Hd as [Hd _].
    exists d. split; [by apply list_elem_of_In|done].
  - intros (d & Hd & Hdig). exists d. split; [|done].
    apply list_elem_of_In, filter_In. split; [by apply list_elem_of_In|].
    by rewrite Hp.
Qed.

Lemma hasDigit_spaces s :
  Forall (fun c => isWhiteSpace c = true) s -> ~ hasDigit s.
Proof.
  unfold hasDigit. rewrite Forall_forall, Exists_exists.
  intros Hs (d & Hd & Hdig). apply digit_not_ws in Hdig.
  rewrite (Hs d Hd) in Hdig. done.
Qed.

Lemma hasDigit_trim s : hasDigit (trim s) <-> hasDigit s.
Proof.
  unfold trim.
  destruct (trimStart_spaces s) as (pre & Hs & Hpre).
  destruct (trimEnd_spaces (trimStart s)) as (post & Ht & Hpost).
  rewrite Hs at 2. rewrite Ht at 2. rewrite !hasDigit_app.
  pose proof (hasDigit_spaces _ Hpre). pose proof (hasDigit_spaces _ Hpost).
  tauto.
Qed.

Lemma hasDigit_strip s : hasDigit (strip s) <-> hasDigit s.
Proof.
  unfold strip. rewrite !hasDigit_removeAll; [done| |];
    intros c Hc; destruct c as [[] [] [] [] [] [] [] []]; vm_compute in *;
    congruence.
Qed.

Lemma occurs_money s : occurs true re_money s <-> hasDigit s.
Proof.
  split.
  - intros H. apply test_occurs in H. unfold test in H.
    destruct (exec true re_money s) as [m|] eqn:Hm; [|done].
    apply exec_money_group in Hm as (ip & fp & _ & Hne & Hip & _ & Hsub).
    eapply hasDigit_substring; [exact Hsub|].
    destruct ip as [|d ip]; [done|]. inversion Hip; subst. by left.
  - rewrite hasDigit_split. intros (pre & d & post & -> & Hd).
    exists pre, [d], post. split; [done|].
    rewrite re_money_eq.
    apply Matches_Seq. exists [], [d]. split; [done|].
    split; [apply Matches_opt; by left|].
    apply Matches_Seq. exists [], [d]. split; [done|].
    split; [constructor|].
    apply Matches_Seq. exists [d], []. split; [done|].
    split; [|apply Matches_opt; by left].
    apply Matches_Group. unfold re_number.
    apply Matches_Seq. exists [d], []. split; [done|].
    split; [|apply Matches_opt; by left].
    unfold plus, digit. apply Matches_Rep_class. split; [split; simpl; lia|].
    constructor; [|done]. by rewrite digit_class.
Qed.

(** X4 (parseMoneyToUSD, no amount).  [parseMoneyToUSD] returns [null]
    exactly for the texts without a decimal digit: every text with a digit
    has an amount, whatever surrounds the digit. *)
Theorem parseMoneyToUSD_null text :
  parseMoneyToUSD (Some text) = None <-> ~ hasDigit text.
Proof.
  destruct text as [|c t].
  - split; [|done]. intros _ H. by inversion H.
  - rewrite parseMoneyToUSD_cleaned. unfold matchMoney.
    rewrite <- hasDigit_strip, <- hasDigit_trim, <- occurs_money.
    rewrite <- exec_None.
    destruct (exec true re_money _); split; done.
Qed.

(** ** The total value *)

Lemma pushAmounts_pos matches : forall amounts,
  Forall (fun a => nonneg (usd a) /\ truthy (usd a) = true) amounts ->
  Forall (fun a => nonneg (usd a) /\ truthy (usd a) = true)
         (pushAmounts matches amounts).
Proof.
  induction matches as [|m matches IH]; intros amounts Ha;
    cbn [pushAmounts]; [done|].
  destruct (parseMoneyToUSD (Some (matched m))) as [val|] eqn:Hval;
    [|by apply IH].
  apply IH. destruct (truthy val) eqn:Ht; [|done].
  apply Forall_app. split; [done|]. constructor; [|done]. simpl.
  split; [|done]. destruct (matched m) as [|c t]; [done|].
  rewrite parseMoneyToUSD_cleaned in Hval. by apply matchMoney_nonneg in Hval.
Qed.

Lemma elem_of_insertAmount x a l : x ∈ insertAmount a l <-> x = a \/ x ∈ l.
Proof.
  induction l as [|b l IH]; simpl.
  - rewrite list_elem_of_singleton. split; [by left|].
    intros [?|H]; [done|]. by apply not_elem_of_nil in H.
  - destruct (gtb _ _); rewrite !elem_of_cons; [rewrite IH|]; tauto.
Qed.

Lemma elem_of_sortAmounts x l : x ∈ sortAmounts l <-> x ∈ l.
Proof.
  unfold sortAmounts. induction l as [|a l IH]; simpl; [done|].
  rewrite elem_of_insertAmount, elem_of_cons, IH. done.
Qed.

(** X5 (total value).  The total value of an event, when there is one, is
    a positive Number, so the cross-field check for a non-positive total
    value never reports anything for it. *)
Theorem totalValue_positive contextWindow v :
  totalValue contextWindow = Some v ->
  nonneg v /\ truthy v = true /\
  forall engine doc event fullText,
    totalValueUSD event = Some v ->
    VALUE_NOT_POSITIVE ∉
      crossFieldChecks engine doc event fullText contextWindow.
Proof.
  unfold totalValue, amountsOf. intros H.
  destruct (sortAmounts _) as [|a l] eqn:Hs; [done|]. injection H as <-.
  assert (a ∈ sortAmounts
            (pushAmounts (matchAll false re_plainNumber contextWindow)
               (pushAmounts (matchAll true re_moneyMention contextWindow) [])))
    as Ha by (rewrite Hs; left).
  apply (proj1 (elem_of_sortAmounts _ _)) in Ha.
  pose proof (pushAmounts_pos (matchAll false re_plainNumber contextWindow) _
                (pushAmounts_pos (matchAll true re_moneyMention contextWindow)
                   [] (Forall_nil_2 _))) as Hall.
  rewrite Forall_forall in Hall. destruct (Hall a Ha) as [Hn Ht].
  split; [done|]. split; [done|].
  intros engine doc event fullText Hev. unfold crossFieldChecks. rewrite Hev.
  destruct (nonneg_truthy_pos _ Hn Ht) as [_ ->].
  rewrite app_nil_l, elem_of_app. intros [Hin|Hin].
  - case_bool_decide; [|by apply not_elem_of_nil in Hin].
    destruct (_ && _); [|by apply not_elem_of_nil in Hin].
    apply list_elem_of_singleton in Hin. discriminate.
  - destruct (_ && _); [|by apply not_elem_of_nil in Hin].
    destruct (DateTime.after _ _); [|by apply not_elem_of_nil in Hin].
    apply list_elem_of_singleton in Hin. discriminate.
Qed.

Lemma totalValue_positive_witness :
  truthy (of_Z 1200000000) = true.
Proof.
  apply (totalValue_positive
           (str "an upfront payment of $500,000 and up to $1.2 billion")).
  vm_compute. reflexivity.
Defined.

End MoneySignFacts.

(* ===================================================================== *)
(** * Numbers: rounding *)
(* ===================================================================== *)

Module RoundingFacts.
Import JS Regex Num Manual JSFacts RegexFacts Money MoneySignFacts.

(** ** Shifts of the significand *)

Lemma shr_1_half mrs : 0 <= shr_m mrs -> shr_m (shr_1 mrs) = shr_m mrs / 2.
Proof.
  destruct mrs as [m r s]. cbn [shr_m shr_1].
  destruct m as [|[p|p|]|p]; cbn [shr_m]; intros H; try lia.
  all: Z.div_mod_to_equations; lia.
Qed.

Lemma pow2_xI p : 2 ^ Z.pos p~1 = 2 * (2 ^ Z.pos p * 2 ^ Z.pos p).
Proof.
  replace (Z.pos p~1) with (Z.succ (Z.pos p + Z.pos p)) by lia.
  rewrite Z.pow_succ_r, Z.pow_add_r by lia. reflexivity.
Qed.

Lemma pow2_xO p : 2 ^ Z.pos p~0 = 2 ^ Z.pos p * 2 ^ Z.pos p.
Proof.
  replace (Z.pos p~0) with (Z.pos p + Z.pos p) by lia.
  rewrite Z.pow_add_r by lia. reflexivity.
Qed.

Lemma iter_pos_shr p : forall mrs,
  0 <= shr_m mrs ->
  shr_m (SpecFloat.iter_pos shr_1 p mrs) = shr_m mrs / 2 ^ Z.pos p.
Proof.
  induction p as [p IH|p IH|]; intros mrs H; cbn [SpecFloat.iter_pos].
  - assert (0 < 2 ^ Z.pos p) as Hpos by (apply Z.pow_pos_nonneg; lia).
    rewrite IH, IH, shr_1_half by
      (try apply iter_pos_nonneg; try apply shr_1_nonneg; done).
    rewrite !Z.div_div by lia. by rewrite pow2_xI.
  - assert (0 < 2 ^ Z.pos p) as Hpos by (apply Z.pow_pos_nonneg; lia).
    rewrite IH, IH by (try apply iter_pos_nonneg; done).
    rewrite !Z.div_div by lia. by rewrite pow2_xO.
  - rewrite shr_1_half by done. reflexivity.
Qed.

(** ** The number of bits of a significand *)

Lemma digits2_pos_upper p : Z.pos p < 2 ^ Z.pos (digits2_pos p).
Proof.
  induction p as [p IH|p IH|]; cbn [digits2_pos]; [| |reflexivity].
  - rewrite Pos2Z.inj_succ, Z.pow_succ_r by lia. lia.
  - rewrite Pos2Z.inj_succ, Z.pow_succ_r by lia. lia.
Qed.

Lemma digits2_pos_lower p : 2 ^ (Z.pos (digits2_pos p) - 1) <= Z.pos p.
Proof.
  induction p as [p IH|p IH|]; cbn [digits2_pos]; [| |reflexivity].
  - rewrite Pos2Z.inj_succ.
    replace (Z.succ (Z.pos (digits2_pos p)) - 1)
      with (Z.succ (Z.pos (digits2_pos p) - 1)) by lia.
    rewrite Z.pow_succ_r by lia. lia.
  - rewrite Pos2Z.inj_succ.
    replace (Z.succ (Z.pos (digits2_pos p)) - 1)
      with (Z.succ (Z.pos (digits2_pos p) - 1)) by lia.
    rewrite Z.pow_succ_r by lia. lia.
Qed.

Lemma Zdigits2_upper m : 0 <= m -> m < 2 ^ Zdigits2 m.
Proof.
  destruct m as [|p|p]; intros H; [reflexivity| |lia].
  apply digits2_pos_upper.
Qed.

(** ** Rounding to the format *)

(** After the shift of [shr_fexp] the significand has at most 53 bits. *)
Lemma shr_fexp_bound m e l :
  0 <= m -> shr_m (fst (shr_fexp prec emax m e l)) < 2 ^ 53.
Proof.
  intros Hm. unfold shr_fexp, shr, fexp, prec.
  pose proof (Zdigits2_upper m Hm) as Hup.
  assert (0 <= Zdigits2 m) as Hd by (by destruct m).
  destruct (Z.max (Zdigits2 m + e - 53) (SpecFloat.emin 53 emax) - e)
    as [|n|n] eqn:Hn; cbn [fst].
  - assert (Zdigits2 m <= 53) by lia.
    assert (shr_m (shr_record_of_loc m l) = m) as -> by (by destruct l as [|[]]).
    eapply Z.lt_le_trans; [exact Hup|]. by apply Z.pow_le_mono_r.
  - rewrite iter_pos_shr by (by destruct l as [|[]]).
    assert (shr_m (shr_record_of_loc m l) = m) as -> by (by destruct l as [|[]]).
    apply Z.div_lt_upper_bound; [lia|].
    rewrite <- Z.pow_add_r by lia.
    eapply Z.lt_le_trans; [exact Hup|]. apply Z.pow_le_mono_r; lia.
  - assert (Zdigits2 m <= 53) by lia.
    assert (shr_m (shr_record_of_loc m l) = m) as -> by (by destruct l as [|[]]).
    eapply Z.lt_le_trans; [exact Hup|]. by apply Z.pow_le_mono_r.
Qed.

Lemma binary_round_aux_inFormat s mx ex lx :
  0 <= mx -> inFormat (binary_round_aux prec emax s mx ex lx).
Proof.
  intros Hm. unfold binary_round_aux.
  destruct (shr_fexp prec emax mx ex lx) as [mrs' e'] eqn:H1.
  pose proof (shr_fexp_nonneg mx ex lx Hm) as Hm1. rewrite H1 in Hm1.
  cbn [fst] in Hm1.
  pose proof (round_nearest_even_nonneg _ (loc_of_shr_record mrs') Hm1) as Hm2.
  pose proof (shr_fexp_bound _ e' loc_Exact Hm2) as Hb.
  destruct (shr_fexp prec emax _ e' loc_Exact) as [mrs'' e''].
  cbn [fst] in Hb.
  destruct (shr_m mrs'') as [|m|m]; [done| |done].
  by destruct (e'' <=? emax - prec).
Qed.

Lemma binary_normalize_inFormat n e sz :
  inFormat (binary_normalize prec emax n e sz).
Proof.
  unfold binary_normalize, binary_round.
  destruct n as [|p|p]; [done| |];
    destruct (shl_align _ _ _) as [mz ez];
    by apply binary_round_aux_inFormat.
Qed.

Lemma of_Z_inFormat n : inFormat (of_Z n).
Proof. apply binary_normalize_inFormat. Qed.

Lemma SFdiv_inFormat x y : inFormat x -> inFormat (SFdiv prec emax x y).
Proof.
  intros Hx. destruct x as [sx|sx| |sx mx ex], y as [sy|sy| |sy my ey];
    try done.
  unfold SFdiv, SFdiv_core_binary.
  destruct (Z.div_eucl _ _) as [q r] eqn:Hq.
  apply binary_round_aux_inFormat.
  assert (q = fst (Z.div_eucl
    match ex - ey - Z.min (fexp prec emax (Zdigits2 (Z.pos mx) + ex - (Zdigits2 (Z.pos my) + ey))) (ex - ey) with
    | 0 => Z.pos mx
    | Z.pos _ => Z.shiftl (Z.pos mx) (ex - ey - Z.min (fexp prec emax (Zdigits2 (Z.pos mx) + ex - (Zdigits2 (Z.pos my) + ey))) (ex - ey))
    | Z.neg _ => 0
    end (Z.pos my))) as -> by (by rewrite Hq).
  change (fst (Z.div_eucl ?a ?b)) with (a / b).
  apply Z.div_pos; [|lia].
  destruct (ex - ey - _) eqn:Hs; [lia| |lia].
  apply Z.shiftl_nonneg. lia.
Qed.

Lemma decimal_inFormat neg n k : inFormat (decimal neg n k).
Proof.
  unfold decimal. destruct n as [|p|p]; [done| |done].
  destruct (0 <=? k).
  - apply binary_normalize_inFormat.
  - unfold SFdiv, SFdiv_core_binary.
    destruct (Z.div_eucl _ _) as [q r] eqn:Hq.
    apply binary_round_aux_inFormat.
    match type of Hq with Z.div_eucl ?a ?b = _ =>
      assert (q = a / b) as -> by (unfold Z.div; by rewrite Hq);
      apply Z.div_pos; [|lia] end.
    destruct (_ - _ - _) eqn:Hs; [lia| |lia].
    apply Z.shiftl_nonneg. lia.
Qed.

Lemma mul_inFormat x y : inFormat x -> inFormat y -> inFormat (mul x y).
Proof.
  intros Hx Hy. destruct x as [sx|sx| |sx mx ex], y as [sy|sy| |sy my ey];
    try done.
  unfold mul, SFmul. apply binary_round_aux_inFormat. lia.
Qed.

(** ** Integers as Numbers *)

Lemma iter_xO_digits p d :
  digits2_pos (Pos.iter xO p d) = (digits2_pos p + d)%positive.
Proof.
  induction d as [|d IH] using Pos.peano_ind.
  - cbn. lia.
  - rewrite Pos.iter_succ. cbn [digits2_pos]. rewrite IH. lia.
Qed.

Lemma iter_xO_value p d : Z.pos (Pos.iter xO p d) = Z.pos p * 2 ^ Z.pos d.
Proof.
  induction d as [|d IH] using Pos.peano_ind.
  - cbn. lia.
  - rewrite Pos.iter_succ, Pos2Z.inj_xO, IH, Pos2Z.inj_succ.
    rewrite Z.pow_succ_r by lia. lia.
Qed.

(** A significand of 53 bits is kept as it is. *)
Lemma binary_round_aux_exact s mz ez :
  Z.pos (digits2_pos mz) = 53 -> -1074 <= ez <= 971 ->
  binary_round_aux prec emax s (Z.pos mz) ez loc_Exact = S754_finite s mz ez.
Proof.
  intros Hd He. unfold binary_round_aux, shr_fexp, fexp.
  cbn [Zdigits2 shr_record_of_loc]. rewrite Hd.
  assert (Z.max (53 + ez - prec) (SpecFloat.emin prec emax) - ez = 0) as ->
    by (unfold prec, emax, SpecFloat.emin; lia).
  cbn [shr shr_m loc_of_shr_record round_nearest_even Zdigits2
       shr_record_of_loc].
  rewrite Hd.
  assert (Z.max (53 + ez - prec) (SpecFloat.emin prec emax) - ez = 0) as ->
    by (unfold prec, emax, SpecFloat.emin; lia).
  cbn [shr shr_m].
  assert ((ez <=? emax - prec) = true) as ->
    by (apply Z.leb_le; unfold prec, emax; lia).
  reflexivity.
Qed.

(** An integer below 2^53 is a Number. *)
Lemma binary_round_integer s p :
  Z.pos p < 2 ^ 53 ->
  exists m e,
    binary_round prec emax s p 0 = S754_finite s m e /\
    -52 <= e <= 0 /\ Z.pos m = Z.pos p * 2 ^ (- e).
Proof.
  intros Hp. pose proof (digits2_pos_lower p) as Hlow.
  assert (Z.pos (digits2_pos p) <= 53) as Hd.
  { destruct (Z_le_gt_dec (Z.pos (digits2_pos p)) 53) as [?|Hgt]; [done|].
    exfalso. assert (2 ^ 53 <= 2 ^ (Z.pos (digits2_pos p) - 1))
      by (apply Z.pow_le_mono_r; lia). lia. }
  unfold binary_round, shl_align, fexp.
  assert (Z.max (Z.pos (digits2_pos p) + 0 - prec) (SpecFloat.emin prec emax)
          = Z.pos (digits2_pos p) - 53) as ->
    by (unfold prec, emax, SpecFloat.emin; lia).
  destruct (Z.pos (digits2_pos p) - 53 - 0) as [|d|d] eqn:Hs; [|lia|].
  - exists p, 0. split; [|split; [lia|cbn; lia]].
    apply binary_round_aux_exact; lia.
  - exists (Pos.iter xO p d), (Z.pos (digits2_pos p) - 53).
    split; [|split; [lia|]].
    + apply binary_round_aux_exact; [|lia].
      rewrite iter_xO_digits. lia.
    + rewrite iter_xO_value. f_equal. f_equal. lia.
Qed.

Lemma to_Z_of_Z n : (- 2 ^ 53) < n < 2 ^ 53 -> to_Z (of_Z n) = Some n.
Proof.
  intros Hn. unfold of_Z, binary_normalize.
  destruct n as [|p|p]; [done| |].
  - destruct (binary_round_integer false p) as (m & e & -> & He & Hm);
      [lia|].
    cbn [to_Z]. rewrite Hm.
    destruct (Z.leb_spec 0 e).
    + assert (e = 0) as -> by lia. cbn. f_equal. lia.
    + assert (0 < 2 ^ (- e)) by (apply Z.pow_pos_nonneg; lia).
      rewrite Z.mod_mul by lia. cbn [Z.eqb].
      by rewrite Z.div_mul by lia.
  - destruct (binary_round_integer true p) as (m & e & -> & He & Hm);
      [lia|].
    cbn [to_Z].
    replace (Z.neg m) with (- Z.pos p * 2 ^ (- e)) by lia.
    destruct (Z.leb_spec 0 e).
    + assert (e = 0) as -> by lia. cbn. f_equal. lia.
    + assert (0 < 2 ^ (- e)) by (apply Z.pow_pos_nonneg; lia).
      rewrite Z.mod_mul by lia. cbn [Z.eqb].
      rewrite Z.div_mul by lia. f_equal.
Qed.

(** ** [Math.round] *)

(** [Math.round] returns the nearest integer. *)
Lemma round_nearest x :
  inFormat x -> isFinite x = true ->
  exists n, to_Z (round x) = Some n /\ nearestInteger n x.
Proof.
  intros Hx Hfin. destruct x as [s|s| |s m e]; try done.
  - exists 0. split; [done|]. unfold nearestInteger. cbn. lia.
  - cbn [inFormat] in Hx. unfold round, nearestInteger, ratio.
    destruct (Z.leb_spec 0 e) as [He|He].
    + exists ((if s then Z.neg m else Z.pos m) * 2 ^ e).
      split; [|lia]. cbn [to_Z].
      destruct (Z.leb_spec 0 e); [done|lia].
    + set (v := if s then Z.neg m else Z.pos m).
      set (d := 2 ^ (- e)).
      assert (2 <= d) as Hd.
      { unfold d. change 2 with (2 ^ 1) at 1.
        apply Z.pow_le_mono_r; lia. }
      assert ((- 2 ^ 53) < v < 2 ^ 53) as Hv by (unfold v; destruct s; lia).
      set (n := (2 * v + d) / (2 * d)).
      assert (2 * d * n <= 2 * v + d < 2 * d * (n + 1)) as Hn.
      { unfold n. pose proof (Z.mul_div_le (2 * v + d) (2 * d)).
        pose proof (Z.mul_succ_div_gt (2 * v + d) (2 * d)). lia. }
      exists n. split; [|lia].
      cbv zeta. fold v. fold d. fold n.
      destruct (Z.eqb_spec n 0) as [->|Hn0]; [done|].
      apply to_Z_of_Z. nia.
Qed.

End RoundingFacts.

(* ===================================================================== *)
(** * Amounts: what [parseMoneyToUSD] reads in a text *)
(* ===================================================================== *)

Module AmountFacts.
Import JS Regex Num Manual JSFacts RegexFacts RegexSem RegexSemFacts.
Import RegexCaptures RegexCapturesFacts Money MoneyFacts MoneySignFacts.
Import RoundingFacts.

(** ** The letters of the scale words *)

Lemma scale_letter c d :
  scaleLetter c = true ->
  toUpperChar d = toUpperChar c ->
  toLowerChar d = c /\ isWhiteSpace d = false /\ isDigit d = false.
Proof.
  unfold scaleLetter. cbn [existsb str list_ascii_of_string].
  rewrite !orb_true_iff.
  intros Hc.
  repeat (destruct Hc as [Hc|Hc]; [apply Ascii.eqb_eq in Hc; subst c|]);
    try discriminate Hc;
    destruct d as [[] [] [] [] [] [] [] []]; vm_compute;
    intros H; try discriminate H; done.
Qed.

Lemma ci_eq_scale_word w t :
  forallb scaleLetter t = true -> ci_eq w t ->
  toLowerCase w = t /\
  Forall (fun d => isWhiteSpace d = false /\ isDigit d = false) w.
Proof.
  unfold ci_eq, toLowerCase. revert t.
  induction w as [|d w IH]; intros [|c t]; cbn [map forallb]; try done.
  rewrite andb_true_iff. intros [Hc Ht] [= Hd Hw].
  destruct (scale_letter c d Hc Hd) as (-> & ? & ?).
  destruct (IH t Ht Hw) as [-> ?]. split; [done|]. by constructor.
Qed.

(** ** The number, as the matcher reads it *)

Lemma dot_only c :
  char_eqb (canon true (ch ".")) (canon true c) = true ->
  char_eqb c (ch ".") = true.
Proof. destruct c as [[] [] [] [] [] [] [] []]; vm_compute; congruence. Qed.

Lemma mt_plus_digit_fails {R} pre tl cs (k : mstate -> caps -> option R) :
  head_fails isDigit tl ->
  mt true (plus digit) (state_of pre tl) cs k = None.
Proof.
  intros Htl. unfold plus, digit. cbn [mt groups].
  cbn [Nat.add mrep Nat.eqb negb]. cbn [mt].
  apply mchar_fails. destruct tl as [|c tl]; [done|].
  cbn [head_fails] in *. by rewrite digit_class.
Qed.

(** The number is read to its end, whatever follows it. *)
Lemma mt_number_ends {R} pre ip fp tl cs (k : mstate -> caps -> option R) z :
  ip <> [] -> digits ip -> digits fp -> numberEnds fp tl ->
  k (state_of (pre ++ ip ++ fraction fp) tl) cs = Some z ->
  mt true re_number (state_of pre ((ip ++ fraction fp) ++ tl)) cs k = Some z.
Proof.
  intros Hne Hip Hfp [Htl Hfrac] Hk. unfold re_number. rewrite mt_Seq.
  rewrite <- app_assoc.
  apply (mt_class_run false [cr "0" "9"] isDigit);
    [apply digit_class|done| | |].
  - destruct fp; simpl; [done|done].
  - destruct ip; [done|simpl; lia].
  - rewrite mt_opt. cbn [groups app clear]. rewrite clear_nil.
    destruct fp as [|f fp].
    + simpl fraction in *. rewrite app_nil_r in Hk. cbn [app].
      rewrite mt_Seq. cbn [mt].
      destruct tl as [|c tl]; [by rewrite mchar_fails|].
      rewrite mchar_state_of.
      destruct (char_eqb (canon true (ch ".")) (canon true c)) eqn:Hc;
        [|done].
      apply dot_only in Hc.
      fold (mt (R:=R) true (plus digit)).
      rewrite mt_plus_digit_fails; [done|].
      specialize (Hfrac eq_refl). destruct tl as [|d tl]; [done|].
      cbn [fractionAhead head_fails] in *. rewrite Hc in Hfrac. done.
    + cbn [fraction app]. rewrite mt_Seq. cbn [mt]. rewrite mchar_state_of.
      replace (char_eqb (canon true (ch ".")) (canon true (ch "."))) with true by done.
      fold (mt (R:=R) true (plus digit)).
      assert (mt true (plus digit) (state_of (pre ++ ip ++ [ch "."]) ((f :: fp) ++ tl)) cs
                (fun st' cs' =>
                   if Nat.eqb (pos st') (pos (state_of (pre ++ ip) (ch "." :: f :: fp ++ tl)))
                   then None else k st' cs') = Some z) as Hstep.
      { apply (mt_class_run false [cr "0" "9"] isDigit);
          [apply digit_class|done|done|simpl; lia|].
        cbn [pos state_of]. rewrite !length_app. cbn [length].
        replace (Nat.eqb _ _) with false by (symmetry; apply Nat.eqb_neq; lia).
        rewrite <- Hk. f_equal. by rewrite <- !app_assoc. }
      rewrite <- app_assoc. cbn [app] in Hstep |- *. by rewrite Hstep.
Qed.

(** ** The scale word, as the matcher reads it *)

Lemma trimStart_spaces_app gap t :
  Forall (fun c => isWhiteSpace c = true) gap ->
  head_fails isWhiteSpace t ->
  trimStart (gap ++ t) = t.
Proof.
  intros Hgap Ht. induction Hgap as [|c gap Hc _ IH]; cbn [app trimStart].
  - destruct t as [|d t]; [done|]. cbn [head_fails] in Ht.
    cbn [trimStart]. by rewrite Ht.
  - by rewrite Hc.
Qed.

Lemma startsWithWord_spec w tail :
  startsWithWord w tail = true <->
  exists word post, tail = word ++ post /\ ci_eq word (str w).
Proof.
  unfold startsWithWord.
  destruct (strip_ci (str w) tail) as [post|] eqn:H.
  - apply strip_ci_spec in H as (word & -> & Hw). split; [eauto|done].
  - split; [done|]. intros (word & post & -> & Hw).
    assert (strip_ci (str w) (word ++ post) = Some post) as H'
      by (apply strip_ci_spec; eauto).
    congruence.
Qed.

(** What matches [re_scale] is white space and a scale word. *)
Lemma Matches_scale b w a :
  Matches true re_scale b w a ->
  exists gap word t,
    w = gap ++ word /\
    Forall (fun c => isWhiteSpace c = true) gap /\
    In t SCALE_WORDS /\ ci_eq word (str t).
Proof.
  unfold re_scale. rewrite Matches_Seq.
  intros (gap & word & -> & Hgap & Hword).
  unfold star, ws in Hgap. apply Matches_Rep_class in Hgap as [_ Hgap].
  apply Matches_Group in Hword. cbn [alts] in Hword.
  exists gap, word.
  assert (Forall (fun c => isWhiteSpace c = true) gap) as Hws.
  { eapply Forall_impl; [exact Hgap|]. intros d Hd. cbv beta in Hd.
    by rewrite ws_class in Hd. }
  apply Matches_Alt in Hword as [H|H];
    [|apply Matches_Alt in H as [H|H]];
    unfold lit in H; apply Matches_lit_chars in H.
  - exists "thousand"%string. split; [done|]. split; [done|].
    split; [by left|done].
  - exists "million"%string. split; [done|]. split; [done|].
    split; [right; by left|done].
  - exists "billion"%string. split; [done|]. split; [done|].
    split; [right; right; by left|done].
Qed.

Lemma scale_words_letters t :
  In t SCALE_WORDS -> str t <> [] /\ forallb scaleLetter (str t) = true.
Proof. intros [<-|[<-|[<-|[]]]]; split; done. Qed.

(** Where something matches [re_scale], a scale word is ahead. *)
Lemma Matches_scale_ahead b w a :
  Matches true re_scale b w a -> scaleAhead (w ++ a) <> None.
Proof.
  intros (gap & word & t & -> & Hgap & Ht & Hw)%Matches_scale.
  destruct (scale_words_letters t Ht) as [Hne Hletters].
  destruct (ci_eq_scale_word word (str t) Hletters Hw) as [Hlow Hclean].
  assert (word <> []) as Hword.
  { intros ->. unfold ci_eq in Hw. by destruct (str t). }
  unfold scaleAhead. rewrite <- app_assoc, trimStart_spaces_app; [|done|].
  - assert (startsWithWord t (word ++ a) = true) as Hstart
      by (apply startsWithWord_spec; eauto).
    destruct Ht as [<-|[<-|[<-|[]]]]; rewrite ?Hstart;
      by repeat destruct (startsWithWord _ _).
  - destruct word as [|d word]; [done|]. inversion Hclean as [|? ? [? _] _].
    done.
Qed.

Lemma capture_tail i j w cs :
  i <> j -> capture ((j, w) :: cs) i = capture cs i.
Proof.
  intros Hij. unfold capture. cbn [List.find fst].
  by destruct (Nat.eqb_spec j i); [congruence|].
Qed.

Lemma capture_clear_other cs i j :
  i <> j -> capture (clear [j] cs) i = capture cs i.
Proof.
  intros Hij. induction cs as [|[k x] cs IH]; [done|].
  unfold clear. cbn [List.filter existsb fst orb].
  rewrite orb_false_r.
  destruct (Nat.eqb_spec k j) as [->|Hk]; cbn [negb].
  - rewrite (capture_tail i j) by done. exact IH.
  - unfold capture in *. cbn [List.find fst].
    destruct (Nat.eqb k i); [done|]. exact IH.
Qed.

Lemma take_word pre (tail : jsstring) n :
  take (length (pre ++ take n tail) - length pre) tail = take n tail.
Proof.
  rewrite length_app.
  replace (length pre + length (take n tail) - length pre)%nat
    with (length (take n tail)) by lia.
  rewrite length_take. destruct (Nat.le_ge_cases n (length tail)).
  - by rewrite Nat.min_l.
  - rewrite Nat.min_r by done. by rewrite !take_ge by lia.
Qed.

(** The scale part: with a continuation that always succeeds it reads
    the scale word that is ahead, in whatever case and after any white
    space, and nothing when there is none. *)
Lemma mt_scale_ahead {R} pre rest cs (F : mstate -> caps -> R) :
  capture cs 2 = None ->
  exists stf csf,
    mt true (opt re_scale) (state_of pre rest) cs
       (fun st' cs' => Some (F st' cs')) = Some (F stf csf) /\
    capture csf 1 = capture cs 1 /\
    toLowerCase (default [] (capture csf 2)) =
      match scaleAhead rest with Some w => str w | None => [] end.
Proof.
  intros Hcs. rewrite mt_opt.
  destruct (scaleAhead rest) as [w|] eqn:Hsc.
  - destruct (trimStart_spaces rest) as (gap & Hrest & Hgap).
    assert (head_fails isWhiteSpace (trimStart rest)) as Hhead.
    { destruct (trimStart_head rest) as [->|(c & r & -> & Hc)]; done. }
    assert (exists post,
      strip_ci (str w) (trimStart rest) = Some post /\
      In w SCALE_WORDS /\
      foldr (fun r acc =>
               match mt true r (state_of (pre ++ gap) (trimStart rest))
                       (clear [2%nat] cs)
                       (fun st' cs' =>
                          (fun st'' cs'' =>
                             if Nat.eqb (pos st'') (pos (state_of pre rest))
                             then None else Some (F st'' cs''))
                            st' ((2%nat, take (pos st' - length (pre ++ gap))
                                              (trimStart rest)) :: cs'))
               with
               | Some z => Some z
               | None => acc
               end) None
            [lit "thousand"; lit "million"; lit "billion"] =
      Some (F (state_of ((pre ++ gap) ++ take (length (str w)) (trimStart rest))
                        post)
              ((2%nat, take (length (str w)) (trimStart rest))
                 :: clear [2%nat] cs))) as (post & Hpost & Hw & Hfold).
    { unfold scaleAhead, startsWithWord in Hsc. cbv zeta in Hsc.
      assert (forall (t : string) post,
                 t <> EmptyString ->
                 strip_ci (str t) (trimStart rest) = Some post ->
                 Nat.eqb (length ((pre ++ gap) ++
                                  take (length (str t)) (trimStart rest)))
                         (length pre) = false) as Hmoved.
      { intros t post Ht Hstrip.
        apply Nat.eqb_neq. rewrite !length_app, length_take.
        apply strip_ci_spec in Hstrip as (word & Heq & Hword).
        rewrite Heq, length_app.
        assert (length word = length (str t)) as Hlen.
        { unfold ci_eq in Hword. apply (f_equal length) in Hword.
          by rewrite !length_map in Hword. }
        destruct t; [done|]. cbn [str list_ascii_of_string length] in *.
        lia. }
      cbn [foldr]. unfold lit. rewrite !mt_lit.
      destruct (strip_ci (str "thousand") (trimStart rest)) as [post|] eqn:H1.
      { injection Hsc as <-. exists post. split; [done|]. split; [by left|].
        cbn beta. cbn [pos state_of]. rewrite take_word.
        by rewrite (Hmoved "thousand"%string post). }
      destruct (strip_ci (str "million") (trimStart rest)) as [post|] eqn:H2.
      { injection Hsc as <-. exists post. split; [done|].
        split; [right; by left|].
        cbn beta. cbn [pos state_of]. rewrite take_word.
        by rewrite (Hmoved "million"%string post). }
      destruct (strip_ci (str "billion") (trimStart rest)) as [post|] eqn:H3;
        [|done].
      injection Hsc as <-. exists post. split; [done|].
      split; [right; right; by left|].
      cbn beta. cbn [pos state_of]. rewrite take_word.
        by rewrite (Hmoved "billion"%string post). }
    exists (state_of ((pre ++ gap) ++ take (length (str w)) (trimStart rest))
                     post),
           ((2%nat, take (length (str w)) (trimStart rest))
              :: clear [2%nat] cs).
    split; [|split].
    + assert (mt true re_scale (state_of pre rest) (clear (groups re_scale) cs)
                (fun st' cs' =>
                   if Nat.eqb (pos st') (pos (state_of pre rest)) then None
                   else Some (F st' cs')) =
              Some (F (state_of ((pre ++ gap) ++
                                 take (length (str w)) (trimStart rest)) post)
                      ((2%nat, take (length (str w)) (trimStart rest))
                         :: clear [2%nat] cs))) as ->; [|reflexivity].
      unfold re_scale. rewrite mt_Seq. rewrite Hrest at 1.
      apply (mt_class_run false [CSpace] isWhiteSpace);
        [apply ws_class|done|done|simpl; lia|].
      rewrite mt_Group, mt_alts by done.
      change (groups (Seq (star ws)
                (Group 2 (alts [lit "thousand"; lit "million";
                                lit "billion"])))) with [2%nat].
      exact Hfold.
    + rewrite capture_tail by done. by apply capture_clear_other.
    + rewrite capture_head.
      change (toLowerCase (take (length (str w)) (trimStart rest)) = str w).
      apply strip_ci_spec in Hpost as (word & Heq & Hword).
      destruct (scale_words_letters w Hw) as [_ Hletters].
      destruct (ci_eq_scale_word word (str w) Hletters Hword) as [Hlow _].
      assert (length (str w) = length word) as ->.
      { unfold ci_eq in Hword. apply (f_equal length) in Hword.
        by rewrite !length_map in Hword. }
      by rewrite Heq, take_app_length.
  - destruct (mt true re_scale _ _ _) as [z|] eqn:Hin.
    + exfalso.
      apply mt_Matches_sound in Hin as (w & tl' & cs' & -> & Hw & _).
      by apply Matches_scale_ahead in Hw.
    + exists (state_of pre rest), cs. split; [done|]. split; [done|].
      by rewrite Hcs.
Qed.

(** ** The number and the scale word together *)

(** From the first digit on, the pattern reads the number to its end and
    the scale word that is ahead. *)
Lemma mt_amount_total {R} pre ip fp rest (F : mstate -> caps -> R) :
  ip <> [] -> digits ip -> digits fp -> numberEnds fp rest ->
  exists stf csf,
    mt true (Seq (Group 1 re_number) (opt re_scale))
       (state_of pre ((ip ++ fraction fp) ++ rest)) []
       (fun st' cs' => Some (F st' cs')) = Some (F stf csf) /\
    capture csf 1 = Some (ip ++ fraction fp) /\
    toLowerCase (default [] (capture csf 2)) =
      match scaleAhead rest with Some w => str w | None => [] end.
Proof.
  intros Hne Hip Hfp Hends.
  destruct (mt_scale_ahead (pre ++ ip ++ fraction fp) rest
              [(1%nat, ip ++ fraction fp)] F)
    as (stf & csf & Hs & H1 & H2); [done|].
  exists stf, csf. split; [|split; [|done]].
  - rewrite mt_Seq, mt_Group. apply mt_number_ends; try done.
    cbn [pos state_of]. rewrite take_number.
    exact Hs.
  - by rewrite H1.
Qed.

(** ** In front of the number *)

Lemma digit_upper d : isDigit d = true -> toUpperChar d = d.
Proof. destruct d as [[] [] [] [] [] [] [] []]; vm_compute; congruence. Qed.

Lemma noDigit_app a b : noDigit (a ++ b) <-> noDigit a /\ noDigit b.
Proof. apply Forall_app. Qed.

Lemma noDigit_spaces w :
  Forall (fun c => isWhiteSpace c = true) w -> noDigit w.
Proof.
  intros H. eapply Forall_impl; [exact H|]. intros d Hd. cbv beta in *.
  destruct (isDigit d) eqn:Hdig; [|done].
  apply digit_not_ws in Hdig. congruence.
Qed.

(** A currency marker has no digit. *)
Lemma noDigit_marker b w a : Matches true (opt re_marker) b w a -> noDigit w.
Proof.
  intros [->|[_ H]]%Matches_opt; [constructor|].
  unfold re_marker in H. apply Matches_Alt in H as [H|H].
  - apply Matches_Chr in H as (d & -> & Hd). constructor; [|constructor].
    destruct (isDigit d) eqn:Hdig; [|done].
    destruct (digit_not_marker d Hdig) as [Hm _].
    unfold canon in Hd. congruence.
  - apply Matches_Seq in H as (w1 & w2 & -> & H1 & H2).
    apply noDigit_app. split.
    + unfold lit in H1. apply Matches_lit_chars in H1. unfold ci_eq in H1.
      destruct w1 as [|d1 [|d2 [|d3 [|? ?]]]]; try discriminate H1.
      injection H1 as E1 E2 E3.
      repeat constructor.
      * destruct (isDigit d1) eqn:Hdig; [|done].
        rewrite (digit_upper d1 Hdig) in E1. by subst d1.
      * destruct (isDigit d2) eqn:Hdig; [|done].
        rewrite (digit_upper d2 Hdig) in E2. by subst d2.
      * destruct (isDigit d3) eqn:Hdig; [|done].
        rewrite (digit_upper d3 Hdig) in E3. by subst d3.
    + unfold star, ws in H2. apply Matches_Rep_class in H2 as [_ H2].
      apply noDigit_spaces. eapply Forall_impl; [exact H2|].
      intros d Hd. cbv beta in Hd. by rewrite ws_class in Hd.
Qed.

(** The first digit of a text is where it is. *)
Lemma first_digit_unique (a b a' b' : jsstring) :
  noDigit a -> noDigit a' -> starts_with_digit b -> starts_with_digit b' ->
  a ++ b = a' ++ b' -> a = a' /\ b = b'.
Proof.
  intros Ha. revert a'. induction Ha as [|c a Hc _ IH]; intros a' Ha' Hb Hb'.
  - destruct a' as [|c' a']; [done|]. cbn [app]. intros ->.
    inversion Ha' as [|? ? Hc' _]. cbn in Hb. congruence.
  - destruct a' as [|c' a']; cbn [app].
    + intros <-. cbn in Hb'. congruence.
    + intros [= -> Heq]. inversion Ha' as [|? ? _ Ha'']; subst.
      destruct (IH a' Ha'' Hb Hb' Heq) as [-> ->]. done.
Qed.

(** A match that starts in front of the number, anywhere after the last
    digit before it, has the number as its first group and the scale word
    that is ahead as its second. *)
Lemma match_at_amount p1 p2 ip fp rest m :
  noDigit p2 -> ip <> [] -> digits ip -> digits fp -> numberEnds fp rest ->
  match_at true re_money (state_of p1 (p2 ++ (ip ++ fraction fp) ++ rest))
    = Some m ->
  group m 1 = Some (ip ++ fraction fp) /\
  toLowerCase (default [] (group m 2)) =
    match scaleAhead rest with Some w => str w | None => [] end.
Proof.
  intros Hp2 Hne Hip Hfp Hends. unfold match_at. rewrite re_money_eq.
  intros H. rewrite mt_Seq in H.
  apply mt_Captures_sound in H as (w1 & tl1 & cs1 & Htl & HC1 & H).
  apply Captures_plain_inv in HC1 as [HM1 ->]; [|reflexivity].
  rewrite mt_Seq in H.
  apply mt_Captures_sound in H as (w2 & tl2 & cs2 & -> & HC2 & H).
  apply Captures_plain_inv in HC2 as [HM2 ->]; [|reflexivity].
  assert (starts_with_digit tl2) as Hstart.
  { pose proof H as H'. rewrite mt_Seq in H'.
    apply mt_Group_sound in H' as (w & tl3 & cs3 & -> & Hw & _).
    apply Matches_number in Hw as (ip' & fp' & -> & Hne' & Hip' & _).
    destruct ip' as [|d ip']; [done|]. by inversion Hip'. }
  assert (noDigit (w1 ++ w2)) as Hw12.
  { apply noDigit_app. split; [by eapply noDigit_marker|].
    unfold star, ws in HM2. apply Matches_Rep_class in HM2 as [_ HM2].
    apply noDigit_spaces. eapply Forall_impl; [exact HM2|].
    intros d Hd. cbv beta in Hd. by rewrite ws_class in Hd. }
  rewrite (app_assoc w1 w2 tl2) in Htl.
  apply first_digit_unique in Htl as [-> <-]; try done.
  2:{ destruct ip as [|d ip]; [done|]. by inversion Hip. }
  match type of H with
  | mt _ _ _ _ (fun st' cs' => Some (@?F st' cs')) = _ =>
      destruct (mt_amount_total ((p1 ++ w1) ++ w2) ip fp rest F)
        as (stf & csf & Heq & H1 & H2); try done
  end.
  rewrite Heq in H. injection H as <-. unfold group. cbn [captures].
  done.
Qed.

(** At the first digit the pattern matches. *)
Lemma mt_no_marker {R} pre X cs (k : mstate -> caps -> option R) :
  starts_with_digit X ->
  mt true (opt re_marker) (state_of pre X) cs k = k (state_of pre X) cs.
Proof.
  intros HX. rewrite mt_opt.
  replace (groups re_marker) with (@nil nat) by reflexivity.
  rewrite clear_nil.
  destruct X as [|c X]; [done|]. cbn in HX.
  destruct (digit_not_marker c HX) as (H1 & H2 & _).
  unfold re_marker. cbn [mt]. rewrite mchar_state_of.
  change (canon true (ch "$")) with (toUpperChar (ch "$")).
  change (canon true c) with (toUpperChar c). rewrite H1.
  fold (mt (R:=R) true (lit "USD")). unfold lit. rewrite mt_lit.
  change (strip_ci (str "USD") (c :: X))
    with (if char_eqb (toUpperChar (ch "U")) (toUpperChar c)
          then strip_ci (str "SD") X else None).
  by rewrite H2.
Qed.

Lemma match_at_first_digit pre ip fp rest :
  ip <> [] -> digits ip -> digits fp -> numberEnds fp rest ->
  is_Some (match_at true re_money
             (state_of pre ((ip ++ fraction fp) ++ rest))).
Proof.
  intros Hne Hip Hfp Hends. unfold match_at. rewrite re_money_eq.
  assert (starts_with_digit ((ip ++ fraction fp) ++ rest)) as Hstart.
  { destruct ip as [|d ip]; [done|]. by inversion Hip. }
  rewrite mt_Seq, mt_no_marker by done. rewrite mt_Seq.
  match goal with
  | |- is_Some (mt _ _ _ _ (fun st1 cs1 =>
                  mt _ _ st1 cs1 (fun st' cs' => Some (@?F st' cs')))) =>
      destruct (mt_amount_total pre ip fp rest F)
        as (stf & csf & Heq & _); try done
  end.
  erewrite star_ws_none; [done|done|]. exact Heq.
Qed.

(** ** The match that [exec] finds *)

(** In a text with a digit the pattern finds the first number, read to
    its end, and the scale word that follows it. *)
Lemma exec_money_amount pre ip fp rest :
  noDigit pre -> ip <> [] -> digits ip -> digits fp -> numberEnds fp rest ->
  exists m,
    exec true re_money (pre ++ (ip ++ fraction fp) ++ rest) = Some m /\
    group m 1 = Some (ip ++ fraction fp) /\
    toLowerCase (default [] (group m 2)) =
      match scaleAhead rest with Some w => str w | None => [] end.
Proof.
  intros Hpre Hne Hip Hfp Hends.
  destruct (match_at_first_digit pre ip fp rest) as [m0 Hm0]; try done.
  apply match_at_Matches in Hm0 as (_ & post0 & Hpost0 & HM0).
  destruct (exec true re_money (pre ++ (ip ++ fraction fp) ++ rest))
    as [m|] eqn:Hex.
  2:{ exfalso. apply exec_None in Hex. apply Hex.
      exists pre, (matched m0), post0. by rewrite <- Hpost0. }
  exists m. split; [done|].
  pose proof (exec_Matches _ _ _ _ Hex)
    as (pre1 & post1 & Hs1 & Hi1 & _ & Hleft).
  apply exec_match_at in Hex as (pre2 & tl2 & Hs2 & Hm).
  pose proof (match_at_shape _ _ _ _ Hm) as [Hi2 _].
  cbn [pos state_of] in Hi2.
  assert (length pre2 <= length pre)%nat as Hlen.
  { rewrite <- Hi2, Hi1. eapply Hleft; [|exact HM0].
    by rewrite <- Hpost0. }
  assert (exists p2, pre = pre2 ++ p2 /\
                     tl2 = p2 ++ (ip ++ fraction fp) ++ rest)
    as (p2 & -> & ->).
  { exists (drop (length pre2) pre).
    assert (pre2 = take (length pre2) pre) as Hpre2.
    { apply (f_equal (take (length pre2))) in Hs2.
      rewrite take_app_le in Hs2 by done.
      by rewrite take_app_length in Hs2. }
    split.
    - rewrite Hpre2 at 1. by rewrite take_drop.
    - apply (f_equal (drop (length pre2))) in Hs2.
      rewrite drop_app_le in Hs2 by done.
      by rewrite drop_app_length in Hs2. }
  apply noDigit_app in Hpre as [_ Hp2].
  by eapply match_at_amount.
Qed.

(** ** The amount *)

Lemma scaleAhead_words rest :
  scaleAhead rest = None \/ scaleAhead rest = Some "thousand"%string \/
  scaleAhead rest = Some "million"%string \/
  scaleAhead rest = Some "billion"%string.
Proof. unfold scaleAhead. repeat destruct (startsWithWord _ _); tauto. Qed.

Lemma parseMoneyToUSD_reads text pre ip fp rest :
  trim (strip text) = pre ++ (ip ++ fraction fp) ++ rest ->
  noDigit pre -> ip <> [] -> digits ip -> digits fp -> numberEnds fp rest ->
  parseMoneyToUSD (Some text) = Some (amountValue ip fp (scaleAhead rest)).
Proof.
  intros Htext Hpre Hne Hip Hfp Hends.
  destruct (exec_money_amount pre ip fp rest) as (m & Hex & Hg1 & Hg2);
    try done.
  destruct text as [|c t].
  { exfalso. cbn in Htext. destruct pre, ip; done. }
  rewrite parseMoneyToUSD_cleaned, Htext. unfold matchMoney.
  rewrite Hex, Hg1, Hg2. unfold amountValue.
  destruct (scaleAhead_words rest) as [->|[->|[->| ->]]]; reflexivity.
Qed.

(** The amount before rounding is in the format. *)
Lemma scaledNumber_inFormat ip fp sc :
  ip <> [] -> digits ip -> digits fp -> inFormat (scaledNumber ip fp sc).
Proof.
  intros Hne Hip Hfp. unfold scaledNumber.
  rewrite parseFloat_number by done.
  destruct (multiplier sc) as [k|]; [|apply decimal_inFormat].
  apply mul_inFormat; [apply decimal_inFormat|apply of_Z_inFormat].
Qed.

(** ** Every text with a digit has an amount *)

Lemma span_spec (P : ascii -> bool) s :
  s = (span P s).1 ++ (span P s).2 /\
  Forall (fun c => P c = true) (span P s).1 /\
  head_fails P (span P s).2.
Proof.
  induction s as [|c s (IH1 & IH2 & IH3)]; cbn [span]; [done|].
  destruct (P c) eqn:Hc; [|done].
  destruct (span P s) as [a b]. cbn [fst snd] in *.
  split; [by rewrite IH1 at 1|]. split; [by constructor|done].
Qed.

Lemma first_digit s :
  hasDigit s ->
  exists pre d s', s = pre ++ d :: s' /\ noDigit pre /\ isDigit d = true.
Proof.
  induction s as [|c s IH]; intros H; [by inversion H|].
  destruct (isDigit c) eqn:Hc.
  - exists [], c, s. split; [done|]. split; [constructor|done].
  - inversion H as [? ? Hd|? ? Hs]; subst; [congruence|].
    destruct (IH Hs) as (pre & d & s' & -> & Hpre & Hd).
    exists (c :: pre), d, s'. split; [done|]. split; [by constructor|done].
Qed.

Lemma amount_shape s :
  hasDigit s ->
  exists pre ip fp rest,
    s = pre ++ (ip ++ fraction fp) ++ rest /\
    noDigit pre /\ ip <> [] /\ digits ip /\ digits fp /\
    numberEnds fp rest.
Proof.
  intros (pre & d & s' & -> & Hpre & Hd)%first_digit.
  destruct (span_spec isDigit s') as (Hs' & Hip & Hr1).
  set (ip := (span isDigit s').1) in *. set (r1 := (span isDigit s').2) in *.
  destruct (fractionAhead r1) eqn:Hfrac.
  - destruct r1 as [|c [|f r2]]; try done. cbn [fractionAhead] in Hfrac.
    apply andb_true_iff in Hfrac as [Hc Hf]. apply char_eqb_eq in Hc as ->.
    destruct (span_spec isDigit r2) as (Hr2 & Hfp & Hr3).
    exists pre, (d :: ip), (f :: (span isDigit r2).1), (span isDigit r2).2.
    split.
    { rewrite Hs'. cbn [fraction app]. rewrite <- !app_assoc. cbn [app].
      do 4 f_equal. by rewrite Hr2 at 1. }
    split; [done|]. split; [done|]. split; [by constructor|].
    split; [by constructor|]. split; [done|done].
  - exists pre, (d :: ip), [], r1. split.
    { rewrite Hs'. cbn [fraction]. by rewrite app_nil_r. }
    split; [done|]. split; [done|]. split; [by constructor|].
    split; [constructor|]. split; [done|done].
Qed.

(** ** The payments of a partnership *)

(** The payments of a partnership that [run] writes. *)
Lemma partnership_payments companyName fullText contextWindow p :
  out_partnership (relationshipOutput companyName fullText contextWindow)
    = Some p ->
  upfrontPaymentUSD p =
    (fun m => parseMoneyToUSD (group m 1)) <$>
      exec true re_upfront contextWindow /\
  milestonesUSD p =
    snd <$> milestoneLoop milestonePatterns contextWindow
              (upfrontPaymentUSD p).
Proof.
  unfold relationshipOutput, extractRelationship. cbv zeta.
  destruct (test true re_isPartnership contextWindow).
  - destruct (buildPartnership companyName fullText contextWindow)
      as [partnership texts] eqn:Hb.
    destruct (falsy (partnerA partnership) || falsy (partnerB partnership));
      [done|].
    cbn [out_partnership]. intros [= <-].
    unfold buildPartnership in Hb.
    repeat match type of Hb with
           | context [let '(_, _) := ?x in _] => destruct x
           end.
    injection Hb as <- _. done.
  - by destruct (test true re_isDeal contextWindow).
Qed.

Lemma scenario_payments companyName fullText contextWindow p p1 p2 mu mm :
  out_partnership (relationshipOutput companyName fullText contextWindow)
    = Some p ->
  exec true re_upfront contextWindow = Some mu ->
  group mu 1 = Some (str "$500,000") ->
  milestonePatterns = [p1; p2] ->
  exec true p1 contextWindow = None ->
  exec true p2 contextWindow = Some mm ->
  group mm 1 = Some (str "$1.2 billion") ->
  upfrontPaymentUSD p = Some (Some (of_Z 500000)) /\
  milestonesUSD p = Some (of_Z 1200000000).
Proof.
  intros Hp Hu Hgu Hpat Hm1 Hm2 Hgm.
  apply partnership_payments in Hp as [Hup Hmil].
  rewrite Hu in Hup. cbn [fmap option_fmap option_map] in Hup.
  rewrite Hgu in Hup.
  assert (parseMoneyToUSD (Some (str "$500,000")) = Some (of_Z 500000))
    as Hv1 by (vm_compute; reflexivity).
  rewrite Hv1 in Hup. split; [done|].
  rewrite Hmil, Hup, Hpat. cbn [milestoneLoop].
  rewrite Hm1, Hm2, Hgm.
  assert (parseMoneyToUSD (Some (str "$1.2 billion")) =
          Some (of_Z 1200000000)) as -> by (vm_compute; reflexivity).
  reflexivity.
Qed.

(** C8. [parseMoneyToUSD] sees its text with the parentheses and commas
    removed.  In the text that is left it reads the first number (digits
    and an optional fraction part) to its end, whatever stands in front
    of it ([$], [USD] or anything else without a digit), and the scale
    word that follows the number after any white space and in whatever
    case; every text with a digit is of this form.  The result is the
    number, times 1e3, 1e6 or 1e9 for thousand, million or billion,
    rounded to the nearest integer [n]: [n - 1/2 <= x < n + 1/2] for the
    product [x], and [x] itself when the product is infinite.  The number
    is the decimal value of the digits.  A partnership gets 500000 and
    1200000000 from every context window where the upfront pattern finds
    "$500,000" and the pattern for "milestone payments of" finds "$1.2
    billion" (and the pattern for "up to" in front of it finds nothing),
    as in the window with "upfront payment of $500,000" and "milestone
    payments of $1.2 billion". *)
Theorem parseMoneyToUSD_amounts :
  (forall text,
      parseMoneyToUSD (Some text) = parseMoneyToUSD (Some (strip text)) /\
      Forall (fun c => isParen c = false /\ isComma c = false) (strip text)) /\
  (forall text pre ip fp rest,
      trim (strip text) = pre ++ (ip ++ fraction fp) ++ rest ->
      noDigit pre -> ip <> [] -> digits ip -> digits fp ->
      numberEnds fp rest ->
      let x := scaledNumber ip fp (scaleAhead rest) in
      exists v,
        parseMoneyToUSD (Some text) = Some v /\
        v = amountValue ip fp (scaleAhead rest) /\
        (isFinite x = true ->
         exists n, to_Z v = Some n /\ nearestInteger n x) /\
        (isFinite x = false -> v = x) /\
        parseFloat (ip ++ fraction fp) =
          decimal false (digits_value (ip ++ fp)) (- len fp)) /\
  (forall text,
      hasDigit text ->
      exists pre ip fp rest,
        trim (strip text) = pre ++ (ip ++ fraction fp) ++ rest /\
        noDigit pre /\ ip <> [] /\ digits ip /\ digits fp /\
        numberEnds fp rest) /\
  (forall text marker ip fp sc,
      In marker MARKERS -> ip <> [] -> digits ip -> digits fp ->
      scale_ok sc ->
      strip text = amountText marker ip fp sc ->
      parseMoneyToUSD (Some text) = Some (amountValue ip fp sc)) /\
  (forall companyName fullText contextWindow p p1 p2 mu mm,
      out_partnership
        (relationshipOutput companyName fullText contextWindow) = Some p ->
      exec true re_upfront contextWindow = Some mu ->
      group mu 1 = Some (str "$500,000") ->
      milestonePatterns = [p1; p2] ->
      exec true p1 contextWindow = None ->
      exec true p2 contextWindow = Some mm ->
      group mm 1 = Some (str "$1.2 billion") ->
      upfrontPaymentUSD p = Some (Some (of_Z 500000)) /\
      milestonesUSD p = Some (of_Z 1200000000)) /\
  (let contextWindow :=
     str "Acme Inc. entered into a collaboration with Beta Pharma Corp. with an upfront payment of $500,000 and milestone payments of $1.2 billion." in
   let out :=
     relationshipOutput (Some (str "Acme Inc.")) contextWindow contextWindow in
   exists p,
     out_partnership out = Some p /\
     upfrontPaymentUSD p = Some (Some (of_Z 500000)) /\
     milestonesUSD p = Some (of_Z 1200000000) /\
     parseMoneyToUSD (Some (str "$500,000")) = Some (of_Z 500000) /\
     parseMoneyToUSD (Some (str "$1.2 billion")) = Some (of_Z 1200000000)).
Proof.
  split; [|split; [|split; [|split; [|split]]]].
  - intros text. split; [apply parseMoneyToUSD_strip|apply strip_clean].
  - intros text pre ip fp rest Htext Hpre Hne Hip Hfp Hends x.
    exists (amountValue ip fp (scaleAhead rest)).
    split; [by apply (parseMoneyToUSD_reads text pre)|]. split; [done|].
    pose proof (scaledNumber_inFormat ip fp (scaleAhead rest) Hne Hip Hfp)
      as Hx.
    fold x in Hx. change (amountValue ip fp (scaleAhead rest)) with (round x).
    split; [by apply round_nearest|]. split.
    + by destruct x.
    + by apply parseFloat_number.
  - intros text Hd. apply amount_shape.
    by apply hasDigit_trim, hasDigit_strip.
  - intros text marker ip fp sc Hm Hne Hip Hfp Hsc Htext.
    by apply (parseMoneyToUSD_amount text marker).
  - apply scenario_payments.
  - eexists. split; [vm_compute; reflexivity|].
    repeat split; vm_compute; reflexivity.
Qed.

Lemma parseMoneyToUSD_amounts_witness :
  exists v,
    parseMoneyToUSD (Some (str "about USD 2.5 MILLION (approx.)")) = Some v /\
    v = of_Z 2500000 /\
    (exists n, to_Z v = Some n /\
               nearestInteger n (mul (parseFloat (str "2.5")) (of_Z 1000000))).
Proof.
  destruct (proj1 (proj2 parseMoneyToUSD_amounts)
              (str "about USD 2.5 MILLION (approx.)")
              (str "about USD ") (str "2") (str "5")
              (str " MILLION approx."))
    as (v & Hv & Heq & Hfin & _).
  - vm_compute. reflexivity.
  - by repeat constructor.
  - discriminate.
  - by repeat constructor.
  - by repeat constructor.
  - split; [done|discriminate].
  - exists v. split; [exact Hv|]. split; [exact Heq|].
    apply Hfin. vm_compute. reflexivity.
Defined.

End AmountFacts.

Module CleanerFacts.
Import JS Regex Chunker JSFacts ChunkerFacts Cleaner AccessionFacts.

Lemma slice_Z (s : jsstring) (a b : Z) :
  0 <= a <= b ->
  slice s a b = take (Z.to_nat b - Z.to_nat a) (drop (Z.to_nat a) s).
Proof.
  intros H. rewrite <- (Z2Nat.id a), <- (Z2Nat.id b) at 1 by lia.
  apply slice_range. lia.
Qed.

Lemma len_slice (s : jsstring) a b :
  0 <= a <= b -> b <= len s -> len (slice s a b) = b - a.
Proof.
  intros H Hb. rewrite slice_Z by done. unfold len in *.
  rewrite length_take, length_drop. lia.
Qed.

Section ChunkSizes.
Variables (txt : jsstring) (target overlap : Z).
Hypothesis target_pos : 0 < target.
Hypothesis overlap_range : 0 <= overlap < target.

Lemma len_chunk_at s :
  0 <= s < len txt ->
  len (text (chunk_at txt target s)) = Z.min (s + target) (len txt) - s.
Proof. intros Hs. unfold chunk_at. cbn [text]. apply len_slice; lia. Qed.

(** The chunks from offset [s] on, put together, are the text from [s]
    on. *)
Lemma ChunksFrom_reassemble s cs :
  ChunksFrom txt target overlap s cs -> 0 <= s ->
  reassemble overlap cs = drop (Z.to_nat s) txt.
Proof.
  induction 1 as [s Hlt Hs|s rest Hlt Hs Hrest IH]; intros H0.
  - unfold reassemble, chunk_at. cbn [text flat_map]. rewrite app_nil_r.
    rewrite Z.min_r by lia. rewrite slice_Z by lia.
    apply take_ge. rewrite length_drop. unfold len in *. lia.
  - specialize (IH ltac:(lia)).
    destruct (ChunksFrom_head _ _ _ _ _ Hrest) as (c & cs' & -> & Hc).
    pose proof (ChunksFrom_shape _ _ _ _ _ Hrest) as Hshape.
    inversion Hshape as [|? ? Hcshape _]; subst.
    assert (overlap < len (text c)) as Hlen.
    { rewrite Hcshape, len_chunk_at by lia. lia. }
    unfold reassemble in *. cbn [flat_map].
    set (F := flat_map _ cs') in *.
    replace (drop (Z.to_nat overlap) (text c) ++ F)
      with (drop (Z.to_nat overlap) (text c ++ F))
      by (rewrite drop_app_le; [done|unfold len in Hlen; lia]).
    rewrite IH, drop_drop.
    unfold chunk_at at 1. cbn [text]. rewrite Z.min_l by lia.
    rewrite slice_Z by lia.
    replace (Z.to_nat (s + (target - overlap)) + Z.to_nat overlap)%nat
      with (Z.to_nat s + (Z.to_nat (s + target) - Z.to_nat s))%nat by lia.
    rewrite <- drop_drop. apply take_drop.
Qed.

Lemma ChunksFrom_sizes s cs :
  ChunksFrom txt target overlap s cs -> 0 <= s ->
  Forall (fun c => 0 < len (text c) <= target) cs /\
  (forall l1 c l2, cs = l1 ++ c :: l2 -> l2 <> [] -> len (text c) = target).
Proof.
  induction 1 as [s Hlt Hs|s rest Hlt Hs Hrest IH]; intros H0.
  - split.
    + constructor; [|done]. rewrite len_chunk_at by lia. lia.
    + intros l1 c l2 Heq Hne. by destruct l1 as [|? [|? ?]]; simplify_eq/=.
  - destruct (IH ltac:(lia)) as [IH1 IH2]. split.
    + constructor; [|done]. rewrite len_chunk_at by lia. lia.
    + intros l1 c l2 Heq Hne. destruct l1 as [|c' l1]; simpl in Heq.
      * injection Heq as <- <-. rewrite (len_chunk_at s) by lia. lia.
      * injection Heq as _ ->. by eapply IH2.
Qed.

Lemma ChunksFrom_count s cs :
  ChunksFrom txt target overlap s cs -> 0 <= s ->
  Z.of_nat (length cs) =
  if len txt - s <=? target then 1
  else 1 + (len txt - s - target + (target - overlap) - 1) / (target - overlap).
Proof.
  induction 1 as [s Hlt Hs|s rest Hlt Hs Hrest IH]; intros H0.
  - destruct (Z.leb_spec (len txt - s) target); [done|lia].
  - specialize (IH ltac:(lia)). cbn [length]. rewrite Nat2Z.inj_succ, IH.
    destruct (Z.leb_spec (len txt - s) target); [lia|].
    set (step := target - overlap) in *. assert (0 < step) by (subst step; lia).
    destruct (Z.leb_spec (len txt - (s + step)) target).
    + assert ((len txt - s - target + step - 1) / step = 1); [|lia].
      symmetry. apply Z.div_unique with (r := len txt - s - target - 1); lia.
    + replace (len txt - s - target + step - 1)
        with ((len txt - (s + step) - target + step - 1) + 1 * step) by lia.
      rewrite Z.div_add by lia. lia.
Qed.

Lemma ChunksFrom_last_size s cs :
  ChunksFrom txt target overlap s cs -> 0 <= s ->
  forall l1 c, cs = l1 ++ [c] -> l1 <> [] -> overlap < len (text c).
Proof.
  induction 1 as [s Hlt Hs|s rest Hlt Hs Hrest IH]; intros H0 l1 c Heq Hne.
  - by destruct l1 as [|? [|? ?]]; simplify_eq/=.
  - destruct l1 as [|c' l1]; [done|]. simpl in Heq.
    injection Heq as _ ->.
    destruct l1 as [|c'' l1].
    + destruct (ChunksFrom_head _ _ _ _ _ Hrest) as (c1 & cs' & Hc & Hst).
      simpl in Hc. injection Hc as <- <-.
      pose proof (ChunksFrom_shape _ _ _ _ _ Hrest) as Hshape.
      inversion Hshape as [|? ? Hcshape _]; subst.
      rewrite Hcshape, len_chunk_at by lia. lia.
    + eapply (IH ltac:(lia)); [done|done].
Qed.

End ChunkSizes.

(** X6 (chunkText, reassembly).  With [0 <= overlap < target] the text is
    recovered from its chunks: the first chunk, followed by the later
    chunks without their first [overlap] characters. *)
Theorem chunkText_reassemble txt target overlap fuel :
  0 < target -> 0 <= overlap < target -> len txt < Z.of_nat fuel ->
  exists cs,
    chunkText fuel txt target overlap = Some cs /\
    reassemble overlap cs = txt.
Proof.
  intros Ht Ho Hfuel. unfold chunkText.
  destruct (Z.eq_dec (len txt) 0) as [Hz|Hnz].
  - exists []. destruct fuel as [|fuel]; [lia|].
    rewrite chunkText_loop_unfold.
    destruct (Z.ltb_spec 0 (len txt)); [lia|]. split; [done|].
    destruct txt; [done|]. unfold len in Hz. simpl in Hz. lia.
  - assert (0 < len txt) as Hpos by (unfold len in *; lia).
    destruct (chunkText_loop_runs txt target overlap Ho fuel 0 [])
      as (cs & Hrun & Hcs); [lia..|].
    exists cs. split; [done|].
    by rewrite (ChunksFrom_reassemble txt target overlap Ht Ho 0 cs Hcs).
Qed.

Lemma chunkText_reassemble_witness :
  exists cs,
    chunkText 11 (str "abcdefghij") 4 1 = Some cs /\
    reassemble 1 cs = str "abcdefghij".
Proof.
  apply (chunkText_reassemble (str "abcdefghij") 4 1 11%nat);
    [lia|lia|reflexivity].
Defined.

(** X7 (chunkText, sizes).  With [0 <= overlap < target] every chunk has
    between 1 and [target] characters, every chunk but the last has exactly
    [target], a last chunk that is not the only one has more than [overlap]
    characters (it adds something new), and the number of chunks is
    [1 + ceil((len - target) / (target - overlap))] for a text longer than
    [target]. *)
Theorem chunkText_sizes txt target overlap fuel :
  0 < target -> 0 <= overlap < target -> len txt < Z.of_nat fuel ->
  exists cs,
    chunkText fuel txt target overlap = Some cs /\
    Forall (fun c => 0 < len (text c) <= target) cs /\
    (forall l1 c l2, cs = l1 ++ c :: l2 -> l2 <> [] -> len (text c) = target) /\
    (forall l1 c, cs = l1 ++ [c] -> l1 <> [] -> overlap < len (text c)) /\
    Z.of_nat (length cs) = chunkCount (len txt) target overlap.
Proof.
  intros Ht Ho Hfuel. unfold chunkText, chunkCount.
  destruct (Z.eqb_spec (len txt) 0) as [Hz|Hnz].
  - exists []. destruct fuel as [|fuel]; [lia|].
    rewrite chunkText_loop_unfold.
    destruct (Z.ltb_spec 0 (len txt)); [lia|]. split; [done|].
    split; [done|]. split; [by intros [|? ?]|]. split; [by intros [|? ?]|done].
  - assert (0 < len txt) as Hpos by (unfold len in *; lia).
    destruct (chunkText_loop_runs txt target overlap Ho fuel 0 [])
      as (cs & Hrun & Hcs); [lia..|].
    exists cs. split; [done|].
    destruct (ChunksFrom_sizes txt target overlap Ht Ho 0 cs Hcs) as [H1 H2];
      [lia|].
    split; [done|]. split; [done|].
    split; [intros l1 c; eapply ChunksFrom_last_size; eauto; lia|].
    erewrite ChunksFrom_count by (eauto; lia).
    rewrite !Z.sub_0_r. destruct (Z.eqb_spec (len txt) 0); [lia|done].
Qed.

Lemma chunkText_sizes_witness :
  exists cs,
    chunkText 11 (str "abcdefghij") 4 1 = Some cs /\
    Z.of_nat (length cs) = 3.
Proof.
  destruct (chunkText_sizes (str "abcdefghij") 4 1 11%nat)
    as (cs & Hrun & _ & _ & _ & Hn); [lia|lia|reflexivity|].
  exists cs. split; [exact Hrun|exact Hn].
Defined.

(** X8 (chunkText, no end).  With [overlap >= target > 0] and a text longer
    than [target] the loop of [chunkText] never ends: whatever the bound on
    the evaluations of its condition, the bound is reached. *)
Theorem chunkText_never_ends txt target overlap :
  0 < target -> target <= overlap -> target < len txt ->
  forall fuel, chunkText fuel txt target overlap = None.
Proof.
  intros Ht Ho Hl fuel. by apply chunkText_large_overlap_runs_on.
Qed.

Lemma chunkText_never_ends_witness :
  chunkText 1000 (str "abcd") 3 5 = None.
Proof.
  apply (chunkText_never_ends (str "abcd") 3 5); [lia|lia|].
  vm_compute. reflexivity.
Defined.

(** ** [cleanText] *)

Lemma singleSpaced_weaken s : singleSpaced s true = true -> singleSpaced s false = true.
Proof.
  destruct s as [|c s]; [done|]. simpl. destruct (isWhiteSpace c); [|done].
  by rewrite andb_false_r.
Qed.

Lemma collapse_singleSpaced s : forall b,
  singleSpaced (collapse_ws_aux s b) b = true.
Proof.
  induction s as [|c s IH]; intros b; simpl; [done|].
  destruct (isWhiteSpace c) eqn:Hc.
  - destruct b; [apply IH|]. simpl. by rewrite IH.
  - simpl. rewrite Hc. apply IH.
Qed.

Lemma singleSpaced_app a b p :
  singleSpaced (a ++ b) p = true ->
  singleSpaced a p = true /\
  singleSpaced b (match last a with
                  | Some c => isWhiteSpace c
                  | None => p
                  end) = true.
Proof.
  revert p. induction a as [|c a IH]; intros p; simpl; [done|].
  destruct (isWhiteSpace c) eqn:Hc.
  - rewrite !andb_true_iff. intros [[H1 H2] H3]. apply IH in H3 as [H3 H4].
    split; [by rewrite H1, H2, H3|].
    destruct a as [|d a]; [simpl; by rewrite Hc|].
    change (last (c :: d :: a)) with (last (d :: a)).
    destruct (last (d :: a)) eqn:Hl; [done|]. by apply last_None in Hl.
  - intros H. apply IH in H as [H3 H4]. split; [done|].
    destruct a as [|d a]; [simpl; by rewrite Hc|].
    change (last (c :: d :: a)) with (last (d :: a)).
    destruct (last (d :: a)) eqn:Hl; [done|]. by apply last_None in Hl.
Qed.

Lemma singleSpaced_head s p c r :
  s = c :: r -> isWhiteSpace c = false ->
  singleSpaced s p = true -> singleSpaced s true = true.
Proof. intros -> Hc. simpl. by rewrite Hc. Qed.

Lemma trim_parts s :
  exists pre post,
    s = pre ++ trim s ++ post /\
    Forall (fun c => isWhiteSpace c = true) pre /\
    Forall (fun c => isWhiteSpace c = true) post.
Proof.
  unfold trim.
  destruct (trimStart_spaces s) as (pre & Hs & Hpre).
  destruct (trimEnd_spaces (trimStart s)) as (post & Ht & Hpost).
  exists pre, post. split; [|done]. by rewrite <- Ht.
Qed.

Lemma trim_normalized s p : singleSpaced s p = true -> normalized (trim s).
Proof.
  intros Hs. destruct (trim_shape s) as [Hend Hhead]. split; [|done].
  destruct Hhead as [->|(c & r & Heq & Hc)]; [done|].
  destruct (trim_parts s) as (pre & post & Hparts & _).
  rewrite Hparts in Hs. apply singleSpaced_app in Hs as [_ Hs].
  apply singleSpaced_app in Hs as [Hs _].
  eapply singleSpaced_head; [exact Heq|exact Hc|exact Hs].
Qed.

Lemma singleSpaced_blank s p c :
  singleSpaced s p = true -> c ∈ s -> isWhiteSpace c = true -> c = ch " ".
Proof.
  revert p. induction s as [|d s IH]; intros p Hs Hin Hc.
  - by apply not_elem_of_nil in Hin.
  - simpl in Hs. apply elem_of_cons in Hin as [->|Hin].
    + rewrite Hc in Hs. apply andb_true_iff in Hs as [Hs _].
      apply andb_true_iff in Hs as [Hs _]. by apply RegexFacts.char_eqb_eq in Hs.
    + destruct (isWhiteSpace d).
      * apply andb_true_iff in Hs as [_ Hs]. by eapply IH.
      * by eapply IH.
Qed.

Lemma notws_notCR c : isWhiteSpace c = false -> isCR c = false.
Proof. destruct c as [[] [] [] [] [] [] [] []]; vm_compute; congruence. Qed.

Lemma notws_notNbsp c : isWhiteSpace c = false -> blankForNbsp c = c.
Proof. destruct c as [[] [] [] [] [] [] [] []]; vm_compute; congruence. Qed.

Lemma singleSpaced_fixed s p :
  singleSpaced s p = true ->
  removeAll isCR s = s /\ map blankForNbsp s = s /\
  collapse_ws_aux s p = s.
Proof.
  revert p. induction s as [|c s IH]; intros p; simpl; [done|].
  destruct (isWhiteSpace c) eqn:Hc.
  - rewrite !andb_true_iff. intros [[H1 H2] H3].
    apply RegexFacts.char_eqb_eq in H1. subst c.
    destruct p; [done|]. destruct (IH _ H3) as (-> & -> & ->). done.
  - intros H. destruct (IH _ H) as (-> & -> & ->).
    by rewrite (notws_notCR c Hc), (notws_notNbsp c Hc).
Qed.

Lemma normalized_trim s : normalized s -> trim s = s.
Proof.
  intros [Hs Hend]. destruct s as [|c s]; [done|].
  apply (MoneyFacts.trim_id _ c s); [done| |done].
  simpl in Hs. destruct (isWhiteSpace c); [|done].
  by rewrite andb_false_r in Hs.
Qed.

Lemma removeAll_app p (a b : jsstring) :
  removeAll p (a ++ b) = removeAll p a ++ removeAll p b.
Proof. unfold removeAll. apply List.filter_app. Qed.

Lemma removeAll_all p (s : jsstring) :
  Forall (fun c => p c = true) s -> removeAll p s = [].
Proof.
  induction 1 as [|c s Hc _ IH]; [done|]. unfold removeAll in *. simpl.
  by rewrite Hc.
Qed.

Lemma removeAll_ws_trim s :
  removeAll isWhiteSpace (trim s) = removeAll isWhiteSpace s.
Proof.
  destruct (trim_parts s) as (pre & post & Hparts & Hpre & Hpost).
  rewrite Hparts at 2. rewrite !removeAll_app.
  by rewrite (removeAll_all _ pre), (removeAll_all _ post), app_nil_r.
Qed.

Lemma removeAll_ws_collapse s b :
  removeAll isWhiteSpace (collapse_ws_aux s b) = removeAll isWhiteSpace s.
Proof.
  revert b. unfold removeAll.
  induction s as [|c s IH]; intros b; simpl; [done|].
  destruct (isWhiteSpace c) eqn:Hc; simpl.
  - destruct b; simpl; apply IH.
  - rewrite Hc. simpl. by rewrite IH.
Qed.

Lemma removeAll_ws_blank s :
  removeAll isWhiteSpace (map blankForNbsp s) = removeAll isWhiteSpace s.
Proof.
  unfold removeAll. induction s as [|c s IH]; simpl; [done|]. rewrite IH.
  destruct c as [[] [] [] [] [] [] [] []]; reflexivity.
Qed.

Lemma removeAll_ws_CR s :
  removeAll isWhiteSpace (removeAll isCR s) = removeAll isWhiteSpace s.
Proof.
  rewrite MoneyFacts.removeAll_removeAll. unfold removeAll.
  induction s as [|c s IH]; simpl; [done|]. rewrite IH.
  destruct c as [[] [] [] [] [] [] [] []]; reflexivity.
Qed.

(** X9 (cleanText).  A cleaned text has single blanks and no other white
    space, none of it at either end; cleaning changes white space only, and
    leaves a cleaned text as it is. *)
Theorem cleanText_normal_form text :
  normalized (cleanText text) /\
  (forall c, c ∈ cleanText text -> isWhiteSpace c = true -> c = ch " ") /\
  removeAll isWhiteSpace (cleanText text) = removeAll isWhiteSpace text /\
  cleanText (cleanText text) = cleanText text /\
  (forall s, normalized s -> cleanText s = s).
Proof.
  assert (forall s, normalized s -> cleanText s = s) as Hfix.
  { intros s Hs. unfold cleanText, collapse_ws.
    destruct (singleSpaced_fixed s false (singleSpaced_weaken s (proj1 Hs)))
      as (-> & -> & ->).
    by apply normalized_trim. }
  assert (normalized (cleanText text)) as Hn.
  { unfold cleanText, collapse_ws. eapply trim_normalized.
    apply collapse_singleSpaced. }
  split; [done|]. split; [|split; [|split; [by apply Hfix|done]]].
  - intros c Hin Hc. eapply singleSpaced_blank; [apply (proj1 Hn)|done|done].
  - unfold cleanText, collapse_ws.
    by rewrite removeAll_ws_trim, removeAll_ws_collapse, removeAll_ws_blank,
      removeAll_ws_CR.
Qed.

End CleanerFacts.

Module ChunkStoreFacts.
Import JS Regex JSFacts Manual ChunkStore EvidenceFacts.

(** ** The order of strings *)

Lemma code_inj c d : code c = code d -> c = d.
Proof.
  unfold code. intros H.
  by rewrite <- (ascii_N_embedding c), <- (ascii_N_embedding d), H.
Qed.

Lemma str_leb_refl a : str_leb a a = true.
Proof.
  induction a as [|c a IH]; simpl; [done|].
  by rewrite N.ltb_irrefl.
Qed.

Lemma str_leb_total a : forall b, str_leb a b = false -> str_leb b a = true.
Proof.
  induction a as [|c a IH]; intros [|d b]; simpl; try done.
  destruct (N.ltb_spec (code c) (code d)); [done|].
  destruct (N.ltb_spec (code d) (code c)); [done|].
  apply IH.
Qed.

#[local] Instance str_le_trans : Transitive str_le.
Proof.
  unfold str_le. intros a. induction a as [|c a IH]; intros [|d b] [|e x];
    simpl; try done.
  destruct (N.ltb_spec (code c) (code d)), (N.ltb_spec (code d) (code e)),
    (N.ltb_spec (code c) (code e)), (N.ltb_spec (code d) (code c)),
    (N.ltb_spec (code e) (code d)), (N.ltb_spec (code e) (code c));
    try done; try lia.
  apply IH.
Qed.

#[local] Instance str_le_antisymm : AntiSymm eq str_le.
Proof.
  unfold str_le. intros a. induction a as [|c a IH]; intros [|d b];
    simpl; try done.
  destruct (N.ltb_spec (code c) (code d)), (N.ltb_spec (code d) (code c));
    try done; try lia.
  intros H1 H2. f_equal; [apply code_inj; lia|by apply IH].
Qed.

(** ** [sort] *)

Lemma insert_sorted_Permutation x l : insert_sorted x l ≡ₚ x :: l.
Proof.
  induction l as [|y l IH]; simpl; [done|].
  destruct (str_leb x y); [done|]. rewrite IH. apply Permutation_swap.
Qed.

Lemma sort_Permutation l : sort l ≡ₚ l.
Proof.
  induction l as [|x l IH]; simpl; [done|].
  by rewrite insert_sorted_Permutation, IH.
Qed.

Lemma insert_sorted_Sorted x l :
  Sorted str_le l -> Sorted str_le (insert_sorted x l).
Proof.
  induction 1 as [|y l Hl IH Hy]; simpl.
  - by repeat constructor.
  - destruct (str_leb x y) eqn:Hxy.
    + constructor; [by constructor|]. by constructor.
    + constructor; [done|].
      apply str_leb_total in Hxy.
      destruct Hy as [|z l Hz]; simpl.
      * by constructor.
      * destruct (str_leb x z); by constructor.
Qed.

Lemma sort_Sorted l : Sorted str_le (sort l).
Proof.
  induction l as [|x l IH]; simpl; [constructor|].
  by apply insert_sorted_Sorted.
Qed.

(** ** [loadChunks] *)

Lemma loadChunks_files (dir : gmap jsstring jsstring) :
  map file (loadChunks (Some dir)) =
  sort (List.filter isChunkFile (map_to_list dir).*1).
Proof.
  unfold loadChunks. rewrite map_map. simpl. apply map_id.
Qed.

Lemma loadChunks_file_elem (dir : gmap jsstring jsstring) f :
  f ∈ map file (loadChunks (Some dir)) <->
  is_Some (dir !! f) /\ isChunkFile f = true.
Proof.
  rewrite loadChunks_files, elem_of_sort, list_elem_of_In, filter_In.
  rewrite <- list_elem_of_In.
  assert (f ∈ (map_to_list dir).*1 <-> is_Some (dir !! f)) as ->; [|done].
  rewrite list_elem_of_fmap. split.
  - intros ([f' v] & -> & Hin). apply elem_of_map_to_list in Hin.
    simpl. unfold jsstring in *. by rewrite Hin.
  - intros [v Hv]. exists (f, v). split; [done|].
    by apply elem_of_map_to_list.
Qed.

Lemma loadChunks_NoDup (dir : gmap jsstring jsstring) :
  NoDup (map file (loadChunks (Some dir))).
Proof.
  rewrite loadChunks_files, sort_Permutation.
  apply NoDup_ListNoDup, List.NoDup_filter, NoDup_ListNoDup.
  apply NoDup_fst_map_to_list.
Qed.

Lemma loadChunks_member (dir : gmap jsstring jsstring) c :
  c ∈ loadChunks (Some dir) <->
  dir !! file c = Some (text c) /\ isChunkFile (file c) = true.
Proof.
  split.
  - intros Hc. split; [by apply loadChunks_elem in Hc as [? _]|].
    assert (file c ∈ map file (loadChunks (Some dir))) as Hf
      by (apply list_elem_of_In, in_map, list_elem_of_In; done).
    by apply loadChunks_file_elem in Hf as [_ ?].
  - intros [Hc Hname].
    assert (file c ∈ map file (loadChunks (Some dir))) as Hf
      by (apply loadChunks_file_elem; split; [eauto|done]).
    apply list_elem_of_In, in_map_iff in Hf as (c' & Hfile & Hc').
    apply list_elem_of_In in Hc'.
    pose proof (loadChunks_elem _ _ Hc') as [Hdir _].
    rewrite Hfile, Hc in Hdir. injection Hdir as Htext.
    destruct c, c'. simpl in *. by subst.
Qed.

(** X10 (loadChunks).  [loadChunks] returns no chunk for a directory that
    does not exist.  Otherwise it returns the files of the directory whose
    name starts with [chunk_] and ends with [.txt], each once and with its
    content, in ascending order of the names. *)
Theorem loadChunks_listing :
  loadChunks None = [] /\
  forall dir : gmap jsstring jsstring,
    (forall c, c ∈ loadChunks (Some dir) <->
               dir !! file c = Some (text c) /\ isChunkFile (file c) = true) /\
    NoDup (map file (loadChunks (Some dir))) /\
    Sorted str_le (map file (loadChunks (Some dir))).
Proof.
  split; [done|]. intros dir. split; [|split].
  - intros c. apply loadChunks_member.
  - apply loadChunks_NoDup.
  - rewrite loadChunks_files. apply sort_Sorted.
Qed.

(** The chunks of a directory are determined by the sorted list of its
    chunk files. *)
Lemma loadChunks_unique (dir : gmap jsstring jsstring) names :
  Sorted str_le names -> NoDup names ->
  (forall f, f ∈ names <-> is_Some (dir !! f) /\ isChunkFile f = true) ->
  loadChunks (Some dir) =
  map (fun f => mkChunk f (default [] (dir !! f))) names.
Proof.
  intros Hs Hnd Hel.
  assert (sort (List.filter isChunkFile (map_to_list dir).*1) = names) as Hn.
  { apply (Sorted_unique str_le); [apply sort_Sorted|done|].
    apply NoDup_Permutation; [|done|].
    - rewrite <- loadChunks_files. apply loadChunks_NoDup.
    - intros f. rewrite <- loadChunks_files, loadChunks_file_elem.
      by rewrite Hel. }
  unfold loadChunks. fold isChunkFile.
  change (fun f => endsWith f (str ".txt") && startsWith f (str "chunk_"))
    with isChunkFile.
  by rewrite Hn.
Qed.

(** ** Chunk file names *)

Lemma digitsOf_S fuel n :
  digitsOf (S fuel) n =
  if n <? 10 then [digitChar n]
  else digitsOf fuel (n / 10) ++ [digitChar (n mod 10)].
Proof. reflexivity. Qed.

Lemma digitsOf_enough f1 : forall f2 n,
  0 <= n -> n < 10 ^ Z.of_nat (S f1) -> n < 10 ^ Z.of_nat (S f2) ->
  digitsOf (S f1) n = digitsOf (S f2) n.
Proof.
  induction f1 as [|f1 IH]; intros f2 n H0 H1 H2.
  - change (10 ^ Z.of_nat 1) with 10 in H1. simpl.
    destruct (Z.ltb_spec n 10); [done|lia].
  - rewrite (digitsOf_S (S f1) n), (digitsOf_S f2 n).
    destruct (Z.ltb_spec n 10); [done|].
    destruct f2 as [|f2]; [change (10 ^ Z.of_nat 1) with 10 in H2; lia|].
    rewrite (IH f2); [done| | |].
    + apply Z.div_pos; lia.
    + apply Z.div_lt_upper_bound; [lia|].
      rewrite Nat2Z.inj_succ, Z.pow_succ_r in H1 by lia. lia.
    + apply Z.div_lt_upper_bound; [lia|].
      rewrite Nat2Z.inj_succ, Z.pow_succ_r in H2 by lia. lia.
Qed.

Lemma toString_small n : 0 <= n < 10000 -> toString n = digitsOf 4 n.
Proof.
  intros Hn. unfold toString. apply digitsOf_enough; [lia| |simpl; lia].
  destruct (Z.eq_dec n 0) as [->|]; [simpl; lia|].
  pose proof (Z.log2_spec n ltac:(lia)) as [_ Hlog].
  rewrite Nat2Z.inj_succ, Z2Nat.id by apply Z.log2_nonneg.
  eapply Z.lt_le_trans; [exact Hlog|].
  apply Z.pow_le_mono_l. pose proof (Z.log2_nonneg n). lia.
Qed.

Lemma padded_digits n :
  1 <= n <= 9999 ->
  padStart 4 (ch "0") (toString n) = map digitChar (digits4 n).
Proof.
  intros Hn. rewrite toString_small by lia. unfold digits4, padStart.
  change (ch "0") with (digitChar 0). rewrite !digitsOf_S.
  destruct (Z.ltb_spec n 10), (Z.ltb_spec (n / 10) 10),
    (Z.ltb_spec (n / 10 / 10) 10), (Z.ltb_spec (n / 10 / 10 / 10) 10);
    try (exfalso; Z.to_euclidean_division_equations; lia);
    simpl;
    repeat (f_equal; try (Z.to_euclidean_division_equations; lia)).
Qed.

Lemma chunkName_digits i :
  0 <= i < 9999 ->
  chunkName i = str "chunk_" ++ map digitChar (digits4 (i + 1)) ++ str ".txt".
Proof. intros Hi. unfold chunkName. by rewrite padded_digits by lia. Qed.

Lemma code_digitChar d : 0 <= d <= 9 -> code (digitChar d) = Z.to_N (48 + d).
Proof.
  intros Hd. unfold code, digitChar. apply N_ascii_embedding. lia.
Qed.

Lemma digits4_range n :
  0 <= n <= 9999 -> Forall (fun d => 0 <= d <= 9) (digits4 n).
Proof.
  intros Hn. unfold digits4. repeat constructor;
    Z.to_euclidean_division_equations; lia.
Qed.

Lemma digits4_value n :
  0 <= n ->
  n = 1000 * (n / 1000) + 100 * (n / 100 mod 10) + 10 * (n / 10 mod 10) +
      n mod 10.
Proof. intros Hn. Z.to_euclidean_division_equations. lia. Qed.

(** Names of chunks are in the order of their indices, up to index 9998. *)
Lemma chunkName_order i j :
  0 <= i -> i < j -> j < 9999 ->
  str_le (chunkName i) (chunkName j) /\ chunkName i <> chunkName j.
Proof.
  intros Hi Hij Hj. rewrite !chunkName_digits by lia.
  pose proof (digits4_range (i + 1) ltac:(lia)) as Ri.
  pose proof (digits4_range (j + 1) ltac:(lia)) as Rj.
  pose proof (digits4_value (i + 1) ltac:(lia)) as Vi.
  pose proof (digits4_value (j + 1) ltac:(lia)) as Vj.
  unfold digits4 in *.
  set (a := (i + 1) / 1000) in *. set (b := (i + 1) / 100 mod 10) in *.
  set (c := (i + 1) / 10 mod 10) in *. set (d := (i + 1) mod 10) in *.
  set (a' := (j + 1) / 1000) in *. set (b' := (j + 1) / 100 mod 10) in *.
  set (c' := (j + 1) / 10 mod 10) in *. set (d' := (j + 1) mod 10) in *.
  clearbody a b c d a' b' c' d'.
  inversion Ri as [|? ? Ha Ri1]; subst. inversion Ri1 as [|? ? Hb Ri2]; subst.
  inversion Ri2 as [|? ? Hc Ri3]; subst. inversion Ri3 as [|? ? Hd _]; subst.
  inversion Rj as [|? ? Ha' Rj1]; subst. inversion Rj1 as [|? ? Hb' Rj2]; subst.
  inversion Rj2 as [|? ? Hc' Rj3]; subst. inversion Rj3 as [|? ? Hd' _]; subst.
  split.
  - unfold str_le. cbn [app map str list_ascii_of_string str_leb].
    change (code "c" <? code "c")%N with false.
    change (code "h" <? code "h")%N with false.
    change (code "u" <? code "u")%N with false.
    change (code "n" <? code "n")%N with false.
    change (code "k" <? code "k")%N with false.
    change (code "_" <? code "_")%N with false.
    cbv iota. rewrite !code_digitChar by done.
    repeat match goal with
           | |- context [(?x <? ?y)%N] => destruct (N.ltb_spec x y); try done
           end; try lia.
  - intros Heq. cbn [app map str list_ascii_of_string] in Heq.
    injection Heq as H1 H2 H3 H4.
    apply (f_equal code) in H1, H2, H3, H4.
    rewrite !code_digitChar in H1, H2, H3, H4 by done. lia.
Qed.

Lemma startsWith_app a b : startsWith (a ++ b) a = true.
Proof.
  induction a as [|c a IH]; simpl; [by destruct b|].
  by rewrite Ascii.eqb_refl.
Qed.

Lemma isChunkFile_chunkName i : isChunkFile (chunkName i) = true.
Proof.
  unfold isChunkFile, chunkName. apply andb_true_iff. split.
  - unfold endsWith. rewrite app_assoc, rev_app_distr. apply startsWith_app.
  - apply startsWith_app.
Qed.

Lemma chunkNames_Sorted n :
  Z.of_nat n <= 9999 -> Sorted str_le (chunkNames n) /\ NoDup (chunkNames n).
Proof.
  intros Hn. unfold chunkNames.
  assert (forall s, Z.of_nat (s + n) <= 9999 ->
            StronglySorted str_le (map (fun i => chunkName (Z.of_nat i)) (seq s n)) /\
            NoDup (map (fun i => chunkName (Z.of_nat i)) (seq s n))) as H.
  { clear Hn. induction n as [|n IH]; intros s Hs; simpl.
    - split; constructor.
    - destruct (IH (S s) ltac:(lia)) as [IH1 IH2]. split.
      + constructor; [done|]. rewrite Forall_forall. intros f Hf.
        apply list_elem_of_In, in_map_iff in Hf as (j & <- & Hj).
        apply in_seq in Hj. apply chunkName_order; lia.
      + constructor; [|done]. intros Hf.
        apply list_elem_of_In, in_map_iff in Hf as (j & Heq & Hj).
        apply in_seq in Hj.
        destruct (chunkName_order (Z.of_nat s) (Z.of_nat j)) as [_ Hne];
          [lia..|]. by rewrite Heq in Hne. }
  destruct (H 0%nat ltac:(lia)) as [H1 H2].
  split; [by apply StronglySorted_Sorted|done].
Qed.

(** ** [saveChunks] *)

Section SaveFacts.
Context {Meta : Type} (writeJson : Index Meta -> jsstring).

Lemma writeChunks_other chunks : forall i dir entries f,
  (forall j, (j < length chunks)%nat -> f <> chunkName (i + Z.of_nat j)) ->
  (writeChunks i chunks dir entries).1 !! f = dir !! f.
Proof.
  induction chunks as [|c chunks IH]; intros i dir entries f Hf; simpl; [done|].
  rewrite IH.
  - apply lookup_insert_ne. specialize (Hf 0%nat ltac:(simpl; lia)).
    rewrite Z.add_0_r in Hf. done.
  - intros j Hj. specialize (Hf (S j) ltac:(simpl; lia)).
    by replace (i + 1 + Z.of_nat j) with (i + Z.of_nat (S j)) by lia.
Qed.

Lemma writeChunks_written chunks : forall i dir entries j c,
  NoDup (map (fun j => chunkName (i + Z.of_nat j)) (seq 0 (length chunks))) ->
  chunks !! j = Some c ->
  (writeChunks i chunks dir entries).1 !! chunkName (i + Z.of_nat j) =
  Some (Chunker.text c).
Proof.
  induction chunks as [|c0 chunks IH]; intros i dir entries j c Hnd Hj;
    [done|].
  cbn [writeChunks length seq map] in *. apply NoDup_cons in Hnd as [Hhd Hnd].
  rewrite <- seq_shift, map_map in Hhd, Hnd.
  assert (forall k, i + Z.of_nat (S k) = i + 1 + Z.of_nat k) as Hshift
    by (intros; lia).
  destruct j as [|j].
  - injection Hj as <-. rewrite writeChunks_other.
    + rewrite Z.add_0_r. apply lookup_insert_eq.
    + intros k Hk Heq. apply Hhd. rewrite Z.add_0_r in *.
      apply list_elem_of_In, in_map_iff. exists k.
      rewrite Hshift. split; [done|]. apply in_seq. lia.
  - rewrite Hshift. apply IH; [|done].
    erewrite map_ext; [exact Hnd|]. intros k. simpl. by rewrite Hshift.
Qed.

Lemma saveChunks_count dir chunks meta :
  (saveChunks writeJson dir chunks meta).2 = Z.of_nat (length chunks).
Proof. unfold saveChunks. by destruct (writeChunks _ _ _ _). Qed.

Lemma saveChunks_lookup dir chunks meta f :
  f <> str "index.json" ->
  (saveChunks writeJson dir chunks meta).1 !! f =
  (writeChunks 0 chunks (default ∅ dir) []).1 !! f.
Proof.
  intros Hf. unfold saveChunks. destruct (writeChunks _ _ _ _) as [d e].
  simpl. by apply lookup_insert_ne.
Qed.

Lemma index_not_chunk : isChunkFile (str "index.json") = false.
Proof. reflexivity. Qed.

Lemma chunkNames_elem f n :
  f ∈ chunkNames n <-> exists j, (j < n)%nat /\ f = chunkName (Z.of_nat j).
Proof.
  unfold chunkNames. rewrite list_elem_of_In, in_map_iff. split.
  - intros (j & <- & Hj). apply in_seq in Hj. exists j. split; [lia|done].
  - intros (j & Hj & ->). exists j. split; [done|]. apply in_seq. lia.
Qed.

Lemma saveChunks_written dir chunks meta j c :
  Z.of_nat (length chunks) <= 9999 ->
  chunks !! j = Some c ->
  (saveChunks writeJson dir chunks meta).1 !! chunkName (Z.of_nat j) =
  Some (Chunker.text c).
Proof.
  intros Hn Hj.
  destruct (chunkNames_Sorted (length chunks) Hn) as [_ Hnd].
  rewrite saveChunks_lookup.
  - apply (writeChunks_written chunks 0 _ [] j c); [|done].
    simpl. exact Hnd.
  - intros Heq. pose proof (isChunkFile_chunkName (Z.of_nat j)) as Hc.
    by rewrite Heq in Hc.
Qed.

(** The chunk files of the directory after [saveChunks], when it held
    none before. *)
Lemma saveChunks_files dir chunks meta f :
  (forall f, isChunkFile f = true -> default ∅ dir !! f = None) ->
  Z.of_nat (length chunks) <= 9999 ->
  f ∈ chunkNames (length chunks) <->
  is_Some ((saveChunks writeJson dir chunks meta).1 !! f) /\
  isChunkFile f = true.
Proof.
  intros Hfresh Hn. rewrite chunkNames_elem. split.
  - intros (j & Hj & ->). split; [|apply isChunkFile_chunkName].
    destruct (lookup_lt_is_Some_2 chunks j Hj) as [c Hc].
    rewrite (saveChunks_written dir chunks meta j c Hn Hc). eauto.
  - intros [[t Ht] Hc].
    destruct (decide (f ∈ chunkNames (length chunks))) as [Hin|Hno];
      [by apply chunkNames_elem|].
    exfalso. rewrite saveChunks_lookup in Ht
      by (intros ->; by rewrite index_not_chunk in Hc).
    rewrite writeChunks_other in Ht.
    + by rewrite (Hfresh f Hc) in Ht.
    + intros j Hj ->. apply Hno, chunkNames_elem. exists j. done.
Qed.

Lemma saveChunks_listing dir chunks meta :
  (forall f, isChunkFile f = true -> default ∅ dir !! f = None) ->
  Z.of_nat (length chunks) <= 9999 ->
  loadChunks (Some (saveChunks writeJson dir chunks meta).1) =
  map (fun f =>
         mkChunk f (default [] ((saveChunks writeJson dir chunks meta).1 !! f)))
      (chunkNames (length chunks)).
Proof.
  intros Hfresh Hn.
  destruct (chunkNames_Sorted (length chunks) Hn) as [Hs Hnd].
  apply (loadChunks_unique _ (chunkNames (length chunks)) Hs Hnd).
  intros f. by apply saveChunks_files.
Qed.

(** X11 (saveChunks, then loadChunks).  When the chunk directory holds no
    chunk file beforehand and there are at most 9999 chunks, the extractor
    reads back exactly the texts that the chunker wrote, in their order,
    from the files chunk_0001.txt, chunk_0002.txt and so on; the index
    file is not taken for a chunk. *)
Theorem saveChunks_loadChunks dir chunks meta :
  (forall f, isChunkFile f = true -> default ∅ dir !! f = None) ->
  Z.of_nat (length chunks) <= 9999 ->
  (saveChunks writeJson dir chunks meta).2 = Z.of_nat (length chunks) /\
  loadChunks (Some (saveChunks writeJson dir chunks meta).1) =
  imap (fun i c => mkChunk (chunkName (Z.of_nat i)) (Chunker.text c)) chunks.
Proof.
  intros Hfresh Hn. split; [apply saveChunks_count|].
  rewrite saveChunks_listing by done.
  unfold chunkNames. rewrite map_map.
  apply list_eq. intros j. rewrite list_lookup_imap.
  change (map ?f ?l) with (f <$> l). rewrite list_lookup_fmap.
  destruct (chunks !! j) as [c|] eqn:Hj; simpl.
  - pose proof (lookup_lt_Some _ _ _ Hj) as Hlt.
    rewrite lookup_seq_lt by done. simpl.
    pose proof (saveChunks_written dir chunks meta j c Hn Hj) as Hw.
    unfold jsstring in *. by rewrite Hw.
  - apply lookup_ge_None in Hj.
    by rewrite lookup_seq_ge by done.
Qed.

(** X12 (stale chunk files).  [saveChunks] does not clear the directory: a
    chunk file that was there before, under a name that is not written
    again, is read by [loadChunks] as a chunk of the new document. *)
Theorem stale_chunk_is_loaded (dir : gmap jsstring jsstring) chunks meta f t :
  dir !! f = Some t -> isChunkFile f = true ->
  (forall j, (j < length chunks)%nat -> f <> chunkName (Z.of_nat j)) ->
  mkChunk f t ∈ loadChunks (Some (saveChunks writeJson (Some dir) chunks meta).1).
Proof.
  intros Hf Hc Hne. apply loadChunks_member. simpl. split; [|done].
  rewrite saveChunks_lookup by (intros ->; by rewrite index_not_chunk in Hc).
  rewrite writeChunks_other; [done|]. intros j Hj. simpl. by apply Hne.
Qed.

End SaveFacts.

Lemma saveChunks_loadChunks_witness :
  loadChunks
    (Some (saveChunks (fun _ : Index unit => str "{}") None
             [Chunker.mkChunk 0 3 (str "abc"); Chunker.mkChunk 2 4 (str "cd")]
             tt).1) =
  [mkChunk (str "chunk_0001.txt") (str "abc");
   mkChunk (str "chunk_0002.txt") (str "cd")].
Proof.
  destruct (saveChunks_loadChunks (fun _ : Index unit => str "{}") None
              [Chunker.mkChunk 0 3 (str "abc"); Chunker.mkChunk 2 4 (str "cd")]
              tt) as [_ H].
  - intros f _. apply lookup_empty.
  - simpl. lia.
  - rewrite H. vm_compute. reflexivity.
Defined.

Lemma stale_chunk_is_loaded_witness :
  mkChunk (str "chunk_0002.txt") (str "old") ∈
  loadChunks
    (Some (saveChunks (fun _ : Index unit => str "{}")
             (Some {[ str "chunk_0002.txt" := str "old" ]})
             [Chunker.mkChunk 0 3 (str "new")] tt).1).
Proof.
  apply (stale_chunk_is_loaded (fun _ : Index unit => str "{}")).
  - apply lookup_singleton_eq.
  - reflexivity.
  - intros j Hj. destruct j as [|j]; [vm_compute; discriminate|].
    simpl in Hj. lia.
Defined.

End ChunkStoreFacts.

Module EvidenceShapeFacts.
Import JS Regex Manual JSFacts RegexFacts RegexSem RegexSemFacts.
Import EvidenceFacts CleanerFacts EvidenceShape.

(** ** Invariants of evidence objects *)

Lemma len_slice_200 (s : jsstring) : len (slice s 0 200) <= 200.
Proof.
  rewrite slice_take by lia. unfold len. rewrite length_take. lia.
Qed.

Lemma firstChunkEvidence_wellFormed chunks manifest :
  wellFormed manifest (firstChunkEvidence chunks manifest).
Proof.
  unfold wellFormed, firstChunkEvidence. cbn [field selector sourceFile
    sourceUrl snippet]. repeat split. apply len_slice_200.
Qed.

Lemma exactMatch_wellFormed re norm chunks manifest ev :
  exactMatch re norm chunks manifest = Some ev -> wellFormed manifest ev.
Proof.
  induction chunks as [|chunk chunks IH]; cbn [exactMatch]; [done|].
  destruct (exec true re (text chunk)); [|done].
  intros [= <-]. repeat split. apply len_slice_200.
Qed.

Lemma fuzzyMatch_wellFormed words chunks manifest ev :
  fuzzyMatch words chunks manifest = Some (Some ev) -> wellFormed manifest ev.
Proof.
  induction chunks as [|chunk chunks IH]; cbn [fuzzyMatch]; [done|].
  destruct (threshold words <=? _); [|done].
  destruct (match List.find _ words with Some _ => _ | None => _ end); [|done].
  intros [= <-]. repeat split. apply len_slice_200.
Qed.

(** X13 (findEvidence, shape of the result).  [findEvidence] always returns
    an evidence object; its selector is ["chunk:"] followed by its source
    file, its URL is the manifest's primary URL, its field is not set, and
    its snippet has at most 200 characters. *)
Theorem findEvidence_well_formed searchText chunks manifest :
  exists ev,
    findEvidence searchText chunks manifest = Some ev /\
    wellFormed manifest ev.
Proof.
  destruct (findEvidence_total searchText chunks manifest) as [ev Hev].
  exists ev. split; [done|].
  destruct searchText as [[|c s]|]; cbn [findEvidence] in Hev.
  - injection Hev as <-. apply firstChunkEvidence_wellFormed.
  - destruct (suspicious _).
    + injection Hev as <-. repeat split. vm_compute. discriminate.
    + unfold searchEvidence, replace_ws in Hev.
      rewrite RegExp_literal in Hev. cbn [mbind option_bind] in Hev.
      destruct (exactMatch _ _ chunks manifest) as [ev'|] eqn:Hex.
      * injection Hev as <-. by eapply exactMatch_wellFormed.
      * destruct (fuzzyMatch _ chunks manifest) as [[ev'|]|] eqn:Hfz;
          cbn [mbind option_bind] in Hev; [| |done].
        -- injection Hev as <-. by eapply fuzzyMatch_wellFormed.
        -- injection Hev as <-. apply firstChunkEvidence_wellFormed.
  - injection Hev as <-. apply firstChunkEvidence_wellFormed.
Qed.

(** ** The exact tier on candidates without white space *)

Lemma isWhiteSpace_upper c : isWhiteSpace (toUpperChar c) = isWhiteSpace c.
Proof. destruct c as [[] [] [] [] [] [] [] []]; reflexivity. Qed.

Lemma ci_eq_length w s : ci_eq w s -> length w = length s.
Proof.
  unfold ci_eq. intros H. apply (f_equal length) in H.
  by rewrite !length_map in H.
Qed.

Lemma ci_eq_clean w s :
  ci_eq w s -> Forall (fun c => isWhiteSpace c = false) s ->
  Forall (fun c => isWhiteSpace c = false) w.
Proof.
  unfold ci_eq. revert s. induction w as [|c w IH]; intros [|d s] H Hs;
    try done. simpl in H. injection H as Hc Hw.
  inversion Hs as [|? ? Hd Hs']; subst. constructor; [|by eapply IH].
  by rewrite <- isWhiteSpace_upper, Hc, isWhiteSpace_upper.
Qed.

Lemma token_trim s : token s -> trim s = s.
Proof.
  intros [Hne Hs]. destruct s as [|c s]; [done|].
  inversion Hs as [|? ? Hc Hs']; subst.
  apply (MoneyFacts.trim_id _ c s); [done|done|].
  unfold endsClean. destruct (last (c :: s)) as [d|] eqn:Hl; [|done].
  apply last_Some_elem_of in Hl. rewrite Forall_forall in Hs. by apply Hs.
Qed.

Lemma split_ws_token s cur :
  Forall (fun c => isWhiteSpace c = false) s ->
  split_ws_aux s cur false = [cur ++ s].
Proof.
  revert cur. induction s as [|c s IH]; intros cur Hs; simpl.
  - by rewrite app_nil_r.
  - inversion Hs as [|? ? Hc Hs']; subst. rewrite Hc, IH by done.
    by rewrite <- app_assoc.
Qed.

Lemma token_not_suspicious s : token s -> suspicious s = false.
Proof.
  intros [_ Hs]. unfold suspicious, split_ws.
  rewrite split_ws_token by done. simpl. apply andb_false_r.
Qed.

Lemma canon_eq c d :
  char_eqb (canon true c) (canon true d) = true <->
  toUpperChar d = toUpperChar c.
Proof. unfold canon. rewrite char_eqb_eq. split; congruence. Qed.

(** The pattern of a candidate without white space matches the candidate
    up to case, and nothing else. *)
Lemma Matches_literal s : forall b w a,
  Forall (fun c => isWhiteSpace c = false) s ->
  Matches true (literalPattern s false) b w a <-> ci_eq w s.
Proof.
  unfold ci_eq. induction s as [|c s IH]; intros b w a Hs; cbn [literalPattern].
  - rewrite Matches_Eps. split; [by intros ->|]. by destruct w.
  - inversion Hs as [|? ? Hc Hs']; subst. rewrite Hc.
    rewrite Matches_Seq. split.
    + intros (w1 & w2 & -> & H1 & H2).
      apply Matches_Chr in H1 as (d & -> & Hd). apply canon_eq in Hd.
      apply IH in H2; [|done]. simpl. by rewrite Hd, H2.
    + destruct w as [|d w]; [done|]. simpl. intros [= Hd Hw].
      exists [d], w. split; [done|]. split.
      * apply Matches_Chr. exists d. split; [done|]. by apply canon_eq.
      * by apply IH.
Qed.

Lemma occurs_literal s t :
  Forall (fun c => isWhiteSpace c = false) s ->
  occurs true (literalPattern s false) t <-> ciOccurs s t.
Proof.
  intros Hs. unfold occurs, ciOccurs. split.
  - intros (pre & w & post & -> & H). apply Matches_literal in H; eauto.
  - intros (pre & w & post & -> & H). exists pre, w, post. split; [done|].
    by apply Matches_literal.
Qed.

Lemma trimStart_keeps (A tl : jsstring) c :
  isWhiteSpace c = false ->
  exists A', (length A' <= length A)%nat /\
             trimStart (A ++ c :: tl) = A' ++ c :: tl.
Proof.
  intros Hc. induction A as [|d A (A' & Hlen & IH)]; simpl.
  - exists []. by rewrite Hc.
  - destruct (isWhiteSpace d).
    + exists A'. split; [lia|done].
    + exists (d :: A). done.
Qed.

Lemma trimEnd_keeps (hd P : jsstring) c :
  isWhiteSpace c = false ->
  exists P', trimEnd (hd ++ c :: P) = hd ++ c :: P'.
Proof.
  intros Hc. unfold trimEnd.
  rewrite rev_app_distr. simpl. rewrite <- app_assoc. simpl.
  destruct (trimStart_keeps (rev P) (rev hd) c Hc) as (A' & _ & ->).
  exists (rev A'). rewrite rev_app_distr. simpl.
  by rewrite rev_involutive, <- app_assoc.
Qed.

(** The snippet around a match of at most 120 characters contains the
    match. *)
Lemma snippet_contains (pre w post : jsstring) c d w' :
  w = c :: w' -> last w = Some d ->
  isWhiteSpace c = false -> isWhiteSpace d = false ->
  len w <= 120 ->
  substring_of w
    (slice (trim (slice (pre ++ w ++ post)
                    (Z.max 0 (len pre - 80))
                    (Z.min (len (pre ++ w ++ post)) (len pre + len w + 80))))
           0 200).
Proof.
  intros Hw Hlast Hc Hd Hlen.
  set (a := Z.max 0 (len pre - 80)).
  set (b := Z.min (len (pre ++ w ++ post)) (len pre + len w + 80)).
  assert (0 <= a <= len pre) as Ha by (subst a; unfold len; lia).
  assert (len pre + len w <= b) as Hb.
  { subst b. unfold len. rewrite !length_app. lia. }
  pose proof (len_nonneg w) as Hw0'.
  rewrite (slice_Z _ a b) by lia.
  rewrite drop_app_le by (unfold len in Ha; lia).
  set (A := drop (Z.to_nat a) pre).
  assert (length A <= 80)%nat as HA.
  { subst A a. rewrite length_drop. unfold len. lia. }
  assert (Z.to_nat b - Z.to_nat a = length A + (length w + (Z.to_nat b - Z.to_nat a - length A - length w)))%nat as ->.
  { subst A. rewrite length_drop. unfold len in *. lia. }
  rewrite take_app_add', take_app_add' by done.
  set (P := take _ post).
  (* trimming keeps the match *)
  unfold trim. rewrite Hw.
  change ((c :: w') ++ P) with (c :: w' ++ P).
  destruct (trimStart_keeps A (w' ++ P) c Hc) as (A' & HA' & ->).
  apply last_Some in Hlast as [w0 Hw0].
  assert (A' ++ c :: w' ++ P = (A' ++ w0) ++ d :: P) as ->.
  { rewrite <- app_assoc. f_equal.
    change (c :: w' ++ P) with ((c :: w') ++ P). rewrite <- Hw, Hw0.
    by rewrite <- app_assoc. }
  destruct (trimEnd_keeps (A' ++ w0) P d Hd) as (P' & ->).
  rewrite slice_take by lia.
  assert ((A' ++ w0) ++ d :: P' = A' ++ w ++ P') as ->.
  { rewrite Hw0, <- !app_assoc. done. }
  exists A', (take (Z.to_nat 200 - length A' - length w) P').
  rewrite app_assoc, take_app_ge; rewrite length_app.
  - rewrite <- app_assoc, Hw. do 3 f_equal. lia.
  - unfold len in Hlen. lia.
Qed.

Lemma exactMatch_skip re norm l1 chunks manifest :
  Forall (fun c => exec true re (text c) = None) l1 ->
  exactMatch re norm (l1 ++ chunks) manifest =
  exactMatch re norm chunks manifest.
Proof.
  induction 1 as [|c l1 Hc _ IH]; [done|]. cbn [app exactMatch].
  by rewrite Hc.
Qed.

(** X14 (findEvidence, exact tier).  For a candidate without white space,
    the evidence object cites the first chunk whose text contains the
    candidate up to the case of letters; when the candidate has at most 120
    characters, the snippet shows that occurrence. *)
Theorem findEvidence_exact_tier s l1 chunk l2 manifest :
  token s ->
  Forall (fun c => ~ ciOccurs s (text c)) l1 ->
  ciOccurs s (text chunk) ->
  exists ev,
    findEvidence (Some s) (l1 ++ chunk :: l2) manifest = Some ev /\
    sourceFile ev = file chunk /\
    (len s <= 120 ->
     exists w, ci_eq w s /\ substring_of w (snippet ev)).
Proof.
  intros Htok Hl1 Hocc. pose proof Htok as [Hne Hs].
  destruct s as [|c0 s0] eqn:Es; [done|]. rewrite <- Es in *.
  assert (findEvidence (Some s) (l1 ++ chunk :: l2) manifest =
          searchEvidence s (l1 ++ chunk :: l2) manifest) as ->.
  { rewrite Es. cbn [findEvidence]. rewrite <- Es.
    by rewrite token_trim, token_not_suspicious. }
  unfold searchEvidence, replace_ws. rewrite RegExp_literal.
  cbn [mbind option_bind].
  rewrite exactMatch_skip.
  2:{ eapply Forall_impl; [exact Hl1|]. intros c Hc. cbv beta in Hc.
      apply exec_None. by rewrite occurs_literal. }
  cbn [exactMatch].
  destruct (exec true (literalPattern s false) (text chunk)) as [m|] eqn:Hm.
  2:{ apply exec_None in Hm. by rewrite occurs_literal in Hm. }
  eexists. split; [reflexivity|]. cbn [sourceFile snippet]. split; [done|].
  intros Hlen.
  apply exec_Matches in Hm as (pre & post & Htext & Hidx & HM & _).
  apply Matches_literal in HM; [|done].
  exists (matched m). split; [done|].
  pose proof (ci_eq_length _ _ HM) as Hl.
  pose proof (ci_eq_clean _ _ HM Hs) as Hclean.
  destruct (matched m) as [|c w'] eqn:Hw; [rewrite Es in Hl; done|].
  rewrite <- Hw in *.
  destruct (last (matched m)) as [d|] eqn:Hlast;
    [|apply last_None in Hlast; by rewrite Hw in Hlast].
  assert ((len (matched m) =? 0) = false) as ->.
  { apply Z.eqb_neq. unfold len. rewrite Hw. simpl. lia. }
  rewrite Hidx, Htext. fold (len pre).
  rewrite Forall_forall in Hclean.
  eapply snippet_contains; [exact Hw|exact Hlast| | |].
  - apply Hclean. rewrite Hw. left.
  - apply Hclean. by apply last_Some_elem_of in Hlast.
  - unfold len in *. lia.
Qed.

Lemma findEvidence_exact_tier_witness :
  exists ev,
    findEvidence (Some (str "0001178670-23-000042"))
      [mkChunk (str "chunk_0001.txt") (str "FORM 8-K");
       mkChunk (str "chunk_0002.txt")
               (str "Accession 0001178670-23-000042 filed")]
      (mkManifest None) = Some ev /\
    sourceFile ev = str "chunk_0002.txt".
Proof.
  destruct (findEvidence_exact_tier (str "0001178670-23-000042")
              [mkChunk (str "chunk_0001.txt") (str "FORM 8-K")]
              (mkChunk (str "chunk_0002.txt")
                       (str "Accession 0001178670-23-000042 filed"))
              [] (mkManifest None)) as (ev & Hev & Hfile & _).
  - split; [done|]. vm_compute. repeat constructor.
  - constructor; [|constructor]. intros (pre & w & post & Heq & Hw).
    apply ci_eq_length in Hw. cbn [text] in Heq.
    apply (f_equal length) in Heq. rewrite !length_app, Hw in Heq.
    change (length (str "FORM 8-K")) with 8%nat in Heq.
    change (length (str "0001178670-23-000042")) with 20%nat in Heq. lia.
  - exists (str "Accession "), (str "0001178670-23-000042"), (str " filed").
    split; reflexivity.
  - exists ev. split; [exact Hev|exact Hfile].
Defined.


(** ** The section label *)

Lemma upper_is_equals d : toUpperChar d = ch "=" -> d = ch "=".
Proof.
  destruct d as [[] [] [] [] [] [] [] []]; vm_compute; congruence.
Qed.

Lemma ci_eq_marker w : ci_eq w (str "===") -> w = str "===".
Proof.
  unfold ci_eq. destruct w as [|a [|b [|c [|? ?]]]]; try done.
  simpl. intros [= Ha Hb Hc].
  by rewrite (upper_is_equals a Ha), (upper_is_equals b Hb),
    (upper_is_equals c Hc).
Qed.

(** A match of the section pattern is a marker [=== ... ===]. *)
Lemma Matches_section b w a :
  Matches true re_section b w a ->
  exists mid, w = str "===" ++ mid ++ str "===".
Proof.
  unfold re_section. cbn [seqs]. intros H.
  apply Matches_Seq in H as (w1 & r1 & -> & H1 & H).
  apply Matches_lit_chars, ci_eq_marker in H1 as ->.
  apply Matches_Seq in H as (w2 & r2 & -> & _ & H).
  apply Matches_Seq in H as (w3 & r3 & -> & _ & H).
  apply Matches_Seq in H as (w4 & r4 & -> & _ & H).
  apply Matches_Seq in H as (w5 & r5 & -> & _ & H).
  apply Matches_Seq in H as (w6 & w7 & -> & _ & H).
  apply Matches_lit_chars, ci_eq_marker in H as ->.
  exists (w2 ++ w3 ++ w4 ++ w5 ++ w6). by rewrite <- !app_assoc.
Qed.

Lemma sectionOf_marker before :
  sectionOf before = [] \/
  exists mid,
    sectionOf before = str "===" ++ mid ++ str "===" /\
    substring_of (sectionOf before) before.
Proof.
  unfold sectionOf.
  destruct (last (matchAll true re_section before)) as [m|] eqn:Hl;
    [|by left].
  right. apply last_Some_elem_of, matchAll_Matches in Hl
    as (pre & post & Hb & HM).
  apply Matches_section in HM as [mid Hw]. exists mid.
  assert (trim (matched m) = matched m) as ->.
  { rewrite Hw.
    apply (MoneyFacts.trim_id _ (ch "=") (str "==" ++ mid ++ str "==="));
      [reflexivity|reflexivity|].
    apply MoneyFacts.endsClean_app; [by destruct mid|].
    apply MoneyFacts.endsClean_app; [discriminate|reflexivity]. }
  split; [done|]. by exists pre, post.
Qed.

Lemma exactMatch_section re norm chunks manifest ev :
  exactMatch re norm chunks manifest = Some ev ->
  exists c, c ∈ chunks /\ sourceFile ev = file c /\
    (sourceSection ev = [] \/
     exists mid, sourceSection ev = str "===" ++ mid ++ str "===" /\
                 substring_of (sourceSection ev) (text c)).
Proof.
  induction chunks as [|chunk chunks IH]; cbn [exactMatch]; [done|].
  destruct (exec true re (text chunk)) as [m|].
  - intros [= <-]. exists chunk. split; [left|]. split; [done|].
    cbn [sourceSection].
    destruct (sectionOf_marker (slice (text chunk) 0 (Z.of_nat (index m))))
      as [->|(mid & Hs & Hsub)]; [by left|].
    right. exists mid. split; [done|].
    eapply substring_of_trans; [exact Hsub|apply slice_substring].
  - intros H. destruct (IH H) as (c & Hc & ?). exists c.
    split; [by right|done].
Qed.

Lemma fuzzyMatch_section words chunks manifest ev :
  fuzzyMatch words chunks manifest = Some (Some ev) ->
  exists c, c ∈ chunks /\ sourceFile ev = file c /\
    (sourceSection ev = [] \/
     exists mid, sourceSection ev = str "===" ++ mid ++ str "===" /\
                 substring_of (sourceSection ev) (text c)).
Proof.
  induction chunks as [|chunk chunks IH]; cbn [fuzzyMatch]; [done|].
  destruct (threshold words <=? _).
  - destruct (match List.find _ words with Some _ => _ | None => _ end)
      as [needle|]; [|done].
    intros [= <-]. exists chunk. split; [left|]. split; [done|].
    cbn [sourceSection].
    match goal with
    | |- sectionOf ?b = [] \/ _ =>
        destruct (sectionOf_marker b) as [->|(mid & Hs & Hsub)]; [by left|]
    end.
    right. exists mid. split; [done|].
    eapply substring_of_trans; [exact Hsub|apply slice_substring].
  - intros H. destruct (IH H) as (c & Hc & ?). exists c.
    split; [by right|done].
Qed.

(** X15 (findEvidence, section label).  The section of an evidence object is
    empty, or it is a section marker [=== ... ===] copied from the text of
    the chunk that the object cites. *)
Theorem findEvidence_section searchText chunks manifest :
  exists ev,
    findEvidence searchText chunks manifest = Some ev /\
    (sourceSection ev = [] \/
     exists c mid,
       c ∈ chunks /\ sourceFile ev = file c /\
       sourceSection ev = str "===" ++ mid ++ str "===" /\
       substring_of (sourceSection ev) (text c)).
Proof.
  destruct (findEvidence_total searchText chunks manifest) as [ev Hev].
  exists ev. split; [done|].
  destruct searchText as [[|c s]|]; cbn [findEvidence] in Hev.
  - injection Hev as <-. by left.
  - destruct (suspicious _).
    + injection Hev as <-. by left.
    + unfold searchEvidence, replace_ws in Hev.
      rewrite RegExp_literal in Hev. cbn [mbind option_bind] in Hev.
      destruct (exactMatch _ _ chunks manifest) as [ev'|] eqn:Hex.
      * injection Hev as <-.
        apply exactMatch_section in Hex as (c' & Hc & Hf & [?|(mid & ? & ?)]);
          [by left|right; eauto 10].
      * destruct (fuzzyMatch _ chunks manifest) as [[ev'|]|] eqn:Hfz;
          cbn [mbind option_bind] in Hev; [| |done].
        -- injection Hev as <-.
           apply fuzzyMatch_section in Hfz
             as (c' & Hc & Hf & [?|(mid & ? & ?)]);
             [by left|right; eauto 10].
        -- injection Hev as <-. by left.
  - injection Hev as <-. by left.
Qed.

End EvidenceShapeFacts.

(* ===================================================================== *)
(** * The event kind *)
(* ===================================================================== *)

Module EventKindFacts.
Import JS Regex Manual JSFacts RegexFacts RegexSem RegexSemFacts EventKind.

(** ** Alternatives of literals *)

Lemma Matches_alts_lit (terms : list string) b w a :
  Matches true (alts (map lit terms)) b w a ->
  terms <> [] ->
  exists t, In t terms /\ ci_eq w (str t).
Proof.
  induction terms as [|t terms IH]; [done|]. intros H _.
  destruct terms as [|t' terms].
  - cbn [map alts] in H. apply Matches_lit_chars in H. exists t.
    split; [by left|done].
  - change (alts (map lit (t :: t' :: terms)))
      with (Alt (lit t) (alts (map lit (t' :: terms)))) in H.
    apply Matches_Alt in H as [H|H].
    + apply Matches_lit_chars in H. exists t. split; [by left|done].
    + destruct (IH H) as (u & Hu & Hw); [done|].
      exists u. split; [by right|done].
Qed.

Lemma alts_lit_Matches (terms : list string) t b w a :
  In t terms -> ci_eq w (str t) ->
  Matches true (alts (map lit terms)) b w a.
Proof.
  induction terms as [|u terms IH]; [done|]. intros Hin Hw.
  destruct terms as [|u' terms].
  - destruct Hin as [->|[]]. cbn [map alts]. by apply Matches_lit_chars.
  - change (alts (map lit (u :: u' :: terms)))
      with (Alt (lit u) (alts (map lit (u' :: terms)))).
    apply Matches_Alt. destruct Hin as [->|Hin].
    + left. by apply Matches_lit_chars.
    + right. by apply IH.
Qed.

(** [/\b(t1|...|tn)/i] tests the containment of one of the terms at the
    start of a word. *)
Lemma test_start_pattern (terms : list string) s :
  terms <> [] ->
  test true (seqs [WordB; Group 1 (alts (map lit terms))]) s = true <->
  startsWord terms s.
Proof.
  intros Hne. rewrite test_occurs. unfold occurs, startsWord. cbn [seqs].
  split.
  - intros (pre & w & post & -> & H).
    apply Matches_Seq in H as (w1 & w2 & -> & H1 & H2).
    apply Matches_WordB in H1 as [-> Hb]. rewrite app_nil_r in H2.
    apply Matches_Group in H2.
    apply Matches_alts_lit in H2 as (t & Ht & Hw); [|done].
    exists pre, w2, post, t. by simpl in *.
  - intros (pre & w & post & t & -> & Ht & Hw & Hb).
    exists pre, w, post. split; [done|].
    apply Matches_Seq. exists [], w. split; [done|]. split.
    + apply Matches_WordB. by simpl.
    + rewrite app_nil_r. apply Matches_Group. by eapply alts_lit_Matches.
Qed.

(** ** The case of the letters *)

Lemma upper_lower c : toUpperChar (toLowerChar c) = toUpperChar c.
Proof. destruct c as [[] [] [] [] [] [] [] []]; reflexivity. Qed.

Lemma isWordChar_lower c : isWordChar (toLowerChar c) = isWordChar c.
Proof. destruct c as [[] [] [] [] [] [] [] []]; reflexivity. Qed.

Lemma ci_eq_lower w t : ci_eq (toLowerCase w) t <-> ci_eq w t.
Proof.
  unfold ci_eq, toLowerCase. rewrite map_map.
  by rewrite (map_ext _ _ upper_lower).
Qed.

Lemma word_last_lower s :
  is_word_opt (last (toLowerCase s)) = is_word_opt (last s).
Proof.
  unfold toLowerCase. change (map toLowerChar s) with (toLowerChar <$> s).
  rewrite fmap_last. destruct (last s); simpl; [apply isWordChar_lower|done].
Qed.

Lemma word_head_lower s :
  is_word_opt (head (toLowerCase s)) = is_word_opt (head s).
Proof. destruct s; simpl; [done|apply isWordChar_lower]. Qed.

Lemma boundary_lower b a :
  boundary (toLowerCase b) (toLowerCase a) <-> boundary b a.
Proof. unfold boundary. by rewrite word_last_lower, word_head_lower. Qed.

Lemma toLowerCase_app a b :
  toLowerCase (a ++ b) = toLowerCase a ++ toLowerCase b.
Proof. apply map_app. Qed.

Lemma toLowerCase_split s p q r :
  toLowerCase s = p ++ q ++ r ->
  exists p0 q0 r0,
    s = p0 ++ q0 ++ r0 /\ p = toLowerCase p0 /\ q = toLowerCase q0 /\
    r = toLowerCase r0.
Proof.
  unfold toLowerCase. intros H.
  change (toLowerChar <$> s = p ++ q ++ r) in H.
  apply fmap_app_inv in H as (p0 & s' & -> & H & ->). symmetry in H.
  apply fmap_app_inv in H as (q0 & r0 & -> & -> & ->).
  by exists p0, q0, r0.
Qed.

(** Lowering the case of the text changes no test of a vocabulary. *)
Lemma containsWord_lower terms s :
  containsWord terms (toLowerCase s) <-> containsWord terms s.
Proof.
  unfold containsWord. split.
  - intros (p & q & r & t & H & Ht & Hq & Hb1 & Hb2).
    apply toLowerCase_split in H as (p0 & q0 & r0 & -> & -> & -> & ->).
    exists p0, q0, r0, t. split; [done|]. split; [done|].
    split; [by apply ci_eq_lower|].
    rewrite <- !toLowerCase_app in Hb1, Hb2.
    split; by apply boundary_lower.
  - intros (p & q & r & t & -> & Ht & Hq & Hb1 & Hb2).
    exists (toLowerCase p), (toLowerCase q), (toLowerCase r), t.
    rewrite !toLowerCase_app. split; [done|]. split; [done|].
    split; [by apply ci_eq_lower|].
    rewrite <- !toLowerCase_app. split; by apply boundary_lower.
Qed.

Lemma startsWord_lower terms s :
  startsWord terms (toLowerCase s) <-> startsWord terms s.
Proof.
  unfold startsWord. split.
  - intros (p & q & r & t & H & Ht & Hq & Hb1).
    apply toLowerCase_split in H as (p0 & q0 & r0 & -> & -> & -> & ->).
    exists p0, q0, r0, t. split; [done|]. split; [done|].
    split; [by apply ci_eq_lower|].
    rewrite <- !toLowerCase_app in Hb1. by apply boundary_lower.
  - intros (p & q & r & t & -> & Ht & Hq & Hb1).
    exists (toLowerCase p), (toLowerCase q), (toLowerCase r), t.
    rewrite !toLowerCase_app. split; [done|]. split; [done|].
    split; [by apply ci_eq_lower|].
    rewrite <- !toLowerCase_app. by apply boundary_lower.
Qed.

(** ** The tests of [detectEventKind] *)

Lemma collaboration_spec text :
  test true re_collaboration (toLowerCase text) = true <->
  startsWord COLLABORATION_WORDS text.
Proof.
  rewrite <- startsWord_lower.
  change re_collaboration
    with (seqs [WordB; Group 1 (alts (map lit COLLABORATION_WORDS))]).
  by apply test_start_pattern.
Qed.

Lemma merger_spec text :
  test true re_merger (toLowerCase text) = true <->
  containsWord MERGER_WORDS text.
Proof.
  rewrite <- containsWord_lower.
  change re_merger
    with (seqs [WordB; Group 1 (alts (map lit MERGER_WORDS)); WordB]).
  by apply test_word_pattern.
Qed.

Lemma partner_spec text :
  test true re_partner (toLowerCase text) = true <->
  containsWord PARTNER_WORDS text.
Proof.
  rewrite <- containsWord_lower.
  change re_partner
    with (seqs [WordB; Group 1 (alts (map lit PARTNER_WORDS)); WordB]).
  by apply test_word_pattern.
Qed.

Lemma financing_spec text :
  test true re_financing (toLowerCase text) = true <->
  containsWord FINANCING_WORDS text.
Proof.
  rewrite <- containsWord_lower.
  change re_financing
    with (seqs [WordB; Group 1 (alts (map lit FINANCING_WORDS)); WordB]).
  by apply test_word_pattern.
Qed.

Lemma startsWord_nonempty terms s :
  Forall (fun t => t <> EmptyString) terms -> startsWord terms s -> s <> [].
Proof.
  intros Hall (p & q & r & t & -> & Ht & Hq & _). rewrite Forall_forall in Hall.
  specialize (Hall t (proj2 (list_elem_of_In _ _) Ht)). intros Hnil.
  apply app_eq_nil in Hnil as [_ Hnil]. apply app_eq_nil in Hnil as [-> _].
  destruct t; [done|]. discriminate Hq.
Qed.

Lemma containsWord_nonempty terms s :
  Forall (fun t => t <> EmptyString) terms -> containsWord terms s -> s <> [].
Proof.
  intros Hall (p & q & r & t & -> & Ht & Hq & _). rewrite Forall_forall in Hall.
  specialize (Hall t (proj2 (list_elem_of_In _ _) Ht)). intros Hnil.
  apply app_eq_nil in Hnil as [_ Hnil]. apply app_eq_nil in Hnil as [-> _].
  destruct t; [done|]. discriminate Hq.
Qed.

(** X16 (detectEventKind, decision table).  [detectEventKind] returns the
    first of Collaboration, Merger, Partnership and Financing whose
    vocabulary the text contains, whatever the case of its letters, and
    [null] when it contains none: a Collaboration term counts where it
    starts a word (so "collaborative" counts), the terms of the other
    kinds count as whole words only. *)
Theorem detectEventKind_table text :
  let kind := detectEventKind (Some text) in
  let collaboration := startsWord COLLABORATION_WORDS text in
  let merger := containsWord MERGER_WORDS text in
  let partner := containsWord PARTNER_WORDS text in
  let financing := containsWord FINANCING_WORDS text in
  (kind = Some (str "Collaboration") <-> collaboration) /\
  (kind = Some (str "Merger") <-> ~ collaboration /\ merger) /\
  (kind = Some (str "Partnership") <->
     ~ collaboration /\ ~ merger /\ partner) /\
  (kind = Some (str "Financing") <->
     ~ collaboration /\ ~ merger /\ ~ partner /\ financing) /\
  (kind = None <->
     ~ collaboration /\ ~ merger /\ ~ partner /\ ~ financing).
Proof.
  cbv zeta.
  pose proof (collaboration_spec text) as Hc.
  pose proof (merger_spec text) as Hm.
  pose proof (partner_spec text) as Hp.
  pose proof (financing_spec text) as Hf.
  destruct text as [|c0 text0] eqn:Etext.
  - assert (~ startsWord COLLABORATION_WORDS []) as Nc.
    { intros H. eapply startsWord_nonempty in H; [done|].
      repeat constructor; discriminate. }
    assert (~ containsWord MERGER_WORDS []) as Nm.
    { intros H. eapply containsWord_nonempty in H; [done|].
      repeat constructor; discriminate. }
    assert (~ containsWord PARTNER_WORDS []) as Np.
    { intros H. eapply containsWord_nonempty in H; [done|].
      repeat constructor; discriminate. }
    assert (~ containsWord FINANCING_WORDS []) as Nf.
    { intros H. eapply containsWord_nonempty in H; [done|].
      repeat constructor; discriminate. }
    cbn [detectEventKind]. repeat split; try done; tauto.
  - rewrite <- Etext in *.
    assert (detectEventKind (Some text) =
            let t := toLowerCase text in
            if test true re_collaboration t then Some (str "Collaboration")
            else if test true re_merger t then Some (str "Merger")
            else if test true re_partner t then Some (str "Partnership")
            else if test true re_financing t then Some (str "Financing")
            else None) as ->.
    { by rewrite Etext. }
    cbv zeta. clear Etext.
    destruct (test true re_collaboration (toLowerCase text));
      [|destruct (test true re_merger (toLowerCase text));
        [|destruct (test true re_partner (toLowerCase text));
          [|destruct (test true re_financing (toLowerCase text))]]].
    all: repeat split; try discriminate; try tauto.
    all: try (intros; exfalso; intuition congruence).
    all: intuition congruence.
Qed.

(** ** Events of the kind Merger and the deal *)

Lemma ci_eq_app_inv w t1 t2 :
  ci_eq w (t1 ++ t2) ->
  exists w1 w2, w = w1 ++ w2 /\ ci_eq w1 t1 /\ ci_eq w2 t2.
Proof.
  unfold ci_eq. rewrite map_app. intros H.
  change (map toUpperChar w) with (toUpperChar <$> w) in H.
  apply fmap_app_inv in H as (w1 & w2 & H1 & H2 & ->).
  by exists w1, w2.
Qed.

Lemma isWordChar_upper c : isWordChar (toUpperChar c) = isWordChar c.
Proof. destruct c as [[] [] [] [] [] [] [] []]; reflexivity. Qed.

Lemma ci_eq_head_word w c t :
  ci_eq w (c :: t) -> is_word_opt (head w) = isWordChar c.
Proof.
  unfold ci_eq. destruct w as [|d w]; [done|]. simpl. intros [= Hd _].
  by rewrite <- (isWordChar_upper d), Hd, isWordChar_upper.
Qed.

Lemma ci_eq_last_word w t c :
  ci_eq w (t ++ [c]) -> is_word_opt (last w) = isWordChar c.
Proof.
  intros H. apply ci_eq_app_inv in H as (w1 & w2 & -> & _ & H2).
  destruct w2 as [|d [|? ?]]; [done| |done].
  rewrite last_snoc. apply (ci_eq_head_word [d] c []). exact H2.
Qed.

(** A whole word "merger agreement" holds the whole word "merger". *)
Lemma merger_agreement_merger s :
  containsWord ["merger agreement"%string] s ->
  containsWord ["merger"%string] s.
Proof.
  intros (p & q & r & t & -> & Ht & Hq & Hb1 & Hb2).
  destruct Ht as [<-|[]].
  change (str "merger agreement") with (str "merger" ++ str " agreement")
    in Hq.
  apply ci_eq_app_inv in Hq as (q1 & q2 & -> & Hq1 & Hq2).
  exists p, q1, (q2 ++ r), "merger"%string.
  rewrite <- !app_assoc in *. split; [done|]. split; [by left|].
  split; [done|]. split; [done|].
  unfold boundary. rewrite last_app.
  change (str "merger") with (str "merge" ++ [ch "r"]) in Hq1.
  pose proof (ci_eq_last_word _ _ _ Hq1) as Hl.
  destruct (last q1) as [d|] eqn:Hlast; [|done].
  change (str " agreement") with (ch " " :: str "agreement") in Hq2.
  pose proof (ci_eq_head_word _ _ _ Hq2) as Hh.
  destruct q2 as [|e q2]; [done|]. simpl in *. rewrite Hl, Hh. done.
Qed.

Lemma containsWord_mono terms terms' s :
  (forall t, In t terms -> In t terms') ->
  containsWord terms s -> containsWord terms' s.
Proof.
  intros Hsub (p & q & r & t & ? & Ht & ?).
  exists p, q, r, t. split; [done|]. split; [by apply Hsub|done].
Qed.

Lemma containsWord_inv terms s :
  containsWord terms s -> exists t, In t terms /\ containsWord [t] s.
Proof.
  intros (p & q & r & t & ? & Ht & ?). exists t. split; [done|].
  exists p, q, r, t. split; [done|]. split; [by left|done].
Qed.

Lemma containsWord_single t terms s :
  In t terms -> containsWord [t] s -> containsWord terms s.
Proof.
  intros Ht. apply containsWord_mono. by intros u [<-|[]].
Qed.

Lemma merger_is_deal s :
  containsWord MERGER_WORDS s -> containsWord DEAL_WORDS s.
Proof.
  intros H. apply containsWord_inv in H as (t & Ht & H).
  unfold MERGER_WORDS in Ht. cbn [In] in Ht.
  destruct Ht as [<-|[<-|[<-|[<-|[<-|[<-|[]]]]]]].
  - eapply containsWord_single; [|exact H]. by left.
  - eapply containsWord_single; [|exact H]. right. by left.
  - eapply containsWord_single; [|exact H]. do 2 right. by left.
  - eapply containsWord_single; [|exact H]. do 3 right. by left.
  - eapply containsWord_single; [|exact H]. do 4 right. by left.
  - apply merger_agreement_merger in H.
    eapply containsWord_single; [|exact H]. by left.
Qed.

(** A whole word is in particular the start of a word, and so is a longer
    term of which it is the beginning. *)
Lemma containsWord_startsWord t u rest s :
  str t = str u ++ rest ->
  containsWord [t] s -> startsWord [u] s.
Proof.
  intros Htu (p & q & r & t' & -> & [<-|[]] & Hq & Hb1 & _).
  rewrite Htu in Hq.
  apply ci_eq_app_inv in Hq as (q1 & q2 & -> & Hq1 & Hq2).
  exists p, q1, (q2 ++ r), u. rewrite <- !app_assoc in *.
  split; [done|]. split; [by left|done].
Qed.

Lemma startsWord_mono terms terms' s :
  (forall t, In t terms -> In t terms') ->
  startsWord terms s -> startsWord terms' s.
Proof.
  intros Hsub (p & q & r & t & ? & Ht & ?).
  exists p, q, r, t. split; [done|]. split; [by apply Hsub|done].
Qed.

(** Without a Collaboration term, the partnership vocabulary of [run]
    reduces to "partnership" and "partner". *)
Lemma partnership_words_reduce s :
  ~ startsWord COLLABORATION_WORDS s ->
  containsWord PARTNERSHIP_WORDS s ->
  containsWord ["partnership"; "partner"]%string s.
Proof.
  intros Hno H. apply containsWord_inv in H as (t & Ht & H).
  unfold PARTNERSHIP_WORDS in Ht. cbn [In] in Ht.
  destruct Ht as [<-|[<-|[<-|[<-|[<-|[<-|[]]]]]]].
  - exfalso. apply Hno.
    apply (containsWord_startsWord _ "collaborat"%string (str "ion"))
      in H; [|done].
    eapply startsWord_mono; [|exact H]. intros t [<-|[]]. do 3 right. by left.
  - exfalso. apply Hno.
    apply (containsWord_startsWord _ "collaborat"%string []) in H; [|done].
    eapply startsWord_mono; [|exact H]. intros t [<-|[]]. do 3 right. by left.
  - exfalso. apply Hno.
    apply (containsWord_startsWord _ "license agreement"%string []) in H;
      [|done].
    eapply startsWord_mono; [|exact H]. intros t [<-|[]]. right. by left.
  - exfalso. apply Hno.
    apply (containsWord_startsWord _ "strategic collaboration"%string [])
      in H; [|done].
    eapply startsWord_mono; [|exact H]. intros t [<-|[]]. do 2 right. by left.
  - eapply containsWord_single; [|exact H]. by left.
  - eapply containsWord_single; [|exact H]. right. by left.
Qed.

Lemma detectEventKind_Merger text :
  detectEventKind (Some text) = Some (str "Merger") ->
  ~ startsWord COLLABORATION_WORDS text /\ containsWord MERGER_WORDS text.
Proof.
  destruct text as [|c0 text0]; [done|]. intros H'.
  cbn [detectEventKind] in H'. cbv zeta in H'.
  remember (c0 :: text0) as text eqn:Etext. clear Etext.
  destruct (test true re_collaboration (toLowerCase text)) eqn:Hc;
    [discriminate H'|].
  destruct (test true re_merger (toLowerCase text)) eqn:Hm.
  - split; [|by apply merger_spec].
    intros Hs. apply collaboration_spec in Hs. congruence.
  - destruct (test true re_partner (toLowerCase text)); [discriminate H'|].
    destruct (test true re_financing (toLowerCase text)); discriminate H'.
Qed.

(** X17 (detectEventKind and the relationship).  When the kind of the event
    is Merger and the context window does not hold "partnership" or
    "partner" as a whole word, the output has a [deal] and no
    [partnership]. *)
Theorem merger_has_deal companyName fullText contextWindow :
  detectEventKind (Some contextWindow) = Some (str "Merger") ->
  ~ containsWord ["partnership"; "partner"]%string contextWindow ->
  relationshipOutput companyName fullText contextWindow =
    mkOutput None (Some (buildDeal contextWindow)).
Proof.
  intros Hkind Hnp.
  apply detectEventKind_Merger in Hkind as [Hnc Hmerger].
  apply merger_is_deal, RelationshipFacts.isDeal_spec in Hmerger.
  assert (test true re_isPartnership contextWindow = false) as Hpart.
  { destruct (test true re_isPartnership contextWindow) eqn:Ht; [|done].
    apply RelationshipFacts.isPartnership_spec in Ht.
    by apply partnership_words_reduce in Ht. }
  unfold relationshipOutput, extractRelationship.
  by rewrite Hpart, Hmerger.
Qed.

Lemma merger_has_deal_witness :
  relationshipOutput None (str "Acme acquires Beta Corp.")
    (str "Acme acquires Beta Corp.") =
  mkOutput None (Some (buildDeal (str "Acme acquires Beta Corp."))).
Proof.
  apply merger_has_deal.
  - vm_compute. reflexivity.
  - intros Hc.
    apply (containsWord_mono _ PARTNERSHIP_WORDS) in Hc.
    + apply RelationshipFacts.isPartnership_spec in Hc.
      vm_compute in Hc. discriminate Hc.
    + intros t [<-|[<-|[]]]; [do 4 right; by left|do 5 right; by left].
Defined.

End EventKindFacts.

(* ===================================================================== *)
(** * The report and the validator *)
(* ===================================================================== *)

Module ReportFacts.
Import JS Manual Validate Report JSFacts.

(** Induction on a JSON value, with the hypothesis for the values of an
    object. *)
Lemma json_induction (P : json -> Prop) :
  P JNull -> (forall b, P (JBool b)) -> (forall x, P (JNumber x)) ->
  (forall s, P (JString s)) -> (forall l, P (JArray l)) ->
  (forall entries,
      Forall (fun kv : jsstring * json => P kv.2) entries ->
      P (JObject entries)) ->
  forall v, P v.
Proof.
  intros HN HB HX HS HA HO.
  fix IH 1. intros [| b | x | s | l | entries].
  - exact HN.
  - apply HB.
  - apply HX.
  - apply HS.
  - apply HA.
  - apply HO. induction entries as [|[k v] es IHes]; constructor.
    + apply IH.
    + exact IHes.
Qed.

(** ** Parts of the validation, one after another *)

Lemma elem_of_pushed_andThen x a b :
  x ∈ pushed (andThen a b) -> x ∈ pushed a \/ x ∈ pushed b.
Proof.
  unfold andThen. destruct (threw a); [by left|].
  cbn [pushed]. by rewrite elem_of_app.
Qed.

(** When nothing has thrown, every part has run. *)
Lemma andThen_complete a b :
  threw (andThen a b) = false ->
  threw a = false /\ threw b = false /\
  pushed (andThen a b) = pushed a ++ pushed b.
Proof.
  unfold andThen. destruct (threw a) eqn:Ha; [by rewrite Ha|].
  cbn [threw pushed]. done.
Qed.

(** ** The entries of an object *)

Lemma walkValue_object fs dir evidence p kv es :
  walkValue fs dir evidence p (JObject (kv :: es)) =
  andThen (walkValue fs dir evidence (joinPath p kv.1) kv.2)
          (walkValue fs dir evidence p (JObject es)).
Proof. by destruct kv. Qed.

Lemma countValue_object evidence p kv es st :
  countValue evidence p (JObject (kv :: es)) st =
  countValue evidence p (JObject es)
    (if bool_decide (joinPath p kv.1 ∈ SKIP_FIELDS) then st
     else countValue evidence (joinPath p kv.1) kv.2 st).
Proof. by destruct kv. Qed.

(** ** The paths that [walk] reports *)

Lemma joinPath_below p key :
  p <> [] -> joinPath p key = p ++ str "." ++ key.
Proof. by destruct p. Qed.

(** The loop over the evidence objects of a field reports no missing
    evidence. *)
Lemma checkRows_issues fs dir p q rows :
  ~ NoEvidence q ∈ pushed (checkRows fs dir p rows).
Proof.
  induction rows as [|e rows IH]; cbn [checkRows pushed];
    [by intros ?%elem_of_nil|].
  intros [H|H]%elem_of_pushed_andThen; [|done].
  unfold checkEvidence in H.
  destruct (fs (Path.join dir (sourceFile e))) as [[chunkText|]|];
    cbn [pushed] in H.
  - destruct (negb _); cbn [pushed] in H; [|by apply elem_of_nil in H].
    by apply list_elem_of_singleton in H.
  - by apply elem_of_nil in H.
  - by apply list_elem_of_singleton in H.
Qed.

Lemma checkField_NoEvidence fs dir evidence p v q :
  NoEvidence q ∈ pushed (checkField fs dir evidence p v) -> q = p.
Proof.
  unfold checkField. destruct (bool_decide _); [by intros ?%elem_of_nil|].
  destruct v as [| b | x | [|c s] | l | es];
    try (by intros ?%elem_of_nil).
  all: destruct (List.filter _ evidence) as [|e rows] eqn:Hf;
    [intros H; apply list_elem_of_singleton in H; congruence|].
  all: by intros H%checkRows_issues.
Qed.

Lemma walkValue_paths fs dir evidence q : forall v p,
  p <> [] ->
  NoEvidence q ∈ pushed (walkValue fs dir evidence p v) ->
  q = p \/ exists rest, q = p ++ str "." ++ rest.
Proof.
  induction v as [| b | x | s | l | entries IH] using json_induction;
    intros p Hp; try (by left; eapply checkField_NoEvidence).
  - by intros ?%elem_of_nil.
  - induction IH as [|kv es Hkv _ IHes].
    + by intros ?%elem_of_nil.
    + rewrite walkValue_object.
      intros [H|H]%elem_of_pushed_andThen; [|by apply IHes].
      right. apply Hkv in H.
      * rewrite joinPath_below in H by done.
        destruct H as [->|[rest ->]]; [by eexists|].
        exists (kv.1 ++ str "." ++ rest). by rewrite <- !app_assoc.
      * rewrite joinPath_below by done. by destruct p.
Qed.

Lemma skipped_nonempty p : p ∈ SKIP_FIELDS -> p <> [].
Proof.
  intros H ->. unfold SKIP_FIELDS in H.
  repeat (apply elem_of_cons in H as [H|H]; [discriminate H|]).
  by apply elem_of_nil in H.
Qed.

Lemma same_skip_fields : Validate.SKIP_FIELDS = SKIP_FIELDS.
Proof. reflexivity. Qed.

Lemma walkValue_object_longer fs dir evidence q p es :
  p <> [] ->
  NoEvidence q ∈ pushed (walkValue fs dir evidence p (JObject es)) ->
  (length p < length q)%nat.
Proof.
  intros Hp. induction es as [|kv es IHes]; [by intros ?%elem_of_nil|].
  rewrite walkValue_object.
  intros [H|H]%elem_of_pushed_andThen; [|by apply IHes].
  apply walkValue_paths in H.
  - rewrite joinPath_below in H by done.
    destruct H as [->|[rest ->]]; rewrite !length_app; simpl; lia.
  - rewrite joinPath_below by done. by destruct p.
Qed.

(** What [walk] reports at or below a skipped path lies below it. *)
Lemma walkValue_skipped fs dir evidence q v p :
  p ∈ SKIP_FIELDS ->
  NoEvidence q ∈ pushed (walkValue fs dir evidence p v) -> belowSkipped q.
Proof.
  intros Hp H. pose proof (skipped_nonempty p Hp) as Hne.
  destruct (walkValue_paths fs dir evidence q v p Hne H) as [->|[rest ->]].
  - exfalso. destruct v as [| b | x | s | l | es].
    1-4: change (NoEvidence p ∈
                   pushed (checkField fs dir evidence p JNull)) in H ||
         change (NoEvidence p ∈
                   pushed (checkField fs dir evidence p (JBool b))) in H ||
         change (NoEvidence p ∈
                   pushed (checkField fs dir evidence p (JNumber x))) in H ||
         change (NoEvidence p ∈
                   pushed (checkField fs dir evidence p (JString s))) in H;
      unfold checkField in H; rewrite same_skip_fields in H;
      rewrite bool_decide_eq_true_2 in H by done;
      by apply elem_of_nil in H.
    + by apply elem_of_nil in H.
    + apply walkValue_object_longer in H; [lia|done].
  - by exists p, rest.
Qed.

(** ** [countFields] against [walk] *)

Lemma hasEvidence_rows evidence p :
  hasEvidence evidence p = false <->
  List.filter (fun e => bool_decide (field e = Some p)) evidence = [].
Proof.
  unfold hasEvidence. induction evidence as [|e evidence IH]; [done|].
  simpl. destruct (bool_decide (field e = Some p)); simpl; [done|exact IH].
Qed.

Section Counting.
Variable fs : fileSystem.
Variable dir : jsstring.
Variable evidence : list Evidence.

(** A value that leaves the counters as they are and for which the
    validator reports no missing evidence. *)
Lemma counts_nothing p v st :
  (forall q, ~ NoEvidence q ∈ pushed (walkValue fs dir evidence p v)) ->
  counts fs dir evidence p v st st.
Proof.
  intros Hnone. exists 0, []. split; [lia|]. split.
  - destruct st. simpl. rewrite app_nil_r. f_equal; lia.
  - split; [by intros q ?%elem_of_nil|].
    intros q H. by apply Hnone in H.
Qed.

Lemma counts_leaf p v st :
  p ∉ SKIP_FIELDS ->
  match v with JObject _ | JArray _ => False | _ => True end ->
  counts fs dir evidence p v st (countLeaf evidence p v st).
Proof.
  intros Hp Hv.
  assert (walkValue fs dir evidence p v = checkField fs dir evidence p v)
    as Hwalk by by destruct v.
  assert (checkField fs dir evidence p v =
          match v with
          | JNull | JString [] | JArray _ | JObject _ => mkOutcome [] false
          | _ =>
              match List.filter (fun e => bool_decide (field e = Some p))
                                evidence with
              | [] => mkOutcome [NoEvidence p] false
              | rows => checkRows fs dir p rows
              end
          end) as Hcheck.
  { unfold checkField. rewrite same_skip_fields.
    rewrite bool_decide_eq_false_2 by done.
    destruct v as [| b | x | [|c s] | l | es]; try done;
      by destruct (List.filter _ evidence). }
  assert (counts_one :
    v <> JNull -> v <> JString [] ->
    counts fs dir evidence p v st
      (if hasEvidence evidence p then
         mkCoverage (totalFields st + 1) (fieldsWithEvidence st + 1)
                    (fieldsWithoutEvidence st)
       else
         mkCoverage (totalFields st + 1) (fieldsWithEvidence st)
                    (fieldsWithoutEvidence st ++ [p]))).
  { intros Hnull Hempty. unfold counts. rewrite Hwalk, Hcheck.
    assert (match v with
            | JNull | JString [] | JArray _ | JObject _ => mkOutcome [] false
            | _ =>
                match List.filter (fun e => bool_decide (field e = Some p))
                                  evidence with
                | [] => mkOutcome [NoEvidence p] false
                | rows => checkRows fs dir p rows
                end
            end =
            match List.filter (fun e => bool_decide (field e = Some p))
                              evidence with
            | [] => mkOutcome [NoEvidence p] false
            | rows => checkRows fs dir p rows
            end) as ->
      by by destruct v as [| b | x | [|c s] | l | es].
    destruct (hasEvidence evidence p) eqn:Hhas.
    - exists 1, []. split; [lia|]. split.
      + simpl. rewrite app_nil_r. f_equal; lia.
      + split; [by intros q ?%elem_of_nil|].
        intros q H.
        destruct (List.filter _ evidence) as [|e rows] eqn:Hf.
        * apply hasEvidence_rows in Hf. congruence.
        * by apply checkRows_issues in H.
    - exists 0, [p]. split; [lia|]. split.
      + simpl. f_equal; lia.
      + pose proof (proj1 (hasEvidence_rows _ _) Hhas) as ->.
        split.
        * intros q ->%list_elem_of_singleton. split; [|done].
          intros _. by apply list_elem_of_singleton.
        * intros q H%list_elem_of_singleton. injection H as ->.
          left. by apply list_elem_of_singleton. }
  destruct v as [| b | x | [|c s] | l | es]; try done;
    try (by apply counts_one).
  - apply counts_nothing. intros q. rewrite Hwalk, Hcheck.
    by intros ?%elem_of_nil.
  - apply counts_nothing. intros q. rewrite Hwalk, Hcheck.
    by intros ?%elem_of_nil.
Qed.

Lemma counts_value : forall v p st,
  p ∉ SKIP_FIELDS ->
  counts fs dir evidence p v st (countValue evidence p v st).
Proof.
  induction v as [| b | x | s | l | entries IH] using json_induction;
    intros p st Hp; try (by apply counts_leaf).
  - apply counts_nothing. by intros q ?%elem_of_nil.
  - revert st. induction IH as [|kv es Hkv _ IHes]; intros st.
    + apply counts_nothing. by intros q ?%elem_of_nil.
    + rewrite countValue_object.
      assert (counts fs dir evidence (joinPath p kv.1) kv.2 st
                (if bool_decide (joinPath p kv.1 ∈ SKIP_FIELDS) then st
                 else countValue evidence (joinPath p kv.1) kv.2 st))
        as (n1 & a1 & Hn1 & Hst1 & Hin1 & Hout1).
      { destruct (decide (joinPath p kv.1 ∈ SKIP_FIELDS)) as [Hs|Hs].
        - rewrite bool_decide_eq_true_2 by done.
          exists 0, []. split; [lia|]. split.
          + destruct st. simpl. rewrite app_nil_r. f_equal; lia.
          + split; [by intros q ?%elem_of_nil|].
            intros q H. right. by eapply walkValue_skipped.
        - rewrite bool_decide_eq_false_2 by done. by apply Hkv. }
      destruct (IHes
        (if bool_decide (joinPath p kv.1 ∈ SKIP_FIELDS) then st
         else countValue evidence (joinPath p kv.1) kv.2 st))
        as (n2 & a2 & Hn2 & Hst2 & Hin2 & Hout2).
      rewrite Hst2, Hst1. cbn [totalFields fieldsWithEvidence
                                 fieldsWithoutEvidence].
      exists (n1 + n2), (a1 ++ a2). split; [lia|]. split.
      * rewrite <- app_assoc. rewrite length_app.
        f_equal; lia.
      * split.
        -- intros q Hq. rewrite walkValue_object.
           apply elem_of_app in Hq as [H|H].
           ++ destruct (Hin1 q H) as [Hw ?]. split; [|done].
              intros (Ht1 & Ht2 & ->)%andThen_complete.
              rewrite elem_of_app. left. by apply Hw.
           ++ destruct (Hin2 q H) as [Hw ?]. split; [|done].
              intros (Ht1 & Ht2 & ->)%andThen_complete.
              rewrite elem_of_app. right. by apply Hw.
        -- intros q. rewrite walkValue_object.
           intros [H|H]%elem_of_pushed_andThen.
           ++ destruct (Hout1 q H); [left|by right].
              rewrite elem_of_app. by left.
           ++ destruct (Hout2 q H); [left|by right].
              rewrite elem_of_app. by right.
Qed.

End Counting.

(** X18 (countFields, the counters).  After [countFields] the number of
    counted fields is the number of fields with evidence plus the number
    of listed fields without evidence, so that the coverage lies between
    0 and 100 per cent; no listed field has an evidence object. *)
Theorem countFields_counters evidence data :
  totalFields (countFields evidence data) =
    fieldsWithEvidence (countFields evidence data) +
    Z.of_nat (length (fieldsWithoutEvidence (countFields evidence data))) /\
  0 <= fieldsWithEvidence (countFields evidence data)
    <= totalFields (countFields evidence data) /\
  forall q, q ∈ fieldsWithoutEvidence (countFields evidence data) ->
            hasEvidence evidence q = false.
Proof.
  destruct (counts_value (fun _ => None) [] evidence (JObject data) []
              (mkCoverage 0 0 []))
    as (n & added & Hn & Hst & Hin & _).
  { unfold SKIP_FIELDS. intros H.
    repeat (apply elem_of_cons in H as [H|H]; [discriminate H|]).
    by apply elem_of_nil in H. }
  unfold countFields. rewrite Hst. simpl.
  split; [lia|]. split; [lia|]. intros q Hq. by apply Hin.
Qed.

(** X19 (the report and the validator).  Every field that the report lists
    as without evidence is a field for which the validator reports missing
    evidence, on the same document, when the validator gets to the end of
    it (it stops where reading a cited file throws).  The validator
    reports no other such field, except below a skipped path
    ([validation], [provenance], ...): the report leaves a skipped object
    out, the validator walks into it. *)
Theorem report_fields_are_validator_issues fs chunkDir evidence data :
  (forall q, q ∈ fieldsWithoutEvidence (countFields evidence data) ->
             threw (walk fs chunkDir evidence data) = false ->
             NoEvidence q ∈ pushed (walk fs chunkDir evidence data)) /\
  (forall q, NoEvidence q ∈ pushed (walk fs chunkDir evidence data) ->
             q ∈ fieldsWithoutEvidence (countFields evidence data) \/
             belowSkipped q).
Proof.
  destruct (counts_value fs chunkDir evidence (JObject data) []
              (mkCoverage 0 0 []))
    as (n & added & Hn & Hst & Hin & Hout).
  { unfold SKIP_FIELDS. intros H.
    repeat (apply elem_of_cons in H as [H|H]; [discriminate H|]).
    by apply elem_of_nil in H. }
  unfold countFields, walk. rewrite Hst. simpl. split.
  - intros q Hq. by apply Hin.
  - intros q Hq. by apply Hout.
Qed.

(** ** Evidence objects that the validator never reads *)

Lemma filter_rows evidence p :
  p ∉ Validate.SKIP_FIELDS ->
  List.filter (fun e => bool_decide (field e = Some p))
              (List.filter (fun e => negb (skippedRow e)) evidence) =
  List.filter (fun e => bool_decide (field e = Some p)) evidence.
Proof.
  intros Hp. induction evidence as [|e evidence IH]; [done|].
  cbn [List.filter]. destruct (skippedRow e) eqn:Hs; cbn [negb].
  - rewrite IH. rewrite bool_decide_eq_false_2; [done|].
    intros Hf. unfold skippedRow in Hs. rewrite Hf in Hs.
    by apply bool_decide_eq_true_1 in Hs.
  - cbn [List.filter]. by rewrite IH.
Qed.

Lemma checkField_rows fs dir evidence p v :
  checkField fs dir
    (List.filter (fun e => negb (skippedRow e)) evidence) p v =
  checkField fs dir evidence p v.
Proof.
  unfold checkField.
  destruct (decide (p ∈ Validate.SKIP_FIELDS)) as [Hp|Hp].
  - by rewrite !bool_decide_eq_true_2 by done.
  - rewrite !bool_decide_eq_false_2 by done. by rewrite filter_rows.
Qed.

(** X20 (the validator, evidence of skipped fields).  The validator never
    reads an evidence object whose field is not set or is one of the
    skipped paths, such as the objects that [run] adds for
    [provenance.documents]: without them it reports the same, and it
    throws in the same cases. *)
Theorem walk_ignores_skipped_rows fs chunkDir evidence data :
  walk fs chunkDir
    (List.filter (fun e => negb (skippedRow e)) evidence) data =
  walk fs chunkDir evidence data.
Proof.
  unfold walk. generalize (@nil ascii) as p. generalize (JObject data) as v.
  induction v as [| b | x | s | l | entries IH] using json_induction;
    intros p; try apply checkField_rows; [done|].
  induction IH as [|kv es Hkv _ IHes]; [done|].
  by rewrite !walkValue_object, Hkv, IHes.
Qed.

End ReportFacts.

(* ===================================================================== *)
(** * The text that [run] reads *)
(* ===================================================================== *)

Module ContextFacts.
Import JS Regex Manual JSFacts RegexSem RegexSemFacts Context.
Import Cleaner CleanerFacts ChunkStore ChunkStoreFacts.

(** ** The context window *)

Lemma window_at (pre rest : jsstring) :
  slice (pre ++ rest) (Z.max 0 (len pre - 1000))
        (Z.min (len (pre ++ rest)) (len pre + 8000)) =
  drop (length pre - Z.to_nat 1000) pre ++ take (Z.to_nat 8000) rest.
Proof.
  unfold len. rewrite length_app.
  rewrite slice_Z by lia.
  assert (Z.to_nat (Z.max 0 (Z.of_nat (length pre) - 1000)) =
          (length pre - Z.to_nat 1000)%nat) as -> by lia.
  rewrite drop_app_le by lia.
  rewrite take_app_ge by (rewrite length_drop; lia).
  rewrite length_drop. f_equal.
  destruct (Nat.le_gt_cases (length rest) (Z.to_nat 8000)).
  - rewrite !take_ge; [done|lia|lia].
  - f_equal. lia.
Qed.

Lemma same_prefix (p1 r1 p2 r2 : jsstring) :
  p1 ++ r1 = p2 ++ r2 -> length p1 = length p2 -> p1 = p2 /\ r1 = r2.
Proof.
  intros Heq Hlen. by apply app_inj_1.
Qed.

(** X21 (run, the context window).  The context window is a part of the
    full text of at most 9000 characters: the 1000 characters in front of
    the first item marker and the 8000 characters from it on, or the first
    8000 characters of the text when it has no item marker. *)
Theorem contextWindow_shape fullText :
  substring_of (contextWindow fullText) fullText /\
  len (contextWindow fullText) <= 9000 /\
  (~ occurs true re_itemMarker fullText ->
   contextWindow fullText = take (Z.to_nat 8000) fullText) /\
  (forall pre w post,
      fullText = pre ++ w ++ post ->
      Matches true re_itemMarker pre w post ->
      (forall pre' w' post',
          fullText = pre' ++ w' ++ post' ->
          Matches true re_itemMarker pre' w' post' ->
          (length pre <= length pre')%nat) ->
      contextWindow fullText =
        drop (length pre - Z.to_nat 1000) pre ++
        take (Z.to_nat 8000) (w ++ post)).
Proof.
  assert (exists pre rest,
             fullText = pre ++ rest /\ itemIndex fullText = len pre /\
             (~ occurs true re_itemMarker fullText -> pre = []) /\
             (forall pre0 w post,
                 fullText = pre0 ++ w ++ post ->
                 Matches true re_itemMarker pre0 w post ->
                 (forall pre' w' post',
                     fullText = pre' ++ w' ++ post' ->
                     Matches true re_itemMarker pre' w' post' ->
                     (length pre0 <= length pre')%nat) ->
                 pre0 = pre /\ w ++ post = rest))
    as (pre & rest & Hsplit & Hidx & Hnone & Hsome).
  { unfold itemIndex.
    destruct (exec true re_itemMarker fullText) as [m|] eqn:Hexec.
    - apply exec_Matches in Hexec as (pre & post & Hs & Hi & HM & Hleft).
      exists pre, (matched m ++ post). split; [done|].
      split; [unfold len; by rewrite Hi|]. split.
      + intros Hno. exfalso. apply Hno. by exists pre, (matched m), post.
      + intros pre0 w post0 Hs0 HM0 Hleft0.
        apply same_prefix; [congruence|].
        specialize (Hleft _ _ _ Hs0 HM0).
        specialize (Hleft0 _ _ _ Hs HM). lia.
    - exists [], fullText. split; [done|]. split; [done|]. split; [done|].
      intros pre0 w post0 Hs0 HM0 _. exfalso.
      apply exec_None in Hexec. apply Hexec. by exists pre0, w, post0. }
  assert (contextWindow fullText =
          drop (length pre - Z.to_nat 1000) pre ++
          take (Z.to_nat 8000) rest) as Hcw.
  { unfold contextWindow. rewrite Hidx, Hsplit. apply window_at. }
  split; [apply slice_substring|]. split.
  - rewrite Hcw. unfold len. rewrite length_app, length_drop, length_take.
    lia.
  - split.
    + intros Hno. rewrite Hcw, (Hnone Hno). simpl.
      rewrite Hsplit, (Hnone Hno). done.
    + intros pre0 w post0 Hs0 HM0 Hleft0.
      destruct (Hsome _ _ _ Hs0 HM0 Hleft0) as [-> ->]. exact Hcw.
Qed.

(** ** The overlap of the chunks *)

Lemma fold_left_sum {A} (f : A -> Z) (l : list A) : forall a,
  fold_left (fun sum c => sum + f c) l a =
  a + fold_left (fun sum c => sum + f c) l 0.
Proof.
  induction l as [|x l IH]; intros a; simpl; [lia|].
  rewrite (IH (a + f x)), (IH (0 + f x)). lia.
Qed.

Lemma totalLength_cons c cs :
  totalTextLength (c :: cs) = len (Chunker.text c) + totalTextLength cs.
Proof.
  unfold totalTextLength. simpl. rewrite fold_left_sum. lia.
Qed.

Section Overlap.
Variables (txt : jsstring) (target overlap : Z).
Hypothesis target_pos : 0 < target.
Hypothesis overlap_range : 0 <= overlap < target.

Lemma ChunksFrom_totalLength s cs :
  Chunker.ChunksFrom txt target overlap s cs -> 0 <= s ->
  totalTextLength cs = len txt - s + (Z.of_nat (length cs) - 1) * overlap.
Proof.
  induction 1 as [s Hlt Hs|s rest Hlt Hs Hrest IH]; intros H0.
  - rewrite totalLength_cons.
    rewrite (len_chunk_at txt target overlap overlap_range) by lia.
    unfold totalTextLength. simpl. lia.
  - rewrite totalLength_cons, IH by lia.
    rewrite (len_chunk_at txt target overlap overlap_range) by lia.
    cbn [length]. lia.
Qed.

End Overlap.

Lemma len_join sep parts :
  parts <> [] ->
  len (join sep parts) =
  fold_left (fun sum p => sum + len p) parts 0 +
  (Z.of_nat (length parts) - 1) * len sep.
Proof.
  induction parts as [|p parts IH]; [done|]. intros _.
  destruct parts as [|q parts].
  - simpl. lia.
  - change (join sep (p :: q :: parts))
      with (p ++ sep ++ join sep (q :: parts)).
    unfold len in *. rewrite !length_app, !Nat2Z.inj_add, IH by done.
    cbn [fold_left length].
    rewrite (fold_left_sum (fun p => Z.of_nat (length p)) parts (0 + _ + _)).
    rewrite (fold_left_sum (fun p => Z.of_nat (length p)) parts (0 + _)).
    lia.
Qed.

Lemma saved_texts {Meta} (writeJson : Index Meta -> jsstring) dir cs meta :
  Z.of_nat (length cs) <= 9999 ->
  map (fun f => default [] ((saveChunks writeJson dir cs meta).1 !! f))
      (chunkNames (length cs)) =
  map Chunker.text cs.
Proof.
  intros Hn. unfold chunkNames. rewrite map_map.
  apply list_eq. intros j.
  change (map ?f ?l) with (f <$> l). rewrite !list_lookup_fmap.
  destruct (cs !! j) as [c|] eqn:Hj; simpl.
  - pose proof (lookup_lt_Some _ _ _ Hj) as Hlt.
    rewrite lookup_seq_lt by done. simpl.
    pose proof (saveChunks_written writeJson dir cs meta j c Hn Hj) as Hw.
    unfold jsstring in *. by rewrite Hw.
  - apply lookup_ge_None in Hj.
    by rewrite lookup_seq_ge by done.
Qed.

Lemma fold_left_texts (cs : list Chunker.Chunk) : forall a,
  fold_left (fun sum p => sum + len p) (map Chunker.text cs) a =
  fold_left (fun sum c => sum + len (Chunker.text c)) cs a.
Proof. induction cs as [|c cs IH]; intros a; simpl; [done|apply IH]. Qed.

(** X22 (the chunker and the extractor, the overlap).  For a text that is
    cut with [0 <= overlap < target] into [n] chunks, at most 9999, and
    saved to a new directory: the [totalLength] of the index is the length
    of the text plus [overlap] for every chunk after the first, and the
    full text that [run] joins from the loaded chunks has [overlap + 2]
    characters more for every chunk after the first.  The overlaps are not
    taken out again. *)
Theorem overlap_is_kept {Meta} (writeJson : Index Meta -> jsstring)
    txt target overlap fuel meta :
  0 < target -> 0 <= overlap < target -> 0 < len txt < Z.of_nat fuel ->
  exists cs,
    Chunker.chunkText fuel txt target overlap = Some cs /\
    totalTextLength cs = len txt + (Z.of_nat (length cs) - 1) * overlap /\
    (Z.of_nat (length cs) <= 9999 ->
     len (fullText
            (loadChunks (Some (saveChunks writeJson None cs meta).1))) =
     len txt + (Z.of_nat (length cs) - 1) * (overlap + 2)).
Proof.
  intros Ht Ho Hfuel.
  destruct (ChunkerFacts.chunkText_loop_runs txt target overlap Ho fuel 0 [])
    as (cs & Hrun & Hcs); [lia..|].
  exists cs. split; [exact Hrun|].
  simpl in Hrun. fold (Chunker.chunkText fuel txt target overlap) in Hrun.
  pose proof (ChunksFrom_totalLength txt target overlap Ho 0 cs Hcs
                ltac:(lia)) as Htotal.
  split; [lia|]. intros Hn.
  rewrite (saveChunks_listing writeJson None cs meta)
    by (done || intros f _; apply lookup_empty).
  unfold fullText. rewrite map_map. cbn [text].
  pose proof (saved_texts writeJson None cs meta Hn) as Hst.
  unfold jsstring in *. rewrite Hst. clear Hst.
  assert (map Chunker.text cs <> []) as Hne.
  { clear -Hcs. inversion Hcs; discriminate. }
  rewrite (len_join _ _ Hne).
  rewrite fold_left_texts. fold (totalTextLength cs).
  rewrite length_map, Htotal. change (len [LF; LF]) with 2. lia.
Qed.

Lemma overlap_is_kept_witness :
  exists cs,
    Chunker.chunkText 10 (str "abcdefg") 4 1 = Some cs /\
    totalTextLength cs = 7 + (Z.of_nat (length cs) - 1) * 1 /\
    (Z.of_nat (length cs) <= 9999 ->
     len (fullText
            (loadChunks
               (Some (saveChunks (fun _ : Index unit => str "{}") None cs
                        tt).1))) =
     7 + (Z.of_nat (length cs) - 1) * (1 + 2)).
Proof.
  apply (overlap_is_kept (fun _ : Index unit => str "{}")
           (str "abcdefg") 4 1 10 tt); [lia|lia|].
  vm_compute. split; reflexivity.
Defined.

End ContextFacts.

(* ===================================================================== *)
(** * The partnership: territory, payments and the hard constraints *)
(* ===================================================================== *)

Module PartnershipFacts.
Import JS Regex Num Manual JSFacts RegexFacts RegexSem RegexSemFacts.
Import Accession Money MoneySignFacts EventKind EventKindFacts Constraints.

(** A match of [/\b(t1|...|tn)\b/i]. *)
Lemma Matches_word_pattern (terms : list string) pre w post :
  terms <> [] ->
  Matches true (seqs [WordB; Group 1 (alts (map lit terms)); WordB])
          pre w post ->
  exists t, In t terms /\ ci_eq w (str t) /\
            boundary pre (w ++ post) /\ boundary (pre ++ w) post.
Proof.
  intros Hne H. cbn [seqs] in H.
  apply Matches_Seq in H as (w1 & w' & -> & H1 & H).
  apply Matches_WordB in H1 as [-> Hb1]. rewrite app_nil_r in H.
  apply Matches_Seq in H as (w2 & w3 & -> & H2 & H3).
  apply Matches_WordB in H3 as [-> Hb3]. rewrite app_nil_r in *.
  apply Matches_Group in H2.
  apply Matches_alts_lit in H2 as (t & Ht & Hw); [|done].
  exists t. simpl in *. done.
Qed.

(** ** The territory *)

Lemma territory_of companyName fullText contextWindow :
  territory (buildPartnership companyName fullText contextWindow).1 =
  matched <$> exec true re_territory contextWindow.
Proof.
  unfold buildPartnership.
  repeat match goal with
         | |- context [let '(_, _) := ?x in _] => destruct x
         end.
  reflexivity.
Qed.

Lemma dot_upper d : toUpperChar d = ch "." -> d = ch ".".
Proof. destruct d as [[] [] [] [] [] [] [] []]; vm_compute; congruence. Qed.

(** X23 (run, the territory).  A partnership has no territory exactly when
    the context window holds none of worldwide, globally, global, United
    States, U.S., outside the U.S. as a whole word, up to case.  A
    territory is such a part of the context window; for "U.S." and
    "outside the U.S." the character after the last period is then a
    letter, a digit or an underscore: in front of a blank, or at the end
    of the text, these two are not found. *)
Theorem territory_vocabulary companyName fullText contextWindow :
  (territory (buildPartnership companyName fullText contextWindow).1 = None
   <-> ~ containsWord TERRITORY_WORDS contextWindow) /\
  forall t,
    territory (buildPartnership companyName fullText contextWindow).1
      = Some t ->
    exists pre post term,
      contextWindow = pre ++ t ++ post /\
      In term TERRITORY_WORDS /\ ci_eq t (str term) /\
      boundary pre (t ++ post) /\ boundary (pre ++ t) post /\
      (term = "U.S."%string \/ term = "outside the U.S."%string ->
       exists c post', post = c :: post' /\ isWordChar c = true).
Proof.
  rewrite territory_of. split.
  - rewrite <- (test_word_pattern TERRITORY_WORDS) by done.
    change (seqs [WordB; Group 1 (alts (map lit TERRITORY_WORDS)); WordB])
      with re_territory.
    unfold test. destruct (exec true re_territory contextWindow); simpl.
    + split; [done|]. intros H. by destruct H.
    + split; [by intros _ ?|done].
  - intros t Ht.
    destruct (exec true re_territory contextWindow) as [m|] eqn:Hexec;
      [|done].
    injection Ht as <-.
    apply exec_Matches in Hexec as (pre & post & Hs & _ & HM & _).
    change re_territory
      with (seqs [WordB; Group 1 (alts (map lit TERRITORY_WORDS)); WordB])
      in HM.
    apply Matches_word_pattern in HM as (term & Hterm & Hw & Hb1 & Hb2);
      [|done].
    exists pre, post, term. repeat (split; [done|]).
    intros Hus.
    assert (last (matched m) = Some (ch ".")) as Hlast.
    { destruct Hus as [-> | ->].
      - change (str "U.S.") with (str "U.S" ++ [ch "."]) in Hw.
        apply ci_eq_app_inv in Hw as (w1 & w2 & -> & _ & H2).
        destruct w2 as [|d [|? ?]]; [done| |done].
        injection H2 as H2. apply dot_upper in H2 as ->.
        by rewrite last_snoc.
      - change (str "outside the U.S.")
          with (str "outside the U.S" ++ [ch "."]) in Hw.
        apply ci_eq_app_inv in Hw as (w1 & w2 & -> & _ & H2).
        destruct w2 as [|d [|? ?]]; [done| |done].
        injection H2 as H2. apply dot_upper in H2 as ->.
        by rewrite last_snoc. }
    unfold boundary in Hb2. rewrite last_app, Hlast in Hb2.
    destruct post as [|c post']; [done|]. exists c, post'.
    split; [done|]. simpl in Hb2.
    destruct (isWordChar c); [done|]. by destruct Hb2.
Qed.

(** ** The milestone payments *)

Lemma milestoneLoop_exceeds contextWindow upfront : forall patterns t amt,
  milestoneLoop patterns contextWindow upfront = Some (t, amt) ->
  nonneg amt /\ truthy amt = true /\
  forall u, upfront = Some (Some u) -> truthy u = true -> gtb amt u = true.
Proof.
  induction patterns as [|p patterns IH]; intros t amt; [done|].
  cbn [milestoneLoop].
  destruct (exec true p contextWindow) as [m|]; [|apply IH].
  destruct (parseMoneyToUSD (group m 1)) as [a|] eqn:Ha; [|apply IH].
  destruct (truthy a && gtb a _) eqn:Hc; [|apply IH].
  intros [= _ <-]. apply andb_true_iff in Hc as [Ht Hg].
  split.
  - destruct (group m 1) as [[|c g]|]; [done| |done].
    rewrite MoneyFacts.parseMoneyToUSD_cleaned in Ha.
    by apply matchMoney_nonneg in Ha.
  - split; [done|]. intros u -> Hu. by rewrite Hu in Hg.
Qed.

Lemma payments_of companyName fullText contextWindow :
  exists upfront,
    upfrontPaymentUSD (buildPartnership companyName fullText contextWindow).1
      = upfront /\
    milestonesUSD (buildPartnership companyName fullText contextWindow).1 =
      snd <$> milestoneLoop milestonePatterns contextWindow upfront.
Proof.
  unfold buildPartnership.
  repeat match goal with
         | |- context [let '(_, _) := ?x in _] => destruct x
         end.
  eexists. split; reflexivity.
Qed.

(** X24 (run, the milestone payments).  The milestone payments of a
    partnership, when there are any, are a positive amount, and they are
    greater than the upfront payment when there is one other than 0. *)
Theorem milestones_exceed_upfront companyName fullText contextWindow amt :
  milestonesUSD (buildPartnership companyName fullText contextWindow).1
    = Some amt ->
  nonneg amt /\ truthy amt = true /\
  forall u,
    upfrontPaymentUSD (buildPartnership companyName fullText contextWindow).1
      = Some (Some u) ->
    truthy u = true -> gtb amt u = true.
Proof.
  destruct (payments_of companyName fullText contextWindow)
    as (upfront & -> & ->).
  destruct (milestoneLoop milestonePatterns contextWindow upfront)
    as [[t a]|] eqn:Hm; [|done].
  intros [= <-]. by eapply milestoneLoop_exceeds.
Qed.

Lemma milestones_exceed_upfront_witness :
  gtb (of_Z 100000000) (of_Z 5000000) = true.
Proof.
  refine (proj2 (proj2 (milestones_exceed_upfront None []
    (str "an upfront payment of $5 million and up to $100 million")
    (of_Z 100000000) _)) (of_Z 5000000) _ _).
  - vm_compute. reflexivity.
  - vm_compute. reflexivity.
  - reflexivity.
Defined.

(** ** The hard constraint on the partner names *)

Lemma fragment_spec name :
  test true re_fragment name = true <-> containsWord FRAGMENT_WORDS name.
Proof.
  change re_fragment
    with (seqs [WordB; Group 1 (alts (map lit FRAGMENT_WORDS)); WordB]).
  by apply test_word_pattern.
Qed.

Lemma notAName_spec name :
  test true re_notAName name = true <-> containsWord NOT_A_NAME_WORDS name.
Proof.
  change re_notAName
    with (seqs [WordB; Group 1 (alts (map lit NOT_A_NAME_WORDS)); WordB]).
  by apply test_word_pattern.
Qed.

Lemma ci_eq_trans a b c : ci_eq a b -> ci_eq b c -> ci_eq a c.
Proof. unfold ci_eq. congruence. Qed.

(** A term of the hard constraint is, up to case, a term that the "with"
    pattern refuses. *)
Lemma fragment_is_notAName name :
  containsWord FRAGMENT_WORDS name -> containsWord NOT_A_NAME_WORDS name.
Proof.
  intros (p & q & r & t & Hs & Ht & Hq & Hb).
  unfold FRAGMENT_WORDS in Ht. cbn [In] in Ht.
  destruct Ht as [<-|[<-|[<-|[<-|[<-|[]]]]]].
  - exists p, q, r, "provisions"%string.
    split; [done|]. split; [right; by left|done].
  - exists p, q, r, "warranties"%string.
    split; [done|]. split; [do 2 right; by left|done].
  - exists p, q, r, "obligations"%string.
    split; [done|]. split; [do 3 right; by left|done].
  - exists p, q, r, "Agreement"%string.
    split; [done|]. split; [by left|]. split; [|done].
    eapply ci_eq_trans; [exact Hq|]. reflexivity.
  - exists p, q, r, "contains"%string.
    split; [done|]. split; [do 6 right; by left|done].
Qed.

Lemma withPartner_not_fragment contextWindow partner :
  withPartner contextWindow = Some partner -> fragment (Some partner) = false.
Proof.
  unfold withPartner.
  destruct (exec true withPartnerPattern contextWindow) as [m|]; [|done].
  cbv zeta.
  generalize (dropLast isCommaOrDot (trim (default [] (group m 1)))).
  intros name.
  destruct (wordCount name <=? 10) eqn:Hwc; [|done].
  destruct (test true re_notAName name) eqn:Hn; [done|].
  intros [= <-]. unfold fragment. cbn [default].
  apply andb_false_iff. right. apply orb_false_iff. split.
  - destruct (test true re_fragment name) eqn:Hf; [|done].
    apply fragment_spec, fragment_is_notAName, notAName_spec in Hf.
    congruence.
  - apply Z.ltb_ge. by apply Z.leb_le.
Qed.

Lemma SHA256_INVALID_other pd : SHA256_INVALID pd <> INVALID_PARTNER_B.
Proof. discriminate. Qed.

(** X25 (run, partner B of the "with" pattern).  A partner B that the
    pattern "with <name>" yields never raises the hard constraint
    "Invalid partnerB": the pattern keeps only names of at most 10 words
    without any of the terms of the constraint. *)
Theorem with_partner_passes doc event provDocs p contextWindow b :
  withPartner contextWindow = Some b ->
  partnerB p = Some b ->
  INVALID_PARTNER_B ∉ hardConstraints doc event provDocs (Some p).
Proof.
  intros Hwith Hb. unfold hardConstraints.
  rewrite Hb, (withPartner_not_fragment _ _ Hwith).
  rewrite !not_elem_of_app. repeat split.
  - destruct (accessionInvalid _); [|apply not_elem_of_nil].
    by intros [=]%list_elem_of_singleton.
  - destruct (falsy (filedDate doc)); [|apply not_elem_of_nil].
    by intros [=]%list_elem_of_singleton.
  - destruct (falsy (secItem event)); [|apply not_elem_of_nil].
    by intros [=]%list_elem_of_singleton.
  - destruct (_ || _); [|apply not_elem_of_nil].
    by intros [=]%list_elem_of_singleton.
  - induction provDocs as [|pd provDocs IH]; [apply not_elem_of_nil|].
    cbn [flat_map]. rewrite not_elem_of_app. split; [|exact IH].
    destruct (_ || _); [|apply not_elem_of_nil].
    intros H%list_elem_of_singleton. by apply (SHA256_INVALID_other pd).
  - destruct (fragment (partnerA p)); [|apply not_elem_of_nil].
    by intros [=]%list_elem_of_singleton.
  - apply not_elem_of_nil.
Qed.

Lemma with_partner_passes_witness :
  INVALID_PARTNER_B ∉
  hardConstraints (mkDoc None (str "8-K") None None None)
    (mkEvent None None None None None None) []
    (Some (mkPartnership None (Some (str "Beta Pharma Corp")) None None None
             None)).
Proof.
  apply (with_partner_passes _ _ _ _
           (str "a collaboration with Beta Pharma Corp.")
           (str "Beta Pharma Corp")).
  - vm_compute. reflexivity.
  - reflexivity.
Defined.

End PartnershipFacts.

(* ===================================================================== *)
(** * The company name *)
(* ===================================================================== *)

Module CompanyFacts.
Import JS Regex Manual JSFacts RegexFacts RegexSem RegexSemFacts.
Import RegexCaptures RegexCapturesFacts EventKind EventKindFacts.
Import Accession Context Constraints Company.

(** ** The endings *)

Lemma Matches_dot_opt b w a :
  Matches true dot_opt b w a -> w = [] \/ w = str ".".
Proof.
  unfold dot_opt. rewrite Matches_opt.
  intros [->|[_ H]]; [by left|]. right.
  apply Matches_Chr in H as (d & -> & Hd).
  unfold canon in Hd. apply char_eqb_eq in Hd.
  symmetry in Hd. apply PartnershipFacts.dot_upper in Hd. by subst.
Qed.

Lemma Matches_lit_dot t b w a :
  Matches true (Seq (lit t) dot_opt) b w a ->
  exists suffix dots,
    w = suffix ++ dots /\ ci_eq suffix (str t) /\
    (dots = [] \/ dots = str ".").
Proof.
  intros H. apply Matches_Seq in H as (w1 & w2 & -> & H1 & H2).
  apply Matches_lit_chars in H1. apply Matches_dot_opt in H2.
  by exists w1, w2.
Qed.

Lemma Matches_company_suffix b w a :
  Matches true company_suffix b w a ->
  exists suffix dots t,
    w = suffix ++ dots /\ In t SUFFIXES /\ ci_eq suffix (str t) /\
    (dots = [] \/ dots = str ".").
Proof.
  unfold company_suffix. cbn [alts].
  repeat (rewrite Matches_Alt; intros [H|H]; revert H);
    try (intros H; apply Matches_lit_dot in H as (s & d & -> & Hs & Hd));
    try (intros H; apply Matches_lit_chars in H).
  - exists s, d, "Inc"%string. split; [done|]. split; [|done]. by left.
  - exists w, [], "Corporation"%string. rewrite app_nil_r.
    split; [done|]. split; [|by split; [|left]]. right. by left.
  - exists s, d, "Corp"%string. split; [done|]. split; [|done].
    do 2 right. by left.
  - exists s, d, "Ltd"%string. split; [done|]. split; [|done].
    do 3 right. by left.
  - exists w, [], "LLC"%string. rewrite app_nil_r.
    split; [done|]. split; [|by split; [|left]]. do 4 right. by left.
  - exists w, [], "Pharmaceuticals"%string. rewrite app_nil_r.
    split; [done|]. split; [|by split; [|left]]. do 5 right. by left.
  - exists w, [], "Holdings"%string. rewrite app_nil_r.
    split; [done|]. split; [|by split; [|left]]. do 6 right. by left.
  - exists w, [], "Technologies"%string. rewrite app_nil_r.
    split; [done|]. split; [|by split; [|left]]. do 7 right. by left.
  - exists w, [], "Systems"%string. rewrite app_nil_r.
    split; [done|]. split; [|by split; [|left]]. do 8 right. by left.
  - exists w, [], "Group"%string. rewrite app_nil_r.
    split; [done|]. split; [|by split; [|left]]. do 9 right. by left.
  - exists w, [], "PLC"%string. rewrite app_nil_r.
    split; [done|]. split; [|by split; [|left]]. do 10 right. by left.
  - exists w, [], "AG"%string. rewrite app_nil_r.
    split; [done|]. split; [|by split; [|left]]. do 11 right. by left.
  - exists w, [], "GmbH"%string. rewrite app_nil_r.
    split; [done|]. split; [|by split; [|left]]. do 12 right. by left.
Qed.

(** ** What the first group of the patterns holds *)

Lemma item101Pattern_group text m :
  exec true item101Pattern text = Some m ->
  exists w b a,
    group m 1 = Some w /\ Matches true (company_name 3) b w a /\
    substring_of w text.
Proof.
  intros H. apply exec_Captures in H as (pre & post & Hs & _ & H).
  unfold item101Pattern in H. cbn [seqs] in H.
  apply Captures_Seq in H as (w1 & r1 & cs1 & Hw1 & H1 & H).
  apply Captures_plain_inv in H1 as [_ ->]; [|reflexivity].
  apply Captures_Seq in H as (w2 & r2 & cs2 & Hw2 & H2 & H).
  apply Captures_plain_inv in H2 as [_ ->]; [|reflexivity].
  apply Captures_Seq in H as (w3 & r3 & cs3 & Hw3 & H3 & H).
  apply Captures_Group in H3 as (cs3' & -> & H3).
  apply Captures_plain_inv in H3 as [H3 ->]; [|reflexivity].
  apply Captures_plain_inv in H as [_ Hc]; [|reflexivity].
  unfold group. rewrite Hc. eexists w3, _, _.
  split; [apply capture_head|]. split; [exact H3|].
  exists (pre ++ w1 ++ w2), (r3 ++ post).
  rewrite Hs, Hw1, Hw2, Hw3. by rewrite <- !app_assoc.
Qed.

Lemma beforeItemPattern_group text m :
  exec true beforeItemPattern text = Some m ->
  exists w b a,
    group m 1 = Some w /\ Matches true (company_name 5) b w a /\
    substring_of w text.
Proof.
  intros H. apply exec_Captures in H as (pre & post & Hs & _ & H).
  unfold beforeItemPattern in H. cbn [seqs] in H.
  apply Captures_Seq in H as (w3 & r3 & cs3 & Hw3 & H3 & H).
  apply Captures_Group in H3 as (cs3' & -> & H3).
  apply Captures_plain_inv in H3 as [H3 ->]; [|reflexivity].
  apply Captures_plain_inv in H as [_ Hc]; [|reflexivity].
  unfold group. rewrite Hc. eexists w3, _, _.
  split; [apply capture_head|]. split; [exact H3|].
  exists pre, (r3 ++ post). rewrite Hs, Hw3. by rewrite <- !app_assoc.
Qed.

Lemma exactNamePattern_group text m :
  exec true exactNamePattern text = Some m ->
  exists w b a,
    group m 1 = Some w /\
    Matches true (Seq (company_name 5) dot_opt) b w a /\
    substring_of w text.
Proof.
  intros H. apply exec_Captures in H as (pre & post & Hs & _ & H).
  unfold exactNamePattern in H. cbn [seqs] in H.
  apply Captures_Seq in H as (w1 & r1 & cs1 & Hw1 & H1 & H).
  apply Captures_plain_inv in H1 as [_ ->]; [|reflexivity].
  apply Captures_Seq in H as (w2 & r2 & cs2 & Hw2 & H2 & H).
  apply Captures_plain_inv in H2 as [_ ->]; [|reflexivity].
  apply Captures_Seq in H as (w3 & r3 & cs3 & Hw3 & H3 & H).
  apply Captures_plain_inv in H3 as [_ ->]; [|reflexivity].
  apply Captures_Seq in H as (w4 & r4 & cs4 & Hw4 & H4 & H).
  apply Captures_plain_inv in H4 as [_ ->]; [|reflexivity].
  apply Captures_Seq in H as (w5 & r5 & cs5 & Hw5 & H5 & H).
  apply Captures_Group in H5 as (cs5' & -> & H5).
  apply Captures_plain_inv in H5 as [H5 ->]; [|reflexivity].
  apply Captures_plain_inv in H as [_ Hc]; [|reflexivity].
  unfold group. rewrite Hc. eexists w5, _, _.
  split; [apply capture_head|]. split; [exact H5|].
  exists (pre ++ w1 ++ w2 ++ w3 ++ w4), (r5 ++ post).
  rewrite Hs, Hw1, Hw2, Hw3, Hw4, Hw5. by rewrite <- !app_assoc.
Qed.

(** ** The shape of a name *)

Lemma letter_plain u :
  class_mem true [cr "A" "Z"] u = true -> isCommaOrSpace u = false.
Proof. destruct u as [[] [] [] [] [] [] [] []]; vm_compute; congruence. Qed.

Lemma isCommaOrSpace_upper d :
  isCommaOrSpace (toUpperChar d) = isCommaOrSpace d.
Proof. destruct d as [[] [] [] [] [] [] [] []]; reflexivity. Qed.

Lemma isCommaOrSpace_ws d : isCommaOrSpace d = false -> isWhiteSpace d = false.
Proof. unfold isCommaOrSpace. by intros [_ ?]%orb_false_iff. Qed.

(** The last character of a string that is [t ++ [c]] up to case. *)
Lemma ci_eq_last w t c :
  ci_eq w (t ++ [c]) ->
  exists w' d, w = w' ++ [d] /\ toUpperChar d = toUpperChar c.
Proof.
  intros H. apply ci_eq_app_inv in H as (w1 & w2 & -> & _ & H2).
  destruct w2 as [|d [|? ?]]; [done| |done].
  injection H2 as H2. by exists w1, d.
Qed.

(** The last character of a literal. *)
Ltac last_char :=
  match goal with
  | |- exists i c, str ?t = i ++ [c] /\ _ =>
      exists (removelast (str t)), (List.last (str t) Ascii.zero);
      split; [reflexivity|first [reflexivity|vm_compute; congruence]]
  end.

Lemma suffix_last t suffix :
  In t SUFFIXES -> ci_eq suffix (str t) ->
  exists s' d, suffix = s' ++ [d] /\ isCommaOrSpace d = false.
Proof.
  intros Ht Hs.
  assert (exists i c, str t = i ++ [c] /\ isCommaOrSpace c = false)
    as (i & c & Hi & Hc).
  { unfold SUFFIXES in Ht. cbn [In] in Ht.
    repeat (destruct Ht as [<-|Ht]; [last_char|]).
    done. }
  rewrite Hi in Hs. apply ci_eq_last in Hs as (s' & d & -> & Hd).
  exists s', d. split; [done|].
  by rewrite <- isCommaOrSpace_upper, Hd, isCommaOrSpace_upper.
Qed.

Lemma Matches_company_name lo b w a :
  Matches true (company_name lo) b w a ->
  exists u body suffix dots t,
    w = u :: body ++ suffix ++ dots /\ isCommaOrSpace u = false /\
    In t SUFFIXES /\ ci_eq suffix (str t) /\ (dots = [] \/ dots = str ".").
Proof.
  unfold company_name. cbn [seqs]. intros H.
  apply Matches_Seq in H as (w1 & r1 & -> & H1 & H).
  apply Matches_Class in H1 as (u & -> & Hu).
  apply Matches_Seq in H as (w2 & w3 & -> & _ & H3).
  apply Matches_company_suffix in H3 as (s & d & t & -> & Ht & Hs & Hd).
  exists u, w2, s, d, t. split; [done|]. split; [|done].
  apply letter_plain. by destruct (class_mem true [cr "A" "Z"] u).
Qed.

Lemma skip_keeps p d s : p d = false -> skip p (d :: s) = d :: s.
Proof. simpl. by intros ->. Qed.

Lemma stripEnd_id p s d :
  last s = Some d -> p d = false -> stripEnd p s = s.
Proof.
  intros Hl Hd. apply last_Some in Hl as [s' ->].
  unfold stripEnd. rewrite rev_app_distr. simpl. rewrite Hd. simpl.
  by rewrite rev_involutive.
Qed.

(** A name with a first and a last character that are neither white space
    nor a comma is taken as it is. *)
Lemma candidate_id u r d :
  isCommaOrSpace u = false -> last (u :: r) = Some d ->
  isCommaOrSpace d = false ->
  trim (u :: r) = u :: r /\
  stripEnd isCommaOrSpace (trim (u :: r)) = u :: r.
Proof.
  intros Hu Hl Hd.
  assert (trim (u :: r) = u :: r) as Ht.
  { apply (MoneyFacts.trim_id _ u r); [done|by apply isCommaOrSpace_ws|].
    unfold endsClean. rewrite Hl. by apply isCommaOrSpace_ws. }
  split; [done|]. rewrite Ht. by eapply stripEnd_id.
Qed.

Lemma dot_plain : isCommaOrSpace (ch ".") = false.
Proof. reflexivity. Qed.

(** The last character of a name. *)
Lemma name_last body suffix dots t :
  In t SUFFIXES -> ci_eq suffix (str t) ->
  (dots = [] \/ dots = str "." \/ dots = str "..") ->
  exists d, last (body ++ suffix ++ dots) = Some d /\
            isCommaOrSpace d = false.
Proof.
  intros Ht Hs Hd.
  destruct (suffix_last t suffix Ht Hs) as (s' & d & -> & Hdp).
  destruct Hd as [->|[->| ->]].
  - exists d. by rewrite app_nil_r, app_assoc, last_snoc.
  - exists (ch "."). split; [|done].
    change (str ".") with ([ch "."]). by rewrite !app_assoc, last_snoc.
  - exists (ch "."). split; [|done].
    change (str "..") with ([ch "."] ++ [ch "."]).
    by rewrite !app_assoc, last_snoc.
Qed.

Lemma corporate_nonempty name : corporate name -> name <> [].
Proof.
  intros (body & suffix & dots & t & -> & Ht & Hs & Hd) Hnil.
  apply app_eq_nil in Hnil as [_ Hnil]. apply app_eq_nil in Hnil as [-> _].
  destruct (suffix_last t [] Ht Hs) as (s' & d & Heq & _).
  by destruct s'.
Qed.

(** No name ends like "Not applicable". *)
Lemma corporate_applicable : ~ corporate NOT_APPLICABLE.
Proof.
  intros (body & suffix & dots & t & Heq & Ht & Hs & Hd).
  assert (last (body ++ suffix ++ dots) = Some (ch "e")) as Hl
    by (by rewrite <- Heq).
  destruct Hd as [->|[->| ->]].
  - rewrite app_nil_r in *.
    assert (exists i c, str t = i ++ [c] /\
                        toUpperChar c <> toUpperChar (ch "e"))
      as (i & c & Hi & Hc).
    { unfold SUFFIXES in Ht. cbn [In] in Ht.
      repeat (destruct Ht as [<-|Ht]; [last_char|]).
      done. }
    rewrite Hi in Hs. apply ci_eq_last in Hs as (s' & d & -> & Hd).
    rewrite app_assoc, last_snoc in Hl. injection Hl as ->.
    apply Hc. symmetry. exact Hd.
  - change (str ".") with ([ch "."]) in Hl.
    rewrite !app_assoc, last_snoc in Hl. discriminate Hl.
  - change (str "..") with ([ch "."] ++ [ch "."]) in Hl.
    rewrite !app_assoc, last_snoc in Hl. discriminate Hl.
Qed.

(** ** The candidates of the strategies *)

Lemma company_name_candidate lo b w a :
  Matches true (company_name lo) b w a ->
  stripEnd isCommaOrSpace (trim w) = w /\ corporate w.
Proof.
  intros H.
  apply Matches_company_name in H
    as (u & body & suffix & dots & t & -> & Hu & Ht & Hs & Hd).
  assert (dots = [] \/ dots = str "." \/ dots = str "..") as Hd'
    by (destruct Hd; auto).
  destruct (name_last (u :: body) suffix dots t Ht Hs Hd')
    as (d & Hl & Hdp).
  split.
  - by apply (candidate_id u (body ++ suffix ++ dots) d).
  - by exists (u :: body), suffix, dots, t.
Qed.

Lemma strategy1_name text name :
  strategy1 text = Some name ->
  substring_of name text /\ wordCount name <= 8 /\ corporate name.
Proof.
  unfold strategy1.
  destruct (exec true item101Pattern text) as [m|] eqn:Hm; [|done].
  apply item101Pattern_group in Hm as (w & b & a & -> & HM & Hsub).
  change (default [] (Some w)) with w. cbv zeta.
  apply company_name_candidate in HM as [-> Hcorp].
  destruct (negb _ && (wordCount w <=? 8)) eqn:Hc; [|done].
  intros [= <-]. apply andb_true_iff in Hc as [_ Hc%Z.leb_le]. done.
Qed.

Lemma strategy2_name text name :
  strategy2 text = Some name ->
  substring_of name text /\ wordCount name <= 8 /\ corporate name.
Proof.
  unfold strategy2.
  destruct (exec true beforeItemPattern text) as [m|] eqn:Hm; [|done].
  apply beforeItemPattern_group in Hm as (w & b & a & -> & HM & Hsub).
  change (default [] (Some w)) with w. cbv zeta.
  apply company_name_candidate in HM as [-> Hcorp].
  destruct (negb _ && (wordCount w <=? 8)) eqn:Hc; [|done].
  intros [= <-]. apply andb_true_iff in Hc as [_ Hc%Z.leb_le]. done.
Qed.

Lemma strategy4_name text name :
  strategy4 text = Some name ->
  substring_of name text /\ wordCount name <= 8 /\ corporate name.
Proof.
  unfold strategy4.
  destruct (exec true exactNamePattern text) as [m|] eqn:Hm; [|done].
  apply exactNamePattern_group in Hm as (w & b & a & -> & HM & Hsub).
  change (default [] (Some w)) with w. cbv zeta.
  apply Matches_Seq in HM as (w1 & w2 & -> & HM & Hdot).
  apply Matches_company_name in HM
    as (u & body & suffix & dots & t & -> & Hu & Ht & Hs & Hd).
  apply Matches_dot_opt in Hdot.
  assert (dots ++ w2 = [] \/ dots ++ w2 = str "." \/ dots ++ w2 = str "..")
    as Hd'.
  { destruct Hd as [->| ->], Hdot as [->| ->]; auto. }
  assert ((u :: body ++ suffix ++ dots) ++ w2 =
          u :: body ++ suffix ++ dots ++ w2) as Heq
    by (by rewrite <- !app_comm_cons, <- !app_assoc).
  rewrite Heq in *.
  destruct (name_last (u :: body) suffix (dots ++ w2) t Ht Hs Hd')
    as (d & Hl & Hdp).
  destruct (candidate_id u (body ++ suffix ++ dots ++ w2) d Hu Hl Hdp)
    as [-> _].
  destruct (negb _ && (wordCount _ <=? 8)) eqn:Hc; [|done].
  intros [= <-]. apply andb_true_iff in Hc as [_ Hc%Z.leb_le].
  split; [done|]. split; [done|].
  by exists (u :: body), suffix, (dots ++ w2), t.
Qed.

(** ** The lines of the header *)

Lemma beforeBreak_prefix cur : exists post, cur = beforeBreak cur ++ post.
Proof.
  unfold beforeBreak. destruct (last cur) as [c|]; [|by exists []; rewrite app_nil_r].
  destruct (char_eqb c CR); [|by exists []; rewrite app_nil_r].
  exists (drop (length cur - 1) cur). by rewrite take_drop.
Qed.

Lemma splitLines_aux_substring s : forall cur line,
  line ∈ splitLines_aux s cur -> substring_of line (cur ++ s).
Proof.
  induction s as [|c s IH]; intros cur line; cbn [splitLines_aux].
  - intros ->%list_elem_of_singleton. rewrite app_nil_r.
    apply substring_of_refl.
  - destruct (char_eqb c LF).
    + intros [->|H]%elem_of_cons.
      * destruct (beforeBreak_prefix cur) as [post Hp].
        exists [], (post ++ c :: s). rewrite Hp at 1.
        by rewrite <- app_assoc.
      * apply (IH [] line) in H. destruct H as (p & q & Hs).
        exists (cur ++ c :: p), q. simpl in Hs. rewrite Hs.
        by rewrite <- app_assoc.
    + intros H. apply IH in H. by rewrite <- app_assoc in H.
Qed.

Lemma Matches_lineSuffix pre w post :
  Matches true re_lineSuffix pre w post ->
  endsClean (pre ++ w ++ post) ->
  exists suffix dots t,
    w = suffix ++ dots /\ post = [] /\ In t SUFFIXES /\
    ci_eq suffix (str t) /\
    (dots = [] \/ dots = str "." \/ dots = str "..").
Proof.
  unfold re_lineSuffix. cbn [seqs]. intros H Hclean.
  apply Matches_Seq in H as (w1 & r1 & -> & H1 & H).
  apply Matches_company_suffix in H1 as (s & d & t & -> & Ht & Hs & Hd).
  apply Matches_Seq in H as (w2 & r2 & -> & H2 & H).
  apply Matches_dot_opt in H2.
  apply Matches_Seq in H as (w3 & w4 & -> & H3 & H4).
  apply Matches_Eol in H4 as [-> ->].
  apply Matches_Rep_class in H3 as [_ Hws].
  assert (w3 = []) as ->.
  { destruct (last w3) as [c|] eqn:Hl; [|by apply last_None in Hl].
    exfalso. unfold endsClean in Hclean.
    rewrite !app_nil_r, !last_app, Hl in Hclean.
    apply last_Some_elem_of in Hl. rewrite Forall_forall in Hws.
    specialize (Hws c Hl). cbn in Hws. rewrite orb_false_r in Hws.
    destruct (isWhiteSpace c) eqn:Hc; [done|].
    revert Hws Hc. clear.
    destruct c as [[] [] [] [] [] [] [] []]; vm_compute; congruence. }
  exists s, (d ++ w2), t. rewrite !app_nil_r, <- app_assoc.
  split; [done|]. split; [done|]. split; [done|]. split; [done|].
  destruct Hd as [->| ->], H2 as [->| ->]; auto.
Qed.

Lemma strategy5_name text name :
  strategy5 text = Some name ->
  substring_of name text /\ wordCount name <= 8 /\ corporate name.
Proof.
  unfold strategy5.
  destruct (exec true headerPattern text) as [m|] eqn:Hm; [|done].
  intros Hfind. apply find_some in Hfind as [Hin Hline].
  apply in_map_iff in Hin as (line & <- & Hin).
  apply list_elem_of_In in Hin.
  apply (splitLines_aux_substring _ []) in Hin. simpl in Hin.
  apply exec_Matches in Hm as (pre & post & Hs & _).
  unfold headerLine in Hline.
  repeat (apply andb_true_iff in Hline as [Hline ?]).
  split; [|split; [by apply Z.leb_le|]].
  - eapply substring_of_trans; [apply trim_substring|].
    eapply substring_of_trans; [exact Hin|]. by exists pre, post.
  - apply test_occurs in Hline as (p & w & q & Heq & HM).
    pose proof (proj1 (trim_shape line)) as Hclean. rewrite Heq in Hclean.
    apply Matches_lineSuffix in HM
      as (suffix & dots & t & -> & -> & Ht & Hsuf & Hd); [|done].
    rewrite Heq, app_nil_r. by exists p, suffix, dots, t.
Qed.

Lemma strategy3_name company_name :
  strategy3 company_name = true ->
  exists name,
    company_name = Some name /\ name <> [] /\ name <> NOT_APPLICABLE /\
    3 < len name /\ ~ containsWord REFUSED3 name.
Proof.
  unfold strategy3. intros H.
  apply andb_true_iff in H as [H H4]. apply andb_true_iff in H as [H H3].
  apply andb_true_iff in H as [H1 H2].
  destruct company_name as [[|c name]|]; [done| |done].
  change (default [] (Some (c :: name))) with (c :: name) in *.
  exists (c :: name). split; [done|]. split; [done|]. split.
  - intros Heq. rewrite Heq in H2.
    by rewrite bool_decide_eq_true_2 in H2.
  - split; [by apply Z.ltb_lt|].
    intros Hc.
    apply (test_word_pattern REFUSED3) in Hc; [|done].
    change (seqs [WordB; Group 1 (alts (map lit REFUSED3)); WordB])
      with re_refused3 in Hc.
    by rewrite Hc in H4.
Qed.

Lemma extractCompanyName_cases text company_name name :
  text <> [] ->
  extractCompanyName (Some text) company_name = Some name ->
  (company_name = Some name /\ name <> [] /\ name <> NOT_APPLICABLE /\
   3 < len name /\ ~ containsWord REFUSED3 name) \/
  (substring_of name text /\ wordCount name <= 8 /\ corporate name).
Proof.
  intros Hne. destruct text as [|c0 text0]; [done|].
  cbn [extractCompanyName]. generalize (c0 :: text0). clear. intros text.
  destruct (strategy1 text) as [c1|] eqn:H1.
  { intros [= <-]. right. by apply strategy1_name. }
  destruct (strategy2 text) as [c2|] eqn:H2.
  { intros [= <-]. right. by apply strategy2_name. }
  destruct (strategy3 company_name) eqn:H3.
  { intros Heq. left.
    apply strategy3_name in H3 as (n & -> & ?). by injection Heq as <-. }
  destruct (strategy4 text) as [c4|] eqn:H4.
  { intros [= <-]. right. by apply strategy4_name. }
  intros H5. right. by apply strategy5_name.
Qed.

(** X26 (extractCompanyName, the names).  For a text that is not empty, a
    company name is either the name of the manifest, which then has more
    than 3 characters, is not "Not applicable" and holds none of the words
    jurisdiction, incorporation, State; or it is a part of the text with at
    most 8 words that ends with one of the endings Inc, Corporation, Corp,
    Ltd, LLC, ..., up to case, and at most two periods.  It is never empty
    and never "Not applicable". *)
Theorem extractCompanyName_names text company_name name :
  text <> [] ->
  extractCompanyName (Some text) company_name = Some name ->
  name <> [] /\ name <> NOT_APPLICABLE /\
  ((company_name = Some name /\ 3 < len name /\
    ~ containsWord REFUSED3 name) \/
   (substring_of name text /\ wordCount name <= 8 /\ corporate name)).
Proof.
  intros Hne H.
  destruct (extractCompanyName_cases text company_name name Hne H)
    as [(? & ? & ? & ? & ?)|(? & ? & Hcorp)].
  - split; [done|]. split; [done|]. by left.
  - split; [by apply corporate_nonempty|]. split.
    + intros ->. by apply corporate_applicable.
    + by right.
Qed.

Lemma extractCompanyName_names_witness :
  str "Acme Pharma Inc." <> [] /\
  str "Acme Pharma Inc." <> NOT_APPLICABLE /\
  ((None = Some (str "Acme Pharma Inc.") /\ 3 < len (str "Acme Pharma Inc.") /\
    ~ containsWord REFUSED3 (str "Acme Pharma Inc.")) \/
   (substring_of (str "Acme Pharma Inc.")
      (str "=== Item 1.01 === Acme Pharma Inc. (the Company) entered into") /\
    wordCount (str "Acme Pharma Inc.") <= 8 /\
    corporate (str "Acme Pharma Inc."))).
Proof.
  apply (extractCompanyName_names
           (str "=== Item 1.01 === Acme Pharma Inc. (the Company) entered into")
           None).
  - discriminate.
  - vm_compute. reflexivity.
Defined.

(** X27 (run, the hard constraint on the company name).  When the full text
    is not empty, the hard constraint "Missing or invalid company name" is
    raised exactly when [extractCompanyName] finds no name. *)
Theorem company_constraint text company_name doc event provDocs partnership :
  text <> [] ->
  companyName doc = extractCompanyName (Some text) company_name ->
  (INVALID_COMPANY ∈ hardConstraints doc event provDocs partnership <->
   companyName doc = None).
Proof.
  intros Hne Hdoc.
  assert (falsy (companyName doc) ||
          bool_decide (companyName doc = Some (str "Not applicable")) = true
          <-> companyName doc = None) as Hcond.
  { destruct (companyName doc) as [name|] eqn:Hname; [|done].
    symmetry in Hdoc.
    destruct (extractCompanyName_cases text company_name name Hne Hdoc)
      as [(_ & Hn & Hna & _)|(_ & _ & Hcorp)].
    - split; [|done]. intros [Hf|Hb%bool_decide_eq_true_1]%orb_true_iff.
      + by destruct name.
      + by injection Hb.
    - split; [|done]. intros [Hf|Hb%bool_decide_eq_true_1]%orb_true_iff.
      + apply corporate_nonempty in Hcorp. by destruct name.
      + injection Hb as ->. by apply corporate_applicable in Hcorp. }
  unfold hardConstraints. rewrite !elem_of_app. split.
  - intros [H|[H|[H|[H|[H|H]]]]].
    + destruct (accessionInvalid _); [|by apply elem_of_nil in H].
      by apply list_elem_of_singleton in H.
    + destruct (falsy (filedDate doc)); [|by apply elem_of_nil in H].
      by apply list_elem_of_singleton in H.
    + destruct (falsy (secItem event)); [|by apply elem_of_nil in H].
      by apply list_elem_of_singleton in H.
    + destruct (falsy (companyName doc) || _) eqn:Hb;
        [by apply Hcond|by apply elem_of_nil in H].
    + exfalso. induction provDocs as [|pd provDocs IH];
        [by apply elem_of_nil in H|].
      cbn [flat_map] in H. apply elem_of_app in H as [H|H]; [|by apply IH].
      destruct (bool_decide (sha256 pd = []) || _);
        [|by apply elem_of_nil in H].
      apply list_elem_of_singleton in H. discriminate H.
    + destruct partnership as [p|]; [|by apply elem_of_nil in H].
      apply elem_of_app in H as [H|H].
      * destruct (fragment (partnerA p)); [|by apply elem_of_nil in H].
        by apply list_elem_of_singleton in H.
      * destruct (fragment (partnerB p)); [|by apply elem_of_nil in H].
        by apply list_elem_of_singleton in H.
  - intros Hnone. do 3 right. left.
    apply Hcond in Hnone. rewrite Hnone. by apply list_elem_of_singleton.
Qed.

Lemma company_constraint_witness :
  INVALID_COMPANY ∈
  hardConstraints (mkDoc None (str "8-K") None None None)
    (mkEvent None None None None None None) [] None.
Proof.
  apply (company_constraint (str "no name in this text") None
           (mkDoc None (str "8-K") None None None)
           (mkEvent None None None None None None) [] None).
  - discriminate.
  - vm_compute. reflexivity.
  - reflexivity.
Defined.

End CompanyFacts.

(* ===================================================================== *)
(** * Fields of the output *)
(* ===================================================================== *)

Module FieldsFacts.
Import JS Regex Manual JSFacts RegexFacts RegexSem RegexSemFacts.
Import RegexCaptures RegexCapturesFacts Accession AccessionFacts.
Import EventKind EventKindFacts Context Fields.

(** ** The CIK *)

(** Without the [i] flag a literal matches itself only. *)
Lemma Matches_lit_exact t : forall b w a,
  Matches false (lit_chars t) b w a <-> w = t.
Proof.
  induction t as [|c t IH]; intros b w a.
  - cbn [lit_chars]. by rewrite Matches_Eps.
  - assert (Matches false (Seq (Chr c) (lit_chars t)) b w a <-> w = c :: t)
      as Hseq.
    { rewrite Matches_Seq. split.
      - intros (w1 & w2 & -> & H1 & H2).
        apply Matches_Chr in H1 as (d & -> & Hd).
        unfold canon in Hd. apply char_eqb_eq in Hd.
        apply IH in H2. by subst.
      - intros ->. exists [c], t. split; [done|]. split.
        + apply Matches_Chr. exists c. split; [done|].
          unfold canon. by apply char_eqb_eq.
        + by apply IH. }
    destruct t as [|c' t]; [|exact Hseq].
    cbn [lit_chars]. rewrite <- Hseq. rewrite Matches_Seq. split.
    + intros H. exists w, []. rewrite app_nil_r. split; [done|].
      split; [|constructor].
      apply Matches_Chr in H as (d & -> & Hd). by constructor.
    + intros (w1 & w2 & -> & H1 & H2). apply Matches_Eps in H2 as ->.
      rewrite app_nil_r. apply Matches_Chr in H1 as (d & -> & Hd).
      by constructor.
Qed.

Lemma Matches_digit_plus b w a :
  Matches false (plus digit_d) b w a -> w <> [] /\ digits w.
Proof.
  unfold plus, digit_d. rewrite Matches_Rep_class. unfold within, digits.
  intros [[Hlo _] Hw]. split; [by destruct w; [simpl in Hlo; lia|]|].
  eapply Forall_impl; [exact Hw|]. intros d Hd. cbv beta in Hd.
  by rewrite class_d in Hd.
Qed.

(** X28 (run, the CIK).  [doc.cik], when it is not [null], is the string of
    digits between "data/" and the next "/" in the primary URL of the
    manifest; it is not empty. *)
Theorem cik_shape primary_url cik :
  cikOf primary_url = Some cik ->
  cik <> [] /\ digits cik /\
  exists pre post,
    primary_url = Some (pre ++ str "data/" ++ cik ++ str "/" ++ post).
Proof.
  unfold cikOf. destruct primary_url as [url|]; [|done].
  destruct (exec false re_cik url) as [m|] eqn:Hm; [|done].
  apply exec_Captures in Hm as (pre & post & Hs & _ & H).
  unfold re_cik in H. cbn [seqs] in H.
  apply Captures_Seq in H as (w1 & r1 & cs1 & Hw1 & H1 & H).
  apply Captures_plain_inv in H1 as [H1 ->]; [|reflexivity].
  apply Matches_lit_exact in H1 as ->.
  apply Captures_Seq in H as (w2 & w3 & cs2 & Hw2 & H2 & H).
  apply Captures_Group in H2 as (cs2' & -> & H2).
  apply Captures_plain_inv in H2 as [H2 ->]; [|reflexivity].
  apply Captures_plain_inv in H as [H Hc]; [|reflexivity].
  apply Matches_Chr in H as (d & -> & Hd).
  unfold canon in Hd. apply char_eqb_eq in Hd. subst d.
  apply Matches_digit_plus in H2 as [Hne Hdig].
  unfold group. rewrite Hc, capture_head.
  destruct w2 as [|c w2]; [done|]. cbn [falsy].
  intros [= <-]. split; [done|]. split; [done|].
  exists pre, post. rewrite Hs, Hw1, Hw2. by rewrite <- !app_assoc.
Qed.

Lemma cik_shape_witness :
  str "1178670" <> [] /\ digits (str "1178670") /\
  exists pre post,
    Some (str "https://www.sec.gov/Archives/edgar/data/1178670/a.htm") =
    Some (pre ++ str "data/" ++ str "1178670" ++ str "/" ++ post).
Proof.
  apply (cik_shape
           (Some (str "https://www.sec.gov/Archives/edgar/data/1178670/a.htm"))).
  vm_compute. reflexivity.
Defined.

(** ** The SEC item *)

Lemma number_class d :
  xorb false (class_mem true [CDigit; cc "."] d) = isNumberChar d.
Proof. destruct d as [[] [] [] [] [] [] [] []]; reflexivity. Qed.

Lemma ws_class_ci d : xorb false (class_mem true [CSpace] d) = isWhiteSpace d.
Proof. destruct d as [[] [] [] [] [] [] [] []]; reflexivity. Qed.

Lemma Matches_ws_run lo b w a :
  Matches true (Rep ws lo None true) b w a ->
  (lo <= length w)%nat /\ Forall (fun c => isWhiteSpace c = true) w.
Proof.
  unfold ws. rewrite Matches_Rep_class. unfold within.
  intros [[Hlo _] Hw]. split; [done|].
  eapply Forall_impl; [exact Hw|]. intros d Hd. cbv beta in Hd.
  by rewrite ws_class_ci in Hd.
Qed.

Lemma Matches_item_number b w a :
  Matches true item_number b w a ->
  w <> [] /\ Forall (fun c => isNumberChar c = true) w.
Proof.
  unfold item_number, plus. rewrite Matches_Rep_class. unfold within.
  intros [[Hlo _] Hw]. split; [by destruct w; [simpl in Hlo; lia|]|].
  eapply Forall_impl; [exact Hw|]. intros d Hd. cbv beta in Hd.
  by rewrite number_class in Hd.
Qed.

(** X29 (run, the SEC item).  [event.secItem] is [null] exactly when the
    full text has no item marker.  Otherwise it is "Item " followed by the
    number of the first marker: a string of digits and periods, not empty,
    that follows "===", optional white space, the word Item in any case,
    and white space. *)
Theorem secItem_shape fullText :
  (secItemOf fullText = None <-> ~ occurs true re_itemMarker fullText) /\
  forall item,
    secItemOf fullText = Some item ->
    exists num pre sp1 word sp2 post,
      item = str "Item " ++ num /\
      num <> [] /\ Forall (fun c => isNumberChar c = true) num /\
      fullText = pre ++ str "===" ++ sp1 ++ word ++ sp2 ++ num ++ post /\
      Forall (fun c => isWhiteSpace c = true) sp1 /\
      ci_eq word (str "Item") /\
      sp2 <> [] /\ Forall (fun c => isWhiteSpace c = true) sp2.
Proof.
  unfold secItemOf. split.
  - rewrite <- exec_None.
    by destruct (exec true re_itemMarker fullText).
  - intros item.
    destruct (exec true re_itemMarker fullText) as [m|] eqn:Hm; [|done].
    apply exec_Captures in Hm as (pre & post & Hs & _ & H).
    unfold re_itemMarker in H. cbn [seqs] in H.
    apply Captures_Seq in H as (w1 & r1 & cs1 & Hw1 & H1 & H).
    apply Captures_plain_inv in H1 as [H1 ->]; [|reflexivity].
    apply Matches_lit_chars, EvidenceShapeFacts.ci_eq_marker in H1 as ->.
    apply Captures_Seq in H as (w2 & r2 & cs2 & Hw2 & H2 & H).
    apply Captures_plain_inv in H2 as [H2 ->]; [|reflexivity].
    apply Matches_ws_run in H2 as [_ Hsp1].
    apply Captures_Seq in H as (w3 & r3 & cs3 & Hw3 & H3 & H).
    apply Captures_plain_inv in H3 as [H3 ->]; [|reflexivity].
    apply Matches_lit_chars in H3.
    apply Captures_Seq in H as (w4 & w5 & cs4 & Hw4 & H4 & H).
    apply Captures_plain_inv in H4 as [H4 ->]; [|reflexivity].
    apply Matches_ws_run in H4 as [Hlen Hsp2].
    apply Captures_Group in H as (cs5 & Hc & H).
    apply Captures_plain_inv in H as [H ->]; [|reflexivity].
    fold item_number in H. apply Matches_item_number in H as [Hne Hnum].
    unfold group. rewrite Hc, capture_head. cbn [default].
    intros [= <-].
    exists w5, pre, w2, w3, w4, post.
    split; [done|]. split; [done|]. split; [done|]. split.
    + rewrite Hs, Hw1, Hw2, Hw3, Hw4. by rewrite <- !app_assoc.
    + split; [done|]. split; [done|]. split; [|done].
      destruct w4; [simpl in Hlen; lia|done].
Qed.

(** ** The headline *)

Lemma notLF_class d :
  xorb true (class_mem true [CChar LF] d) = true -> d <> LF.
Proof. destruct d as [[] [] [] [] [] [] [] []]; vm_compute; congruence. Qed.

Lemma Matches_line lo hi b w a :
  Matches true (range lo hi notLF) b w a ->
  (length w <= hi)%nat /\ LF ∉ w.
Proof.
  unfold range, notLF. rewrite Matches_Rep_class. unfold within.
  intros [[_ Hhi] Hw]. split; [done|].
  intros Hin. rewrite Forall_forall in Hw.
  by apply Hw, notLF_class in Hin.
Qed.

Lemma substring_of_length (a b : jsstring) :
  substring_of a b -> (length a <= length b)%nat.
Proof. intros (p & q & ->). rewrite !length_app. lia. Qed.

Lemma substring_of_elem (a b : jsstring) c :
  substring_of a b -> c ∈ a -> c ∈ b.
Proof.
  intros (p & q & ->) Hc. rewrite !elem_of_app. right. by left.
Qed.

Lemma substring_here (w q : jsstring) : substring_of w (w ++ q).
Proof. by exists [], q. Qed.

Lemma substring_later (w a b : jsstring) :
  substring_of w b -> substring_of w (a ++ b).
Proof. intros (p & q & ->). exists (a ++ p), q. by rewrite <- app_assoc. Qed.

(** The part [w] of a text that is known as a concatenation. *)
Ltac find_part m Hs :=
  match goal with
  | E : matched m = _ |- _ => rewrite E in Hs
  end;
  subst; rewrite <- ?app_assoc;
  repeat (first [apply substring_here | apply substring_later]).

Lemma headline1_group contextWindow m :
  exec true headline1 contextWindow = Some m ->
  exists w, group m 1 = Some w /\ headlineGroup contextWindow w.
Proof.
  intros Hm. apply exec_Captures in Hm as (pre & post & Hs & _ & H).
  unfold headline1 in H. cbn [seqs] in H.
  do 10 (apply Captures_Seq in H as (? & ? & ? & ? & H1 & H);
         apply Captures_plain_inv in H1 as [_ ->]; [|reflexivity]).
  apply Captures_Group in H as (cs & Hc & H).
  apply Captures_plain_inv in H as [H ->]; [|reflexivity].
  pose proof H as Hmin. apply Matches_line in H as [Hlen Hlf].
  unfold range, notLF in Hmin.
  apply Matches_Rep_class in Hmin as [[Hlo _] _].
  eexists. unfold group. rewrite Hc. split; [apply capture_head|].
  split; [|split; [lia|done]].
  find_part m Hs.
Qed.

Lemma headline2_group contextWindow m :
  exec true headline2 contextWindow = Some m ->
  exists w, group m 1 = Some w /\ headlineGroup contextWindow w.
Proof.
  intros Hm. apply exec_Captures in Hm as (pre & post & Hs & _ & H).
  unfold headline2 in H. cbn [seqs] in H.
  do 3 (apply Captures_Seq in H as (? & ? & ? & ? & H1 & H);
        apply Captures_plain_inv in H1 as [_ ->]; [|reflexivity]).
  apply Captures_Group in H as (cs & Hc & H).
  apply Captures_plain_inv in H as [H ->]; [|reflexivity].
  pose proof H as Hmin. apply Matches_line in H as [Hlen Hlf].
  unfold range, notLF in Hmin.
  apply Matches_Rep_class in Hmin as [[Hlo _] _].
  eexists. unfold group. rewrite Hc. split; [apply capture_head|].
  split; [|split; [lia|done]].
  find_part m Hs.
Qed.

Lemma headline3_group contextWindow m :
  exec true headline3 contextWindow = Some m ->
  exists w, group m 1 = Some w /\ headlineGroup contextWindow w.
Proof.
  intros Hm. apply exec_Captures in Hm as (pre & post & Hs & _ & H).
  unfold headline3 in H. cbn [seqs] in H.
  do 4 (apply Captures_Seq in H as (? & ? & ? & ? & H1 & H);
        apply Captures_plain_inv in H1 as [_ ->]; [|reflexivity]).
  apply Captures_Group in H as (cs & Hc & H).
  apply Captures_plain_inv in H as [H ->]; [|reflexivity].
  match type of H with
  | Matches _ _ _ ?w _ =>
      assert (substring_of w contextWindow) as Hsub by find_part m Hs
  end.
  apply Matches_Seq in H as (u & r & Hw & Hu & H).
  apply Matches_Class in Hu as (c & -> & Hcu).
  apply Matches_Seq in H as (body & dot & -> & Hbody & Hdot).
  apply Matches_line in Hbody as [Hlen Hlf].
  apply Matches_Chr in Hdot as (d & -> & Hd).
  eexists. unfold group. rewrite Hc. split; [apply capture_head|].
  split; [done|]. rewrite Hw. split.
  - rewrite !length_app. simpl. lia.
  - rewrite !elem_of_app, !list_elem_of_singleton.
    intros [Hc1|[?|Hc2]]; [|done|].
    + rewrite <- Hc1 in Hcu. vm_compute in Hcu. congruence.
    + rewrite <- Hc2 in Hd. vm_compute in Hd. congruence.
Qed.

Lemma trim_trim w : trim (trim w) = trim w.
Proof.
  destruct (trim_shape w) as [Hclean [Hnil|(c & r & Hc & Hws)]].
  - by rewrite Hnil.
  - rewrite Hc in *. by apply (MoneyFacts.trim_id _ c r).
Qed.

(** The headline that a first group gives. *)
Lemma headline_of_group contextWindow m w :
  group m 1 = Some w -> headlineGroup contextWindow w ->
  let h := trim (if falsy (group m 1) then matched m
                 else default [] (group m 1)) in
  substring_of h contextWindow /\ len h <= 200 /\ (LF ∉ h) /\ trim h = h.
Proof.
  intros -> (Hsub & Hlen & Hlf). destruct w as [|c w]; [simpl in Hlen; lia|].
  cbn [falsy default from_option id]. cbv zeta.
  pose proof (trim_substring (c :: w)) as Ht.
  split; [by eapply substring_of_trans|]. split; [|split].
  - apply substring_of_length in Ht. unfold len. lia.
  - intros Hin. by apply (substring_of_elem _ _ _ Ht) in Hin.
  - apply trim_trim.
Qed.

(** X30 (run, the headline).  [event.headline], when it is not [null], is a
    part of the context window of at most 200 characters without a line
    feed and without white space at its ends. *)
Theorem headline_shape contextWindow headline :
  headlineLoop headlinePatterns contextWindow = Some headline ->
  substring_of headline contextWindow /\ len headline <= 200 /\
  (LF ∉ headline) /\ trim headline = headline.
Proof.
  unfold headlinePatterns. cbn [headlineLoop].
  destruct (exec true headline1 contextWindow) as [m1|] eqn:H1.
  { intros [= <-]. apply headline1_group in H1 as (w & Hg & Hw).
    by apply (headline_of_group contextWindow m1 w). }
  destruct (exec true headline2 contextWindow) as [m2|] eqn:H2.
  { intros [= <-]. apply headline2_group in H2 as (w & Hg & Hw).
    by apply (headline_of_group contextWindow m2 w). }
  destruct (exec true headline3 contextWindow) as [m3|] eqn:H3; [|done].
  intros [= <-]. apply headline3_group in H3 as (w & Hg & Hw).
  by apply (headline_of_group contextWindow m3 w).
Qed.

Lemma headline_shape_witness :
  substring_of (str "Acme announces a new collaboration")
    (str "Press Release:  Acme announces a new collaboration") /\
  len (str "Acme announces a new collaboration") <= 200 /\
  (LF ∉ str "Acme announces a new collaboration") /\
  trim (str "Acme announces a new collaboration") =
    str "Acme announces a new collaboration".
Proof.
  apply (headline_shape
           (str "Press Release:  Acme announces a new collaboration")).
  vm_compute. reflexivity.
Defined.

End FieldsFacts.
